(** * patcher-ui: the patch package lifecycle of [PatchLogic] (src/main.py)

    A shallow embedding of [PatchLogic.create_patch] and
    [PatchLogic.apply_patch] together with the Python library calls they
    are built from, and the properties of the package lifecycle.

    Conventions of the embedding.
    - [bytes] and [str] values are [string]s (one character per byte).
    - The platform is POSIX: [os.sep] is "/".
    - A filesystem is a finite map from resolved paths (lists of component
      names, counted from the filesystem root) to nodes; there are no
      symbolic links and no permissions.
    - [Model.create_patch] and [Model.apply_patch] are the [try] blocks
      of the two functions (with the [except] block of [apply_patch]).
      They work on the scratch directories ([patch_tmp_creator], and
      [patch_tmp_applier] with its [rollback] sub-directory) as stores of
      their own, and on the rest of the filesystem as it is while the
      block runs.  [Whole.create_patch] and [Whole.apply_patch] are the
      functions from their first line to their last: the scratch
      directory is made in the working directory before the block and
      removed after it.
    - The log, status and progress callbacks do not influence the state and
      are left out. *)

From Stdlib Require Import Ascii String.
From stdpp Require Import base option list strings gmap fin_maps.

(** * The embedding *)

Module Model.

(** ** Python string operations *)

Module PyStr.

(** [len(s)] *)
Definition len (s : string) : nat := String.length s.

(** [s[:n]] and [s[n:]] for [0 <= n]. *)
Fixpoint take (n : nat) (s : string) : string :=
  match n, s with
  | S k, String c r => String c (take k r)
  | _, _ => EmptyString
  end.

Fixpoint drop (n : nat) (s : string) : string :=
  match n, s with
  | S k, String _ r => drop k r
  | _, _ => s
  end.

(** [s.startswith(p)] *)
Fixpoint startswith (p s : string) : bool :=
  match p, s with
  | EmptyString, _ => true
  | String a p', String b s' => if decide (a = b) then startswith p' s' else false
  | String _ _, EmptyString => false
  end.

(** [s.replace(old, new)] for a non-empty [old] (both call sites pass a
    literal): occurrences are taken leftmost first and do not overlap.
    [skip] counts the characters of the current occurrence that are still
    to be passed over. *)
Fixpoint replace_go (old new : string) (skip : nat) (s : string) : string :=
  match s with
  | EmptyString => EmptyString
  | String c r =>
      match skip with
      | S k => replace_go old new k r
      | O =>
          if startswith old s
          then new +:+ replace_go old new (pred (len old)) r
          else String c (replace_go old new 0 r)
      end
  end.

Definition replace (old new s : string) : string := replace_go old new 0 s.

(** [s.rfind(c)] for a single character, [None] standing for [-1]. *)
Fixpoint rfind (c : ascii) (s : string) : option nat :=
  match s with
  | EmptyString => None
  | String a r =>
      match rfind c r with
      | Some i => Some (S i)
      | None => if decide (a = c) then Some 0 else None
      end
  end.

(** [s.split(c)] for a single character separator. *)
Fixpoint split (c : ascii) (s : string) : list string :=
  match s with
  | EmptyString => [EmptyString]
  | String a r =>
      if decide (a = c) then EmptyString :: split c r
      else match split c r with
           | w :: ws => String a w :: ws
           | [] => [String a EmptyString]
           end
  end.

(** [sep.join(parts)] *)
Fixpoint join (sep : string) (parts : list string) : string :=
  match parts with
  | [] => EmptyString
  | [w] => w
  | w :: ws => w +:+ sep +:+ join sep ws
  end.

(** Does [s] hold a character other than [c]? *)
Fixpoint has_other (c : ascii) (s : string) : bool :=
  match s with
  | EmptyString => false
  | String a r => if decide (a = c) then has_other c r else true
  end.

(** Does [s] hold the character [c]? *)
Fixpoint mem (c : ascii) (s : string) : bool :=
  match s with
  | EmptyString => false
  | String a r => if decide (a = c) then true else mem c r
  end.

End PyStr.

(** [os.path.splitext] ([genericpath._splitext] with [sep = "/"],
    [altsep = None], [extsep = "."]): the extension starts at the last dot
    of the last component, unless that component has nothing but dots
    before it. *)
Definition splitext (p : string) : string * string :=
  let sepIndex := PyStr.rfind "/"%char p in
  let filenameIndex := match sepIndex with Some i => S i | None => 0 end in
  match PyStr.rfind "."%char p with
  | Some dotIndex =>
      if decide (filenameIndex <= dotIndex) then
        if PyStr.has_other "."%char
             (PyStr.take (dotIndex - filenameIndex) (PyStr.drop filenameIndex p))
        then (PyStr.take dotIndex p, PyStr.drop dotIndex p)
        else (p, EmptyString)
      else (p, EmptyString)
  | None => (p, EmptyString)
  end.

(** ** Exceptions and results *)

(** The exceptions the two operations can meet.  [ValueError] carries the
    lines of the validation report. *)
Inductive exc :=
  | InterruptedError
  | FileNotFoundError
  | NotADirectoryError
  | FileExistsError
  | IsADirectoryError
  | SameFileError
  | DetoolsError
  | ArchiveError
  | JSONDecodeError
  | OSError
  | ValueError (report : list string).

Global Instance exc_eq_dec : EqDecision exc.
Proof. solve_decision. Defined.

(** The result of a call: a value, a raised exception, or [Astray]: the
    call left the scratch store it was started in (a backup path that
    climbs out of [rollback] with ".."), where the embedding does not
    follow it.  [Astray] is not an exception: no handler catches it. *)
Inductive res (A : Type) :=
  | Ok (a : A)
  | Raise (e : exc)
  | Astray.
Arguments Ok {A} a.
Arguments Raise {A} e.
Arguments Astray {A}.

Global Instance res_eq_dec {A} `{EqDecision A} : EqDecision (res A).
Proof. solve_decision. Defined.

Global Instance res_ret : MRet res := @Ok.
Global Instance res_bind : MBind res := fun A B f x =>
  match x with
  | Ok a => f a
  | Raise e => Raise e
  | Astray => Astray
  end.

(** ** Paths *)

(** A resolved location: the component names from the root of a store. *)
Abbreviation path := (list string).

(** A pure path as [pathlib] parses it from a string: empty components and
    "." components are dropped, ".." components are kept. *)
Record purepath := PurePath { absolute : bool; parts : list string }.

Definition is_part (c : string) : bool :=
  negb (bool_decide (c = "" ∨ c = ".")).

Definition parse_path (s : string) : purepath :=
  PurePath (PyStr.startswith "/" s) (filter (λ c, is_part c = true) (PyStr.split "/"%char s)).

(** [Path(base) / rel]: an absolute right operand replaces the left one. *)
Definition joinpath (base : path) (rel : purepath) : list string :=
  if absolute rel then parts rel else base ++ parts rel.

(** [p.parent]: the path without its last component; the root is its own
    parent. *)
Definition parent (p : list string) : list string := removelast p.

(** [os.path.basename] of a path written without a trailing separator. *)
Definition basename (p : list string) : string := List.last p "".

(** [p.relative_to(root).as_posix()] for a location [root ++ rel]. *)
Definition as_posix (rel : list string) : string := PyStr.join "/" rel.

(** ** Filesystems *)

Inductive node :=
  | File (data : string)
  | Dir.

Global Instance node_eq_dec : EqDecision node.
Proof. solve_decision. Defined.

Abbreviation fs := (gmap (list string) node).

(** The empty store: a root directory and nothing in it. *)
Definition fs_empty : fs := {[ [] := Dir ]}.

(** Path resolution as the kernel does it: every component is looked up in
    the directory reached so far; ".." steps to the parent.  [rooted] says
    whether the root of the store is the root of the filesystem (where ".."
    stays at the root) or a scratch directory (where ".." leaves the store). *)
Fixpoint walk (rooted : bool) (m : fs) (cur : path) (cs : list string) : res path :=
  match cs with
  | [] => Ok cur
  | c :: cs' =>
      match m !! cur with
      | Some Dir =>
          if decide (c = "..") then
            match cur with
            | [] => if rooted then walk rooted m [] cs' else Astray
            | _ :: _ => walk rooted m (removelast cur) cs'
            end
          else walk rooted m (cur ++ [c]) cs'
      | Some (File _) => Raise NotADirectoryError
      | None => Raise FileNotFoundError
      end
  end.

(** [os.stat] seen through [Path.exists] and friends: a path that cannot be
    resolved does not exist. *)
Definition node_at (rooted : bool) (m : fs) (cs : list string) : res (option node) :=
  match walk rooted m [] cs with
  | Ok p => Ok (m !! p)
  | Raise _ => Ok None
  | Astray => Astray
  end.

Definition path_exists (rooted : bool) (m : fs) (cs : list string) : res bool :=
  o ← node_at rooted m cs; Ok (bool_decide (is_Some o)).

Definition is_dir (rooted : bool) (m : fs) (cs : list string) : res bool :=
  o ← node_at rooted m cs; Ok (bool_decide (o = Some Dir)).

(** [os.mkdir] *)
Definition os_mkdir (rooted : bool) (m : fs) (cs : list string) : res fs :=
  p ← walk rooted m [] cs;
  match m !! p with
  | Some _ => Raise FileExistsError
  | None => Ok (<[p := Dir]> m)
  end.

(** [Path.mkdir(parents=True, exist_ok=True)], on the components in reverse
    order: try [os.mkdir]; on [FileNotFoundError] make the parent, then the
    directory itself; any other [OSError] is swallowed when the path is a
    directory.  The filesystem is returned with the outcome: the
    directories made before a failure stay. *)
Definition exist_ok (rooted : bool) (m : fs) (cs : list string) (e : exc) : res unit * fs :=
  match is_dir rooted m cs with
  | Ok true => (Ok (), m)
  | Ok false => (Raise e, m)
  | Raise e' => (Raise e', m)
  | Astray => (Astray, m)
  end.

Fixpoint mkdir_p (rooted : bool) (m : fs) (rcs : list string) : res unit * fs :=
  match os_mkdir rooted m (rev rcs) with
  | Ok m' => (Ok (), m')
  | Raise FileNotFoundError =>
      match rcs with
      | [] => (Raise FileNotFoundError, m)
      | _ :: rparent =>
          match mkdir_p rooted m rparent with
          | (Ok _, m1) =>
              match os_mkdir rooted m1 (rev rcs) with
              | Ok m2 => (Ok (), m2)
              | Raise FileNotFoundError => (Raise FileNotFoundError, m1)
              | Raise e => exist_ok rooted m1 (rev rcs) e
              | Astray => (Astray, m1)
              end
          | failed => failed
          end
      end
  | Raise e => exist_ok rooted m (rev rcs) e
  | Astray => (Astray, m)
  end.

Definition mkdir_parents (rooted : bool) (m : fs) (cs : list string) : res unit * fs :=
  mkdir_p rooted m (rev cs).

(** [open(p, "rb").read()] *)
Definition read_file (rooted : bool) (m : fs) (cs : list string) : res string :=
  p ← walk rooted m [] cs;
  match m !! p with
  | Some (File d) => Ok d
  | Some Dir => Raise IsADirectoryError
  | None => Raise FileNotFoundError
  end.

(** [open(p, "wb")], writing [data] and closing: the file is created or
    truncated. *)
Definition write_file (rooted : bool) (m : fs) (cs : list string) (data : string) : res fs :=
  p ← walk rooted m [] cs;
  match m !! p with
  | Some Dir => Raise IsADirectoryError
  | _ => Ok (<[p := File data]> m)
  end.

(** [os.remove] *)
Definition os_remove (rooted : bool) (m : fs) (cs : list string) : res fs :=
  p ← walk rooted m [] cs;
  match m !! p with
  | Some (File _) => Ok (delete p m)
  | Some Dir => Raise IsADirectoryError
  | None => Raise FileNotFoundError
  end.

(** [os.replace(src, dst)] for a regular file [src]. *)
Definition os_replace (rooted : bool) (m : fs) (src dst : list string) : res fs :=
  ps ← walk rooted m [] src;
  pd ← walk rooted m [] dst;
  match m !! ps with
  | Some (File d) =>
      match m !! pd with
      | Some Dir => Raise IsADirectoryError
      | _ => Ok (<[pd := File d]> (delete ps m))
      end
  | Some Dir => Raise IsADirectoryError
  | None => Raise FileNotFoundError
  end.

(** The writing half of [shutil.copy2(src, dst)]: when [dst] is a
    directory the copy goes to [dst / basename(src)]; the source is opened
    (and may fail) before the destination is. *)
Definition copy2_into (rooted : bool) (m : fs) (src_name : string) (src : res string)
    (dst : list string) : res fs :=
  d ← is_dir rooted m dst;
  let dst' := if d : bool then dst ++ [src_name] else dst in
  data ← src;
  write_file rooted m dst' data.

(** [filecmp.cmp(a, b, shallow=False)]: both are regular files with the
    same bytes. *)
Definition filecmp (m : fs) (a b : list string) : bool :=
  match node_at true m a, node_at true m b with
  | Ok (Some (File x)), Ok (Some (File y)) => bool_decide (x = y)
  | _, _ => false
  end.

(** ** Container names *)

(** Line 109 (and 133): the name a relative path gets in the scratch
    directory, before the suffix that tells the kind of entry. *)
Definition patch_name (rel_path : string) : string :=
  PyStr.replace "/" "__" rel_path.

(** Lines 193-195: the relative path and the suffix recovered from the
    name of a patch file. *)
Definition recover (name : string) : string * string :=
  let '(rel_path_safe, ext) := splitext name in
  (PyStr.replace "__" "/" rel_path_safe, ext).

(** Does [pat] occur in [s]? *)
Fixpoint occurs (pat s : string) : bool :=
  match s with
  | EmptyString => PyStr.startswith pat EmptyString
  | String _ r => PyStr.startswith pat s || occurs pat r
  end.

(** The relative paths on which the two mappings are inverse to each
    other: no "__", no "_/", and some character that is not a dot. *)
Definition clean (rel_path : string) : bool :=
  negb (occurs "__" rel_path) && negb (occurs "_/" rel_path)
  && PyStr.has_other "."%char rel_path.

(** ** Directory listings *)

(** [p] is a resolved location of [m]: walking its own components from the
    root arrives at [p]. *)
Definition located (rooted : bool) (m : fs) (p : path) : bool :=
  bool_decide (walk rooted m [] p = Ok p).

(** [q.relative_to(root)]: [q] below [root], as a path relative to it. *)
Fixpoint relative_to (root q : path) : option path :=
  match root, q with
  | [], _ => Some q
  | a :: root', b :: q' => if decide (a = b) then relative_to root' q' else None
  | _ :: _, [] => None
  end.

(** The regular files below [root], relative to it, in the order of the
    underlying map.  The order in which the operating system lists them is
    a parameter of the operations below. *)
Definition files_under (rooted : bool) (m : fs) (root : path) : list path :=
  omap (λ pn : path * node,
          match pn.2 with
          | File _ =>
              if located rooted m pn.1
              then match relative_to root pn.1 with
                   | Some [] => None
                   | o => o
                   end
              else None
          | Dir => None
          end) (map_to_list m).

(** ** The manifest *)

(** One record of the manifest: [{"sha256": ..., "size": ...}]. *)
Record minfo := MInfo { info_sha256 : string; info_size : nat }.

Global Instance minfo_eq_dec : EqDecision minfo.
Proof. solve_decision. Defined.

(** A Python [dict] with string keys, in insertion order. *)
Abbreviation manifest := (list (string * minfo)).

(** [d[k] = v] *)
Fixpoint dict_set (k : string) (v : minfo) (d : manifest) : manifest :=
  match d with
  | [] => [(k, v)]
  | (k', v') :: d' =>
      if decide (k' = k) then (k, v) :: d' else (k', v') :: dict_set k v d'
  end.

(** [d.get(k)] *)
Fixpoint dict_get (k : string) (d : manifest) : option minfo :=
  match d with
  | [] => None
  | (k', v') :: d' => if decide (k' = k) then Some v' else dict_get k d'
  end.

(** What [apply_patch] finds at [patch_tmp / "manifest.json"]. *)
Inductive manifest_file :=
  | ManifestMissing
  | ManifestUnparsable
  | ManifestLoaded (m : manifest).

(** The extracted archive: the manifest file, the regular files of the
    scratch directory by name and content in listing order, and what the
    archive put below [rollback] (nothing, for an archive written by
    [create_patch], whose members all lie at the top level). *)
Record extraction := Extraction {
  ex_manifest : manifest_file;
  ex_files : list (string * string);
  ex_rollback : fs
}.

(** ** Reading a file in chunks *)

(** [iter(lambda: f.read(chunk_size), b"")]: the chunks read until the
    first empty one.  [fuel] bounds the number of reads. *)
Fixpoint read_chunks (fuel chunk_size : nat) (s : string) : list string :=
  match fuel with
  | O => []
  | S f =>
      match PyStr.take chunk_size s with
      | EmptyString => []
      | c => c :: read_chunks f chunk_size (PyStr.drop chunk_size s)
      end
  end.

Definition default_chunk_size : nat := N.to_nat 65536.
Global Arguments default_chunk_size : simpl never.

(** ** State of one application run *)

(** The target filesystem and the [rollback] directory of the scratch
    area.  An exception leaves the state as it was when it was raised. *)
Record state := State { target : fs; rollback : fs }.

Definition io (A : Type) : Type := state → res A * state.

Global Instance io_ret : MRet io := fun A a s => (Ok a, s).
Global Instance io_bind : MBind io := fun A B f x s =>
  match x s with
  | (Ok a, s') => f a s'
  | (Raise e, s') => (Raise e, s')
  | (Astray, s') => (Astray, s')
  end.

Definition raise {A} (e : exc) : io A := fun s => (Raise e, s).

(** A call that reads the target filesystem. *)
Definition ask_target {A} (f : fs → res A) : io A := fun s => (f (target s), s).

(** A call that changes the target filesystem, or raises and leaves it. *)
Definition on_target (f : fs → res fs) : io unit := fun s =>
  match f (target s) with
  | Ok t => (Ok (), State t (rollback s))
  | Raise e => (Raise e, s)
  | Astray => (Astray, s)
  end.

(** A call on the target filesystem that may change it and then raise. *)
Definition target_step (f : fs → res unit * fs) : io unit := fun s =>
  let '(r, t) := f (target s) in (r, State t (rollback s)).

(** The same on the rollback directory. *)
Definition rollback_step (f : fs → res unit * fs) : io unit := fun s =>
  let '(r, b) := f (rollback s) in (r, State (target s) b).

(** A call that changes the rollback directory; [f] may read the target. *)
Definition on_rollback (f : fs → fs → res fs) : io unit := fun s =>
  match f (target s) (rollback s) with
  | Ok r => (Ok (), State (target s) r)
  | Raise e => (Raise e, s)
  | Astray => (Astray, s)
  end.

(** [str(p) + suffix] read back as a path: the suffix joins the last
    component. *)
Definition add_suffix (p : list string) (suffix : string) : list string :=
  match p with
  | [] => [suffix]
  | _ :: _ => removelast p ++ [List.last p "" +:+ suffix]
  end.

Section PatchLogic.

(** *** External capabilities *)

(** [hashlib.sha256(data).hexdigest()] *)
Variable sha256_hexdigest : string → string.

(** [detools.create_patch(old, new, compression="lzma")]: the patch bytes. *)
Variable detools_create_patch : string → string → string.

(** [detools.apply_patch(old, patch, out)]: [inr new] when reconstruction
    succeeds; [inl written] when it raises, [written] being the bytes that
    had reached the output file by then. *)
Variable detools_apply_patch : string → string → string + string.

(** The bytes of the archive ([json.dump] of the manifest, [tarfile] over
    the scratch directory, [zstandard] at level 5). *)
Variable archive_bytes : manifest → gmap string string → string.

(** Decompression within the window budget and extraction of an archive
    into the scratch directory, with the listing of what was extracted. *)
Variable extract_archive : nat → string → res extraction.

(** The order in which the operating system lists directory entries
    ([Path.rglob], [os.walk]): some rearrangement of the files. *)
Variable scandir_order : list path → list path.

(** [cancelled i]: is the cancel event set at the [i]-th call of
    [_check_cancel] of the run? *)
Variable cancelled : nat → bool.

(** *** [_check_cancel] and [_sha256sum] *)

Definition _check_cancel (i : nat) : res unit :=
  if cancelled i then Raise InterruptedError else Ok ().

(** The hash object is fed chunk by chunk; its digest is that of the bytes
    fed so far. *)
Definition _sha256sum (m : fs) (p : list string) : res string :=
  data ← read_file true m p;
  Ok (sha256_hexdigest
        (foldl String.append EmptyString
           (read_chunks (S (PyStr.len data)) default_chunk_size data))).

(** *** [create_patch] *)

(** The manifest being built and the files of [patch_tmp_creator]. *)
Definition creator := (manifest * gmap string string)%type.

(** The body of the loop over [all_new_files] (after the cancel check), for
    the file at [new_dir ++ rel]. *)
Definition new_file_step (m : fs) (old_dir new_dir rel : path) (st : creator)
    : res creator :=
  let file_path := new_dir ++ rel in
  let rel_path := as_posix rel in
  let old_file := joinpath old_dir (parse_path rel_path) in
  digest ← _sha256sum m file_path;
  data ← read_file true m file_path;
  let manifest' := dict_set rel_path (MInfo digest (PyStr.len data)) st.1 in
  let patch_name := patch_name rel_path in
  old_exists ← path_exists true m old_file;
  if (old_exists : bool) && filecmp m old_file file_path then
    Ok (manifest', st.2)
  else if old_exists then
    fin_old ← read_file true m old_file;
    fin_new ← read_file true m file_path;
    Ok (manifest', <[patch_name +:+ ".patch" := detools_create_patch fin_old fin_new]> st.2)
  else
    fin_new ← read_file true m file_path;
    Ok (manifest', <[patch_name +:+ ".full" := fin_new]> st.2).

Fixpoint new_files_loop (m : fs) (old_dir new_dir : path) (i : nat)
    (files : list path) (st : creator) : res creator :=
  match files with
  | [] => Ok st
  | rel :: rest =>
      _ ← _check_cancel i;
      st' ← new_file_step m old_dir new_dir rel st;
      new_files_loop m old_dir new_dir (S i) rest st'
  end.

(** The body of the loop over [all_old_files]. *)
Definition old_file_step (m : fs) (new_dir rel : path) (st : creator) : res creator :=
  let rel_path := as_posix rel in
  new_exists ← path_exists true m (joinpath new_dir (parse_path rel_path));
  if (new_exists : bool) then Ok st
  else
    let patch_name := patch_name rel_path in
    Ok (st.1, <[patch_name +:+ ".delete" := "DELETE"]> st.2).

Fixpoint old_files_loop (m : fs) (new_dir : path) (i : nat)
    (files : list path) (st : creator) : res creator :=
  match files with
  | [] => Ok st
  | rel :: rest =>
      _ ← _check_cancel i;
      st' ← old_file_step m new_dir rel st;
      old_files_loop m new_dir (S i) rest st'
  end.

(** Everything [create_patch] does before it opens the destination: the
    two loops, leaving the manifest and the files of the scratch
    directory. *)
Definition build_patch_tmp (m : fs) (old_dir new_dir : path) : res creator :=
  let all_new_files := scandir_order (files_under true m new_dir) in
  let all_old_files := scandir_order (files_under true m old_dir) in
  st ← new_files_loop m old_dir new_dir 0 all_new_files ([], ∅);
  old_files_loop m new_dir (length all_new_files) all_old_files st.

(** [create_patch(old_dir, new_dir, patch_package)], lines 87-152: the
    [try] block, on the filesystem apart from the scratch directory (lines
    82-85 and 154-155 are in [Whole.create_patch]).  [write_fault = Some n]
    makes the write of the archive fail after [n] bytes. *)
Definition create_patch (write_fault : option nat)
    (old_dir new_dir patch_package : path) (m : fs) : res unit * fs :=
  match build_patch_tmp m old_dir new_dir with
  | Ok st =>
      match write_file true m patch_package EmptyString with
      | Ok m_open =>
          let bytes := archive_bytes st.1 st.2 in
          match write_fault with
          | None =>
              match write_file true m_open patch_package bytes with
              | Ok m' => (Ok (), m')
              | Raise e => (Raise e, m_open)
              | Astray => (Astray, m_open)
              end
          | Some n =>
              match write_file true m_open patch_package (PyStr.take n bytes) with
              | Ok m' => (Raise OSError, m')
              | Raise e => (Raise e, m_open)
              | Astray => (Astray, m_open)
              end
          end
      | Raise e => (Raise e, m)
      | Astray => (Astray, m)
      end
  | Raise e => (Raise e, m)
  | Astray => (Astray, m)
  end.

(** *** [apply_patch] *)

(** The target of a patch file, from its name: [(rel_path, ext)] with
    [rel_path] already parsed. *)
Definition entry_rel (patch_name : string) : purepath * string :=
  let '(rel_path, ext) := recover patch_name in
  (parse_path rel_path, ext).

(** Lines 203-206: the snapshot of an existing target.  For a relative
    [rel_path] the backup path lies in [rollback]; an absolute [rel_path]
    makes the backup path the target itself. *)
Definition backup (rel : purepath) (target_file : list string) : io unit :=
  if absolute rel then
    _ ← target_step (λ t, mkdir_parents true t (parent target_file));
    d ← ask_target (λ t, is_dir true t target_file);
    if d : bool then raise IsADirectoryError else raise SameFileError
  else
    _ ← rollback_step (λ r,
          match parts rel with
          | [] => (Ok (), r)
          | _ :: _ => mkdir_parents false r (parent (parts rel))
          end);
    on_rollback (λ t r,
      copy2_into false r (basename target_file) (read_file true t target_file)
        (parts rel)).

(** Lines 208-215: a [.patch] file. *)
Definition apply_delta (target_file : list string) (patch_data : string) : io unit :=
  ex ← ask_target (λ t, path_exists true t target_file);
  if negb ex then raise FileNotFoundError
  else
    let tmp_new := add_suffix target_file ".tmp" in
    f_old ← ask_target (λ t, read_file true t target_file);
    _ ← on_target (λ t, write_file true t tmp_new EmptyString);
    match detools_apply_patch f_old patch_data with
    | inr f_new =>
        _ ← on_target (λ t, write_file true t tmp_new f_new);
        on_target (λ t, os_replace true t tmp_new target_file)
    | inl written =>
        _ ← on_target (λ t, write_file true t tmp_new written);
        raise DetoolsError
    end.

(** The body of the loop over [patch_files] (after the cancel check). *)
Definition apply_entry (game_dir : path) (patch_name patch_data : string) : io unit :=
  let '(rel, ext) := entry_rel patch_name in
  let target_file := joinpath game_dir rel in
  _ ← target_step (λ t, mkdir_parents true t (parent target_file));
  ex ← ask_target (λ t, path_exists true t target_file);
  _ ← (if ex : bool then backup rel target_file else mret ());
  if decide (ext = ".patch") then apply_delta target_file patch_data
  else if decide (ext = ".full") then
    on_target (λ t, copy2_into true t patch_name (Ok patch_data) target_file)
  else if decide (ext = ".delete") then
    ex' ← ask_target (λ t, path_exists true t target_file);
    if ex' : bool then on_target (λ t, os_remove true t target_file) else mret ()
  else mret ().

Fixpoint apply_entries (game_dir : path) (i : nat) (patch_files : list (string * string))
    : io unit :=
  match patch_files with
  | [] => mret ()
  | (patch_name, patch_data) :: rest =>
      _ ← (λ s, (_check_cancel i, s));
      _ ← apply_entry game_dir patch_name patch_data;
      apply_entries game_dir (S i) rest
  end.

(** Lines 226-237: the validation report. *)
Fixpoint validation_errors (game_dir : path) (t : fs) (items : manifest)
    : res (list string) :=
  match items with
  | [] => Ok []
  | (rel_path, info) :: rest =>
      let abs_path := joinpath game_dir (parse_path rel_path) in
      ex ← path_exists true t abs_path;
      line ← (if ex : bool then
                h ← _sha256sum t abs_path;
                Ok (if decide (h = info_sha256 info) then []
                    else ["Hash mismatch: " +:+ rel_path])
              else Ok ["Missing file: " +:+ rel_path]);
      errors ← validation_errors game_dir t rest;
      Ok (line ++ errors)
  end.

Definition validate (game_dir : path) (items : manifest) : io unit :=
  errors ← ask_target (λ t, validation_errors game_dir t items);
  match errors with
  | [] => mret ()
  | _ :: _ => raise (ValueError errors)
  end.

(** The [try] block, from the opening of the package on (line 172); the
    decompressor of line 170, which is built before, is in
    [Whole.apply_patch]. *)
Definition try_body (game_dir patch_package : path) (ram_limit_mb : nat) : io unit :=
  f_in ← ask_target (λ t, read_file true t patch_package);
  ex ← (λ s, (extract_archive ram_limit_mb f_in, s));
  _ ← on_rollback (λ _ _, Ok (ex_rollback ex));
  items ← match ex_manifest ex with
          | ManifestMissing => raise FileNotFoundError
          | ManifestUnparsable => raise JSONDecodeError
          | ManifestLoaded items => mret items
          end;
  let patch_files := filter (λ f, f.1 ≠ "manifest.json") (ex_files ex) in
  _ ← apply_entries game_dir 0 patch_files;
  validate game_dir items.

(** The [except] block: every file of [rollback] is copied over the path
    it was taken from. *)
Fixpoint restore (game_dir : path) (r : fs) (backups : list path) (t : fs) : res unit * fs :=
  match backups with
  | [] => (Ok (), t)
  | rel_path :: rest =>
      let target_file := joinpath game_dir (PurePath false rel_path) in
      match mkdir_parents true t (parent target_file) with
      | (Ok _, t1) =>
          match copy2_into true t1 (basename rel_path) (read_file false r rel_path)
                  target_file with
          | Ok t2 => restore game_dir r rest t2
          | Raise e => (Raise e, t1)
          | Astray => (Astray, t1)
          end
      | failed => failed
      end
  end.

Definition rollback_files (s : state) : list path :=
  scandir_order (files_under false (rollback s) []).

(** [apply_patch(game_dir, patch_package, ram_limit_mb)], lines 172-252:
    the [try] and [except] blocks, on the filesystem apart from the scratch
    directory (lines 160-166, 170 and 254-255 are in [Whole.apply_patch]):
    the outcome and the target filesystem it leaves.  An exception raised
    while restoring replaces the one that was being handled. *)
Definition apply_patch (game_dir patch_package : path) (ram_limit_mb : nat) (t0 : fs)
    : res unit * fs :=
  match try_body game_dir patch_package ram_limit_mb (State t0 fs_empty) with
  | (Ok _, s) => (Ok (), target s)
  | (Raise e, s) =>
      match restore game_dir (rollback s) (rollback_files s) (target s) with
      | (Ok _, t) => (Raise e, t)
      | other => other
      end
  | (Astray, s) => (Astray, target s)
  end.

End PatchLogic.

End Model.

Export Model.

(** ** Stand-ins for the external capabilities

    Small functions that honour the contracts of the external capabilities;
    they make the operations computable on concrete trees. *)

Module Toy.

(** A digest that is the content itself: collision free. *)
Definition sha256_hexdigest (data : string) : string := data.

(** A delta that stores the new content behind a one-character tag. *)
Definition detools_create_patch (old new : string) : string := String "D"%char new.

Definition detools_apply_patch (old patch : string) : string + string :=
  match patch with
  | String "D"%char new => inr new
  | _ => inl EmptyString
  end.

Definition archive_bytes (items : manifest) (files : gmap string string) : string :=
  "archive".

Definition scandir_order (l : list path) : list path := l.

Definition never (i : nat) : bool := false.

(** The scratch directory as [apply_patch] lists it after extraction. *)
Definition extracted (st : manifest * gmap string string) : extraction :=
  Extraction (ManifestLoaded st.1) (map_to_list st.2) fs_empty.

End Toy.

(** ** Example trees *)

Module Examples.

(** The scenario of two small trees: one file modified, one unchanged, one
    added. *)
Definition trees : fs :=
  list_to_map
    [ ([], Dir); (["old"], Dir); (["new"], Dir);
      (["old"; "a.txt"], File "hello"); (["old"; "b.txt"], File "same");
      (["new"; "a.txt"], File "hello world"); (["new"; "b.txt"], File "same");
      (["new"; "c.txt"], File "new") ].

Definition create (write_fault : option nat) (cancelled : nat → bool) (m : fs) : res unit * fs :=
  create_patch Toy.sha256_hexdigest Toy.detools_create_patch Toy.archive_bytes
    Toy.scandir_order cancelled write_fault ["old"] ["new"] ["out.pkg"] m.

Definition build (m : fs) : res creator :=
  build_patch_tmp Toy.sha256_hexdigest Toy.detools_create_patch Toy.scandir_order
    Toy.never m ["old"] ["new"].

End Examples.

(** * Notions used in the statements *)

(** Every directory of [m] is a directory of [m']. *)
Definition dirs_kept (m m' : fs) : Prop :=
  ∀ q, m !! q = Some Dir → m' !! q = Some Dir.

(** [m'] is [m] with some directories added where there was nothing. *)
Definition grows (m m' : fs) : Prop :=
  ∀ q, m' !! q = m !! q ∨ (m !! q = None ∧ m' !! q = Some Dir).

(** [p] is a directory of [m] that is reached along its own components. *)
Definition dir_at (rooted : bool) (m : fs) (p : path) : Prop :=
  walk rooted m [] p = Ok p ∧ m !! p = Some Dir.

(** [m] and [m'] agree outside the tree rooted at [root]. *)
Definition same_outside (root : path) (m m' : fs) : Prop :=
  ∀ q, ¬ root `prefix_of` q → m' !! q = m !! q.

(** Every regular file of [m] is a regular file of [m']. *)
Definition files_kept (m m' : fs) : Prop :=
  ∀ q d, m !! q = Some (File d) → ∃ d', m' !! q = Some (File d').

(** A name a directory entry can have. *)
Definition valid_name (c : string) : bool :=
  negb (PyStr.mem "/"%char c) && negb (bool_decide (c = "" ∨ c = "." ∨ c = "..")).

(** Every location of [m] is made of such names. *)
Definition wf_names (m : fs) : Prop :=
  map_Forall (λ (p : path) (_ : node), forallb valid_name p = true) m.

(** [rel] is a regular file of the tree rooted at [root]. *)
Definition file_in (m : fs) (root rel : path) (data : string) : Prop :=
  rel ≠ [] ∧ located true m (root ++ rel) = true ∧ m !! (root ++ rel) = Some (File data).

(** The paths on whose behalf [create_patch] writes a file into its scratch
    directory, with the name and the content of that file: a file of the
    new tree that differs from its old version, a file of the new tree
    without an old version, a file of the old tree without a new version. *)
Inductive written_for (diff : string → string → string) (m : fs) (old_dir new_dir : path)
    : path → string → string → Prop :=
  | written_delta rel o n :
      file_in m new_dir rel n → read_file true m (old_dir ++ rel) = Ok o → o ≠ n →
      written_for diff m old_dir new_dir rel
        (patch_name (as_posix rel) +:+ ".patch") (diff o n)
  | written_full rel n :
      file_in m new_dir rel n →
      path_exists true m (old_dir ++ rel) = Ok false →
      written_for diff m old_dir new_dir rel (patch_name (as_posix rel) +:+ ".full") n
  | written_delete rel o :
      file_in m old_dir rel o →
      path_exists true m (new_dir ++ rel) = Ok false →
      written_for diff m old_dir new_dir rel (patch_name (as_posix rel) +:+ ".delete") "DELETE".

(** The record a file of the new tree gets in the manifest. *)
Definition record_of (sha256_hexdigest : string → string) (data : string) : minfo :=
  MInfo (sha256_hexdigest data) (PyStr.len data).

(** After one loop turn, [r'] holds the bytes [c] of the target that was at
    [par ++ [x]]: they were copied over the backup path [ps' ++ [x]], or
    into it when a directory was in the way, once the directories [r1]
    were in place. *)
Definition backed (r1 r' : fs) (t' : fs) (par ps' : path) (x c : string) : Prop :=
  ∃ k, r' = <[k := File c]> r1 ∧ r1 !! k ≠ Some Dir ∧
       dir_at false r1 ps' ∧ dir_at true t' par ∧
       (r1 !! (ps' ++ [x]) ≠ Some Dir ∧ k = ps' ++ [x]
        ∨ r1 !! (ps' ++ [x]) = Some Dir ∧ k = (ps' ++ [x]) ++ [x]).

(** The path that a patch file is applied to, relative to the target
    root, and the suffix that tells its kind. *)
Definition entry_parts (name : string) : path := parts (entry_rel name).1.
Definition entry_ext (name : string) : string := (entry_rel name).2.

(** The recovered path is relative and free of "..". *)
Definition inside (name : string) : Prop :=
  absolute (entry_rel name).1 = false ∧ ".." ∉ entry_parts name.

(** It is [inside] and has a last component. *)
Definition plain_entry (name : string) : Prop :=
  inside name ∧ entry_parts name ≠ [].

(** Two targets that do not meet: neither lies at or above the other, and
    neither is the scratch name ("<target>.tmp") of the other. *)
Definition unrelated (a b : path) : Prop :=
  ¬ a `prefix_of` b ∧ ¬ b `prefix_of` a ∧
  add_suffix a ".tmp" ≠ b ∧ add_suffix b ".tmp" ≠ a.

Fixpoint independent (l : list path) : Prop :=
  match l with
  | [] => True
  | a :: l' => Forall (unrelated a) l' ∧ independent l'
  end.

(** The state of a run whose turns so far were for the targets [P], among
    them the newly written files [C], from the target filesystem [t0]. *)
Record run_inv (game : path) (t0 : fs) (P : list path) (C : list (path * string))
    (s : state) : Prop := RunInv {
  inv_dirs : dirs_kept t0 (target s);
  inv_frame : ∀ q,
    (∀ ps, ps ∈ P → q ≠ game ++ ps ∧ q ≠ game ++ add_suffix ps ".tmp") →
    target s !! q = t0 !! q
    ∨ (t0 !! q = None ∧ target s !! q = Some Dir ∧
       ∃ ps, ps ∈ P ∧ q `prefix_of` game ++ ps ∧ q ≠ game ++ ps);
  inv_backup : ∀ q c,
    rollback s !! q = Some (File c) →
    q ∈ P ∧ t0 !! (game ++ q) = Some (File c) ∧
    target s !! (game ++ q) ≠ Some Dir ∧
    walk false (rollback s) [] q = Ok q ∧
    dir_at true (target s) (parent (game ++ q));
  inv_kept : ∀ ps c,
    ps ∈ P → t0 !! (game ++ ps) = Some (File c) →
    rollback s !! ps = Some (File c) ∨ target s !! (game ++ ps) = Some (File c);
  inv_rdirs : ∀ q,
    rollback s !! q = Some Dir →
    q = [] ∨ ∃ ps, ps ∈ P ∧ q `prefix_of` ps ∧ q ≠ ps;
  inv_created : ∀ ps d,
    (ps, d) ∈ C → ps ∈ P ∧ target s !! (game ++ ps) = Some (File d)
}.

(** The files that the completed turns for [.full] patch files wrote. *)
Definition fulls (es : list (string * string)) : list (path * string) :=
  omap (λ e : string * string,
          if decide (entry_ext e.1 = ".full") then Some (entry_parts e.1, e.2) else None) es.

(** The two ways a record of the manifest can disagree with the target
    tree, as lines 230-233 test them. *)
Definition missing (game : path) (t : fs) (rel_path : string) : Prop :=
  path_exists true t (joinpath game (parse_path rel_path)) = Ok false.

Definition mismatching (sha : string → string) (game : path) (t : fs)
    (rel_path : string) (info : minfo) : Prop :=
  path_exists true t (joinpath game (parse_path rel_path)) = Ok true ∧
  ∃ h, _sha256sum sha t (joinpath game (parse_path rel_path)) = Ok h ∧ h ≠ info_sha256 info.

(** The patch files that the loop of [apply_patch] goes through. *)
Definition patch_files (ex : extraction) : list (string * string) :=
  filter (λ f, f.1 ≠ "manifest.json") (ex_files ex).

(** A store with a root directory and no regular file: the [rollback]
    directory at the start of a run. *)
Definition only_dirs (m : fs) : Prop :=
  m !! [] = Some Dir ∧ ∀ q n, m !! q = Some n → n = Dir.

(** On concrete trees and names these notions can be decided by
    evaluation. *)
Global Instance inside_dec name : Decision (inside name).
Proof. unfold inside. apply _. Defined.

Global Instance plain_entry_dec name : Decision (plain_entry name).
Proof. unfold plain_entry. apply _. Defined.

Global Instance unrelated_dec a b : Decision (unrelated a b).
Proof. unfold unrelated. apply _. Defined.

Global Instance independent_dec l : Decision (independent l).
Proof. induction l as [|a l IH]; cbn [independent]; apply _. Defined.

Global Instance wf_names_dec m : Decision (wf_names m).
Proof. unfold wf_names. apply _. Defined.

Global Instance dir_at_dec rooted m p : Decision (dir_at rooted m p).
Proof. unfold dir_at. apply _. Defined.

Global Instance file_in_dec m root rel data : Decision (file_in m root rel data).
Proof. unfold file_in. apply _. Defined.

(** ** Example runs *)

Module Runs.

(** An extraction that is given beforehand, whatever the archive. *)
Definition extract (ex : extraction) (ram : nat) (bytes : string) : res extraction := Ok ex.

Definition apply (ex : extraction) (t0 : fs) : res unit * fs :=
  apply_patch Toy.sha256_hexdigest Toy.detools_apply_patch (extract ex) Toy.scandir_order
    Toy.never ["game"] ["out.pkg"] 64 t0.

Definition turns (es : list (string * string)) (i : nat) (s : state) : res unit * state :=
  apply_entries Toy.detools_apply_patch Toy.never ["game"] i es s.

Definition turn (name data : string) (s : state) : res unit * state :=
  apply_entry Toy.detools_apply_patch ["game"] name data s.

(** The patch files that [create_patch] puts into the package for the
    trees "old" and "new" of [m]. *)
Definition packed (m : fs) : list (string * string) :=
  match Examples.build m with
  | Ok st => map_to_list st.2
  | _ => []
  end.

(** [create_patch] on the trees "old" and "new" of [m], then [apply_patch]
    of the package to "game". *)
Definition create_then_apply (m : fs) : res unit * fs :=
  match Examples.build m, Examples.create None Toy.never m with
  | Ok st, (Ok _, m1) => apply (Toy.extracted st) m1
  | _, out => out
  end.

(** A target tree with one file, and the package next to it. *)
Definition one_file : fs :=
  list_to_map
    [ ([], Dir); (["game"], Dir); (["game"; "a"], File "old");
      (["out.pkg"], File "archive") ].

(** An empty target tree. *)
Definition empty_game : fs :=
  list_to_map [ ([], Dir); (["game"], Dir); (["out.pkg"], File "archive") ].

(** The two trees of the example scenario with a copy of the old one as
    the target. *)
Definition scenario : fs :=
  list_to_map
    [ ([], Dir); (["old"], Dir); (["new"], Dir); (["game"], Dir);
      (["old"; "a.txt"], File "hello"); (["old"; "b.txt"], File "same");
      (["game"; "a.txt"], File "hello"); (["game"; "b.txt"], File "same");
      (["new"; "a.txt"], File "hello world"); (["new"; "b.txt"], File "same");
      (["new"; "c.txt"], File "new") ].

(** A new tree whose only file has "__" in its name, an empty old tree and
    an empty target. *)
Definition underscores : fs :=
  list_to_map
    [ ([], Dir); (["old"], Dir); (["new"], Dir); (["game"], Dir);
      (["new"; "a__b"], File "x") ].

(** One file replaced by a [.full] patch file, and a manifest that expects
    other bytes. *)
Definition stale_manifest : extraction :=
  Extraction (ManifestLoaded [("a", MInfo "expected" 8)]) [("a.full", "new")] fs_empty.

(** Two patch files for one target, the second one with a broken delta. *)
Definition twice : list (string * string) := [("a.full", "new"); ("a.patch", "broken")].

Definition twice_package : extraction := Extraction (ManifestLoaded []) twice fs_empty.

(** A patch file whose name decodes to a path above the target root. *)
Definition climbing : extraction :=
  Extraction (ManifestLoaded []) [("..__x.full", "escaped")] fs_empty.

(** A patch file whose name two relative paths share: "a/b" and "a__b". *)
Definition ambiguous : extraction :=
  Extraction (ManifestLoaded []) [("a__b.full", "x")] fs_empty.

(** One patch file with a broken delta. *)
Definition broken : extraction :=
  Extraction (ManifestLoaded []) [("a.patch", "broken")] fs_empty.

(** A whole file for a new path, then a broken delta for the file that is
    there. *)
Definition two_targets : extraction :=
  Extraction (ManifestLoaded []) [("b.full", "new"); ("a.patch", "broken")] fs_empty.

End Runs.

(** * Notions for further statements *)

(** The scratch directory of [create_patch] holds only files written for
    some path of the trees. *)
Definition accounted (diff : string → string → string) (m : fs) (old_dir new_dir : path)
    (files : gmap string string) : Prop :=
  ∀ name c, files !! name = Some c → ∃ rel, written_for diff m old_dir new_dir rel name c.

(** Every node but the root lies in a directory. *)
Definition tree_shaped (m : fs) : Prop :=
  ∀ q c n, m !! (q ++ [c]) = Some n → m !! q = Some Dir.

(** No regular file is at a prefix of [cs]. *)
Definition free_path (m : fs) (cs : path) : Prop :=
  ∀ k d, k `prefix_of` cs → m !! k ≠ Some (File d).

(** No relative path is a regular file below [a] and a directory below
    [b]. *)
Definition kinds_agree (m : fs) (a b : path) : Prop :=
  ∀ q d, m !! (a ++ q) = Some (File d) → m !! (b ++ q) ≠ Some Dir.

(** Nothing in either tree is named like the scratch file of a file of
    the old tree. *)
Definition no_scratch_names (m : fs) (old_dir new_dir : path) : Prop :=
  ∀ rel d, file_in m old_dir rel d →
    m !! (old_dir ++ add_suffix rel ".tmp") = None ∧
    m !! (new_dir ++ add_suffix rel ".tmp") = None.

(** The tree below [game] in [t] is, node by node, the tree below
    [old_dir] in [m]. *)
Definition copy_of (t : fs) (game : path) (m : fs) (old_dir : path) : Prop :=
  ∀ q, t !! (game ++ q) = m !! (old_dir ++ q).

(** The state of a run of [apply_patch] on a copy of the old tree whose
    turns so far were for the targets [done]: these are as in the new tree,
    the other paths below the target root are as they were (or are
    directories made on the way to a target), and [rollback] holds nothing
    but snapshots of targets and the directories above them. *)
Record round_inv (m : fs) (new_dir game : path) (t0 : fs) (done : list path)
    (s : state) : Prop := RoundInv {
  rt_dirs : dirs_kept t0 (target s);
  rt_done : ∀ q, q ∈ done → target s !! (game ++ q) = m !! (new_dir ++ q);
  rt_rest : ∀ q, q ∉ done →
    target s !! (game ++ q) = t0 !! (game ++ q)
    ∨ (t0 !! (game ++ q) = None ∧ target s !! (game ++ q) = Some Dir ∧
       ∃ d, d ∈ done ∧ q `prefix_of` d);
  rt_parents : ∀ q, q ∈ done → dir_at true (target s) (game ++ removelast q);
  rt_root : rollback s !! [] = Some Dir;
  rt_backups : ∀ q n, rollback s !! q = Some n →
    ∃ d, (d ∈ done ∨ d = []) ∧ q `prefix_of` d ∧ (n = Dir ∨ q = d)
}.

(** ** More example runs *)

Module Cases.

(** A cancel event that is set all along. *)
Definition always (i : nat) : bool := true.

(** Two trees without files. *)
Definition empty_trees : fs := list_to_map [ ([], Dir); (["old"], Dir); (["new"], Dir) ].

Definition create (cancelled : nat → bool) (m : fs) : res unit * fs :=
  create_patch Toy.sha256_hexdigest Toy.detools_create_patch Toy.archive_bytes
    Toy.scandir_order cancelled None ["old"] ["new"] ["out.pkg"] m.

Definition apply (cancelled : nat → bool) (package : path) (ex : extraction) (t0 : fs)
    : res unit * fs :=
  apply_patch Toy.sha256_hexdigest Toy.detools_apply_patch (Runs.extract ex)
    Toy.scandir_order cancelled ["game"] package 64 t0.

(** One file replaced by a [.full] patch file, with its record. *)
Definition passing : extraction :=
  Extraction (ManifestLoaded [("a", MInfo "new" 3)]) [("a.full", "new")] fs_empty.

(** The same patch file in an archive without "manifest.json", and in one
    whose "manifest.json" is not JSON. *)
Definition no_manifest : extraction :=
  Extraction ManifestMissing [("a.full", "new")] fs_empty.

Definition bad_manifest : extraction :=
  Extraction ManifestUnparsable [("a.full", "new")] fs_empty.

(** A manifest and no patch file. *)
Definition only_manifest : extraction :=
  Extraction (ManifestLoaded [("a", MInfo "old" 3)]) [] fs_empty.

(** The extraction of the package that [create_patch] makes of the trees
    "old" and "new" of [m], whatever the bytes. *)
Definition unpack (m : fs) (ram : nat) (bytes : string) : res extraction :=
  match Examples.build m with
  | Ok st => Ok (Toy.extracted st)
  | Raise e => Raise e
  | Astray => Astray
  end.

(** A target tree in which a file sits at the scratch name of another. *)
Definition bystander : fs :=
  list_to_map
    [ ([], Dir); (["game"], Dir); (["game"; "a"], File "old");
      (["game"; "a.tmp"], File "precious"); (["out.pkg"], File "archive") ].

End Cases.

(** * The window: [MainApplication] and [load_config]

    The widgets are reduced to what the handlers read and write: the state
    of the buttons, the texts, the Tk variables and the queue between the
    worker thread and the window.  Tk variables hold text, as in Tcl. *)

Module Gui.

(** ** Python dictionaries with string keys, in insertion order *)

Section Dict.

Context {V : Type}.

(** [d[k] = v] *)
Fixpoint set_item (k : string) (v : V) (d : list (string * V)) : list (string * V) :=
  match d with
  | [] => [(k, v)]
  | (k', v') :: d' => if decide (k' = k) then (k, v) :: d' else (k', v') :: set_item k v d'
  end.

(** [d.get(k)] *)
Fixpoint get_item (k : string) (d : list (string * V)) : option V :=
  match d with
  | [] => None
  | (k', v') :: d' => if decide (k' = k) then Some v' else get_item k d'
  end.

(** [del d[k]] for a key that is there *)
Fixpoint del_item (k : string) (d : list (string * V)) : list (string * V) :=
  match d with
  | [] => []
  | (k', v') :: d' => if decide (k' = k) then d' else (k', v') :: del_item k d'
  end.

(** [d.update(other)] for a dictionary [other] *)
Definition update (d other : list (string * V)) : list (string * V) :=
  foldl (λ acc kv, set_item kv.1 kv.2 acc) d other.

End Dict.

(** ** JSON values *)

(** What [json.load] returns.  A float is kept as its text; an object is a
    Python dictionary. *)
#[warnings="-register-all"] Inductive json :=
  | JNull
  | JBool (b : bool)
  | JInt (z : Z)
  | JFloat (repr : string)
  | JString (s : string)
  | JArray (l : list json)
  | JObject (kvs : list (string * json)).

Abbreviation config := (list (string * json)).

(** The outcome of [json.load(f)] on the bytes of a file: a value, a
    [JSONDecodeError], or another exception (the bytes are not text in the
    encoding of the locale, the nesting is too deep). *)
Inductive json_result :=
  | JsonOk (j : json)
  | JsonDecodeError
  | JsonOtherError.

(** ** [load_config] *)

(** How [load_config] ends: with a configuration, or with an exception
    that its [except] clause does not catch.  [Unmodelled]: [dict.update]
    met a key that is not a string, or a string to be taken apart into
    characters. *)
Inductive loading :=
  | Loaded (c : config)
  | RaisedTypeError
  | RaisedValueError
  | RaisedByJson
  | Unmodelled.

Definition defaults : config :=
  [("font_scale", JFloat "1.0"); ("applier_ram_limit", JInt 512)].

(** [d.update(seq)] for a list [seq]: every element has to be a sequence of
    two items, a hashable key and a value. *)
Fixpoint update_from_pairs (d : config) (seq : list json) : loading :=
  match seq with
  | [] => Loaded d
  | item :: rest =>
      match item with
      | JNull | JBool _ | JInt _ | JFloat _ => RaisedTypeError
      | JString _ => Unmodelled
      | JArray [JString k; v] => update_from_pairs (set_item k v d) rest
      | JArray [JArray _; _] | JArray [JObject _; _] => RaisedTypeError
      | JArray [_; _] => Unmodelled
      | JArray _ => RaisedValueError
      | JObject [(k1, _); (k2, _)] => update_from_pairs (set_item k1 (JString k2) d) rest
      | JObject _ => RaisedValueError
      end
  end.

(** [d.update(other)] for what [json.load] returned. *)
Definition dict_update (d : config) (other : json) : loading :=
  match other with
  | JObject kvs => Loaded (update d kvs)
  | JNull | JBool _ | JInt _ | JFloat _ => RaisedTypeError
  | JString EmptyString => Loaded d
  | JString (String _ _) => RaisedValueError
  | JArray seq => update_from_pairs d seq
  end.

Section LoadConfig.

(** [json.load] on the bytes of the file. *)
Variable json_load : string → json_result.

(** [load_config(path)]: what [open] raises is an [OSError], which the
    [except] clause catches. *)
Definition load_config (m : fs) (path : list string) : loading :=
  match path_exists true m path with
  | Ok true =>
      match read_file true m path with
      | Ok text =>
          match json_load text with
          | JsonOk loaded_config => dict_update defaults loaded_config
          | JsonDecodeError => Loaded defaults
          | JsonOtherError => RaisedByJson
          end
      | Raise _ => Loaded defaults
      | Astray => Unmodelled
      end
  | Ok false => Loaded defaults
  | Raise _ => Loaded defaults
  | Astray => Unmodelled
  end.

End LoadConfig.

(** ** The state of the window *)

(** What goes through [log_queue]. *)
Inductive message :=
  | QLog (msg level : string)
  | QProgress (value total : nat)
  | QStatus (msg : string)
  | QFinished.

Global Instance message_eq_dec : EqDecision message.
Proof. solve_decision. Defined.

(** [self.vars]: the text of the six Tk variables. *)
Record tkvars := TkVars {
  creator_old_dir : string;
  creator_new_dir : string;
  creator_patch_file : string;
  applier_game_dir : string;
  applier_patch_file : string;
  applier_ram_limit : string
}.

Global Instance tkvars_eq_dec : EqDecision tkvars.
Proof. solve_decision. Defined.

(** [start_btn], [cancel_btn] and [path_widgets] (the entries and buttons
    that are children of the two tabs; the spin box of the RAM limit is a
    child of a frame of its own) are [true] when the widgets are in state
    "normal". *)
Record app := App {
  is_running_task : bool;
  cancel_event : bool;
  start_btn : bool;
  cancel_btn : bool;
  path_widgets : bool;
  status_label : string;
  progress_value : nat;
  progress_maximum : nat;
  log_box : list (string * string);
  log_queue : list message;
  tab : string;
  vars : tkvars;
  app_config : config
}.

Definition _toggle_ui_state (running : bool) (a : app) : app :=
  App (is_running_task a) (cancel_event a) (negb running) running (negb running)
      (status_label a) (progress_value a) (progress_maximum a) (log_box a) (log_queue a)
      (tab a) (vars a) (app_config a).

Definition task_finished (a : app) : app :=
  let a1 := _toggle_ui_state false
              (App false (cancel_event a) (start_btn a) (cancel_btn a) (path_widgets a)
                   (status_label a) (progress_value a) (progress_maximum a) (log_box a)
                   (log_queue a) (tab a) (vars a) (app_config a)) in
  App (is_running_task a1) (cancel_event a1) (start_btn a1) (cancel_btn a1) (path_widgets a1)
      "Idle" 0 (progress_maximum a1) (log_box a1) (log_queue a1) (tab a1) (vars a1)
      (app_config a1).

(** The task handed to the worker thread. *)
Inductive task :=
  | CreatePatch (old_dir new_dir patch_package : string)
  | ApplyPatch (game_dir patch_package : string) (ram_limit_mb : Z).

(** How [start_task] ends. *)
Inductive started :=
  | AlreadyRunning
  | ErrorBox (text : string)
  | OtherTab
  | TclError
  | Spawned (t : task).

(** [all(args)] for strings *)
Definition all_given (args : list string) : bool :=
  forallb (λ s, negb (bool_decide (s = ""))) args.

(** [log_queue.put] *)
Definition put (msg : message) (a : app) : app :=
  App (is_running_task a) (cancel_event a) (start_btn a) (cancel_btn a) (path_widgets a)
      (status_label a) (progress_value a) (progress_maximum a) (log_box a)
      (log_queue a ++ [msg]) (tab a) (vars a) (app_config a).

Definition log_to_queue (msg level : string) : app → app := put (QLog msg level).
Definition progress_to_queue (value total : nat) : app → app := put (QProgress value total).
Definition status_to_queue (msg : string) : app → app := put (QStatus msg).

(** One message taken from the queue by [process_log_queue]. *)
Definition handle (a : app) (msg : message) : app :=
  match msg with
  | QLog data1 data2 =>
      App (is_running_task a) (cancel_event a) (start_btn a) (cancel_btn a) (path_widgets a)
          (status_label a) (progress_value a) (progress_maximum a)
          (log_box a ++ [(data1 +:+ String "010"%char EmptyString, data2)]) (log_queue a)
          (tab a) (vars a) (app_config a)
  | QProgress data1 data2 =>
      App (is_running_task a) (cancel_event a) (start_btn a) (cancel_btn a) (path_widgets a)
          (status_label a) data1 data2 (log_box a) (log_queue a) (tab a) (vars a)
          (app_config a)
  | QStatus data1 =>
      App (is_running_task a) (cancel_event a) (start_btn a) (cancel_btn a) (path_widgets a)
          data1 (progress_value a) (progress_maximum a) (log_box a) (log_queue a) (tab a)
          (vars a) (app_config a)
  | QFinished => task_finished a
  end.

(** [process_log_queue]: the queue is emptied, message by message. *)
Definition process_log_queue (a : app) : app :=
  foldl handle
    (App (is_running_task a) (cancel_event a) (start_btn a) (cancel_btn a) (path_widgets a)
         (status_label a) (progress_value a) (progress_maximum a) (log_box a) []
         (tab a) (vars a) (app_config a))
    (log_queue a).

(** The window as [__init__] leaves it: the widgets of [_create_widgets],
    and the lines that [_load_plugins] logged, shown by the first run of
    [process_log_queue]. *)
Definition initial (cfg : config) (v : tkvars) (plugin_log : list (string * string)) : app :=
  process_log_queue
    (App false false true false true "Idle" 0 100 []
         (map (λ line, QLog line.1 line.2) plugin_log) "Create Patch" v cfg).

(** [cancel_task], with the answer to the question it asks when a task is
    running. *)
Definition cancel_task (yes : bool) (a : app) : app :=
  if is_running_task a && yes then
    App (is_running_task a) true (start_btn a) (cancel_btn a) (path_widgets a)
        "Cancelling..." (progress_value a) (progress_maximum a) (log_box a) (log_queue a)
        (tab a) (vars a) (app_config a)
  else a.

(** How the function run by the worker thread ended. *)
Inductive finish :=
  | Returned
  | Raised (e : exc).

Global Instance finish_eq_dec : EqDecision finish.
Proof. solve_decision. Defined.

(** The message box that [run_task_in_thread] shows. *)
Inductive box := InfoBox | WarningBox | ErrorMessageBox.

Section Handlers.

(** [IntVar.get()]: the integer the text reads as, or [TclError]. *)
Variable intvar_get : string → option Z.

(** [str(e)] *)
Variable str_of_exception : exc → string.

(** [json.dump(config, f, indent=2)]: the text written. *)
Variable json_dump : config → string.

Definition start_task (a : app) : app * started :=
  if is_running_task a then (a, AlreadyRunning)
  else
    let a1 := _toggle_ui_state true
                (App true false (start_btn a) (cancel_btn a) (path_widgets a)
                     (status_label a) (progress_value a) (progress_maximum a) (log_box a)
                     (log_queue a) (tab a) (vars a) (app_config a)) in
    let a2 := App (is_running_task a1) (cancel_event a1) (start_btn a1) (cancel_btn a1)
                  (path_widgets a1) (status_label a1) (progress_value a1)
                  (progress_maximum a1) [] (log_queue a1) (tab a1) (vars a1)
                  (app_config a1) in
    let v := vars a2 in
    if decide (tab a2 = "Create Patch") then
      if all_given [creator_old_dir v; creator_new_dir v; creator_patch_file v] then
        (a2, Spawned (CreatePatch (creator_old_dir v) (creator_new_dir v)
                        (creator_patch_file v)))
      else
        (task_finished a2, ErrorBox "All paths must be specified for patch creation.")
    else if decide (tab a2 = "Apply Patch") then
      match intvar_get (applier_ram_limit v) with
      | None => (a2, TclError)
      | Some ram =>
          if all_given [applier_game_dir v; applier_patch_file v] then
            (a2, Spawned (ApplyPatch (applier_game_dir v) (applier_patch_file v) ram))
          else
            (task_finished a2, ErrorBox "Game directory and patch file must be specified.")
      end
    else (task_finished a2, OtherTab).

(** [run_task_in_thread], once [target_func] has ended: what it puts on the
    queue and the box it shows. *)
Definition run_task_in_thread (f : finish) : list message * box :=
  match f with
  | Returned => ([QLog "✅ Task completed successfully." "success"; QFinished], InfoBox)
  | Raised InterruptedError =>
      ([QLog ("🟡 " +:+ str_of_exception InterruptedError) "warning"; QFinished], WarningBox)
  | Raised e =>
      ([QLog ("❌ An error occurred: " +:+ str_of_exception e) "error"; QFinished],
       ErrorMessageBox)
  end.

(** How [on_closing] ends: the window is destroyed, it stays because the
    user said so, or it stays because an exception came up. *)
Inductive closing :=
  | Destroyed
  | KeptOpen
  | ClosingFailed.

(** [on_closing], with the answer to the question it asks when a task is
    running: the outcome, the configuration in memory and the filesystem.
    [config_file] is where "patch_config.json" resolves to. *)
Definition on_closing (yes : bool) (config_file : list string) (a : app) (m : fs)
    : closing * config * fs :=
  if is_running_task a && negb yes then (KeptOpen, app_config a, m)
  else
    let v := vars a in
    let c5 := set_item "applier_patch_file" (JString (applier_patch_file v))
                (set_item "applier_game_dir" (JString (applier_game_dir v))
                   (set_item "creator_patch_file" (JString (creator_patch_file v))
                      (set_item "creator_new_dir" (JString (creator_new_dir v))
                         (set_item "creator_old_dir" (JString (creator_old_dir v))
                            (app_config a))))) in
    match intvar_get (applier_ram_limit v) with
    | None => (ClosingFailed, c5, m)
    | Some ram =>
        let c6 := set_item "applier_ram_limit" (JInt ram) c5 in
        let c7 := if bool_decide (is_Some (get_item "theme" c6))
                  then del_item "theme" c6 else c6 in
        match write_file true m config_file (json_dump c7) with
        | Ok m' => (Destroyed, c7, m')
        | _ => (ClosingFailed, c7, m)
        end
    end.

End Handlers.

(** What happens to the window between two moments: the Start button is
    invoked (by a click, or by the Return key), Cancel is clicked and the
    question answered, [process_log_queue] runs, a thread puts a message
    on the queue, a tab is selected, the text of the variables is edited. *)
Inductive event :=
  | ClickStart
  | ClickCancel (yes : bool)
  | Tick
  | WorkerPut (msg : message)
  | SelectTab (title : string)
  | Edit (v : tkvars).

Global Instance event_eq_dec : EqDecision event.
Proof. solve_decision. Defined.

Section Events.

Variable intvar_get : string → option Z.

(** A button in state "disabled" does not call its command. *)
Definition step (a : app) (e : event) : app :=
  match e with
  | ClickStart => if start_btn a then (start_task intvar_get a).1 else a
  | ClickCancel yes => if cancel_btn a then cancel_task yes a else a
  | Tick => process_log_queue a
  | WorkerPut msg => put msg a
  | SelectTab title =>
      App (is_running_task a) (cancel_event a) (start_btn a) (cancel_btn a) (path_widgets a)
          (status_label a) (progress_value a) (progress_maximum a) (log_box a) (log_queue a)
          title (vars a) (app_config a)
  | Edit v =>
      App (is_running_task a) (cancel_event a) (start_btn a) (cancel_btn a) (path_widgets a)
          (status_label a) (progress_value a) (progress_maximum a) (log_box a) (log_queue a)
          (tab a) v (app_config a)
  end.

Definition run (a : app) (events : list event) : app := foldl step a events.

End Events.

(** ** The window and its worker threads *)

(** What happens to the window and to the worker threads that
    [start_task] has started: an event of the window; or a worker thread
    comes to the end of [run_task_in_thread] and puts its last messages. *)
Inductive happening :=
  | Ui (e : event)
  | WorkerEnds (f : finish).

Global Instance happening_eq_dec : EqDecision happening.
Proof. solve_decision. Defined.

Section Workers.

Variable intvar_get : string → option Z.
Variable str_of_exception : exc → string.

(** The window with the number of worker threads that have been started
    and have not ended. *)
Definition happen (w : app * nat) (h : happening) : app * nat :=
  match h with
  | Ui ClickStart =>
      if start_btn w.1 then
        match start_task intvar_get w.1 with
        | (a', Spawned _) => (a', S w.2)
        | (a', _) => (a', w.2)
        end
      else w
  | Ui e => (step intvar_get w.1 e, w.2)
  | WorkerEnds f =>
      match w.2 with
      | 0 => w
      | S n => (foldl (λ a msg, put msg a) w.1 (run_task_in_thread str_of_exception f).1, n)
      end
  end.

End Workers.

(** The buttons say whether a task is running. *)
Definition consistent (a : app) : Prop :=
  start_btn a = negb (is_running_task a) ∧
  cancel_btn a = is_running_task a ∧
  path_widgets a = negb (is_running_task a).

End Gui.

(** ** A window to run the handlers on *)

Module Desk.

(** A reading of decimal digits for [IntVar.get]. *)
Fixpoint digits (s : string) (acc : Z) : option Z :=
  match s with
  | EmptyString => Some acc
  | String c s' =>
      let n := Ascii.nat_of_ascii c in
      if Nat.leb 48 n && Nat.leb n 57
      then digits s' (10 * acc + Z.of_nat (n - 48))%Z
      else None
  end.

Definition intvar_get (s : string) : option Z :=
  match s with
  | EmptyString => None
  | String _ _ => digits s 0%Z
  end.

Definition str_of_exception (e : exc) : string := "failed".

(** A dump that is the same text for every dictionary, and the reading
    that gives back the dictionary [c] for that text. *)
Definition json_dump (c : Gui.config) : string := "saved".

Definition json_load (c : Gui.config) (text : string) : Gui.json_result :=
  if decide (text = "saved") then Gui.JsonOk (Gui.JObject c)
  else if decide (text = "null") then Gui.JsonOk Gui.JNull
  else Gui.JsonDecodeError.

Definition fields : Gui.tkvars := Gui.TkVars "old" "new" "out.pkg" "game" "out.pkg" "512".

(** The same fields with the RAM limit deleted. *)
Definition no_ram : Gui.tkvars := Gui.TkVars "old" "new" "out.pkg" "game" "out.pkg" "".

Definition window : Gui.app :=
  Gui.initial [("theme", Gui.JString "dark"); ("font_scale", Gui.JFloat "1.25")] fields
    [("Loaded plugin: inspector_plugin", "info")].

(** The window on the tab "Apply Patch" after the RAM limit was deleted. *)
Definition cleared : Gui.app :=
  Gui.run intvar_get window [Gui.Edit no_ram; Gui.SelectTab "Apply Patch"].

(** The window with a task started from the tab "Create Patch". *)
Definition busy : Gui.app := (Gui.start_task intvar_get window).1.

(** What a configuration file holds. *)
Definition stored : Gui.config :=
  [("creator_old_dir", Gui.JString "old"); ("applier_ram_limit", Gui.JInt 1024)].

Definition disk : fs :=
  list_to_map [ ([], Dir); (["patch_config.json"], File "saved") ].

Definition close (a : Gui.app) : Gui.closing * Gui.config * fs :=
  Gui.on_closing intvar_get json_dump true ["patch_config.json"] a disk.

End Desk.

(** * The whole functions, with their scratch directories

    [Model.create_patch] and [Model.apply_patch] are the [try] blocks, with
    the scratch directory as a store of its own.  Here the scratch
    directory has its place in the filesystem, below the working directory
    [cwd], and the lines around the [try] blocks are run: what is at the
    scratch path is removed and the directory is made (lines 82-85 and
    160-166), and the directory is removed when the function ends (lines
    154-155 and 254-255).  What the [try] block does inside the scratch
    directory is gone by then. *)

Module Whole.

(** What [shutil.rmtree(p)] leaves of [m]: nothing at [p] and nothing
    below it. *)
Definition rmtree_of (m : fs) (p : path) : fs :=
  filter (λ kv : path * node, ¬ p `prefix_of` kv.1) m.

(** [shutil.rmtree(cs)] *)
Definition shutil_rmtree (m : fs) (cs : list string) : res fs :=
  p ← walk true m [] cs;
  match m !! p with
  | Some Dir => Ok (rmtree_of m p)
  | Some (File _) => Raise NotADirectoryError
  | None => Raise FileNotFoundError
  end.

(** [shutil.rmtree(cs, ignore_errors=True)] *)
Definition rmtree_ignore_errors (m : fs) (cs : list string) : fs :=
  match shutil_rmtree m cs with
  | Ok m' => m'
  | _ => m
  end.

(** [Path.mkdir(exist_ok=True)] *)
Definition mkdir_exist_ok (m : fs) (cs : list string) : res unit * fs :=
  match os_mkdir true m cs with
  | Ok m' => (Ok (), m')
  | Raise FileNotFoundError => (Raise FileNotFoundError, m)
  | Raise e => exist_ok true m cs e
  | Astray => (Astray, m)
  end.

(** [if patch_tmp.exists(): shutil.rmtree(patch_tmp)] *)
Definition remove_stale (m : fs) (patch_tmp : list string) : res fs :=
  ex ← path_exists true m patch_tmp;
  if ex : bool then shutil_rmtree m patch_tmp else Ok m.

(** Lines 83-85 of [create_patch]. *)
Definition scratch_for_create (m : fs) (patch_tmp : list string) : res unit * fs :=
  match remove_stale m patch_tmp with
  | Ok m1 => mkdir_exist_ok m1 patch_tmp
  | Raise e => (Raise e, m)
  | Astray => (Astray, m)
  end.

(** Lines 163-166 of [apply_patch]. *)
Definition scratch_for_apply (t : fs) (patch_tmp : list string) : res unit * fs :=
  match remove_stale t patch_tmp with
  | Ok t1 =>
      match mkdir_parents true t1 patch_tmp with
      | (Ok _, t2) => mkdir_exist_ok t2 (patch_tmp ++ ["rollback"])
      | failed => failed
      end
  | Raise e => (Raise e, t)
  | Astray => (Astray, t)
  end.

Section Functions.

Variable sha256_hexdigest : string → string.
Variable detools_create_patch : string → string → string.
Variable detools_apply_patch : string → string → string + string.
Variable archive_bytes : manifest → gmap string string → string.
Variable extract_archive : nat → string → res extraction.
Variable scandir_order : list path → list path.
Variable cancelled : nat → bool.

(** [zstd.ZstdDecompressor(max_window_size=...)], line 170: the exception
    it raises for a budget that the library refuses.  The decompressor is
    built before the package is opened. *)
Variable zstd_decompressor : nat → option exc.

(** [create_patch(old_dir, new_dir, patch_package)], lines 79-155, run in
    the working directory [cwd]. *)
Definition create_patch (cwd : path) (write_fault : option nat)
    (old_dir new_dir patch_package : path) (m : fs) : res unit * fs :=
  let patch_tmp := cwd ++ ["patch_tmp_creator"] in
  match scratch_for_create m patch_tmp with
  | (Ok _, m1) =>
      let out := Model.create_patch sha256_hexdigest detools_create_patch archive_bytes
                   scandir_order cancelled write_fault old_dir new_dir patch_package m1 in
      (out.1, rmtree_ignore_errors out.2 patch_tmp)
  | failed => failed
  end.

(** [apply_patch(game_dir, patch_package, ram_limit_mb)], lines 157-255,
    run in the working directory [cwd].  When the decompressor cannot be
    built, the [except] block finds an empty [rollback] directory. *)
Definition apply_patch (cwd : path) (game_dir patch_package : path) (ram_limit_mb : nat)
    (t0 : fs) : res unit * fs :=
  let patch_tmp := cwd ++ ["patch_tmp_applier"] in
  match scratch_for_apply t0 patch_tmp with
  | (Ok _, t1) =>
      let out := match zstd_decompressor ram_limit_mb with
                 | Some e => (Raise e, t1)
                 | None =>
                     Model.apply_patch sha256_hexdigest detools_apply_patch extract_archive
                       scandir_order cancelled game_dir patch_package ram_limit_mb t1
                 end in
      (out.1, rmtree_ignore_errors out.2 patch_tmp)
  | failed => failed
  end.

End Functions.

(** The filesystem when the [try] block is entered. *)
Definition entered_create (cwd : path) (m : fs) : fs :=
  (scratch_for_create m (cwd ++ ["patch_tmp_creator"])).2.

Definition entered_apply (cwd : path) (t : fs) : fs :=
  (scratch_for_apply t (cwd ++ ["patch_tmp_applier"])).2.

End Whole.

(** ** Runs in a working directory with leftovers of an earlier run *)

Module Stale.

(** The example trees, with a scratch directory that an earlier run of
    [create_patch] left in the working directory (the root). *)
Definition trees : fs :=
  list_to_map
    [ ([], Dir); (["old"], Dir); (["new"], Dir);
      (["old"; "a.txt"], File "hello"); (["old"; "b.txt"], File "same");
      (["new"; "a.txt"], File "hello world"); (["new"; "b.txt"], File "same");
      (["new"; "c.txt"], File "new");
      (["patch_tmp_creator"], Dir); (["patch_tmp_creator"; "z.full"], File "junk") ].

(** A target tree with one file, the package next to it, and a scratch
    directory that an earlier run of [apply_patch] left. *)
Definition game : fs :=
  list_to_map
    [ ([], Dir); (["game"], Dir); (["game"; "a"], File "old");
      (["out.pkg"], File "archive");
      (["patch_tmp_applier"], Dir); (["patch_tmp_applier"; "rollback"], Dir);
      (["patch_tmp_applier"; "rollback"; "a"], File "older") ].

(** A decompressor that is built for every budget, and one that is
    refused for every budget. *)
Definition builds (ram : nat) : option exc := None.
Definition refuses (ram : nat) : option exc := Some ArchiveError.

(** The event is set at the check [k] and at no other. *)
Definition at_check (k i : nat) : bool := bool_decide (i = k).

Definition create (cancelled : nat → bool) (m : fs) : res unit * fs :=
  Whole.create_patch Toy.sha256_hexdigest Toy.detools_create_patch Toy.archive_bytes
    Toy.scandir_order cancelled [] None ["old"] ["new"] ["out.pkg"] m.

Definition apply (cancelled : nat → bool) (zstd_decompressor : nat → option exc)
    (package : path) (ex : extraction) (t0 : fs) : res unit * fs :=
  Whole.apply_patch Toy.sha256_hexdigest Toy.detools_apply_patch (Runs.extract ex)
    Toy.scandir_order cancelled zstd_decompressor [] ["game"] package 64 t0.

(** Two trees in which "a/b" is unchanged and "a__b" is modified. *)
Definition shadowed : fs :=
  list_to_map
    [ ([], Dir); (["old"], Dir); (["new"], Dir); (["old"; "a"], Dir); (["new"; "a"], Dir);
      (["old"; "a"; "b"], File "same"); (["new"; "a"; "b"], File "same");
      (["old"; "a__b"], File "x"); (["new"; "a__b"], File "y") ].

End Stale.

(** * Properties of the string operations *)

Section StringFacts.

Implicit Types (s r p : string) (c : ascii).

Lemma append_cons c s r : String c s +:+ r = String c (s +:+ r).
Proof. reflexivity. Qed.

Lemma append_nil_l s : EmptyString +:+ s = s.
Proof. reflexivity. Qed.

Lemma append_assoc s1 s2 s3 : (s1 +:+ s2) +:+ s3 = s1 +:+ s2 +:+ s3.
Proof. induction s1 as [|c s1 IH]; [done|]. rewrite !append_cons. by f_equal. Qed.

Lemma take_len_app s r : PyStr.take (PyStr.len s) (s +:+ r) = s.
Proof.
  induction s as [|c s IH].
  - by destruct r.
  - rewrite append_cons. simpl. by f_equal.
Qed.

Lemma drop_len_app s r : PyStr.drop (PyStr.len s) (s +:+ r) = r.
Proof. induction s as [|c s IH]; [by destruct r|]. rewrite append_cons. exact IH. Qed.

Lemma take_drop s n : PyStr.take n s +:+ PyStr.drop n s = s.
Proof.
  revert n. induction s as [|c s IH]; intros [|n]; simpl; try done.
  rewrite append_cons. f_equal. apply IH.
Qed.

(** The encoding of line 109, character by character. *)
Lemma patch_name_cons c r :
  patch_name (String c r) =
  if decide (c = "/"%char) then "__" +:+ patch_name r else String c (patch_name r).
Proof.
  unfold patch_name, PyStr.replace. simpl.
  destruct (decide ("/"%char = c)) as [<-|Hne]; simpl.
  - reflexivity.
  - destruct (decide (c = "/"%char)) as [->|_]; [by destruct Hne|reflexivity].
Qed.

(** The decoding of line 195, by cases on what it reads. *)
Lemma decode_uu r :
  PyStr.replace "__" "/" (String "_" (String "_" r)) = String "/" (PyStr.replace "__" "/" r).
Proof. reflexivity. Qed.

Lemma decode_other c r :
  c ≠ "_"%char →
  PyStr.replace "__" "/" (String c r) = String c (PyStr.replace "__" "/" r).
Proof.
  intros Hc. unfold PyStr.replace. simpl.
  destruct (decide ("_"%char = c)) as [<-|_]; [done|reflexivity].
Qed.

Lemma decode_u_other c r :
  c ≠ "_"%char →
  PyStr.replace "__" "/" (String "_" (String c r))
  = String "_" (PyStr.replace "__" "/" (String c r)).
Proof.
  intros Hc. unfold PyStr.replace. simpl.
  destruct (decide ("_"%char = c)) as [<-|_]; [done|reflexivity].
Qed.

Lemma occurs_cons pat c r :
  occurs pat (String c r) = false →
  PyStr.startswith pat (String c r) = false ∧ occurs pat r = false.
Proof. simpl. intros H. by apply orb_false_elim in H. Qed.

(** Decoding undoes encoding on paths without "__" and "_/". *)
Lemma decode_patch_name p :
  occurs "__" p = false → occurs "_/" p = false →
  PyStr.replace "__" "/" (patch_name p) = p.
Proof.
  induction p as [|c r IH]; [done|].
  intros [Huu Huu']%occurs_cons [Hus Hus']%occurs_cons.
  rewrite patch_name_cons. destruct (decide (c = "/"%char)) as [->|Hc].
  - change ("__" +:+ patch_name r) with (String "_" (String "_" (patch_name r))).
    rewrite decode_uu, IH; done.
  - destruct (decide (c = "_"%char)) as [->|Hc'].
    + destruct r as [|c' r'].
      * reflexivity.
      * assert (c' ≠ "_"%char) as H1.
        { intros ->. simpl in Huu. done. }
        assert (c' ≠ "/"%char) as H2.
        { intros ->. simpl in Hus. done. }
        specialize (IH Huu' Hus').
        rewrite patch_name_cons in *. rewrite decide_False in * by done.
        rewrite decode_u_other by done. by rewrite IH.
    + rewrite decode_other by done. by rewrite IH.
Qed.

Lemma mem_patch_name p : PyStr.mem "/"%char (patch_name p) = false.
Proof.
  induction p as [|c r IH]; [done|].
  rewrite patch_name_cons. destruct (decide (c = "/"%char)) as [->|Hc].
  - exact IH.
  - cbn [PyStr.mem]. by rewrite decide_False.
Qed.

Lemma has_other_patch_name p :
  PyStr.has_other "."%char p = true → PyStr.has_other "."%char (patch_name p) = true.
Proof.
  induction p as [|c r IH]; [done|].
  rewrite patch_name_cons. cbn [PyStr.has_other].
  destruct (decide (c = "."%char)) as [->|Hc].
  - intros H. rewrite decide_False by done. cbn [PyStr.has_other].
    rewrite decide_True by done. auto.
  - intros _. destruct (decide (c = "/"%char)); [done|].
    cbn [PyStr.has_other]. by rewrite decide_False.
Qed.

(** [rfind] on a string followed by a suffix. *)
Lemma rfind_app_Some c s r i :
  PyStr.rfind c r = Some i → PyStr.rfind c (s +:+ r) = Some (PyStr.len s + i).
Proof.
  intros Hr. induction s as [|a s IH]; [done|].
  rewrite append_cons. cbn [PyStr.rfind PyStr.len String.length plus]. by rewrite IH.
Qed.

Lemma rfind_app_None c s r :
  PyStr.rfind c r = None → PyStr.rfind c (s +:+ r) = PyStr.rfind c s.
Proof.
  intros Hr. induction s as [|a s IH]; [done|].
  rewrite append_cons. cbn [PyStr.rfind PyStr.len String.length plus]. by rewrite IH.
Qed.

Lemma rfind_None_mem c s : PyStr.mem c s = false → PyStr.rfind c s = None.
Proof.
  induction s as [|a s IH]; [done|]. cbn [PyStr.mem PyStr.rfind].
  destruct (decide (a = c)); [done|]. intros H. by rewrite IH.
Qed.

(** [splitext] cuts a name at the dot of its suffix. *)
Lemma splitext_suffix n e :
  PyStr.mem "/"%char n = false → PyStr.has_other "."%char n = true →
  PyStr.mem "."%char e = false → PyStr.mem "/"%char e = false →
  splitext (n +:+ String "." e) = (n, String "." e).
Proof.
  intros Hn Hdot He He'. unfold splitext.
  assert (PyStr.rfind "/"%char (n +:+ String "." e) = None) as ->.
  { rewrite rfind_app_None; [by apply rfind_None_mem|].
    simpl. by rewrite (rfind_None_mem _ _ He'). }
  rewrite (rfind_app_Some _ _ _ 0).
  2:{ simpl. by rewrite (rfind_None_mem _ _ He). }
  rewrite Nat.add_0_r, Nat.sub_0_r. simpl PyStr.drop at 1.
  rewrite decide_True by lia.
  by rewrite take_len_app, Hdot, drop_len_app.
Qed.

End StringFacts.

(** * Properties of the listings and of chunked reading *)

Section Listing.

Implicit Types (m : fs) (p q root rel : path).

Lemma relative_to_Some root q rel : relative_to root q = Some rel ↔ q = root ++ rel.
Proof.
  revert q. induction root as [|a root IH]; intros q; simpl.
  - split; [by intros [= ->]|by intros ->].
  - destruct q as [|b q]; [split; [done|by intros [=]]|].
    destruct (decide (a = b)) as [->|Hne].
    + rewrite IH. split; [by intros ->|by intros [= ->]].
    + split; [done|]. intros [= -> _]. done.
Qed.

Lemma elem_of_files_under rooted m root rel :
  rel ∈ files_under rooted m root ↔
  rel ≠ [] ∧ located rooted m (root ++ rel) = true ∧ ∃ d, m !! (root ++ rel) = Some (File d).
Proof.
  unfold files_under. rewrite list_elem_of_omap. split.
  - intros [[p n] [Hin Hsome]]. apply elem_of_map_to_list in Hin. simpl in Hsome.
    destruct n as [d|]; [|done].
    destruct (located rooted m p) eqn:Hloc; [|done].
    destruct (relative_to root p) as [r|] eqn:Hs; [|done].
    apply relative_to_Some in Hs as ->.
    destruct r; [done|]. injection Hsome as <-. eauto.
  - intros (Hne & Hloc & d & Hd). exists (root ++ rel, File d). split.
    + by apply elem_of_map_to_list.
    + simpl. rewrite Hloc.
      assert (relative_to root (root ++ rel) = Some rel) as -> by by apply relative_to_Some.
      by destruct rel.
Qed.

Lemma read_chunks_concat fuel n s acc :
  0 < n → PyStr.len s < fuel →
  foldl String.append acc (read_chunks fuel n s) = acc +:+ s.
Proof.
  intros Hn. revert s acc. induction fuel as [|fuel IH]; intros s acc Hlen; [lia|].
  destruct n as [|n]; [lia|]. simpl.
  destruct s as [|c s].
  - simpl. clear. induction acc as [|a acc IH]; [done|]. rewrite append_cons. by f_equal.
  - simpl. rewrite IH.
    + rewrite append_assoc. f_equal. rewrite append_cons. f_equal. apply take_drop.
    + simpl in Hlen. clear -Hlen. revert n. induction s as [|a s IHs]; intros [|k]; simpl in *; try lia.
      specialize (IHs ltac:(lia) k). lia.
Qed.

Lemma default_chunk_size_pos : 0 < default_chunk_size.
Proof. unfold default_chunk_size. lia. Qed.

End Listing.

(** * Properties of the filesystem calls *)

Section FsFacts.

Implicit Types (m : fs) (p q cur par : path) (cs : list string) (c : string).

Lemma dirs_kept_refl m : dirs_kept m m.
Proof. by intros q. Qed.

Lemma dirs_kept_trans m1 m2 m3 : dirs_kept m1 m2 → dirs_kept m2 m3 → dirs_kept m1 m3.
Proof. intros H1 H2 q Hq. auto. Qed.

Lemma grows_refl m : grows m m.
Proof. intros q. by left. Qed.

Lemma grows_trans m1 m2 m3 : grows m1 m2 → grows m2 m3 → grows m1 m3.
Proof.
  intros H1 H2 q. destruct (H1 q) as [E1|[E1 E1']], (H2 q) as [E2|[E2 E2']].
  - left. congruence.
  - right. split; congruence.
  - right. split; congruence.
  - congruence.
Qed.

Lemma grows_dirs_kept m m' : grows m m' → dirs_kept m m'.
Proof. intros H q Hq. destruct (H q) as [E|[E _]]; congruence. Qed.

Lemma grows_files_kept m m' : grows m m' → files_kept m m'.
Proof. intros H q d Hq. destruct (H q) as [E|[E _]]; [|congruence]. exists d. congruence. Qed.

Lemma files_kept_refl m : files_kept m m.
Proof. intros q d Hq. eauto. Qed.

Lemma files_kept_trans m1 m2 m3 : files_kept m1 m2 → files_kept m2 m3 → files_kept m1 m3.
Proof. intros H1 H2 q d Hq. destruct (H1 q d Hq) as [d' Hd']. eauto. Qed.

Lemma insert_dir_grows m p : m !! p = None → grows m (<[p := Dir]> m).
Proof.
  intros Hp q. destruct (decide (p = q)) as [<-|Hne].
  - right. by rewrite lookup_insert_eq.
  - left. by rewrite lookup_insert_ne.
Qed.

Lemma insert_file_dirs_kept m p d : m !! p ≠ Some Dir → dirs_kept m (<[p := File d]> m).
Proof.
  intros Hp q Hq. destruct (decide (p = q)) as [<-|Hne]; [done|].
  by rewrite lookup_insert_ne.
Qed.

Lemma insert_file_files_kept m p d : files_kept m (<[p := File d]> m).
Proof.
  intros q d' Hq. destruct (decide (p = q)) as [<-|Hne].
  - exists d. by rewrite lookup_insert_eq.
  - exists d'. by rewrite lookup_insert_ne.
Qed.

Lemma delete_file_dirs_kept m p : m !! p ≠ Some Dir → dirs_kept m (delete p m).
Proof.
  intros Hp q Hq. destruct (decide (p = q)) as [<-|Hne]; [done|].
  by rewrite lookup_delete_ne.
Qed.

(** *** Path resolution *)

Lemma walk_mono rooted m m' cur cs p :
  dirs_kept m m' → walk rooted m cur cs = Ok p → walk rooted m' cur cs = Ok p.
Proof.
  intros Hk. revert cur. induction cs as [|c cs IH]; intros cur; simpl; [done|].
  destruct (m !! cur) as [[d|]|] eqn:Hcur; try done.
  rewrite (Hk _ Hcur). destruct (decide (c = "..")); [|by apply IH].
  destruct cur; [destruct rooted; [by apply IH|done]|by apply IH].
Qed.

Lemma walk_app rooted m cur cs1 cs2 :
  walk rooted m cur (cs1 ++ cs2) = p ← walk rooted m cur cs1; walk rooted m p cs2.
Proof.
  revert cur. induction cs1 as [|c cs1 IH]; intros cur; simpl; [done|].
  destruct (m !! cur) as [[d|]|]; try done.
  destruct (decide (c = "..")); [|by apply IH].
  destruct cur; [destruct rooted; [by apply IH|done]|by apply IH].
Qed.

Lemma walk_rooted_not_astray m cur cs : walk true m cur cs ≠ Astray.
Proof.
  revert cur. induction cs as [|c cs IH]; intros cur; simpl; [done|].
  destruct (m !! cur) as [[d|]|]; try done.
  destruct (decide (c = "..")); [|by apply IH].
  destruct cur; by apply IH.
Qed.

Lemma walk_plain rooted m cur cs :
  ".." ∉ cs →
  (walk rooted m cur cs = Ok (cur ++ cs)) ∨ (∃ e, walk rooted m cur cs = Raise e).
Proof.
  revert cur. induction cs as [|c cs IH]; intros cur Hcs; simpl.
  - left. by rewrite app_nil_r.
  - apply not_elem_of_cons in Hcs as [Hc Hcs].
    destruct (m !! cur) as [[d|]|]; [by right; eexists|..|by right; eexists].
    rewrite decide_False by done.
    destruct (IH (cur ++ [c]) Hcs) as [->|[e ->]]; [|by right; eexists].
    left. by rewrite <-app_assoc.
Qed.

Lemma walk_plain_Ok rooted m cur cs p :
  ".." ∉ cs → walk rooted m cur cs = Ok p → p = cur ++ cs.
Proof.
  intros Hcs Hw. destruct (walk_plain rooted m cur cs Hcs) as [E|[e E]]; congruence.
Qed.

Lemma walk_child rooted m par c :
  dir_at rooted m par → c ≠ ".." →
  walk rooted m [] (par ++ [c]) = Ok (par ++ [c]).
Proof.
  intros [Hw Hd] Hc. rewrite walk_app, Hw. simpl. rewrite Hd.
  by rewrite decide_False.
Qed.

Lemma dir_at_mono rooted m m' p : dirs_kept m m' → dir_at rooted m p → dir_at rooted m' p.
Proof. intros Hk [Hw Hd]. split; [by eapply walk_mono|by apply Hk]. Qed.

Lemma elem_of_removelast (x : string) (l : list string) : x ∈ removelast l → x ∈ l.
Proof.
  induction l as [|y l IHl]; [done|].
  destruct l as [|z l]; [by intros ?%elem_of_nil|].
  change (removelast (y :: z :: l)) with (y :: removelast (z :: l)).
  rewrite !(elem_of_cons _ x y). intros [->|H]; [by left|]. right. by apply IHl.
Qed.

(** The result of a walk never holds "..". *)
Lemma walk_no_dotdot rooted m cur cs p :
  ".." ∉ cur → walk rooted m cur cs = Ok p → ".." ∉ p.
Proof.
  revert cur. induction cs as [|c cs IH]; intros cur Hcur; simpl.
  - by intros [= <-].
  - destruct (m !! cur) as [[d|]|]; try done.
    destruct (decide (c = "..")) as [->|Hc].
    + destruct cur as [|a cur'].
      * destruct rooted; [by apply IH|done].
      * apply IH. intros Hin. apply Hcur. by eapply elem_of_removelast.
    + apply IH. rewrite elem_of_app, list_elem_of_singleton. by intros [?|?].
Qed.

Lemma located_no_dotdot rooted m p : located rooted m p = true → ".." ∉ p.
Proof.
  unfold located. intros H%bool_decide_eq_true.
  eapply walk_no_dotdot; [|done]. apply not_elem_of_nil.
Qed.

(** *** [os.mkdir] and [Path.mkdir] *)

Lemma os_mkdir_grows rooted m cs m' : os_mkdir rooted m cs = Ok m' → grows m m'.
Proof.
  unfold os_mkdir. destruct (walk rooted m [] cs) as [p| |]; simpl; try done.
  destruct (m !! p) eqn:Hp; [done|]. intros [= <-]. by apply insert_dir_grows.
Qed.

Lemma exist_ok_same rooted m cs e r m' : exist_ok rooted m cs e = (r, m') → m' = m.
Proof. unfold exist_ok. by destruct (is_dir rooted m cs) as [[]| |]; intros [= _ <-]. Qed.

Lemma mkdir_p_grows rooted m rcs r m' : mkdir_p rooted m rcs = (r, m') → grows m m'.
Proof.
  revert m r m'. induction rcs as [|c rcs IH]; intros m r m'; simpl.
  - destruct (os_mkdir rooted m []) as [m1|e|] eqn:Hmk.
    + intros [= _ <-]. by eapply os_mkdir_grows.
    + destruct e; try (intros ->%exist_ok_same; apply grows_refl).
      intros [= _ <-]. apply grows_refl.
    + intros [= _ <-]. apply grows_refl.
  - destruct (os_mkdir rooted m (rev rcs ++ [c])) as [m1|e|] eqn:Hmk.
    + intros [= _ <-]. by eapply os_mkdir_grows.
    + destruct e; try (intros ->%exist_ok_same; apply grows_refl).
      destruct (mkdir_p rooted m rcs) as [[[]|e1|] m1] eqn:Hrec.
      * specialize (IH _ _ _ Hrec).
        destruct (os_mkdir rooted m1 (rev rcs ++ [c])) as [m2|e2|] eqn:Hmk2.
        -- intros [= _ <-]. eapply grows_trans; [done|]. by eapply os_mkdir_grows.
        -- destruct e2; try (intros ->%exist_ok_same; done).
           by intros [= _ <-].
        -- by intros [= _ <-].
      * intros [= _ <-]. by eapply IH.
      * intros [= _ <-]. by eapply IH.
    + intros [= _ <-]. apply grows_refl.
Qed.

Lemma mkdir_parents_grows rooted m cs r m' : mkdir_parents rooted m cs = (r, m') → grows m m'.
Proof. apply mkdir_p_grows. Qed.

End FsFacts.

(** * Paths written as strings and read back *)

Section PathStrings.

Implicit Types (rel : path) (c w : string).

Lemma filter_all {A} (P : A → Prop) `{∀ x, Decision (P x)} (l : list A) :
  Forall P l → filter P l = l.
Proof.
  induction 1 as [|x l Hx Hl IH]; [done|]. rewrite filter_cons_True by done. by f_equal.
Qed.

Lemma valid_name_spec c :
  valid_name c = true ↔ PyStr.mem "/"%char c = false ∧ c ≠ "" ∧ c ≠ "." ∧ c ≠ "..".
Proof.
  unfold valid_name. rewrite andb_true_iff, !negb_true_iff, bool_decide_eq_false.
  tauto.
Qed.

Lemma split_no_sep w : PyStr.mem "/"%char w = false → PyStr.split "/"%char w = [w].
Proof.
  induction w as [|a w IH]; [done|]. cbn [PyStr.mem PyStr.split].
  destruct (decide (a = "/"%char)); [done|]. intros H. by rewrite IH.
Qed.

Lemma split_app_sep w r :
  PyStr.mem "/"%char w = false →
  PyStr.split "/"%char (w +:+ String "/" r) = w :: PyStr.split "/"%char r.
Proof.
  induction w as [|a w IH].
  - intros _. reflexivity.
  - cbn [PyStr.mem]. destruct (decide (a = "/"%char)) as [|Ha]; [done|]. intros H.
    rewrite append_cons. cbn [PyStr.split]. rewrite decide_False by done.
    by rewrite IH.
Qed.

Lemma split_join rel :
  rel ≠ [] → Forall (λ c, PyStr.mem "/"%char c = false) rel →
  PyStr.split "/"%char (PyStr.join "/" rel) = rel.
Proof.
  induction rel as [|w rel IH]; [done|]. intros _ Hall.
  apply Forall_cons in Hall as [Hw Hall].
  destruct rel as [|w' rel].
  - by apply split_no_sep.
  - change (PyStr.join "/" (w :: w' :: rel))
      with (w +:+ String "/" (PyStr.join "/" (w' :: rel))).
    rewrite split_app_sep by done. f_equal. by apply IH.
Qed.

Lemma startswith_sep_join rel :
  Forall (λ c, valid_name c = true) rel → PyStr.startswith "/" (PyStr.join "/" rel) = false.
Proof.
  destruct rel as [|w rel]; [done|]. intros [Hw _]%Forall_cons.
  apply valid_name_spec in Hw as (Hsep & Hne & _).
  destruct w as [|a w]; [done|]. cbn [PyStr.mem] in Hsep.
  destruct (decide (a = "/"%char)) as [|Ha]; [done|].
  destruct rel; simpl; rewrite ?append_cons; simpl;
    (destruct (decide ("/"%char = a)) as [<-|]; done).
Qed.

(** Reading back the posix form of a relative location gives the
    location. *)
Lemma parse_as_posix rel :
  Forall (λ c, valid_name c = true) rel → parse_path (as_posix rel) = PurePath false rel.
Proof.
  intros Hall. unfold parse_path, as_posix. rewrite startswith_sep_join by done. f_equal.
  destruct rel as [|w rel]; [done|].
  rewrite split_join; [|done|].
  - apply filter_all. eapply Forall_impl; [done|].
    intros c (_ & ? & ? & _)%valid_name_spec. unfold is_part.
    apply negb_true_iff, bool_decide_eq_false. tauto.
  - eapply Forall_impl; [done|]. by intros c (? & _)%valid_name_spec.
Qed.

Lemma as_posix_inj rel1 rel2 :
  Forall (λ c, valid_name c = true) rel1 → Forall (λ c, valid_name c = true) rel2 →
  as_posix rel1 = as_posix rel2 → rel1 = rel2.
Proof.
  intros H1 H2 Heq. apply parse_as_posix in H1, H2. rewrite Heq in H1. congruence.
Qed.

Lemma wf_names_lookup m p n :
  wf_names m → m !! p = Some n → Forall (λ c, valid_name c = true) p.
Proof.
  intros Hwf Hp. specialize (Hwf p n Hp). simpl in Hwf.
  apply Forall_forall. intros c Hc. rewrite forallb_forall in Hwf.
  apply Hwf. by apply list_elem_of_In.
Qed.

End PathStrings.

(** * Properties of [create_patch] *)

Section Dict.

Implicit Types (d : manifest) (k : string) (v : minfo).

Lemma dict_get_set k k' v d :
  dict_get k (dict_set k' v d) = if decide (k' = k) then Some v else dict_get k d.
Proof.
  induction d as [|[k0 v0] d IH]; simpl.
  - done.
  - destruct (decide (k0 = k')) as [->|Hne]; simpl.
    + destruct (decide (k' = k)); done.
    + destruct (decide (k0 = k)) as [->|Hne'].
      * by rewrite decide_False by done.
      * done.
Qed.

Lemma dict_set_keys k v d : k ∈ d.*1 → (dict_set k v d).*1 = d.*1.
Proof.
  induction d as [|[k0 v0] d IH]; simpl; [by intros ?%elem_of_nil|].
  destruct (decide (k0 = k)) as [->|Hne]; [done|]. simpl.
  rewrite elem_of_cons. intros [->|Hin]; [done|]. f_equal. by apply IH.
Qed.

Lemma dict_set_keys_new k v d : k ∉ d.*1 → (dict_set k v d).*1 = d.*1 ++ [k].
Proof.
  induction d as [|[k0 v0] d IH]; simpl; [done|].
  rewrite not_elem_of_cons. intros [Hne Hin].
  rewrite decide_False by done. simpl. f_equal. by apply IH.
Qed.

Lemma dict_set_NoDup k v d : NoDup d.*1 → NoDup (dict_set k v d).*1.
Proof.
  intros Hnd. destruct (decide (k ∈ d.*1)) as [Hin|Hin].
  - by rewrite dict_set_keys.
  - rewrite dict_set_keys_new by done. apply NoDup_app. split_and!; [done| |apply NoDup_singleton].
    intros x Hx ->%list_elem_of_singleton. done.
Qed.

Lemma dict_get_Some_keys k v d : dict_get k d = Some v → k ∈ d.*1.
Proof.
  induction d as [|[k0 v0] d IH]; simpl; [done|].
  destruct (decide (k0 = k)) as [->|Hne]; [intros _; by left|].
  intros H. right. by apply IH.
Qed.

(** A key that is present in a dict without repeated keys has one record. *)
Lemma dict_one_record k d :
  NoDup d.*1 → k ∈ d.*1 → length (filter (λ kv, kv.1 = k) d) = 1.
Proof.
  induction d as [|[k0 v0] d IH]; simpl; [by intros _ ?%elem_of_nil|].
  intros [Hk0 Hnd]%NoDup_cons. rewrite elem_of_cons. intros Hin.
  destruct (decide (k0 = k)) as [->|Hne].
  - rewrite filter_cons_True by done. simpl. f_equal.
    clear IH Hin. induction d as [|[k1 v1] d IH]; [done|].
    simpl in Hk0. apply not_elem_of_cons in Hk0 as [Hne Hk0].
    apply NoDup_cons in Hnd as [_ Hnd].
    rewrite filter_cons_False by (simpl; congruence). by apply IH.
  - rewrite filter_cons_False by done. apply IH; [done|]. by destruct Hin.
Qed.

End Dict.

Section CreateFacts.

Context (sha256_hexdigest : string → string)
        (detools_create_patch : string → string → string)
        (archive_bytes : manifest → gmap string string → string)
        (scandir_order : list path → list path)
        (cancelled : nat → bool).

Implicit Types (m : fs) (rel old_dir new_dir : path) (st : creator).

Local Abbreviation record_of := (record_of sha256_hexdigest).

Lemma located_walk m p : located true m p = true → walk true m [] p = Ok p.
Proof. unfold located. by intros ?%bool_decide_eq_true. Qed.

Lemma file_in_read m root rel data :
  file_in m root rel data → read_file true m (root ++ rel) = Ok data.
Proof.
  intros (_ & Hloc & Hd). unfold read_file. rewrite (located_walk _ _ Hloc). simpl.
  by rewrite Hd.
Qed.

Lemma file_in_exists m root rel data :
  file_in m root rel data → path_exists true m (root ++ rel) = Ok true.
Proof.
  intros (_ & Hloc & Hd). unfold path_exists, node_at. rewrite (located_walk _ _ Hloc).
  simpl. by rewrite Hd.
Qed.

Lemma file_in_node m root rel data :
  file_in m root rel data → node_at true m (root ++ rel) = Ok (Some (File data)).
Proof.
  intros (_ & Hloc & Hd). unfold node_at. by rewrite (located_walk _ _ Hloc), Hd.
Qed.

Lemma file_in_valid m root rel data :
  wf_names m → file_in m root rel data → Forall (λ c, valid_name c = true) rel.
Proof.
  intros Hwf (_ & _ & Hd). apply wf_names_lookup in Hd; [|done].
  by apply Forall_app in Hd as [_ ?].
Qed.

Lemma file_in_listed m root rel :
  rel ∈ files_under true m root ↔ ∃ data, file_in m root rel data.
Proof.
  rewrite elem_of_files_under. unfold file_in.
  split; [intros (? & ? & data & ?); by exists data|intros (data & ? & ? & ?); eauto].
Qed.

(** [_sha256sum] is the digest of the whole content, whatever the chunk
    size. *)
Lemma sha256sum_read m p data :
  read_file true m p = Ok data → _sha256sum sha256_hexdigest m p = Ok (sha256_hexdigest data).
Proof.
  intros Hr. unfold _sha256sum. rewrite Hr. unfold mbind, res_bind. do 2 f_equal.
  rewrite read_chunks_concat; [done|apply default_chunk_size_pos|lia].
Qed.

Lemma node_at_read m cs x :
  node_at true m cs = Ok (Some (File x)) ↔ read_file true m cs = Ok x.
Proof.
  unfold node_at, read_file. destruct (walk true m [] cs) as [p| |]; simpl.
  - destruct (m !! p) as [[d|]|]; split; (intros [= ->] || intros [=]); done.
  - split; intros [=].
  - split; intros [=].
Qed.

Lemma read_exists m cs x : read_file true m cs = Ok x → path_exists true m cs = Ok true.
Proof. intros H%node_at_read. unfold path_exists. by rewrite H. Qed.

(** What one turn of the first loop does, for a file of the new tree: the
    record goes into the manifest, and either nothing is written (the old
    file has the same bytes) or one file is. *)
Lemma new_file_step_spec m old_dir new_dir rel n st st' :
  wf_names m → file_in m new_dir rel n →
  new_file_step sha256_hexdigest detools_create_patch m old_dir new_dir rel st = Ok st' →
  st'.1 = dict_set (as_posix rel) (record_of n) st.1 ∧
  (st'.2 = st.2 ∧ read_file true m (old_dir ++ rel) = Ok n
   ∨ ∃ name c, st'.2 = <[name := c]> st.2 ∧
       written_for detools_create_patch m old_dir new_dir rel name c).
Proof.
  intros Hwf Hnew. unfold new_file_step.
  rewrite (parse_as_posix rel) by by eapply file_in_valid.
  unfold joinpath. cbn [absolute parts].
  rewrite (sha256sum_read _ _ n) by by apply file_in_read.
  rewrite (file_in_read _ _ _ _ Hnew). simpl.
  unfold filecmp. rewrite (file_in_node _ _ _ _ Hnew).
  unfold path_exists.
  destruct (node_at true m (old_dir ++ rel)) as [[[x|]|]| |] eqn:Hold; simpl; try done.
  - apply node_at_read in Hold. rewrite Hold. simpl.
    destruct (decide (x = n)) as [->|Hne].
    + rewrite bool_decide_eq_true_2 by done. intros [= <-]. simpl. auto.
    + rewrite bool_decide_eq_false_2 by done. intros [= <-]. simpl. split; [done|].
      right. do 2 eexists. split; [done|]. by eapply written_delta.
  - unfold read_file. unfold node_at in Hold.
    destruct (walk true m [] (old_dir ++ rel)) as [p| |]; simpl in *; try done.
    injection Hold as ->. done.
  - intros [= <-]. simpl. split; [done|]. right. do 2 eexists. split; [done|].
    eapply written_full; [done|]. unfold path_exists. by rewrite Hold.
Qed.

(** What one turn of the second loop does, for a file of the old tree. *)
Lemma old_file_step_spec m old_dir new_dir rel o st st' :
  wf_names m → file_in m old_dir rel o →
  old_file_step m new_dir rel st = Ok st' →
  st'.1 = st.1 ∧
  (st'.2 = st.2 ∧ path_exists true m (new_dir ++ rel) = Ok true
   ∨ ∃ name c, st'.2 = <[name := c]> st.2 ∧
       written_for detools_create_patch m old_dir new_dir rel name c).
Proof.
  intros Hwf Hold. unfold old_file_step.
  rewrite (parse_as_posix rel) by by eapply file_in_valid.
  unfold joinpath. cbn [absolute parts].
  destruct (path_exists true m (new_dir ++ rel)) as [[]| |] eqn:Hex; simpl; try done.
  - intros [= <-]. auto.
  - intros [= <-]. simpl. split; [done|]. right. do 2 eexists. split; [done|].
    by eapply written_delete.
Qed.

(** The first loop: the manifest gets the record of every file it visits,
    and every file of the scratch directory is accounted for. *)
Lemma new_files_loop_spec m old_dir new_dir files : ∀ i st st',
  wf_names m →
  Forall (λ rel, ∃ n, file_in m new_dir rel n) files →
  new_files_loop sha256_hexdigest detools_create_patch cancelled m old_dir new_dir i files st
    = Ok st' →
  NoDup st.1.*1 →
  NoDup st'.1.*1 ∧
  (∀ rel n, file_in m new_dir rel n →
     rel ∈ files ∨ dict_get (as_posix rel) st.1 = Some (record_of n) →
     dict_get (as_posix rel) st'.1 = Some (record_of n)) ∧
  (∀ name c, st'.2 !! name = Some c →
     st.2 !! name = Some c ∨
     ∃ rel, rel ∈ files ∧ written_for detools_create_patch m old_dir new_dir rel name c).
Proof.
  induction files as [|rel0 files IH]; intros i st st' Hwf Hall; simpl.
  - intros [= <-] Hnd. split_and!; [done| |by auto].
    intros rel n _ [?%elem_of_nil|?]; done.
  - apply Forall_cons in Hall as [[n0 Hrel0] Hall].
    unfold _check_cancel. destruct (cancelled i); [done|]. simpl.
    destruct (new_file_step _ _ m old_dir new_dir rel0 st) as [st1| |] eqn:Hstep; try done.
    simpl. intros Hloop Hnd.
    destruct (new_file_step_spec _ _ _ _ _ _ _ Hwf Hrel0 Hstep) as [Hman Hfiles].
    destruct (IH _ _ _ Hwf Hall Hloop) as (Hnd' & Hget & Hacc).
    { rewrite Hman. by apply dict_set_NoDup. }
    split_and!; [done| |].
    + intros rel n Hrel Hin. apply Hget; [done|].
      destruct (decide (rel ∈ files)) as [|Hnin]; [by left|right].
      rewrite Hman, dict_get_set.
      destruct (decide (as_posix rel0 = as_posix rel)) as [Heq|Hne].
      * apply as_posix_inj in Heq; [|by eapply file_in_valid..]. subst rel0.
        destruct Hrel0 as (_ & _ & E0), Hrel as (_ & _ & E). congruence.
      * destruct Hin as [Hin|Hin]; [|done].
        apply elem_of_cons in Hin as [->|Hin]; done.
    + intros name c Hc. destruct (Hacc _ _ Hc) as [Hst1|(rel & Hin & Hw)].
      * destruct Hfiles as [[E _]|(name0 & c0 & E & Hw)]; rewrite E in Hst1; [by left|].
        destruct (decide (name0 = name)) as [->|Hne].
        -- rewrite lookup_insert_eq in Hst1. injection Hst1 as ->.
           right. exists rel0. split; [by left|done].
        -- rewrite lookup_insert_ne in Hst1 by done. by left.
      * right. exists rel. split; [by right|done].
Qed.

Lemma old_files_loop_spec m old_dir new_dir files : ∀ i st st',
  wf_names m →
  Forall (λ rel, ∃ o, file_in m old_dir rel o) files →
  old_files_loop cancelled m new_dir i files st = Ok st' →
  st'.1 = st.1 ∧
  (∀ name c, st'.2 !! name = Some c →
     st.2 !! name = Some c ∨
     ∃ rel, rel ∈ files ∧ written_for detools_create_patch m old_dir new_dir rel name c).
Proof.
  induction files as [|rel0 files IH]; intros i st st' Hwf Hall; simpl.
  - intros [= <-]. auto.
  - apply Forall_cons in Hall as [[o0 Hrel0] Hall].
    unfold _check_cancel. destruct (cancelled i); [done|]. simpl.
    destruct (old_file_step m new_dir rel0 st) as [st1| |] eqn:Hstep; try done.
    simpl. intros Hloop.
    destruct (old_file_step_spec _ _ _ _ _ _ _ Hwf Hrel0 Hstep) as [Hman Hfiles].
    destruct (IH _ _ _ Hwf Hall Hloop) as (Hman' & Hacc).
    split; [congruence|].
    intros name c Hc. destruct (Hacc _ _ Hc) as [Hst1|(rel & Hin & Hw)].
    + destruct Hfiles as [[E _]|(name0 & c0 & E & Hw)]; rewrite E in Hst1; [by left|].
      destruct (decide (name0 = name)) as [->|Hne].
      * rewrite lookup_insert_eq in Hst1. injection Hst1 as ->.
        right. exists rel0. split; [by left|done].
      * rewrite lookup_insert_ne in Hst1 by done. by left.
    + right. exists rel. split; [by right|done].
Qed.

Hypothesis scandir_perm : ∀ l, scandir_order l ≡ₚ l.

Lemma scandir_listed m root :
  Forall (λ rel, ∃ d, file_in m root rel d) (scandir_order (files_under true m root)).
Proof.
  apply Forall_forall. intros rel Hin. rewrite scandir_perm in Hin.
  by apply file_in_listed.
Qed.

(** The scratch directory and the manifest that the two loops leave. *)
Lemma build_patch_tmp_spec m old_dir new_dir st :
  wf_names m →
  build_patch_tmp sha256_hexdigest detools_create_patch scandir_order cancelled
    m old_dir new_dir = Ok st →
  NoDup st.1.*1 ∧
  (∀ rel n, file_in m new_dir rel n → dict_get (as_posix rel) st.1 = Some (record_of n)) ∧
  (∀ name c, st.2 !! name = Some c →
     ∃ rel, written_for detools_create_patch m old_dir new_dir rel name c).
Proof.
  intros Hwf. unfold build_patch_tmp.
  destruct (new_files_loop _ _ _ _ _ _ _ _ _) as [st1| |] eqn:Hnew; try done. simpl.
  intros Hold.
  destruct (new_files_loop_spec _ _ _ _ _ _ _ Hwf (scandir_listed _ _) Hnew)
    as (Hnd & Hget & Hacc); [apply NoDup_nil_2|].
  destruct (old_files_loop_spec _ old_dir _ _ _ _ _ Hwf (scandir_listed _ _) Hold)
    as (Hman & Hacc').
  rewrite Hman. split_and!; [done| |].
  - intros rel n Hrel. apply Hget; [done|]. left. rewrite scandir_perm.
    apply file_in_listed. eauto.
  - intros name c Hc. destruct (Hacc' _ _ Hc) as [Hst1|(rel & _ & Hw)]; [|by eauto].
    destruct (Hacc _ _ Hst1) as [Hempty|(rel & _ & Hw)]; [|by eauto].
    simpl in Hempty. by rewrite lookup_empty in Hempty.
Qed.

End CreateFacts.

(** * The claims about [create_patch] *)

Section CreateClaims.

Context (sha256_hexdigest : string → string)
        (detools_create_patch : string → string → string)
        (archive_bytes : manifest → gmap string string → string)
        (scandir_order : list path → list path)
        (cancelled : nat → bool).

Local Abbreviation create_patch :=
  (create_patch sha256_hexdigest detools_create_patch archive_bytes scandir_order cancelled).
Local Abbreviation build_patch_tmp :=
  (build_patch_tmp sha256_hexdigest detools_create_patch scandir_order cancelled).

(** A run that returns has gone through both loops and has written the
    whole archive at the destination. *)
Lemma create_patch_returns write_fault old_dir new_dir patch_package m m' :
  create_patch write_fault old_dir new_dir patch_package m = (Ok (), m') →
  ∃ st dest,
    build_patch_tmp m old_dir new_dir = Ok st ∧
    walk true m [] patch_package = Ok dest ∧
    m' = <[dest := File (archive_bytes st.1 st.2)]> m.
Proof.
  unfold Model.create_patch.
  destruct (build_patch_tmp m old_dir new_dir) as [st| |]; try (by intros [=]).
  unfold write_file.
  destruct (walk true m [] patch_package) as [dest| |] eqn:Hw; simpl; try (by intros [=]).
  assert (∀ d, dirs_kept m (<[dest := File d]> m) → 
     walk true (<[dest:=File d]> m) [] patch_package = Ok dest) as Hw'.
  { intros d Hk. by eapply walk_mono. }
  destruct (m !! dest) as [[d0|]|] eqn:Hd; try (by intros [=]).
  - rewrite Hw' by (apply insert_file_dirs_kept; congruence). simpl.
    rewrite lookup_insert_eq.
    destruct write_fault; intros [= <-]. exists st, dest. by rewrite insert_insert_eq.
  - rewrite Hw' by (apply insert_file_dirs_kept; congruence). simpl.
    rewrite lookup_insert_eq.
    destruct write_fault; intros [= <-]. exists st, dest. by rewrite insert_insert_eq.
Qed.

(** C8. Manifest completeness: after a successful [create_patch], the
    manifest packed into the archive holds, for every regular file of the
    new tree, exactly one record under its relative path, with the digest
    of the file's content and its size in bytes. *)
Theorem manifest_complete write_fault old_dir new_dir patch_package m m' :
  (∀ l, scandir_order l ≡ₚ l) → wf_names m →
  create_patch write_fault old_dir new_dir patch_package m = (Ok (), m') →
  ∃ items files dest,
    walk true m [] patch_package = Ok dest ∧
    m' !! dest = Some (File (archive_bytes items files)) ∧
    ∀ rel data, file_in m new_dir rel data →
      dict_get (as_posix rel) items
        = Some (MInfo (sha256_hexdigest data) (PyStr.len data)) ∧
      length (filter (λ kv, kv.1 = as_posix rel) items) = 1.
Proof.
  intros Hperm Hwf (st & dest & Hbuild & Hw & ->)%create_patch_returns.
  destruct (build_patch_tmp_spec _ _ _ _ Hperm _ _ _ _ Hwf Hbuild) as (Hnd & Hget & _).
  exists st.1, st.2, dest. split_and!; [done|by rewrite lookup_insert_eq|].
  intros rel data Hrel. specialize (Hget _ _ Hrel). split; [done|].
  apply dict_one_record; [done|]. by eapply dict_get_Some_keys.
Qed.


End CreateClaims.

(** * Calls on plain paths *)

Section PlainPaths.

Implicit Types (m : fs) (p q cur par : path) (cs : list string) (c : string).

Lemma elem_of_rev c cs : c ∈ rev cs ↔ c ∈ cs.
Proof. rewrite !list_elem_of_In. symmetry. apply in_rev. Qed.

Lemma walk_plain_dirs rooted m cur cs p k1 k2 :
  ".." ∉ cs → walk rooted m cur cs = Ok p → cs = k1 ++ k2 → k2 ≠ [] →
  m !! (cur ++ k1) = Some Dir.
Proof.
  intros Hcs Hw -> Hk2. rewrite walk_app in Hw.
  apply not_elem_of_app in Hcs as [Hk1 _].
  destruct (walk_plain rooted m cur k1 Hk1) as [E|[e E]]; rewrite E in Hw; [|done].
  simpl in Hw. destruct k2 as [|c k2]; [done|]. simpl in Hw.
  by destruct (m !! (cur ++ k1)) as [[]|].
Qed.

(** Below a directory that is in place, nothing above it is missing. *)
Lemma dir_at_prefix_dir rooted m p q :
  ".." ∉ p → dir_at rooted m p → q `prefix_of` p → m !! q = Some Dir.
Proof.
  intros Hp [Hw Hd] [k ->]. destruct k as [|c k].
  - by rewrite app_nil_r in Hd.
  - by eapply (walk_plain_dirs rooted m [] (q ++ c :: k) _ q (c :: k)).
Qed.

Lemma dir_at_prefix rooted m p q :
  ".." ∉ p → dir_at rooted m p → q `prefix_of` p → dir_at rooted m q.
Proof.
  intros Hp Hdir Hpre. split; [|by eapply dir_at_prefix_dir].
  destruct Hpre as [k ->]. destruct Hdir as [Hw _]. rewrite walk_app in Hw.
  apply not_elem_of_app in Hp as [Hq _].
  destruct (walk_plain rooted m [] q Hq) as [E|[e E]]; rewrite E in Hw; done.
Qed.

Lemma node_at_child rooted m par c :
  dir_at rooted m par → c ≠ ".." → node_at rooted m (par ++ [c]) = Ok (m !! (par ++ [c])).
Proof. intros Hd Hc. unfold node_at. by rewrite walk_child. Qed.

Lemma node_at_dir rooted m p : dir_at rooted m p → node_at rooted m p = Ok (Some Dir).
Proof. intros [Hw Hd]. unfold node_at. by rewrite Hw, Hd. Qed.

Lemma is_dir_dir rooted m p : dir_at rooted m p → is_dir rooted m p = Ok true.
Proof. intros Hd. unfold is_dir. by rewrite node_at_dir. Qed.

(** [Path.mkdir(parents=True, exist_ok=True)] on a directory that is in
    place changes nothing. *)
Lemma mkdir_parents_existing rooted m p :
  dir_at rooted m p → mkdir_parents rooted m p = (Ok (), m).
Proof.
  intros Hdir. pose proof Hdir as [Hw Hd]. unfold mkdir_parents.
  assert (os_mkdir rooted m p = Raise FileExistsError) as Hmk.
  { unfold os_mkdir. rewrite Hw. simpl. by rewrite Hd. }
  destruct (rev p) as [|c rcs] eqn:Hrev; simpl.
  - assert (p = []) as -> by by apply (f_equal (@rev string)) in Hrev; rewrite rev_involutive in Hrev.
    rewrite Hmk. unfold exist_ok. by rewrite is_dir_dir.
  - assert (rev rcs ++ [c] = p) as ->.
    { apply (f_equal (@rev string)) in Hrev. by rewrite rev_involutive in Hrev. }
    rewrite Hmk. unfold exist_ok. by rewrite is_dir_dir.
Qed.

(** [Path.mkdir(parents=True, exist_ok=True)] on a path without "..": only
    missing prefixes of the path become directories, and on success the
    path is a directory in place. *)
Lemma mkdir_p_plain rooted rcs : ∀ m r m',
  ".." ∉ rcs → mkdir_p rooted m rcs = (r, m') →
  grows m m' ∧ (∀ q, m' !! q ≠ m !! q → q `prefix_of` rev rcs) ∧
  (r = Ok () → dir_at rooted m' (rev rcs)).
Proof.
  induction rcs as [|c rcs IH]; intros m r m' Hplain Hrun.
  - pose proof (mkdir_p_grows _ _ _ _ _ Hrun) as Hg. split; [done|].
    simpl in Hrun. unfold os_mkdir in Hrun. simpl in Hrun.
    destruct (m !! []) as [n|] eqn:Hroot.
    + unfold exist_ok, is_dir, node_at in Hrun. simpl in Hrun. rewrite Hroot in Hrun.
      simpl in Hrun. destruct n as [d|].
      * rewrite bool_decide_eq_false_2 in Hrun by done. injection Hrun as <- <-.
        split; [done|done].
      * rewrite bool_decide_eq_true_2 in Hrun by done. injection Hrun as <- <-.
        split; [done|]. intros _. by split.
    + injection Hrun as <- <-. split.
      * intros q Hq. destruct (decide (q = [])) as [->|Hne]; [done|].
        by rewrite lookup_insert_ne in Hq.
      * intros _. split; [done|]. by rewrite lookup_insert_eq.
  - pose proof (mkdir_p_grows _ _ _ _ _ Hrun) as Hg. split; [done|].
    apply not_elem_of_cons in Hplain as [Hc%not_eq_sym Hplain].
    assert (".." ∉ rev rcs ++ [c]) as Hplain'.
    { rewrite elem_of_app, list_elem_of_singleton, elem_of_rev. by intros [?|?]. }
    simpl in Hrun. unfold os_mkdir in Hrun at 1. simpl.
    destruct (walk_plain rooted m [] (rev rcs ++ [c]) Hplain') as [Hw|[e Hw]];
      simpl in Hw; rewrite Hw in Hrun; simpl in Hrun.
    + (* the walk arrives *)
      destruct (m !! (rev rcs ++ [c])) as [n|] eqn:Hn.
      * unfold exist_ok, is_dir, node_at in Hrun. rewrite Hw, Hn in Hrun. simpl in Hrun.
        destruct n as [d|].
        -- rewrite bool_decide_eq_false_2 in Hrun by done. by injection Hrun as <- <-.
        -- rewrite bool_decide_eq_true_2 in Hrun by done. injection Hrun as <- <-.
           split; [done|]. intros _. by split.
      * injection Hrun as <- <-. split.
        -- intros q Hq. destruct (decide (q = rev rcs ++ [c])) as [->|Hne]; [done|].
           by rewrite lookup_insert_ne in Hq.
        -- intros _. split; [|by rewrite lookup_insert_eq].
           eapply walk_mono; [|done]. apply grows_dirs_kept. by apply insert_dir_grows.
    + (* the walk fails *)
      assert (∀ e, exist_ok rooted m (rev rcs ++ [c]) e = (Raise e, m)) as Hex.
      { intros e'. unfold exist_ok, is_dir, node_at. by rewrite Hw. }
      destruct e; rewrite ?Hex in Hrun; try (injection Hrun as <- <-; by split).
      destruct (mkdir_p rooted m rcs) as [r1 m1] eqn:Hrec.
      destruct (IH _ _ _ Hplain Hrec) as (Hg1 & Hch1 & Hdir1).
      assert (∀ q, m1 !! q ≠ m !! q → q `prefix_of` rev rcs ++ [c]) as Hch1'.
      { intros q Hq. by apply prefix_app_r, Hch1. }
      destruct r1 as [[]|e1|]; [|by injection Hrun as <- <-..].
      specialize (Hdir1 eq_refl).
      unfold os_mkdir in Hrun. rewrite (walk_child _ _ _ _ Hdir1 Hc) in Hrun.
      simpl in Hrun.
      destruct (m1 !! (rev rcs ++ [c])) as [n|] eqn:Hn.
      * unfold exist_ok, is_dir in Hrun. rewrite (node_at_child _ _ _ _ Hdir1 Hc) in Hrun.
        rewrite Hn in Hrun. simpl in Hrun. destruct n as [d|].
        -- rewrite bool_decide_eq_false_2 in Hrun by done. by injection Hrun as <- <-.
        -- rewrite bool_decide_eq_true_2 in Hrun by done. injection Hrun as <- <-.
           split; [done|]. intros _. split; [by apply walk_child|done].
      * injection Hrun as <- <-. split.
        -- intros q Hq. destruct (decide (q = rev rcs ++ [c])) as [->|Hne]; [done|].
           rewrite lookup_insert_ne in Hq by done. by apply Hch1'.
        -- intros _. split; [|by rewrite lookup_insert_eq].
           eapply walk_mono; [|by apply walk_child].
           apply grows_dirs_kept. by apply insert_dir_grows.
Qed.

Lemma mkdir_parents_plain rooted m cs r m' :
  ".." ∉ cs → mkdir_parents rooted m cs = (r, m') →
  grows m m' ∧ (∀ q, m' !! q ≠ m !! q → q `prefix_of` cs) ∧
  (r = Ok () → dir_at rooted m' cs).
Proof.
  intros Hcs Hrun. unfold mkdir_parents in Hrun.
  apply mkdir_p_plain in Hrun; [|by rewrite elem_of_rev].
  by rewrite rev_involutive in Hrun.
Qed.

(** Below a directory that is in place, such a call stays below it. *)
Lemma mkdir_parents_below rooted m root cs r m' :
  ".." ∉ root ++ cs → dir_at rooted m root →
  mkdir_parents rooted m (root ++ cs) = (r, m') →
  same_outside root m m'.
Proof.
  intros Hplain Hroot Hrun q Hq.
  destruct (mkdir_parents_plain _ _ _ _ _ Hplain Hrun) as (Hg & Hch & _).
  destruct (decide (m' !! q = m !! q)) as [|Hne]; [done|].
  specialize (Hch _ Hne).
  destruct (prefix_weak_total q root (root ++ cs) Hch (prefix_app_r _ _ _ (reflexivity _)))
    as [Hqr|Hrq]; [|done].
  apply not_elem_of_app in Hplain as [Hr _].
  pose proof (dir_at_prefix_dir _ _ _ _ Hr Hroot Hqr) as Hd.
  destruct (Hg q) as [?|[? _]]; congruence.
Qed.

End PlainPaths.

(** * The calls of one loop turn, on a path below a directory in place *)

Section ChildCalls.

Implicit Types (m t r : fs) (p q par : path) (c x : string).

Lemma parent_snoc par x : parent (par ++ [x]) = par.
Proof. apply removelast_last. Qed.

Lemma basename_snoc par x : basename (par ++ [x]) = x.
Proof. apply last_last. Qed.

Lemma add_suffix_snoc par x suffix : add_suffix (par ++ [x]) suffix = par ++ [x +:+ suffix].
Proof.
  unfold add_suffix. destruct (par ++ [x]) eqn:E; [by destruct par|].
  rewrite <-E. by rewrite removelast_last, last_last.
Qed.

Lemma length_append (s1 s2 : string) :
  String.length (s1 +:+ s2) = String.length s1 + String.length s2.
Proof. induction s1 as [|a s1 IH]; [done|]. rewrite append_cons. simpl. by rewrite IH. Qed.

Lemma tmp_name_not_dotdot x : x +:+ ".tmp" ≠ "..".
Proof. intros H%(f_equal String.length). rewrite length_append in H. simpl in H. lia. Qed.

Lemma tmp_name_neq x : x +:+ ".tmp" ≠ x.
Proof. intros H%(f_equal String.length). rewrite length_append in H. simpl in H. lia. Qed.

Lemma path_exists_child rooted m par c :
  dir_at rooted m par → c ≠ ".." →
  path_exists rooted m (par ++ [c]) = Ok (bool_decide (is_Some (m !! (par ++ [c])))).
Proof. intros Hd Hc. unfold path_exists. by rewrite node_at_child. Qed.

Lemma is_dir_child rooted m par c :
  dir_at rooted m par → c ≠ ".." →
  is_dir rooted m (par ++ [c]) = Ok (bool_decide (m !! (par ++ [c]) = Some Dir)).
Proof. intros Hd Hc. unfold is_dir. by rewrite node_at_child. Qed.

Lemma read_file_child rooted m par c :
  dir_at rooted m par → c ≠ ".." →
  read_file rooted m (par ++ [c]) =
  match m !! (par ++ [c]) with
  | Some (File d) => Ok d
  | Some Dir => Raise IsADirectoryError
  | None => Raise FileNotFoundError
  end.
Proof. intros Hd Hc. unfold read_file. by rewrite walk_child. Qed.

Lemma write_file_child rooted m par c d :
  dir_at rooted m par → c ≠ ".." →
  write_file rooted m (par ++ [c]) d =
  match m !! (par ++ [c]) with
  | Some Dir => Raise IsADirectoryError
  | _ => Ok (<[par ++ [c] := File d]> m)
  end.
Proof. intros Hd Hc. unfold write_file. by rewrite walk_child. Qed.

Lemma os_remove_child rooted m par c :
  dir_at rooted m par → c ≠ ".." →
  os_remove rooted m (par ++ [c]) =
  match m !! (par ++ [c]) with
  | Some (File _) => Ok (delete (par ++ [c]) m)
  | Some Dir => Raise IsADirectoryError
  | None => Raise FileNotFoundError
  end.
Proof. intros Hd Hc. unfold os_remove. by rewrite walk_child. Qed.

Lemma os_replace_child rooted m par c1 c2 :
  dir_at rooted m par → c1 ≠ ".." → c2 ≠ ".." →
  os_replace rooted m (par ++ [c1]) (par ++ [c2]) =
  match m !! (par ++ [c1]) with
  | Some (File d) =>
      match m !! (par ++ [c2]) with
      | Some Dir => Raise IsADirectoryError
      | _ => Ok (<[par ++ [c2] := File d]> (delete (par ++ [c1]) m))
      end
  | Some Dir => Raise IsADirectoryError
  | None => Raise FileNotFoundError
  end.
Proof. intros Hd H1 H2. unfold os_replace. by rewrite !walk_child. Qed.

(** [shutil.copy2] onto a path that is not a directory writes that path. *)
Lemma copy2_into_child rooted m par c name d :
  dir_at rooted m par → c ≠ ".." → m !! (par ++ [c]) ≠ Some Dir →
  copy2_into rooted m name (Ok d) (par ++ [c]) = Ok (<[par ++ [c] := File d]> m).
Proof.
  intros Hd Hc Hn. unfold copy2_into. rewrite is_dir_child by done. simpl.
  rewrite bool_decide_eq_false_2 by done. rewrite write_file_child by done.
  by destruct (m !! (par ++ [c])) as [[]|].
Qed.

Lemma dir_at_insert_file rooted m par p d :
  m !! p ≠ Some Dir → dir_at rooted m par → dir_at rooted (<[p := File d]> m) par.
Proof. intros Hp. apply dir_at_mono. by apply insert_file_dirs_kept. Qed.

Lemma dir_at_delete_file rooted m par p :
  m !! p ≠ Some Dir → dir_at rooted m par → dir_at rooted (delete p m) par.
Proof. intros Hp. apply dir_at_mono. by apply delete_file_dirs_kept. Qed.

End ChildCalls.

(** * Running the steps of the state monad *)

Section IoFacts.

Context {A B : Type}.

Lemma io_bind_run (c : io A) (f : A → io B) s :
  (c ≫= f) s =
  match c s with
  | (Ok a, s') => f a s'
  | (Raise e, s') => (Raise e, s')
  | (Astray, s') => (Astray, s')
  end.
Proof. reflexivity. Qed.

Lemma io_ret_run (a : A) s : (mret a : io A) s = (Ok a, s).
Proof. reflexivity. Qed.

Lemma raise_run e s : (raise e : io A) s = (Raise e, s).
Proof. reflexivity. Qed.

Lemma ask_target_run (f : fs → res A) s : ask_target f s = (f (target s), s).
Proof. reflexivity. Qed.

End IoFacts.

Lemma on_target_run f s :
  on_target f s =
  match f (target s) with
  | Ok t => (Ok (), State t (rollback s))
  | Raise e => (Raise e, s)
  | Astray => (Astray, s)
  end.
Proof. reflexivity. Qed.

Lemma on_rollback_run f s :
  on_rollback f s =
  match f (target s) (rollback s) with
  | Ok r => (Ok (), State (target s) r)
  | Raise e => (Raise e, s)
  | Astray => (Astray, s)
  end.
Proof. reflexivity. Qed.

Lemma target_step_run f s :
  target_step f s = ((f (target s)).1, State (f (target s)).2 (rollback s)).
Proof. unfold target_step. by destruct (f (target s)). Qed.

Lemma rollback_step_run f s :
  rollback_step f s = ((f (rollback s)).1, State (target s) (f (rollback s)).2).
Proof. unfold rollback_step. by destruct (f (rollback s)). Qed.

(** One step of a computation applied to a state. *)
Ltac io_step :=
  rewrite ?io_bind_run;
  first [ rewrite ask_target_run | rewrite on_target_run | rewrite on_rollback_run
        | rewrite target_step_run | rewrite rollback_step_run
        | rewrite raise_run | rewrite io_ret_run ];
  cbn [target rollback fst snd].

(** * One turn of the loop of [apply_patch] *)

Section EntryFacts.

Context (detools_apply_patch : string → string → string + string).

Implicit Types (t r : fs) (p q par game : path) (x name data : string) (s : state).

Local Arguments path_exists : simpl never.
Local Arguments is_dir : simpl never.
Local Arguments read_file : simpl never.
Local Arguments write_file : simpl never.
Local Arguments os_remove : simpl never.
Local Arguments os_replace : simpl never.
Local Arguments copy2_into : simpl never.
Local Arguments mkdir_parents : simpl never.
Local Arguments add_suffix : simpl never.
Local Arguments parent : simpl never.
Local Arguments basename : simpl never.

Local Abbreviation apply_delta := (apply_delta detools_apply_patch).
Local Abbreviation apply_entry := (apply_entry detools_apply_patch).

Lemma insert_delete_insert_insert t (k1 k2 : path) (a b c : node) :
  k1 ≠ k2 →
  <[k2 := c]> (delete k1 (<[k1 := b]> (<[k1 := a]> t))) = <[k2 := c]> (delete k1 t).
Proof. intros Hne. by rewrite insert_insert_eq, delete_insert_eq. Qed.

(** Lines 208-215 on a target below a directory in place: either nothing
    happens, or the old file is rebuilt through the scratch file and
    replaced, or the scratch file is left with what had been written. *)
Lemma apply_delta_spec par x data t r out s' :
  dir_at true t par → x ≠ ".." →
  apply_delta (par ++ [x]) data (State t r) = (out, s') →
  rollback s' = r ∧
  (target s' = t ∧ out ≠ Ok ()
   ∨ ∃ c, t !! (par ++ [x]) = Some (File c) ∧ t !! (par ++ [x +:+ ".tmp"]) ≠ Some Dir ∧
       ((∃ new, detools_apply_patch c data = inr new ∧ out = Ok () ∧
                target s' = <[par ++ [x] := File new]> (delete (par ++ [x +:+ ".tmp"]) t))
        ∨ (∃ written, detools_apply_patch c data = inl written ∧ out = Raise DetoolsError ∧
                target s' = <[par ++ [x +:+ ".tmp"] := File written]> t))).
Proof.
  intros Hpar Hx. unfold Model.apply_delta. io_step.
  rewrite path_exists_child by done.
  rewrite add_suffix_snoc.
  destruct (t !! (par ++ [x])) as [[c|]|] eqn:Htf.
  2:{ rewrite bool_decide_eq_true_2 by eauto. cbn [negb]. io_step.
      rewrite read_file_child, Htf by done. intros [= <- <-]. split; [done|]. by left. }
  2:{ rewrite bool_decide_eq_false_2 by by intros [??]. cbn [negb]. io_step.
      intros [= <- <-]. split; [done|]. by left. }
  rewrite bool_decide_eq_true_2 by eauto. cbn [negb]. io_step.
  rewrite read_file_child, Htf by done. io_step.
  pose proof (tmp_name_not_dotdot x) as Htmp. pose proof (tmp_name_neq x) as Hneq.
  assert (par ++ [x +:+ ".tmp"] ≠ par ++ [x]) as Hne by by intros [= ?]%app_inv_head.
  rewrite write_file_child by done.
  destruct (decide (t !! (par ++ [x +:+ ".tmp"]) = Some Dir)) as [Hd|Hd].
  { rewrite Hd. intros [= <- <-]. split; [done|]. by left. }
  assert (∀ (b : res fs) d, match t !! (par ++ [x +:+ ".tmp"]) with
            | Some Dir => b
            | _ => Ok (<[par ++ [x +:+ ".tmp"] := File d]> t)
            end = Ok (<[par ++ [x +:+ ".tmp"] := File d]> t)) as ->.
  { intros b d. by destruct (t !! (par ++ [x +:+ ".tmp"])) as [[]|]. }
  assert (dir_at true (<[par ++ [x +:+ ".tmp"] := File ""]> t) par) as Hpar1
    by by apply dir_at_insert_file.
  destruct (detools_apply_patch c data) as [written|new] eqn:HD.
  - io_step. rewrite write_file_child by done. rewrite lookup_insert_eq. io_step.
    intros [= <- <-]. split; [done|]. right. exists c. split_and!; [done..|].
    right. exists written. by rewrite insert_insert_eq.
  - io_step. rewrite write_file_child by done. rewrite lookup_insert_eq. io_step.
    rewrite os_replace_child; [|by apply dir_at_insert_file; rewrite ?lookup_insert_eq|done..].
    rewrite lookup_insert_eq, lookup_insert_ne, lookup_insert_ne, Htf by done.
    intros [= <- <-]. split; [done|]. right. exists c. split_and!; [done..|].
    left. exists new. split_and!; [done..|]. cbn.
    by apply insert_delete_insert_insert.
Qed.

(** Lines 203-206 for a relative path with a last component: the target is
    not changed; directories appear in [rollback] along the parent of the
    backup path, and on success the bytes of the target are in [rollback]. *)
Lemma backup_spec rel par ps' x t r out s' :
  absolute rel = false → parts rel = ps' ++ [x] → ".." ∉ ps' → x ≠ ".." →
  dir_at true t par →
  backup rel (par ++ [x]) (State t r) = (out, s') →
  target s' = t ∧
  ∃ r1, grows r r1 ∧ (∀ q, r1 !! q ≠ r !! q → q `prefix_of` ps') ∧
    (rollback s' = r1 ∧ out ≠ Ok ()
     ∨ ∃ c k, t !! (par ++ [x]) = Some (File c) ∧ dir_at false r1 ps' ∧ out = Ok () ∧
         rollback s' = <[k := File c]> r1 ∧ r1 !! k ≠ Some Dir ∧
         (r1 !! (ps' ++ [x]) ≠ Some Dir ∧ k = ps' ++ [x]
          ∨ r1 !! (ps' ++ [x]) = Some Dir ∧ k = (ps' ++ [x]) ++ [x])).
Proof.
  intros Habs Hparts Hps' Hx Hpar. unfold backup. rewrite Habs, Hparts. io_step.
  assert (∀ (u v : res unit * fs),
            match ps' ++ [x] with [] => u | _ :: _ => v end = v) as Hcons
    by (intros; by destruct ps').
  rewrite !Hcons, parent_snoc.
  destruct (mkdir_parents false r ps') as [o r1] eqn:Hmk.
  destruct (mkdir_parents_plain _ _ _ _ _ Hps' Hmk) as (Hg & Hch & Hdir).
  cbn [fst snd]. destruct o as [[]|e|]; cycle 1.
  { intros [= <- <-]. split; [done|]. exists r1. split_and!; [done..|]. by left. }
  { intros [= <- <-]. split; [done|]. exists r1. split_and!; [done..|]. by left. }
  specialize (Hdir eq_refl). io_step.
  unfold copy2_into. rewrite is_dir_child by done. cbn [mbind res_bind].
  rewrite read_file_child, basename_snoc by done.
  destruct (t !! (par ++ [x])) as [[c|]|] eqn:Htf; cbn [mbind res_bind]; cycle 1.
  { intros [= <- <-]. split; [done|]. exists r1. split_and!; [done..|]. by left. }
  { intros [= <- <-]. split; [done|]. exists r1. split_and!; [done..|]. by left. }
  destruct (decide (r1 !! (ps' ++ [x]) = Some Dir)) as [Hd|Hd].
  - rewrite bool_decide_eq_true_2 by done.
    assert (dir_at false r1 (ps' ++ [x])) as Hdir' by (split; [by apply walk_child|done]).
    rewrite write_file_child by done.
    destruct (decide (r1 !! ((ps' ++ [x]) ++ [x]) = Some Dir)) as [Hd2|Hd2].
    + rewrite Hd2. intros [= <- <-]. split; [done|]. exists r1. split_and!; [done..|]. by left.
    + assert (∀ (b : res fs), match r1 !! ((ps' ++ [x]) ++ [x]) with
            | Some Dir => b
            | _ => Ok (<[(ps' ++ [x]) ++ [x] := File c]> r1)
            end = Ok (<[(ps' ++ [x]) ++ [x] := File c]> r1)) as ->.
      { intros b. by destruct (r1 !! ((ps' ++ [x]) ++ [x])) as [[]|]. }
      intros [= <- <-]. split; [done|]. exists r1. split_and!; [done..|].
      right. exists c, ((ps' ++ [x]) ++ [x]). split_and!; [done..|]. by right.
  - rewrite bool_decide_eq_false_2 by done. rewrite write_file_child by done.
    assert (∀ (b : res fs), match r1 !! (ps' ++ [x]) with
            | Some Dir => b
            | _ => Ok (<[ps' ++ [x] := File c]> r1)
            end = Ok (<[ps' ++ [x] := File c]> r1)) as ->.
    { intros b. by destruct (r1 !! (ps' ++ [x])) as [[]|]. }
    intros [= <- <-]. split; [done|]. exists r1. split_and!; [done..|].
    right. exists c, (ps' ++ [x]). split_and!; [done..|]. by left.
Qed.

End EntryFacts.

Section EntrySummary.

Context (detools_apply_patch : string → string → string + string).

Implicit Types (t r : fs) (p q par game : path) (x name data : string) (s : state).

Local Arguments path_exists : simpl never.
Local Arguments is_dir : simpl never.
Local Arguments read_file : simpl never.
Local Arguments write_file : simpl never.
Local Arguments os_remove : simpl never.
Local Arguments os_replace : simpl never.
Local Arguments copy2_into : simpl never.
Local Arguments mkdir_parents : simpl never.
Local Arguments add_suffix : simpl never.
Local Arguments parent : simpl never.
Local Arguments basename : simpl never.

Local Abbreviation apply_entry := (apply_entry detools_apply_patch).

Lemma snoc_not_prefix (par : path) (x : string) : ¬ (par ++ [x]) `prefix_of` par.
Proof.
  intros [k Hk]. apply (f_equal length) in Hk. rewrite !length_app in Hk. simpl in Hk. lia.
Qed.

(** What one loop turn does for a patch file whose recovered path is
    relative, has a last component and no "..". *)
Lemma apply_entry_spec game name data rel ext ps' x t r out s' :
  entry_rel name = (rel, ext) → absolute rel = false → parts rel = ps' ++ [x] →
  ".." ∉ game ++ ps' → x ≠ ".." →
  apply_entry game name data (State t r) = (out, s') →
  let par := game ++ ps' in
  let tf := par ++ [x] in
  let tmp := par ++ [x +:+ ".tmp"] in
  ∃ r1,
    grows r r1 ∧ (∀ q, r1 !! q ≠ r !! q → q `prefix_of` ps') ∧
    dirs_kept t (target s') ∧
    (∀ q, q ≠ tf → q ≠ tmp →
       target s' !! q = t !! q
       ∨ (t !! q = None ∧ target s' !! q = Some Dir ∧ q `prefix_of` par)) ∧
    (target s' !! tmp = t !! tmp
     ∨ (t !! tmp ≠ Some Dir ∧ target s' !! tmp ≠ Some Dir)) ∧
    (target s' !! tf = t !! tf
     ∨ (target s' !! tf ≠ Some Dir ∧
        (t !! tf = None ∨ ∃ c, t !! tf = Some (File c) ∧ backed r1 (rollback s') (target s') par ps' x c))) ∧
    (rollback s' = r1
     ∨ ∃ c, t !! tf = Some (File c) ∧ backed r1 (rollback s') (target s') par ps' x c) ∧
    (out = Ok () → ext = ".full" → target s' !! tf = Some (File data)).
Proof.
  intros Hentry Habs Hparts Hplain Hx. unfold Model.apply_entry. rewrite Hentry.
  unfold joinpath. rewrite Habs, Hparts, app_assoc, parent_snoc.
  set (par := game ++ ps') in *. set (tf := par ++ [x]).
  set (tmp := par ++ [x +:+ ".tmp"]).
  assert (".." ∉ ps') as Hps' by (by apply not_elem_of_app in Hplain as [_ ?]).
  assert (tmp ≠ tf) as Hne.
  { unfold tmp, tf. intros [= E]%app_inv_head. by apply tmp_name_neq in E. }
  io_step.
  destruct (mkdir_parents true t par) as [o t1] eqn:Hmk. cbn [fst snd].
  destruct (mkdir_parents_plain _ _ _ _ _ Hplain Hmk) as (Hg & Hch & Hdir).
  assert (∀ q, ¬ q `prefix_of` par → t1 !! q = t !! q) as Hsame.
  { intros q Hq. destruct (decide (t1 !! q = t !! q)) as [|Hd]; [done|].
    by apply Hch in Hd. }
  assert (t1 !! tf = t !! tf) as Htf1 by apply Hsame, snoc_not_prefix.
  assert (t1 !! tmp = t !! tmp) as Htmp1 by apply Hsame, snoc_not_prefix.
  assert (∀ q, t1 !! q = t !! q ∨ t !! q = None ∧ t1 !! q = Some Dir ∧ q `prefix_of` par)
    as Hframe1.
  { intros q. destruct (decide (t1 !! q = t !! q)) as [|Hd]; [left; congruence|right].
    destruct (Hg q) as [?|[? ?]]; [done|]. split_and!; [done..|]. by apply Hch. }
  (* the summary when the turn stops with the directories only *)
  assert (∀ r1, grows r r1 → (∀ q, r1 !! q ≠ r !! q → q `prefix_of` ps') → 
     ∀ o', o' ≠ Ok () ∨ ext ≠ ".full" →
     (o', State t1 r1) = (out, s') →
     ∃ r1,
    grows r r1 ∧ (∀ q, r1 !! q ≠ r !! q → q `prefix_of` ps') ∧
    dirs_kept t (target s') ∧
    (∀ q, q ≠ tf → q ≠ tmp →
       target s' !! q = t !! q
       ∨ (t !! q = None ∧ target s' !! q = Some Dir ∧ q `prefix_of` par)) ∧
    (target s' !! tmp = t !! tmp
     ∨ (t !! tmp ≠ Some Dir ∧ target s' !! tmp ≠ Some Dir)) ∧
    (target s' !! tf = t !! tf
     ∨ (target s' !! tf ≠ Some Dir ∧
        (t !! tf = None ∨ ∃ c, t !! tf = Some (File c) ∧ backed r1 (rollback s') (target s') par ps' x c))) ∧
    (rollback s' = r1
     ∨ ∃ c, t !! tf = Some (File c) ∧ backed r1 (rollback s') (target s') par ps' x c) ∧
    (out = Ok () → ext = ".full" → target s' !! tf = Some (File data))) as Hstop.
  { intros r1 Hgr Hchr o' Ho' [= <- <-]. exists r1. cbn [target rollback].
    split_and!; [done|done|by apply grows_dirs_kept|intros q _ _; apply Hframe1|left; congruence|left; congruence|left; congruence|].
    intros -> ->. by destruct Ho'. }
  destruct o as [[]|e|]; [|by apply (Hstop r); [apply grows_refl|done|left]..].
  specialize (Hdir eq_refl).
  io_step. rewrite (path_exists_child true _ par x) by done. fold tf.
  destruct (t1 !! tf) as [n|] eqn:Hn.
  - (* the target exists: it is snapshotted first *)
    rewrite bool_decide_eq_true_2 by eauto. rewrite io_bind_run.
    destruct (backup rel tf (State t1 r)) as [ob sb] eqn:Hb.
    destruct (backup_spec _ _ _ _ _ _ _ _ Habs Hparts Hps' Hx Hdir Hb)
      as (Htb & r1 & Hgr & Hchr & Hback).
    destruct sb as [tb rb]. cbn [target rollback] in Htb, Hback. subst tb.
    destruct Hback as [[-> Hob]|(c & k & Hc & Hdirr & -> & -> & Hk & Hkk)].
    { destruct ob as [[]|e|]; [done|by apply (Hstop r1); [..|left]..]. }
    fold tf in Hc. rewrite Hn in Hc. injection Hc as ->.
    assert (∀ t', dirs_kept t1 t' →
              backed r1 (<[k:=File c]> r1) t' par ps' x c) as Hbacked.
    { intros t' Hk'. exists k. split_and!; [done..|by eapply dir_at_mono|done]. }
    destruct (decide (ext = ".patch")) as [->|Hext1].
    { destruct (apply_delta detools_apply_patch tf data (State t1 (<[k:=File c]> r1)))
        as [od sd] eqn:Hd.
      destruct (apply_delta_spec _ _ _ _ _ _ _ _ Hdir Hx Hd) as (Hrd & Hdelta).
      destruct sd as [td rd]. cbn [target rollback] in Hrd, Hdelta. subst rd.
      intros [= <- <-]. exists r1. cbn [target rollback].
      destruct Hdelta as [[-> Hod]|(c' & Hc' & Htmpd & Hres)].
      { split_and!.
        - done.
        - done.
        - by apply grows_dirs_kept.
        - intros q _ _; apply Hframe1.
        - left; congruence.
        - left; congruence.
        - right. exists c. split; [congruence|]. apply Hbacked, dirs_kept_refl.
        - done. }
      fold tf in Hc'. fold tmp in Htmpd.
      destruct Hres as [(new & _ & -> & ->)|(written & _ & -> & ->)]; fold tf; fold tmp.
      - assert (dirs_kept t1 (<[tf:=File new]> (delete tmp t1))) as Hk1.
        { eapply dirs_kept_trans; [by apply delete_file_dirs_kept|].
          apply insert_file_dirs_kept. rewrite lookup_delete_ne by done. congruence. }
        split_and!; [done|done|by eapply dirs_kept_trans; [apply grows_dirs_kept|]| | | | |done].
        + intros q Hq1 Hq2. rewrite lookup_insert_ne, lookup_delete_ne by done. apply Hframe1.
        + right. rewrite lookup_insert_ne, lookup_delete_eq by done. split; [congruence|done].
        + right. rewrite lookup_insert_eq. split; [done|]. right. exists c.
          split; [congruence|]. by apply Hbacked.
        + right. exists c. split; [congruence|]. by apply Hbacked.
      - assert (dirs_kept t1 (<[tmp:=File written]> t1)) as Hk1
          by by apply insert_file_dirs_kept.
        split_and!; [done|done|by eapply dirs_kept_trans; [apply grows_dirs_kept|]| | | | |done].
        + intros q Hq1 Hq2. rewrite lookup_insert_ne by done. apply Hframe1.
        + right. rewrite lookup_insert_eq. split; [congruence|done].
        + left. rewrite lookup_insert_ne by done. congruence.
        + right. exists c. split; [congruence|]. by apply Hbacked. }
    destruct (decide (ext = ".full")) as [->|Hext2].
    { io_step. rewrite (copy2_into_child true _ par x) by (try done; fold tf; congruence).
      intros [= <- <-]. exists r1. cbn [target rollback].
      assert (dirs_kept t1 (<[tf:=File data]> t1)) as Hk1
        by (apply insert_file_dirs_kept; congruence).
      split_and!; [done|done|by eapply dirs_kept_trans; [apply grows_dirs_kept|]| | | | |].
      - intros q Hq1 Hq2. rewrite lookup_insert_ne by done. apply Hframe1.
      - left. by rewrite lookup_insert_ne.
      - right. rewrite lookup_insert_eq. split; [done|]. right. exists c.
        split; [congruence|]. by apply Hbacked.
      - right. exists c. split; [congruence|]. by apply Hbacked.
      - intros _ _. by rewrite lookup_insert_eq. }
    destruct (decide (ext = ".delete")) as [->|Hext3].
    { io_step. rewrite (path_exists_child true _ par x) by done. fold tf. rewrite Hn.
      rewrite bool_decide_eq_true_2 by eauto. io_step.
      rewrite (os_remove_child true _ par x) by done. fold tf. rewrite Hn.
      intros [= <- <-]. exists r1. cbn [target rollback].
      assert (dirs_kept t1 (delete tf t1)) as Hk1
        by (apply delete_file_dirs_kept; congruence).
      split_and!; [done|done|by eapply dirs_kept_trans; [apply grows_dirs_kept|]| | | | |done].
      - intros q Hq1 Hq2. rewrite lookup_delete_ne by done. apply Hframe1.
      - left. by rewrite lookup_delete_ne.
      - right. rewrite lookup_delete_eq. split; [done|]. right. exists c.
        split; [congruence|]. by apply Hbacked.
      - right. exists c. split; [congruence|]. by apply Hbacked. }
    io_step. intros [= <- <-]. exists r1. cbn [target rollback].
    split_and!; [done|done|by apply grows_dirs_kept|intros q _ _; apply Hframe1|left; congruence|left; congruence| |done].
    right. exists c. split; [congruence|]. apply Hbacked, dirs_kept_refl.
  - (* the target does not exist: no snapshot *)
    rewrite bool_decide_eq_false_2 by by intros [??]. io_step.
    destruct (decide (ext = ".patch")) as [->|Hext1].
    { unfold apply_delta. io_step. rewrite (path_exists_child true _ par x) by done. fold tf. rewrite Hn.
      rewrite bool_decide_eq_false_2 by by intros [??]. cbn [negb]. io_step.
      apply (Hstop r); [apply grows_refl|done|left; congruence]. }
    destruct (decide (ext = ".full")) as [->|Hext2].
    { io_step. rewrite (copy2_into_child true _ par x) by (try done; fold tf; congruence).
      intros [= <- <-]. exists r. cbn [target rollback].
      assert (dirs_kept t1 (<[tf:=File data]> t1)) as Hk1
        by (apply insert_file_dirs_kept; congruence).
      split_and!; [apply grows_refl|done|by eapply dirs_kept_trans; [apply grows_dirs_kept|]
                  | | | | |].
      - intros q Hq1 Hq2. rewrite lookup_insert_ne by done. apply Hframe1.
      - left. by rewrite lookup_insert_ne.
      - right. rewrite lookup_insert_eq. split; [done|]. left. congruence.
      - left; congruence.
      - intros _ _. by rewrite lookup_insert_eq. }
    destruct (decide (ext = ".delete")) as [->|Hext3].
    { io_step. rewrite (path_exists_child true _ par x) by done. fold tf. rewrite Hn.
      rewrite bool_decide_eq_false_2 by by intros [??]. io_step.
      apply (Hstop r); [apply grows_refl|done|by right]. }
    io_step. apply (Hstop r); [apply grows_refl|done|by right].
Qed.

End EntrySummary.

(** * The state of a run, turn after turn *)

Section RunInvariant.

Context (detools_apply_patch : string → string → string + string).
Context (game : path) (t0 : fs).

Implicit Types (t r : fs) (p q ps : path) (x name data : string) (s : state)
  (P : list path) (C : list (path * string)).

Local Abbreviation apply_entry := (apply_entry detools_apply_patch).

Lemma unrelated_sym a b : unrelated a b → unrelated b a.
Proof. intros (?&?&?&?). by split_and!. Qed.

Lemma unrelated_neq a b : unrelated a b → a ≠ b.
Proof. intros (H&_) ->. by apply H. Qed.

Lemma run_inv_init : run_inv game t0 [] [] (State t0 fs_empty).
Proof.
  split; cbn [target rollback].
  - apply dirs_kept_refl.
  - intros q _. by left.
  - intros q c. unfold fs_empty. intros [_ [=]]%lookup_singleton_Some.
  - by intros ps c ?%elem_of_nil.
  - intros q. unfold fs_empty. intros [<- _]%lookup_singleton_Some. by left.
  - by intros ps d ?%elem_of_nil.
Qed.

Lemma app_snoc_prefix (a b : path) (x y : string) : a ++ [x] = b ++ [y] → a = b ∧ x = y.
Proof. intros H. apply app_inj_tail in H. done. Qed.

Lemma prefix_app_inv (g a b : path) : (g ++ a) `prefix_of` (g ++ b) → a `prefix_of` b.
Proof. intros [k Hk]. rewrite <-app_assoc in Hk. apply app_inv_head in Hk. by exists k. Qed.

(** One more turn, for a target unrelated to those of the turns before. *)
Lemma run_inv_step P C name data s out s' :
  ".." ∉ game →
  run_inv game t0 P C s →
  plain_entry name → Forall (unrelated (entry_parts name)) P →
  apply_entry game name data s = (out, s') →
  run_inv game t0 (P ++ [entry_parts name]) C s' ∧
  (out = Ok () → entry_ext name = ".full" →
   run_inv game t0 (P ++ [entry_parts name]) (C ++ [(entry_parts name, data)]) s').
Proof.
  intros Hgame Hinv [[Habs Hdd] Hne] Hunrel Hrun.
  unfold entry_parts, entry_ext in *.
  destruct (entry_rel name) as [rel ext] eqn:Hentry. cbn [fst snd] in *.
  destruct (exists_last Hne) as (ps' & x & Hparts).
  set (ps := parts rel) in *.
  assert ((".." ∉ ps') ∧ x ≠ "..") as [Hps' Hx].
  { rewrite Hparts in Hdd. apply not_elem_of_app in Hdd as [? Hx]. split; [done|].
    intros ->. apply Hx. by left. }
  assert (".." ∉ game ++ ps') as Hplain by by apply not_elem_of_app.
  destruct s as [t r].
  destruct (apply_entry_spec _ _ _ _ _ _ _ _ _ _ _ _ Hentry Habs Hparts Hplain Hx Hrun)
    as (r1 & Hgr & Hchr & Hdk & Hfr & Htmp & Htf & Hrb & Hfull).
  destruct Hinv as [I1 I2 I3 I4 I5 I6]. cbn [target rollback] in *.
  assert ((game ++ ps') ++ [x] = game ++ ps) as Etf by by rewrite Hparts, app_assoc.
  assert ((game ++ ps') ++ [x +:+ ".tmp"] = game ++ add_suffix ps ".tmp") as Etmp.
  { by rewrite Hparts, add_suffix_snoc, app_assoc. }
  rewrite Etf, Etmp in *.
  assert (∀ ps2, ps2 ∈ P → unrelated ps ps2) as Hun.
  { intros ps2 Hin. by eapply Forall_forall in Hunrel. }
  assert (∀ ps2, ps2 ∈ P → game ++ ps2 ≠ game ++ ps ∧ game ++ ps2 ≠ game ++ add_suffix ps ".tmp"
                            ∧ ¬ (game ++ ps2) `prefix_of` (game ++ ps'))
    as Hother.
  { intros ps2 Hin. destruct (Hun _ Hin) as (H1 & H2 & H3 & H4). split_and!.
    - intros E%app_inv_head. subst. by apply H1.
    - intros E%app_inv_head. done.
    - intros Hp%prefix_app_inv. apply H2. rewrite Hparts. by apply prefix_app_r. }
  (* the target of this turn was as before the run *)
  assert (t !! (game ++ ps) = t0 !! (game ++ ps)) as Hsame0.
  { destruct (I2 (game ++ ps)) as [?|(_ & _ & ps2 & Hin & Hpre & _)]; [|done|].
    - intros ps2 Hin. destruct (Hun _ Hin) as (H1 & H2 & H3 & H4). split.
      + intros E%app_inv_head. subst. by apply H1.
      + intros E%app_inv_head. done.
    - apply prefix_app_inv in Hpre. by destruct (Hun _ Hin) as (H1 & _). }
  (* nothing was in the way in the rollback directory *)
  assert (r1 !! ps = None ∨ ∃ c, r1 !! ps = Some (File c)) as Hfree.
  { assert (r1 !! ps = r !! ps) as E'.
    { destruct (decide (r1 !! ps = r !! ps)) as [|Hd]; [done|].
      apply Hchr in Hd. rewrite Hparts in Hd. by apply snoc_not_prefix in Hd. }
    destruct (r1 !! ps) as [[c|]|] eqn:E; [right; eauto| |by left].
    symmetry in E'. apply I5 in E' as [E'|(ps2 & Hin & Hpre & _)].
    - by rewrite E' in Hne.
    - by destruct (Hun _ Hin) as (H1 & _). }
  assert (∀ c, backed r1 (rollback s') (target s') (game ++ ps') ps' x c →
            rollback s' = <[ps := File c]> r1 ∧ dir_at false r1 ps' ∧
            dir_at true (target s') (game ++ ps')) as Hbk.
  { intros c (k & -> & _ & Hd1 & Hd2 & [[_ ->]|[Hd _]]).
    - by rewrite <-Hparts.
    - rewrite <-Hparts in Hd. destruct Hfree as [?|[??]]; congruence. }
  assert (∀ q c, r1 !! q = Some (File c) → r !! q = Some (File c)) as Hr1.
  { intros q c E. destruct (Hgr q) as [E'|[_ E']]; congruence. }
  assert (∀ q, q ≠ ps → (rollback s') !! q = r1 !! q) as Hrs.
  { intros q Hq. destruct Hrb as [->|(c & _ & Hb)]; [done|].
    apply Hbk in Hb as (-> & _). by rewrite lookup_insert_ne. }
  assert (dirs_kept r (rollback s')) as Hrk.
  { intros q Hq. destruct (decide (q = ps)) as [->|Hqp].
    - exfalso. destruct (Hgr ps) as [E|[E _]]; [|congruence].
      rewrite Hq in E. destruct Hfree as [?|[??]]; [congruence|congruence].
    - rewrite Hrs by done. by apply grows_dirs_kept in Hgr; apply Hgr. }
  assert (∀ ps2, ps2 ∈ P → target s' !! (game ++ ps2) = t !! (game ++ ps2)
                            ∨ t !! (game ++ ps2) = None) as Hold.
  { intros ps2 Hin. destruct (Hother _ Hin) as (H1 & H2 & H3).
    destruct (Hfr _ H1 H2) as [?|(? & _)]; auto. }
  assert (∀ PP CC, (∀ ps2, ps2 ∈ PP ↔ ps2 ∈ P ∨ ps2 = ps) →
            (∀ ps2 d, (ps2, d) ∈ CC → (ps2, d) ∈ C ∨
                 (ps2 = ps ∧ target s' !! (game ++ ps) = Some (File d))) →
            run_inv game t0 PP CC s') as Hmain.
  { intros PP CC HPP HCC. split.
    - by eapply dirs_kept_trans.
    - intros q Hq.
      assert (q ≠ game ++ ps ∧ q ≠ game ++ add_suffix ps ".tmp") as [Hq1 Hq2]
        by (apply Hq, HPP; by right).
      assert (∀ ps2, ps2 ∈ P → q ≠ game ++ ps2 ∧ q ≠ game ++ add_suffix ps2 ".tmp") as Hq'
        by (intros ps2 Hin; apply Hq, HPP; by left).
      destruct (Hfr q Hq1 Hq2) as [E|(E1 & E2 & Hpre)].
      + rewrite E. destruct (I2 q Hq') as [?|(? & ? & ps2 & ? & ? & ?)]; [by left|right].
        split_and!; [done..|]. exists ps2. split_and!; [|done..]. apply HPP. by left.
      + right. destruct (I2 q Hq') as [E'|(_ & E' & _)]; [|congruence].
        split_and!; [congruence|done|]. exists ps. split_and!; [apply HPP; by right| |done].
        rewrite Hparts, app_assoc. by apply prefix_app_r.
    - intros q c Hq. destruct (decide (q = ps)) as [->|Hqp].
      + destruct Hrb as [E|(c' & Hc' & Hb)].
        { rewrite E in Hq. apply Hr1, I3 in Hq as (Hin & _).
          by apply Hun, unrelated_neq in Hin. }
        pose proof (Hbk _ Hb) as (E & Hd1 & Hd2). rewrite E, lookup_insert_eq in Hq.
        injection Hq as <-. split_and!.
        * apply HPP. by right.
        * congruence.
        * destruct Htf as [E'|[? _]]; [congruence|done].
        * rewrite E. eapply walk_mono.
          { apply insert_file_dirs_kept. destruct Hfree as [?|[??]]; congruence. }
          rewrite Hparts. by apply walk_child.
        * by rewrite <-Etf, parent_snoc.
      + rewrite Hrs in Hq by done. pose proof (Hr1 _ _ Hq) as Hq0.
        apply I3 in Hq0 as (Hin & Ht0 & Hnd & Hw & Hdir).
        split_and!; [apply HPP; by left|done| | |by eapply dir_at_mono].
        * destruct (Hold _ Hin) as [E|E]; [congruence|].
          destruct (Hother _ Hin) as (H1 & H2 & H3).
          destruct (Hfr _ H1 H2) as [E'|(_ & _ & ?)]; [congruence|done].
        * by eapply walk_mono.
    - intros ps2 c [Hin| ->]%HPP Ht0.
      + destruct (I4 _ _ Hin Ht0) as [E|E].
        * left. rewrite Hrs by (by apply not_eq_sym, unrelated_neq, Hun).
          destruct (Hgr ps2) as [E'|[E' _]]; congruence.
        * right. destruct (Hold _ Hin) as [E'|E']; congruence.
      + destruct Htf as [E|(_ & [E|(c' & Hc' & Hb)])].
        * right. congruence.
        * congruence.
        * left. apply Hbk in Hb as (-> & _). rewrite lookup_insert_eq. congruence.
    - intros q Hq.
      assert (r1 !! q = Some Dir) as Hq1.
      { destruct (decide (q = ps)) as [->|Hqp]; [|by rewrite <-Hrs].
        destruct Hrb as [E|(c' & _ & Hb)]; [congruence|].
        apply Hbk in Hb as (E & _). by rewrite E, lookup_insert_eq in Hq. }
      destruct (Hgr q) as [E|(E1 & E2)].
      + rewrite Hq1 in E. symmetry in E.
        apply I5 in E as [?|(ps2 & ? & ? & ?)]; [by left|right].
        exists ps2. split_and!; [|done..]. apply HPP. by left.
      + right. exists ps. split_and!; [apply HPP; by right| |].
        * rewrite Hparts. apply prefix_app_r. apply Hchr. congruence.
        * intros ->. destruct Hfree as [?|[??]]; congruence.
    - intros ps2 d [Hin|[-> E]]%HCC.
      + apply I6 in Hin as [Hin E]. split; [apply HPP; by left|].
        destruct (Hold _ Hin) as [E'|E']; congruence.
      + split; [apply HPP; by right|done]. }
  split.
  - apply Hmain.
    + intros ps2. rewrite elem_of_app, list_elem_of_singleton. done.
    + intros ps2 d Hin. by left.
  - intros Hok Hext. apply Hmain.
    + intros ps2. rewrite elem_of_app, list_elem_of_singleton. done.
    + intros ps2 d. rewrite elem_of_app, list_elem_of_singleton.
      intros [?|[= -> ->]]; [by left|right]. split; [done|]. by apply Hfull.
Qed.

End RunInvariant.

(** * The loop and the rollback *)

Section LoopFacts.

Context (detools_apply_patch : string → string → string + string)
        (cancelled : nat → bool).
Context (game : path) (t0 : fs).

Implicit Types (t r : fs) (p q ps : path) (x name data : string) (s : state)
  (P : list path) (C : list (path * string)) (es : list (string * string)).

Local Abbreviation apply_entry := (apply_entry detools_apply_patch).
Local Abbreviation apply_entries := (apply_entries detools_apply_patch cancelled).

Lemma apply_entries_cons i name data es s :
  apply_entries game i ((name, data) :: es) s =
  if cancelled i then (Raise InterruptedError, s)
  else match apply_entry game name data s with
       | (Ok _, s1) => apply_entries game (S i) es s1
       | (Raise e, s1) => (Raise e, s1)
       | (Astray, s1) => (Astray, s1)
       end.
Proof.
  cbn [Model.apply_entries]. rewrite io_bind_run. unfold _check_cancel.
  destruct (cancelled i); [done|]. by rewrite io_bind_run.
Qed.

Lemma apply_entries_app es1 : ∀ i es2 s,
  apply_entries game i (es1 ++ es2) s =
  match apply_entries game i es1 s with
  | (Ok _, s1) => apply_entries game (i + length es1) es2 s1
  | other => other
  end.
Proof.
  induction es1 as [|[name data] es1 IH]; intros i es2 s.
  - cbn [app length]. rewrite Nat.add_0_r. reflexivity.
  - rewrite <-app_comm_cons, !apply_entries_cons.
    destruct (cancelled i); [done|].
    destruct (apply_entry game name data s) as [[[]|e|] s1]; [|done..].
    rewrite IH. cbn [length]. by rewrite Nat.add_succ_r.
Qed.

Lemma independent_app_cons P a l :
  independent (P ++ a :: l) → Forall (unrelated a) P.
Proof.
  induction P as [|p P IH]; [done|]. cbn [app independent]. intros [Hp HP].
  constructor; [|by apply IH].
  apply Forall_app in Hp as [_ Hp]. apply Forall_cons in Hp as [Hp _].
  by apply unrelated_sym.
Qed.

(** The turns of a run that all return keep the state of the run. *)
Lemma run_inv_entries es : ∀ P C i s s1,
  ".." ∉ game →
  run_inv game t0 P C s →
  Forall plain_entry es.*1 →
  independent (P ++ (entry_parts <$> es.*1)) →
  apply_entries game i es s = (Ok (), s1) →
  run_inv game t0 (P ++ (entry_parts <$> es.*1)) (C ++ fulls es) s1.
Proof.
  induction es as [|[name data] es IH]; intros P C i s s1 Hgame Hinv Hplain Hind.
  - cbn. intros [= <-]. by rewrite !app_nil_r.
  - rewrite apply_entries_cons. destruct (cancelled i); [done|].
    destruct (apply_entry game name data s) as [[[]|e|] s'] eqn:Hstep; [|done..].
    cbn [fmap list_fmap fst] in Hplain, Hind.
    apply Forall_cons in Hplain as [Hname Hplain].
    pose proof (independent_app_cons _ _ _ Hind) as Hun.
    destruct (run_inv_step _ _ _ _ _ _ _ _ _ _ Hgame Hinv Hname Hun Hstep) as [Hinv1 Hinv2].
    intros Hloop. cbn [fmap list_fmap fst].
    unfold fulls. cbn [omap list_omap fst snd]. fold (fulls es).
    rewrite (cons_middle (entry_parts name)), app_assoc.
    destruct (decide (entry_ext name = ".full")) as [Hext|Hext].
    + rewrite (cons_middle (entry_parts name, data)), app_assoc.
      eapply IH; [done| |done| |done].
      * by apply Hinv2.
      * by rewrite <-app_assoc.
    + eapply IH; [done|done|done| |done]. by rewrite <-app_assoc.
Qed.

End LoopFacts.

Section RestoreFacts.

Context (game : path).

Implicit Types (t r : fs) (p q : path) (L : list path).

Local Arguments mkdir_parents : simpl never.
Local Arguments copy2_into : simpl never.

(** The [except] block, when every backup can be copied back over a path
    that is not a directory and whose parent is in place: it returns, every
    backup is at its target, and nothing else has changed. *)
Lemma restore_spec r L : ∀ t,
  (∀ q, q ∈ L →
     ∃ c, r !! q = Some (File c) ∧ walk false r [] q = Ok q ∧ q ≠ [] ∧
          (".." ∉ game ++ q) ∧ t !! (game ++ q) ≠ Some Dir ∧
          dir_at true t (parent (game ++ q))) →
  ∃ t', restore game r L t = (Ok (), t') ∧
    (∀ q c, q ∈ L → r !! q = Some (File c) → t' !! (game ++ q) = Some (File c)) ∧
    (∀ k, (∀ q, q ∈ L → k ≠ game ++ q) → t' !! k = t !! k).
Proof.
  induction L as [|q L IH]; intros t Hall.
  - exists t. split_and!; [done| |done]. by intros q c ?%elem_of_nil.
  - destruct (Hall q) as (c & Hc & Hw & Hne & Hplain & Hnd & Hdir); [by left|].
    destruct (exists_last Hne) as (q' & x & ->).
    assert (x ≠ "..") as Hx.
    { intros ->. apply Hplain. rewrite !elem_of_app, list_elem_of_singleton. auto. }
    cbn [restore]. unfold joinpath. cbn [absolute parts].
    rewrite mkdir_parents_existing by done.
    rewrite app_assoc in *. rewrite parent_snoc in Hdir.
    unfold copy2_into. rewrite is_dir_child by done.
    rewrite bool_decide_eq_false_2 by done. cbn [mbind res_bind].
    unfold read_file at 1. rewrite Hw. cbn [mbind res_bind]. rewrite Hc.
    cbn [mbind res_bind]. rewrite write_file_child by done.
    assert (∀ (b : res fs), match t !! ((game ++ q') ++ [x]) with
            | Some Dir => b
            | _ => Ok (<[(game ++ q') ++ [x] := File c]> t)
            end = Ok (<[(game ++ q') ++ [x] := File c]> t)) as ->.
    { intros b. by destruct (t !! ((game ++ q') ++ [x])) as [[]|]. }
    destruct (IH (<[(game ++ q') ++ [x] := File c]> t)) as (t' & Hrun & Hback & Hframe).
    { intros q2 Hin. destruct (Hall q2) as (c2 & ? & ? & ? & ? & ? & ?); [by right|].
      exists c2. split_and!; [done..| |].
      - destruct (decide ((game ++ q') ++ [x] = game ++ q2)) as [<-|Hd].
        + by rewrite lookup_insert_eq.
        + by rewrite lookup_insert_ne.
      - by apply dir_at_insert_file. }
    exists t'. split_and!; [done| |].
    + intros q2 c2 Hin Hc2. destruct (decide (q2 ∈ L)) as [HL|HL]; [by apply Hback|].
      apply elem_of_cons in Hin as [->|?]; [|done].
      rewrite Hframe.
      * rewrite app_assoc, lookup_insert_eq. congruence.
      * intros q3 Hq3 E%app_inv_head. by subst.
    + intros k Hk. rewrite Hframe.
      * rewrite lookup_insert_ne; [done|]. rewrite <-app_assoc. apply not_eq_sym, Hk. by left.
      * intros q3 Hq3. apply Hk. by right.
Qed.

End RestoreFacts.

(** * The whole of [apply_patch] *)

Section ApplyFacts.

Context (sha256_hexdigest : string → string)
        (detools_apply_patch : string → string → string + string)
        (extract_archive : nat → string → res extraction)
        (scandir_order : list path → list path)
        (cancelled : nat → bool).

Implicit Types (t r : fs) (p q ps game : path) (x name data : string) (s : state)
  (P : list path) (C : list (path * string)) (es : list (string * string)).

Local Abbreviation apply_entries := (apply_entries detools_apply_patch cancelled).
Local Abbreviation try_body :=
  (try_body sha256_hexdigest detools_apply_patch extract_archive cancelled).
Local Abbreviation apply_patch :=
  (apply_patch sha256_hexdigest detools_apply_patch extract_archive scandir_order cancelled).
Local Abbreviation validation_errors := (validation_errors sha256_hexdigest).

(** The [try] block once the archive is extracted and the manifest
    loaded: the loop, then the validation. *)
Lemma try_body_run game patch_package ram t0 f_in ex items :
  read_file true t0 patch_package = Ok f_in →
  extract_archive ram f_in = Ok ex →
  ex_manifest ex = ManifestLoaded items →
  try_body game patch_package ram (State t0 fs_empty) =
  match apply_entries game 0 (patch_files ex) (State t0 (ex_rollback ex)) with
  | (Ok _, s) =>
      match validation_errors game (target s) items with
      | Ok [] => (Ok (), s)
      | Ok (l :: ls) => (Raise (ValueError (l :: ls)), s)
      | Raise e => (Raise e, s)
      | Astray => (Astray, s)
      end
  | other => other
  end.
Proof.
  intros Hread Hex Hman. unfold Model.try_body.
  rewrite io_bind_run, ask_target_run. cbn [target]. rewrite Hread.
  rewrite io_bind_run, Hex. rewrite io_bind_run, on_rollback_run. cbn [target rollback].
  rewrite io_bind_run, Hman, io_ret_run. rewrite io_bind_run. fold (patch_files ex).
  destruct (apply_entries game 0 (patch_files ex) _) as [[[]|e|] s]; [|done..].
  unfold validate. rewrite io_bind_run, ask_target_run.
  destruct (validation_errors game (target s) items) as [[|l ls]| |]; done.
Qed.

(** The validation report names the records that disagree with the tree,
    and only those. *)
Lemma validation_errors_spec game t items : ∀ errors,
  validation_errors game t items = Ok errors →
  ∀ line, line ∈ errors ↔
    ∃ rel_path info, (rel_path, info) ∈ items ∧
      (missing game t rel_path ∧ line = "Missing file: " +:+ rel_path
       ∨ mismatching sha256_hexdigest game t rel_path info ∧
         line = "Hash mismatch: " +:+ rel_path).
Proof.
  induction items as [|[rel_path info] items IH]; intros errors.
  - intros [= <-] line. split; [by intros ?%elem_of_nil|].
    by intros (? & ? & ?%elem_of_nil & _).
  - cbn [Model.validation_errors].
    destruct (path_exists true t (joinpath game (parse_path rel_path)))
      as [[]| |] eqn:Hex; cbn [mbind res_bind]; try done.
    + destruct (_sha256sum sha256_hexdigest t (joinpath game (parse_path rel_path)))
        as [h| |] eqn:Hh; cbn [mbind res_bind]; try done.
      destruct (validation_errors game t items) as [rest| |]; cbn [mbind res_bind]; try done.
      intros [= <-] line. rewrite elem_of_app, (IH rest eq_refl line). split.
      * intros [Hin|(r & i & Hin & Hr)].
        -- destruct (decide (h = info_sha256 info)); [by apply elem_of_nil in Hin|].
           apply list_elem_of_singleton in Hin as ->.
           exists rel_path, info. split; [by left|]. right. split; [|done].
           split; [done|]. eauto.
        -- exists r, i. split; [by right|done].
      * intros (r & i & [[= -> ->]|Hin]%elem_of_cons & Hr); [|right; eauto].
        left. destruct Hr as [[Hm _]|[(_ & h' & Hh' & Hne) ->]].
        -- unfold missing in Hm. congruence.
        -- rewrite Hh in Hh'. injection Hh' as <-.
           rewrite decide_False by done. by apply list_elem_of_singleton.
    + destruct (validation_errors game t items) as [rest| |]; cbn [mbind res_bind]; try done.
      intros [= <-] line. rewrite elem_of_cons, (IH rest eq_refl line). split.
      * intros [->|(r & i & Hin & Hr)].
        -- exists rel_path, info. split; [by left|]. by left.
        -- exists r, i. split; [by right|done].
      * intros (r & i & [[= -> ->]|Hin]%elem_of_cons & Hr); [|right; eauto].
        left. destruct Hr as [[_ ->]|[(Hm & _) _]].
        -- done.
        -- congruence.
Qed.

Hypothesis scandir_perm : ∀ l, scandir_order l ≡ₚ l.

(** The rollback of a run whose targets are plain and unrelated: it
    returns; every snapshot is back at its path, which holds its content
    of before the run; every target that was a file before the run is that
    file again; the files that the run newly wrote are still there. *)
Lemma rollback_after_run game t0 P C s :
  run_inv game t0 P C s →
  (∀ ps, ps ∈ P → ps ≠ [] ∧ ".." ∉ game ++ ps) →
  ∃ t', restore game (rollback s) (rollback_files scandir_order s) (target s) = (Ok (), t') ∧
    (∀ q c, rollback s !! q = Some (File c) →
       t0 !! (game ++ q) = Some (File c) ∧ t' !! (game ++ q) = Some (File c)) ∧
    (∀ ps c, ps ∈ P → t0 !! (game ++ ps) = Some (File c) →
       t' !! (game ++ ps) = Some (File c)) ∧
    (∀ ps d, (ps, d) ∈ C → t0 !! (game ++ ps) = None →
       t' !! (game ++ ps) = Some (File d)).
Proof.
  intros [I1 I2 I3 I4 I5 I6] HP.
  assert (∀ q, q ∈ rollback_files scandir_order s ↔ ∃ c, rollback s !! q = Some (File c))
    as Hfiles.
  { intros q. unfold rollback_files. rewrite scandir_perm, elem_of_files_under.
    cbn [app]. split; [by intros (_ & _ & ?)|]. intros [c Hc].
    destruct (I3 _ _ Hc) as (Hin & _ & _ & Hw & _). split_and!; [by apply HP|..|by eauto].
    unfold located. by apply bool_decide_eq_true. }
  destruct (restore_spec game (rollback s) (rollback_files scandir_order s) (target s))
    as (t' & Hrun & Hback & Hframe).
  { intros q [c Hc]%Hfiles. exists c.
    destruct (I3 _ _ Hc) as (Hin & _ & Hnd & Hw & Hdir).
    destruct (HP _ Hin). by split_and!. }
  exists t'. split_and!; [done|..].
  - intros q c Hc. destruct (I3 _ _ Hc) as (_ & Ht0 & _). split; [done|].
    apply Hback; [|done]. apply Hfiles. eauto.
  - intros ps c Hin Ht0. destruct (I4 _ _ Hin Ht0) as [Hc|Hc].
    + apply Hback; [|done]. apply Hfiles. eauto.
    + destruct (rollback s !! ps) as [[c'|]|] eqn:Hr.
      * destruct (I3 _ _ Hr) as (_ & Ht0' & _).
        apply Hback; [apply Hfiles; eauto|]. congruence.
      * rewrite Hframe; [done|]. intros q [c' Hq]%Hfiles E%app_inv_head. congruence.
      * rewrite Hframe; [done|]. intros q [c' Hq]%Hfiles E%app_inv_head. congruence.
  - intros ps d Hin Ht0. destruct (I6 _ _ Hin) as [_ Hd].
    rewrite Hframe; [done|]. intros q [c' Hq]%Hfiles E%app_inv_head. subst q.
    destruct (I3 _ _ Hq) as (_ & Ht0' & _). congruence.
Qed.

End ApplyFacts.

(** * The claims about failure and rollback *)

Section RollbackClaims.

Context (sha256_hexdigest : string → string)
        (detools_apply_patch : string → string → string + string)
        (extract_archive : nat → string → res extraction)
        (scandir_order : list path → list path)
        (cancelled : nat → bool).

Implicit Types (t r : fs) (p q ps game : path) (x name data : string) (s : state)
  (es : list (string * string)).

Local Abbreviation apply_entries := (apply_entries detools_apply_patch cancelled).
Local Abbreviation apply_patch :=
  (apply_patch sha256_hexdigest detools_apply_patch extract_archive scandir_order cancelled).
Local Abbreviation validation_errors := (validation_errors sha256_hexdigest).

Lemma plain_entries_targets game es :
  ".." ∉ game → Forall plain_entry es.*1 →
  ∀ ps, ps ∈ [] ++ (entry_parts <$> es.*1) → ps ≠ [] ∧ ".." ∉ game ++ ps.
Proof.
  intros Hgame Hall ps Hin. cbn [app] in Hin.
  apply list_elem_of_fmap in Hin as (name & -> & Hin).
  eapply Forall_forall in Hall as [[_ Hdd] Hne]; [|done]. split; [done|].
  by apply not_elem_of_app.
Qed.



End RollbackClaims.

(** * What the calls can raise and what they leave in place *)

Section Outcomes.

Implicit Types (m t r : fs) (p q cs : path) (c x : string) (s : state).

Lemma write_file_Ok rooted m cs d m' :
  write_file rooted m cs d = Ok m' →
  ∃ p, walk rooted m [] cs = Ok p ∧ m !! p ≠ Some Dir ∧ m' = <[p := File d]> m.
Proof.
  unfold write_file. destruct (walk rooted m [] cs) as [p| |]; cbn [mbind res_bind]; try done.
  intros H. exists p. split; [done|].
  destruct (m !! p) as [[d0|]|]; [by injection H as <-|done|by injection H as <-].
Qed.

Lemma copy2_into_Ok rooted m name src dst m' :
  copy2_into rooted m name src dst = Ok m' →
  ∃ cs p d, (cs = dst ∨ cs = dst ++ [name]) ∧ walk rooted m [] cs = Ok p ∧
            m !! p ≠ Some Dir ∧ m' = <[p := File d]> m.
Proof.
  unfold copy2_into. destruct (is_dir rooted m dst) as [b| |]; cbn [mbind res_bind]; try done.
  destruct src as [d| |]; cbn [mbind res_bind]; try done.
  intros (p & Hw & Hn & ->)%write_file_Ok.
  exists (if b then dst ++ [name] else dst), p, d. split_and!; [|done..].
  destruct b; auto.
Qed.

Lemma write_file_kept rooted m cs d m' :
  write_file rooted m cs d = Ok m' → dirs_kept m m' ∧ files_kept m m'.
Proof.
  intros (p & _ & Hn & ->)%write_file_Ok.
  split; [by apply insert_file_dirs_kept|apply insert_file_files_kept].
Qed.

Lemma copy2_into_kept rooted m name src dst m' :
  copy2_into rooted m name src dst = Ok m' → dirs_kept m m' ∧ files_kept m m'.
Proof.
  intros (cs & p & d & _ & _ & Hn & ->)%copy2_into_Ok.
  split; [by apply insert_file_dirs_kept|apply insert_file_files_kept].
Qed.

(** The [except] block removes nothing. *)
Lemma restore_kept game r L : ∀ t out t',
  restore game r L t = (out, t') → dirs_kept t t' ∧ files_kept t t'.
Proof.
  induction L as [|q L IH]; intros t out t'; cbn [restore].
  - intros [= _ <-]. split; [apply dirs_kept_refl|apply files_kept_refl].
  - destruct (mkdir_parents true t _) as [o t1] eqn:Hmk.
    pose proof (mkdir_parents_grows _ _ _ _ _ Hmk) as Hg.
    assert (dirs_kept t t1 ∧ files_kept t t1) as [Hd1 Hf1]
      by (split; [by apply grows_dirs_kept|by apply grows_files_kept]).
    destruct o as [[]|e|]; [|by intros [= _ <-]..].
    destruct (copy2_into true t1 _ _ _) as [t2|e|] eqn:Hcp; [|by intros [= _ <-]..].
    apply copy2_into_kept in Hcp as [Hd2 Hf2]. intros [Hd3 Hf3]%IH. split.
    + eauto using dirs_kept_trans.
    + eauto using files_kept_trans.
Qed.

(** None of the filesystem calls raises the exception of [detools]. *)
Lemma walk_no_detools rooted m cur cs : walk rooted m cur cs ≠ Raise DetoolsError.
Proof.
  revert cur. induction cs as [|c cs IH]; intros cur; cbn [walk]; [done|].
  destruct (m !! cur) as [[d|]|]; try done.
  destruct (decide (c = "..")); [|by apply IH].
  destruct cur; [destruct rooted; [by apply IH|done]|by apply IH].
Qed.

Lemma node_at_no_raise rooted m cs e : node_at rooted m cs ≠ Raise e.
Proof. unfold node_at. by destruct (walk rooted m [] cs). Qed.

Lemma is_dir_no_raise rooted m cs e : is_dir rooted m cs ≠ Raise e.
Proof.
  unfold is_dir. destruct (node_at rooted m cs) as [o|e'|] eqn:E; cbn [mbind res_bind];
    [done| |done]. by apply node_at_no_raise in E.
Qed.

Lemma path_exists_no_raise rooted m cs e : path_exists rooted m cs ≠ Raise e.
Proof.
  unfold path_exists. destruct (node_at rooted m cs) as [o|e'|] eqn:E; cbn [mbind res_bind];
    [done| |done]. by apply node_at_no_raise in E.
Qed.

Lemma read_file_no_detools rooted m cs : read_file rooted m cs ≠ Raise DetoolsError.
Proof.
  unfold read_file. destruct (walk rooted m [] cs) as [p|e|] eqn:E; cbn [mbind res_bind].
  - by destruct (m !! p) as [[]|].
  - intros [= ->]. by apply walk_no_detools in E.
  - done.
Qed.

Lemma write_file_no_detools rooted m cs d : write_file rooted m cs d ≠ Raise DetoolsError.
Proof.
  unfold write_file. destruct (walk rooted m [] cs) as [p|e|] eqn:E; cbn [mbind res_bind].
  - by destruct (m !! p) as [[]|].
  - intros [= ->]. by apply walk_no_detools in E.
  - done.
Qed.

Lemma os_remove_no_detools rooted m cs : os_remove rooted m cs ≠ Raise DetoolsError.
Proof.
  unfold os_remove. destruct (walk rooted m [] cs) as [p|e|] eqn:E; cbn [mbind res_bind].
  - by destruct (m !! p) as [[]|].
  - intros [= ->]. by apply walk_no_detools in E.
  - done.
Qed.

Lemma copy2_into_no_detools rooted m name src dst :
  src ≠ Raise DetoolsError → copy2_into rooted m name src dst ≠ Raise DetoolsError.
Proof.
  intros Hsrc. unfold copy2_into.
  destruct (is_dir rooted m dst) as [b|e|] eqn:E; cbn [mbind res_bind];
    [|by apply is_dir_no_raise in E|done].
  destruct src as [d|e|]; cbn [mbind res_bind].
  - apply write_file_no_detools.
  - intros [= ->]. by apply Hsrc.
  - done.
Qed.

Lemma os_mkdir_no_detools rooted m cs : os_mkdir rooted m cs ≠ Raise DetoolsError.
Proof.
  unfold os_mkdir. destruct (walk rooted m [] cs) as [p|e|] eqn:E; cbn [mbind res_bind].
  - by destruct (m !! p).
  - intros [= ->]. by apply walk_no_detools in E.
  - done.
Qed.

Lemma exist_ok_raise rooted m cs e e' m' : exist_ok rooted m cs e = (Raise e', m') → e' = e.
Proof.
  unfold exist_ok.
  destruct (is_dir rooted m cs) as [[]|e0|] eqn:E; try done.
  - by intros [= ->].
  - by apply is_dir_no_raise in E.
Qed.

Lemma mkdir_p_no_detools rooted rcs : ∀ m, (mkdir_p rooted m rcs).1 ≠ Raise DetoolsError.
Proof.
  induction rcs as [|c rcs IH]; intros m; cbn [mkdir_p].
  - pose proof (os_mkdir_no_detools rooted m (rev [])) as H.
    destruct (os_mkdir rooted m (rev [])) as [m1|e|]; [done| |done].
    destruct e; try done;
      match goal with
      | |- (exist_ok ?r ?m ?cs ?e).1 ≠ _ =>
          destruct (exist_ok r m cs e) as [[u|e'|] m'] eqn:E; [done| |done];
          apply exist_ok_raise in E as ->; done
      end.
  - pose proof (os_mkdir_no_detools rooted m (rev (c :: rcs))) as H.
    destruct (os_mkdir rooted m (rev (c :: rcs))) as [m1|e|]; [done| |done].
    destruct e; try done;
      try match goal with
      | |- (exist_ok ?r ?m ?cs ?e).1 ≠ _ =>
          destruct (exist_ok r m cs e) as [[u|e'|] m'] eqn:E; [done| |done];
          apply exist_ok_raise in E as ->; done
      end.
    specialize (IH m). destruct (mkdir_p rooted m rcs) as [[[]|e1|] m1]; [|done..].
    pose proof (os_mkdir_no_detools rooted m1 (rev (c :: rcs))) as H1.
    destruct (os_mkdir rooted m1 (rev (c :: rcs))) as [m2|e|]; [done| |done].
    destruct e; try done;
      match goal with
      | |- (exist_ok ?r ?m ?cs ?e).1 ≠ _ =>
          destruct (exist_ok r m cs e) as [[u|e'|] m'] eqn:E; [done| |done];
          apply exist_ok_raise in E as ->; done
      end.
Qed.

Lemma mkdir_parents_no_detools rooted m cs : (mkdir_parents rooted m cs).1 ≠ Raise DetoolsError.
Proof. apply mkdir_p_no_detools. Qed.

End Outcomes.

(** * Making directories where no file is in the way *)

Section FreshDirs.

Implicit Types (m : fs) (p q cs : path) (c : string).

Lemma only_dirs_empty : only_dirs fs_empty.
Proof.
  split; [done|]. intros q n. unfold fs_empty.
  by intros [_ <-]%lookup_singleton_Some.
Qed.

Lemma only_dirs_insert m p : only_dirs m → only_dirs (<[p := Dir]> m).
Proof.
  intros [Hroot Hall]. split.
  - destruct (decide (p = [])) as [->|Hp]; [by rewrite lookup_insert_eq|].
    by rewrite lookup_insert_ne.
  - intros q n. destruct (decide (p = q)) as [->|Hp].
    + rewrite lookup_insert_eq. by intros [= <-].
    + rewrite lookup_insert_ne by done. apply Hall.
Qed.

Lemma walk_only_dirs rooted m cur cs e :
  only_dirs m → ".." ∉ cs → walk rooted m cur cs = Raise e → e = FileNotFoundError.
Proof.
  intros [_ Hall]. revert cur. induction cs as [|c cs IH]; intros cur Hcs; simpl; [done|].
  apply not_elem_of_cons in Hcs as [Hc Hcs].
  destruct (m !! cur) as [[d|]|] eqn:Hcur.
  - by specialize (Hall _ _ Hcur).
  - rewrite decide_False by done. by apply IH.
  - by intros [= <-].
Qed.

(** [os.mkdir] in such a store makes the directory, finds it there, or
    misses a parent. *)
Lemma os_mkdir_only_dirs rooted m cs :
  only_dirs m → ".." ∉ cs →
  (∃ m', os_mkdir rooted m cs = Ok m' ∧ only_dirs m')
  ∨ (os_mkdir rooted m cs = Raise FileExistsError ∧ is_dir rooted m cs = Ok true)
  ∨ (os_mkdir rooted m cs = Raise FileNotFoundError ∧
     walk rooted m [] cs = Raise FileNotFoundError).
Proof.
  intros Hm Hcs. unfold os_mkdir, is_dir, node_at.
  destruct (walk rooted m [] cs) as [p|e|] eqn:Hw; cbn [mbind res_bind].
  - destruct (m !! p) as [n|] eqn:Hp.
    + right. left. split; [done|]. destruct Hm as [_ Hall].
      rewrite (Hall _ _ Hp). by rewrite bool_decide_eq_true_2.
    + left. eexists. split; [done|]. by apply only_dirs_insert.
  - right. right. by rewrite (walk_only_dirs _ _ _ _ _ Hm Hcs Hw).
  - destruct (walk_plain rooted m [] cs Hcs) as [E|[e E]]; congruence.
Qed.

Lemma mkdir_p_only_dirs rooted rcs : ∀ m,
  only_dirs m → ".." ∉ rcs →
  ∃ m', mkdir_p rooted m rcs = (Ok (), m') ∧ only_dirs m'.
Proof.
  induction rcs as [|c rcs IH]; intros m Hm Hplain.
  - cbn [mkdir_p rev].
    destruct (os_mkdir_only_dirs rooted m [] Hm) as [(m' & -> & Hm')|[[-> Hd]|[_ Hw]]];
      [by apply not_elem_of_nil|by eexists| |done].
    unfold exist_ok. rewrite Hd. by eexists.
  - apply not_elem_of_cons in Hplain as [Hc Hrcs].
    assert (".." ∉ rev (c :: rcs)) as Hrev.
    { rewrite elem_of_rev. apply not_elem_of_cons. by split. }
    cbn [mkdir_p].
    destruct (os_mkdir_only_dirs rooted m _ Hm Hrev) as [(m' & -> & Hm')|[[-> Hd]|[-> _]]].
    + by eexists.
    + unfold exist_ok. rewrite Hd. by eexists.
    + destruct (IH m Hm Hrcs) as (m1 & Hrec & Hm1). rewrite Hrec.
      destruct (mkdir_p_plain _ _ _ _ _ Hrcs Hrec) as (_ & _ & Hdir).
      specialize (Hdir eq_refl).
      destruct (os_mkdir_only_dirs rooted m1 _ Hm1 Hrev)
        as [(m' & -> & Hm')|[[-> Hd]|[_ Hw]]].
      * by eexists.
      * unfold exist_ok. rewrite Hd. by eexists.
      * cbn [rev] in Hw. rewrite walk_child in Hw; [done|done|]. by apply not_eq_sym.
Qed.

Lemma mkdir_parents_only_dirs rooted m cs :
  only_dirs m → ".." ∉ cs →
  ∃ m', mkdir_parents rooted m cs = (Ok (), m') ∧ only_dirs m'.
Proof.
  intros Hm Hcs. unfold mkdir_parents. apply mkdir_p_only_dirs; [done|].
  by rewrite elem_of_rev.
Qed.

End FreshDirs.

(** * The scratch file of a failed reconstruction, and deletion entries *)

Section DeltaAndDelete.

Context (sha256_hexdigest : string → string)
        (detools_apply_patch : string → string → string + string)
        (extract_archive : nat → string → res extraction)
        (scandir_order : list path → list path)
        (cancelled : nat → bool).

Implicit Types (t r : fs) (p q ps game : path) (x name data : string) (s : state)
  (es : list (string * string)).

Local Arguments path_exists : simpl never.
Local Arguments is_dir : simpl never.
Local Arguments read_file : simpl never.
Local Arguments write_file : simpl never.
Local Arguments os_remove : simpl never.
Local Arguments os_replace : simpl never.
Local Arguments copy2_into : simpl never.
Local Arguments mkdir_parents : simpl never.
Local Arguments add_suffix : simpl never.
Local Arguments parent : simpl never.
Local Arguments basename : simpl never.

Local Abbreviation apply_delta := (apply_delta detools_apply_patch).
Local Abbreviation apply_entry := (apply_entry detools_apply_patch).
Local Abbreviation apply_entries := (apply_entries detools_apply_patch cancelled).
Local Abbreviation apply_patch :=
  (apply_patch sha256_hexdigest detools_apply_patch extract_archive scandir_order cancelled).

Lemma os_replace_no_detools rooted m src dst : os_replace rooted m src dst ≠ Raise DetoolsError.
Proof.
  unfold os_replace.
  destruct (walk rooted m [] src) as [p1|e|] eqn:E1; cbn [mbind res_bind];
    [|intros [= ->]; by apply walk_no_detools in E1|done].
  destruct (walk rooted m [] dst) as [p2|e|] eqn:E2; cbn [mbind res_bind];
    [|intros [= ->]; by apply walk_no_detools in E2|done].
  destruct (m !! p1) as [[d|]|]; [|done..]. by destruct (m !! p2) as [[]|].
Qed.

Lemma backup_no_detools rel tf s : (backup rel tf s).1 ≠ Raise DetoolsError.
Proof.
  unfold backup. destruct (absolute rel).
  - io_step. pose proof (mkdir_parents_no_detools true (target s) (parent tf)) as H.
    destruct (mkdir_parents true (target s) (parent tf)) as [[[]|e|] t1]; cbn [fst snd] in *;
      [|done..].
    io_step. destruct (is_dir true t1 tf) as [[]|e|] eqn:E; [by io_step|by io_step| |done].
    by apply is_dir_no_raise in E.
  - io_step.
    assert ((match parts rel with
             | [] => (Ok (), rollback s)
             | _ :: _ => mkdir_parents false (rollback s) (parent (parts rel))
             end).1 ≠ Raise DetoolsError) as Hm.
    { destruct (parts rel); [done|]. apply mkdir_parents_no_detools. }
    destruct (match parts rel with
              | [] => (Ok (), rollback s)
              | _ :: _ => mkdir_parents false (rollback s) (parent (parts rel))
              end) as [[[]|e|] r1]; cbn [fst snd] in *; [|done..].
    io_step.
    pose proof (copy2_into_no_detools false r1 (basename tf) (read_file true (target s) tf)
                  (parts rel) (read_file_no_detools _ _ _)) as H.
    destruct (copy2_into false r1 _ _ _) as [r2|e|]; cbn [fst]; [done| |done].
    intros [= ->]. by apply H.
Qed.

Lemma backup_target_grows rel tf s o s' :
  backup rel tf s = (o, s') → grows (target s) (target s').
Proof.
  unfold backup. destruct (absolute rel).
  - io_step. destruct (mkdir_parents true (target s) (parent tf)) as [o1 t1] eqn:Hmk.
    apply mkdir_parents_grows in Hmk. cbn [fst snd].
    destruct o1 as [[]|e|]; [|by intros [= _ <-]..].
    io_step. destruct (is_dir true t1 tf) as [[]|e|]; try io_step; by intros [= _ <-].
  - io_step. destruct ((match parts rel with
                        | [] => (Ok (), rollback s)
                        | _ :: _ => mkdir_parents false (rollback s) (parent (parts rel))
                        end)) as [o1 r1]. cbn [fst snd].
    destruct o1 as [[]|e|]; [|intros [= _ <-]; apply grows_refl..].
    io_step. destruct (copy2_into false r1 _ _ _); intros [= _ <-]; apply grows_refl.
Qed.

(** A reconstruction that fails leaves its scratch file, with what had
    been written, where it can be read. *)
Lemma apply_delta_detools tf data s s' :
  apply_delta tf data s = (Raise DetoolsError, s') →
  ∃ p written, walk true (target s') [] (add_suffix tf ".tmp") = Ok p ∧
               target s' !! p = Some (File written).
Proof.
  unfold Model.apply_delta. io_step.
  destruct (path_exists true (target s) tf) as [ex|e|] eqn:Hex;
    [|by apply path_exists_no_raise in Hex|done].
  destruct ex; cbn [negb]; [|by io_step].
  io_step. destruct (read_file true (target s) tf) as [f_old|e|] eqn:Hrd;
    [|intros [= ->]; by apply read_file_no_detools in Hrd|done].
  io_step.
  destruct (write_file true (target s) (add_suffix tf ".tmp") "") as [t2|e|] eqn:Hw1;
    [|intros [= ->]; by apply write_file_no_detools in Hw1|done].
  pose proof (write_file_kept _ _ _ _ _ Hw1) as [Hk1 _].
  apply write_file_Ok in Hw1 as (p & Hwalk & Hnd & ->).
  destruct (detools_apply_patch f_old data) as [written|f_new].
  - io_step.
    destruct (write_file true _ (add_suffix tf ".tmp") written) as [t3|e|] eqn:Hw2;
      [|intros [= ->]; by apply write_file_no_detools in Hw2|done].
    io_step. intros [= <-]. cbn [target].
    pose proof (write_file_kept _ _ _ _ _ Hw2) as [Hk2 _].
    apply write_file_Ok in Hw2 as (p' & Hwalk' & Hnd' & ->).
    exists p', written. split; [|by rewrite lookup_insert_eq].
    by eapply walk_mono.
  - io_step.
    destruct (write_file true _ (add_suffix tf ".tmp") f_new) as [t3|e|] eqn:Hw2;
      [|intros [= ->]; by apply write_file_no_detools in Hw2|done].
    io_step.
    destruct (os_replace true t3 (add_suffix tf ".tmp") tf) as [t4|e|] eqn:Hrp;
      [done|intros [= ->]; by apply os_replace_no_detools in Hrp|done].
Qed.

(** Only the reconstruction of a [.patch] file raises the exception of
    [detools]. *)
Lemma apply_entry_detools game name data s s' :
  apply_entry game name data s = (Raise DetoolsError, s') →
  entry_ext name = ".patch" ∧
  ∃ p written,
    walk true (target s') [] (add_suffix (joinpath game (entry_rel name).1) ".tmp") = Ok p ∧
    target s' !! p = Some (File written).
Proof.
  unfold Model.apply_entry, entry_ext. destruct (entry_rel name) as [rel ext]. cbn [fst snd].
  set (tf := joinpath game rel). io_step.
  pose proof (mkdir_parents_no_detools true (target s) (parent tf)) as Hmk.
  destruct (mkdir_parents true (target s) (parent tf)) as [[[]|e|] t1]; cbn [fst snd] in *;
    [|by intros [= ->]|done].
  io_step.
  destruct (path_exists true t1 tf) as [ex|e|] eqn:Hex;
    [|by apply path_exists_no_raise in Hex|done].
  rewrite io_bind_run.
  assert (∀ sb, (match (if decide (ext = ".patch") then apply_delta tf data
                 else if decide (ext = ".full")
                   then on_target (λ t, copy2_into true t name (Ok data) tf)
                 else if decide (ext = ".delete")
                   then ask_target (λ t, path_exists true t tf) ≫= λ ex' : bool,
                        if ex' then on_target (λ t, os_remove true t tf) else mret ()
                 else mret ()) sb with
           | (o, s2) => (o, s2) end) = (Raise DetoolsError, s') →
          ext = ".patch" ∧
          ∃ p written, walk true (target s') [] (add_suffix tf ".tmp") = Ok p ∧
                       target s' !! p = Some (File written)) as Hrest.
  { intros sb. destruct (decide (ext = ".patch")) as [->|_].
    - destruct (apply_delta tf data sb) as [o s2] eqn:Hd. intros [= -> ->].
      split; [done|]. by eapply apply_delta_detools.
    - destruct (decide (ext = ".full")) as [->|_].
      + rewrite on_target_run.
        destruct (copy2_into true (target sb) name (Ok data) tf) as [t2|e|] eqn:Hcp;
          [done| |done].
        intros [= -> _]. by apply copy2_into_no_detools in Hcp.
      + destruct (decide (ext = ".delete")) as [->|_]; [|by rewrite io_ret_run].
        io_step. destruct (path_exists true (target sb) tf) as [[]|e|] eqn:Hex';
          [|by io_step|by apply path_exists_no_raise in Hex'|done].
        rewrite on_target_run.
        destruct (os_remove true (target sb) tf) as [t2|e|] eqn:Hrm;
          [done|intros [= -> _]; by apply os_remove_no_detools in Hrm|done]. }
  destruct ex.
  - pose proof (backup_no_detools rel tf (State t1 (rollback s))) as Hb.
    destruct (backup rel tf (State t1 (rollback s))) as [[[]|e|] sb]; cbn [fst snd] in *;
      [|by intros [= ->]|done].
    intros H. apply (Hrest sb). by destruct (_ sb).
  - rewrite io_ret_run. intros H. apply (Hrest (State t1 (rollback s))). by destruct (_ (State _ _)).
Qed.


(** The snapshot into a store where the directories can be made and the
    backup path is free. *)
Lemma backup_returns rel par ps' x t r c r1 :
  absolute rel = false → parts rel = ps' ++ [x] → x ≠ ".." →
  dir_at true t par → t !! (par ++ [x]) = Some (File c) →
  mkdir_parents false r ps' = (Ok (), r1) → dir_at false r1 ps' →
  r1 !! (ps' ++ [x]) = None →
  backup rel (par ++ [x]) (State t r) = (Ok (), State t (<[ps' ++ [x] := File c]> r1)).
Proof.
  intros Habs Hparts Hx Hpar Hc Hmk Hdir Hfree. unfold backup. rewrite Habs, Hparts. io_step.
  assert (∀ (u v : res unit * fs),
            match ps' ++ [x] with [] => u | _ :: _ => v end = v) as Hcons
    by (intros; by destruct ps').
  rewrite !Hcons, parent_snoc, Hmk. cbn [fst snd]. io_step.
  unfold copy2_into. rewrite is_dir_child by done. cbn [mbind res_bind].
  rewrite read_file_child, basename_snoc, Hc by done. cbn [mbind res_bind].
  rewrite Hfree, bool_decide_eq_false_2 by done.
  rewrite write_file_child by done. by rewrite Hfree.
Qed.

(** C9, as the code has it.  The turn for a [.delete] patch file with a
    plain target first makes the missing directories above the target, as
    every turn does.  Then, when nothing is at the target path, it leaves
    the filesystem with those directories and takes no snapshot; when a
    regular file is there, either the snapshot fails and nothing more
    happens, or the file is snapshotted and removed and nothing else
    changes; the second is what happens when the parent of the target is a
    directory and the [rollback] directory is still empty. *)
Theorem deletion_entry game name data t r out s' :
  ".." ∉ game → plain_entry name → entry_ext name = ".delete" →
  apply_entry game name data (State t r) = (out, s') →
  ∃ t1,
    grows t t1 ∧
    (∀ q, t1 !! q ≠ t !! q → q `prefix_of` parent (game ++ entry_parts name)) ∧
    (t !! (game ++ entry_parts name) = None → target s' = t1 ∧ rollback s' = r) ∧
    (∀ c, t !! (game ++ entry_parts name) = Some (File c) →
       (out ≠ Ok () ∧ target s' = t1)
       ∨ (out = Ok () ∧ target s' = delete (game ++ entry_parts name) t1 ∧
          ∃ k, rollback s' !! k = Some (File c))) ∧
    (∀ c, t !! (game ++ entry_parts name) = Some (File c) →
       dir_at true t (parent (game ++ entry_parts name)) → r = fs_empty →
       out = Ok () ∧ target s' = delete (game ++ entry_parts name) t ∧
       rollback s' !! entry_parts name = Some (File c)).
Proof.
  intros Hgame [[Habs Hdd] Hne]. unfold entry_ext, entry_parts in *.
  unfold Model.apply_entry. destruct (entry_rel name) as [rel ext] eqn:Hentry.
  cbn [fst snd] in *. intros ->.
  destruct (exists_last Hne) as (ps' & x & Hparts). rewrite Hparts in *.
  assert ((".." ∉ ps') ∧ x ≠ "..") as [Hps' Hx].
  { apply not_elem_of_app in Hdd as [? Hx]. split; [done|]. intros ->. apply Hx. by left. }
  assert (".." ∉ game ++ ps') as Hplain by by apply not_elem_of_app.
  unfold joinpath. rewrite Habs, Hparts, app_assoc, parent_snoc.
  set (par := game ++ ps'). io_step.
  destruct (mkdir_parents true t par) as [o t1] eqn:Hmk. cbn [fst snd].
  destruct (mkdir_parents_plain _ _ _ _ _ Hplain Hmk) as (Hg & Hch & Hdir).
  assert (t1 !! (par ++ [x]) = t !! (par ++ [x])) as Htf.
  { destruct (decide (t1 !! (par ++ [x]) = t !! (par ++ [x]))) as [|Hd]; [done|].
    apply Hch in Hd. by apply snoc_not_prefix in Hd. }
  intros Hrun. exists t1. split_and!; [done|done|..].
  - revert Hrun. intros Hrun Hnone. rewrite Hnone in Htf.
    destruct o as [[]|e|]; [|by injection Hrun as _ <-..].
    specialize (Hdir eq_refl). revert Hrun. io_step.
    rewrite (path_exists_child true _ par x), Htf by done.
    rewrite bool_decide_eq_false_2 by by intros [??].
    io_step. rewrite decide_False, decide_False, decide_True by done.
    io_step. rewrite (path_exists_child true _ par x), Htf by done.
    rewrite bool_decide_eq_false_2 by by intros [??].
    io_step. by intros [= _ <-].
  - revert Hrun. intros Hrun c Hc. rewrite Hc in Htf.
    destruct o as [[]|e|]; [|left; by injection Hrun as <- <-..].
    specialize (Hdir eq_refl). revert Hrun. io_step.
    rewrite (path_exists_child true _ par x), Htf by done.
    rewrite bool_decide_eq_true_2 by eauto. rewrite io_bind_run.
    destruct (backup rel (par ++ [x]) (State t1 r)) as [ob sb] eqn:Hb.
    destruct (backup_spec _ _ _ _ _ _ _ _ Habs Hparts Hps' Hx Hdir Hb)
      as (Htb & r1 & Hgr & Hchr & Hback).
    destruct sb as [tb rb]. cbn [target rollback] in Htb, Hback. subst tb.
    destruct Hback as [[-> Hob]|(c' & k & Hc' & _ & -> & -> & _)].
    { destruct ob as [[]|e|]; [done|..]; intros [= <- <-]; left; by split. }
    rewrite decide_False, decide_False, decide_True by done.
    io_step. rewrite (path_exists_child true _ par x), Htf by done.
    rewrite bool_decide_eq_true_2 by eauto. io_step.
    rewrite (os_remove_child true _ par x), Htf by done.
    intros [= <- <-]. right. cbn [target rollback]. split_and!; [done..|].
    exists k. rewrite lookup_insert_eq. fold par in Hc'. rewrite Htf in Hc'.
    by injection Hc' as ->.
  - intros c Hc Hpar ->.
    rewrite (mkdir_parents_existing _ _ _ Hpar) in Hmk. injection Hmk as <- <-.
    revert Hrun. io_step.
    rewrite (path_exists_child true _ par x), Hc by done.
    rewrite bool_decide_eq_true_2 by eauto. rewrite io_bind_run.
    destruct (mkdir_parents_only_dirs false fs_empty ps' only_dirs_empty Hps')
      as (r1 & Hmkr & _).
    destruct (mkdir_parents_plain _ _ _ _ _ Hps' Hmkr) as (_ & Hchr & Hdr).
    assert (r1 !! (ps' ++ [x]) = None) as Hfree.
    { destruct (decide (r1 !! (ps' ++ [x]) = fs_empty !! (ps' ++ [x]))) as [->|Hd].
      - apply lookup_singleton_ne. by destruct ps'.
      - apply Hchr in Hd. by apply snoc_not_prefix in Hd. }
    rewrite (backup_returns rel par ps' x t fs_empty c r1) by auto.
    rewrite decide_False, decide_False, decide_True by done.
    io_step. rewrite (path_exists_child true _ par x), Hc by done.
    rewrite bool_decide_eq_true_2 by eauto. io_step.
    rewrite (os_remove_child true _ par x), Hc by done.
    intros [= <- <-]. cbn [target rollback]. split_and!; [done..|].
    by rewrite lookup_insert_eq.
Qed.

End DeltaAndDelete.

(** * Staying below the target root *)

Section Containment.

Context (sha256_hexdigest : string → string)
        (detools_apply_patch : string → string → string + string)
        (extract_archive : nat → string → res extraction)
        (scandir_order : list path → list path)
        (cancelled : nat → bool).

Implicit Types (t r : fs) (p q ps game : path) (x name data : string) (s : state)
  (es : list (string * string)).

Local Arguments path_exists : simpl never.
Local Arguments is_dir : simpl never.
Local Arguments read_file : simpl never.
Local Arguments write_file : simpl never.
Local Arguments copy2_into : simpl never.
Local Arguments mkdir_parents : simpl never.
Local Arguments parent : simpl never.
Local Arguments basename : simpl never.

Local Abbreviation apply_entry := (apply_entry detools_apply_patch).
Local Abbreviation apply_entries := (apply_entries detools_apply_patch cancelled).
Local Abbreviation try_body :=
  (try_body sha256_hexdigest detools_apply_patch extract_archive cancelled).
Local Abbreviation apply_patch :=
  (apply_patch sha256_hexdigest detools_apply_patch extract_archive scandir_order cancelled).

Lemma same_outside_refl root m : same_outside root m m.
Proof. by intros q _. Qed.

Lemma same_outside_trans root m1 m2 m3 :
  same_outside root m1 m2 → same_outside root m2 m3 → same_outside root m1 m3.
Proof. intros H1 H2 q Hq. rewrite H2, H1; done. Qed.

Lemma same_outside_insert root m p n :
  root `prefix_of` p → same_outside root m (<[p := n]> m).
Proof. intros Hp q Hq. rewrite lookup_insert_ne; [done|]. by intros ->. Qed.

Lemma parent_prefix (p : path) : parent p `prefix_of` p.
Proof.
  unfold parent. destruct p as [|a p] using rev_ind; [done|].
  rewrite removelast_last. by apply prefix_app_r.
Qed.

(** A patch file whose recovered path is relative and free of ".." changes
    nothing outside the target root. *)
Lemma apply_entry_inside game name data t r out s' :
  ".." ∉ game → dir_at true t game → inside name →
  apply_entry game name data (State t r) = (out, s') →
  same_outside game t (target s') ∧ dirs_kept t (target s').
Proof.
  intros Hgame Hdir [Habs Hdd]. unfold entry_parts in Hdd.
  destruct (entry_rel name) as [rel ext] eqn:Hentry. cbn [fst snd] in *.
  destruct (decide (parts rel = [])) as [Hnil|Hne].
  - (* the target is the root itself: the turn stops at the snapshot *)
    unfold Model.apply_entry. rewrite Hentry. unfold joinpath. rewrite Habs, Hnil, app_nil_r.
    io_step.
    rewrite mkdir_parents_existing
      by (apply (dir_at_prefix true t game); [done|done|apply parent_prefix]).
    cbn [fst snd]. io_step. unfold path_exists. rewrite node_at_dir by done.
    cbn [mbind res_bind]. rewrite bool_decide_eq_true_2 by eauto.
    rewrite io_bind_run. unfold backup. rewrite Habs, Hnil. io_step. io_step.
    unfold copy2_into. destruct (is_dir false r []) as [b|e|]; cbn [mbind res_bind].
    + unfold read_file. destruct Hdir as [Hw Hd]. rewrite Hw. cbn [mbind res_bind].
      rewrite Hd. cbn [mbind res_bind]. intros [= _ <-].
      split; [apply same_outside_refl|apply dirs_kept_refl].
    + intros [= _ <-]. split; [apply same_outside_refl|apply dirs_kept_refl].
    + intros [= _ <-]. split; [apply same_outside_refl|apply dirs_kept_refl].
  - destruct (exists_last Hne) as (ps' & x & Hparts).
    assert ((".." ∉ ps') ∧ x ≠ "..") as [Hps' Hx].
    { rewrite Hparts in Hdd. apply not_elem_of_app in Hdd as [? Hx]. split; [done|].
      intros ->. apply Hx. by left. }
    assert (".." ∉ game ++ ps') as Hplain by by apply not_elem_of_app.
    intros Hrun.
    destruct (apply_entry_spec _ _ _ _ _ _ _ _ _ _ _ _ Hentry Habs Hparts Hplain Hx Hrun)
      as (r1 & _ & _ & Hdk & Hfr & _).
    split; [|done]. intros q Hq.
    destruct (Hfr q) as [E|(E1 & E2 & Hpre)]; [..|done|].
    + intros ->. apply Hq. rewrite <-app_assoc. by apply prefix_app_r.
    + intros ->. apply Hq. rewrite <-app_assoc. by apply prefix_app_r.
    + exfalso.
      destruct (prefix_weak_total q game (game ++ ps') Hpre (prefix_app_r _ _ _ (reflexivity _)))
        as [Hqg|Hgq]; [|done].
      pose proof (dir_at_prefix_dir _ _ _ _ Hgame Hdir Hqg). congruence.
Qed.

Lemma apply_entries_inside game es : ∀ i s out s',
  ".." ∉ game → dir_at true (target s) game → Forall inside es.*1 →
  apply_entries game i es s = (out, s') →
  same_outside game (target s) (target s') ∧ dirs_kept (target s) (target s').
Proof.
  induction es as [|[name data] es IH]; intros i s out s' Hgame Hdir Hall.
  - intros [= _ <-]. split; [apply same_outside_refl|apply dirs_kept_refl].
  - apply Forall_cons in Hall as [Hname Hall]. rewrite apply_entries_cons.
    destruct (cancelled i).
    { intros [= _ <-]. split; [apply same_outside_refl|apply dirs_kept_refl]. }
    destruct s as [t r].
    destruct (apply_entry game name data (State t r)) as [o s1] eqn:Hstep.
    destruct (apply_entry_inside _ _ _ _ _ _ _ Hgame Hdir Hname Hstep) as [Hs1 Hk1].
    destruct o as [[]|e|]; [|by intros [= _ <-]..].
    intros Hrest. eapply IH in Hrest as [Hs2 Hk2]; [|done|by eapply dir_at_mono|done].
    split; [by eapply same_outside_trans|by eapply dirs_kept_trans].
Qed.

Lemma restore_inside game r L : ∀ t out t',
  ".." ∉ game → dir_at true t game →
  (∀ q, q ∈ L → q ≠ [] ∧ ".." ∉ q) →
  restore game r L t = (out, t') → same_outside game t t'.
Proof.
  induction L as [|q L IH]; intros t out t' Hgame Hdir HL; cbn [restore].
  - intros [= _ <-]. apply same_outside_refl.
  - destruct (HL q) as [Hne Hq]; [by left|].
    destruct (exists_last Hne) as (q' & x & ->).
    unfold joinpath. cbn [absolute parts]. rewrite app_assoc, parent_snoc.
    assert (".." ∉ game ++ q') as Hplain.
    { apply not_elem_of_app in Hq as [? _]. by apply not_elem_of_app. }
    destruct (mkdir_parents true t (game ++ q')) as [o t1] eqn:Hmk.
    pose proof (mkdir_parents_below _ _ _ _ _ _ Hplain Hdir Hmk) as Hs1.
    pose proof (grows_dirs_kept _ _ (mkdir_parents_grows _ _ _ _ _ Hmk)) as Hk1.
    destruct o as [[]|e|]; [|by intros [= _ <-]..].
    destruct (copy2_into true t1 _ _ _) as [t2|e|] eqn:Hcp; [|by intros [= _ <-]..].
    pose proof (copy2_into_kept _ _ _ _ _ _ Hcp) as [Hk2 _].
    apply copy2_into_Ok in Hcp as (cs & p & d & Hcs & Hw & Hnd & ->).
    assert ((".." ∉ cs) ∧ game `prefix_of` cs) as [Hcs1 Hcs2].
    { apply not_elem_of_app in Hq as [? Hx]. destruct Hcs as [->| ->].
      - split; [|rewrite <-app_assoc; by apply prefix_app_r].
        rewrite !elem_of_app. by intros [[?|?]|?].
      - rewrite basename_snoc. split; [|rewrite <-!app_assoc; by apply prefix_app_r].
        rewrite !elem_of_app. by intros [[[?|?]|?]|?]. }
    apply walk_plain_Ok in Hw as ->; [|done]. cbn [app].
    intros Hrest. eapply IH in Hrest; [|done| |].
    + eapply same_outside_trans; [done|]. eapply same_outside_trans; [|done].
      by apply same_outside_insert.
    + eapply dir_at_mono; [|done]. by eapply dirs_kept_trans.
    + intros q2 Hin. apply HL. by right.
Qed.

(** Nothing before the loop changes the target filesystem. *)
Lemma try_body_inside game patch_package ram t0 out s :
  ".." ∉ game → dir_at true t0 game →
  (∀ f_in ex, read_file true t0 patch_package = Ok f_in →
     extract_archive ram f_in = Ok ex → Forall inside (patch_files ex).*1) →
  try_body game patch_package ram (State t0 fs_empty) = (out, s) →
  same_outside game t0 (target s) ∧ dirs_kept t0 (target s).
Proof.
  intros Hgame Hdir Hall. unfold Model.try_body.
  assert (∀ o' r, (o', State t0 r) = (out, s) →
            same_outside game t0 (target s) ∧ dirs_kept t0 (target s)) as Hstop.
  { intros o' r [= _ <-]. split; [apply same_outside_refl|apply dirs_kept_refl]. }
  io_step. destruct (read_file true t0 patch_package) as [f_in|e|] eqn:Hread;
    [|by apply Hstop..].
  rewrite io_bind_run. destruct (extract_archive ram f_in) as [ex|e|] eqn:Hex;
    [|by apply Hstop..].
  io_step. rewrite io_bind_run.
  destruct (ex_manifest ex) as [| |items]; [by apply Hstop..|].
  rewrite io_ret_run. rewrite io_bind_run. fold (patch_files ex).
  destruct (apply_entries game 0 (patch_files ex) (State t0 (ex_rollback ex))) as [o s1] eqn:Hrun.
  apply apply_entries_inside in Hrun; [|done|done|by eapply Hall].
  destruct o as [[]|e|]; [|by intros [= _ <-]..].
  unfold validate. io_step.
  destruct (validation_errors sha256_hexdigest game (target s1) items) as [[|l ls]|e|];
    try io_step; by intros [= _ <-].
Qed.

Hypothesis scandir_perm : ∀ l, scandir_order l ≡ₚ l.

(** C4, as the code has it.  [apply_patch] has no check that keeps a
    recovered path below the target root.  What keeps it there is the
    shape of the path: when the recovered paths of all patch files of the
    package are relative and free of "..", nothing outside the target root
    (an existing directory) is created, overwritten or deleted, whatever
    the outcome, rollback included. *)
Theorem plain_paths_stay_inside game patch_package ram t0 out t' :
  ".." ∉ game → dir_at true t0 game →
  (∀ f_in ex, read_file true t0 patch_package = Ok f_in →
     extract_archive ram f_in = Ok ex → Forall inside (patch_files ex).*1) →
  apply_patch game patch_package ram t0 = (out, t') →
  same_outside game t0 t'.
Proof.
  intros Hgame Hdir Hall. unfold Model.apply_patch.
  destruct (try_body game patch_package ram (State t0 fs_empty)) as [o s] eqn:Htry.
  destruct (try_body_inside _ _ _ _ _ _ Hgame Hdir Hall Htry) as [Hs Hk].
  destruct o as [[]|e|]; [by intros [= _ <-]| |by intros [= _ <-]].
  destruct (restore game (rollback s) (rollback_files scandir_order s) (target s))
    as [o2 t2] eqn:Hrest.
  apply restore_inside in Hrest; [|done|by eapply dir_at_mono|].
  - intros H. assert (t' = t2) as -> by (by destruct o2 as [[]| |]; injection H).
    by eapply same_outside_trans.
  - intros q. unfold rollback_files. rewrite scandir_perm, elem_of_files_under.
    intros (Hne & Hloc & _). split; [done|]. by eapply located_no_dotdot.
Qed.

End Containment.

(** * The container names *)

Section NameClaims.

(** C5, as the code has it.  On the relative paths that hold neither "__"
    nor "_/" and are not made of dots only, the container name determines
    the path: the reader recovers the path and the kind suffix exactly, and
    two such paths with the same container name are equal. *)
Theorem container_name_exact_on_clean_paths (p1 p2 ext : string) :
  clean p1 = true → clean p2 = true → ext ∈ [".patch"; ".full"; ".delete"] →
  recover (patch_name p1 +:+ ext) = (p1, ext) ∧
  (patch_name p1 = patch_name p2 → p1 = p2).
Proof.
  unfold clean. rewrite !andb_true_iff, !negb_true_iff.
  intros [[Huu1 Hus1] Hd1] [[Huu2 Hus2] Hd2] Hext.
  assert (∀ p, occurs "__" p = false → occurs "_/" p = false →
               PyStr.has_other "."%char p = true →
               recover (patch_name p +:+ ext) = (p, ext)) as Hrec.
  { intros p Huu Hus Hd. unfold recover.
    assert (∃ e, ext = String "."%char e ∧ PyStr.mem "."%char e = false ∧
                 PyStr.mem "/"%char e = false) as (e & -> & He1 & He2).
    { rewrite !elem_of_cons in Hext. destruct Hext as [->|[->|[->|?%elem_of_nil]]];
        [by eexists..|done]. }
    rewrite splitext_suffix;
      [|apply mem_patch_name|by apply has_other_patch_name|done|done].
    by rewrite decode_patch_name. }
  split; [by apply Hrec|].
  intros Heq. pose proof (Hrec p1 Huu1 Hus1 Hd1) as H1.
  rewrite Heq, (Hrec p2 Huu2 Hus2 Hd2) in H1. congruence.
Qed.

End NameClaims.

(** * The claims on concrete runs *)

Section Runs.

Local Ltac by_run := vm_compute; reflexivity.

(** The scenario of the two small trees: the package has a delta for the
    modified file, the whole added file and nothing for the unchanged one,
    and applying it to a copy of the old tree gives the files of the new
    tree. *)
Example scenario_round_trip :
  Runs.packed Runs.scenario ≡ₚ [("a.txt.patch", "Dhello world"); ("c.txt.full", "new")] ∧
  (Runs.create_then_apply Runs.scenario).1 = Ok () ∧
  (Runs.create_then_apply Runs.scenario).2 !! ["game"; "a.txt"] = Some (File "hello world") ∧
  (Runs.create_then_apply Runs.scenario).2 !! ["game"; "b.txt"] = Some (File "same") ∧
  (Runs.create_then_apply Runs.scenario).2 !! ["game"; "c.txt"] = Some (File "new").
Proof.
  split_and!; [|by_run..].
  vm_compute. first [reflexivity | apply perm_swap].
Qed.

(** C1 on the failing input: the new tree has one file named "a__b", the
    old tree and the target are empty.  [create_patch] returns, and the
    package holds "a__b.full"; [apply_patch] writes it to "a/b", its
    validation misses "a__b", and it raises. *)
Theorem round_trip_fails_on_double_underscore :
  (Examples.create None Toy.never Runs.underscores).1 = Ok () ∧
  Runs.packed Runs.underscores = [("a__b.full", "x")] ∧
  (Runs.create_then_apply Runs.underscores).1 = Raise (ValueError ["Missing file: a__b"]) ∧
  (Runs.create_then_apply Runs.underscores).2 !! ["game"; "a__b"] = None ∧
  (Runs.create_then_apply Runs.underscores).2 !! ["game"; "a"; "b"] = Some (File "x").
Proof. split_and!; by_run. Qed.



(** C4 does not hold as stated: the recovered path is joined to the target
    root unchecked, and a patch file named "..__x.full" is written next to
    the target root. *)
Lemma dotdot_entry_escapes_example :
  let out := Runs.apply Runs.climbing Runs.empty_game in
  entry_rel "..__x.full" = (parse_path "../x", ".full") ∧
  out.1 = Ok () ∧
  Runs.empty_game !! ["x"] = None ∧
  out.2 !! ["x"] = Some (File "escaped") ∧
  ¬ ["game"] `prefix_of` ["x"].
Proof.
  split_and!; [by_run..|].
  intros [k Hk]. discriminate.
Qed.

(** C5 does not hold as stated: two different relative paths have the same
    container name, the reader recovers only one of them, and a package
    with such a name is applied, not rejected. *)
Lemma container_name_collision_example :
  let out := Runs.apply Runs.ambiguous Runs.empty_game in
  "a/b" ≠ "a__b" ∧
  patch_name "a/b" = patch_name "a__b" ∧
  recover (patch_name "a__b" +:+ ".full") = ("a/b", ".full") ∧
  out.1 = Ok () ∧
  out.2 !! ["game"; "a"; "b"] = Some (File "x").
Proof. split_and!; [discriminate|by_run..]. Qed.


(** C9 does not hold as stated: the parent of the target is created with
    its missing ancestors before the kind of the patch file is looked at,
    so a deletion of an absent path can add directories. *)
Lemma deletion_of_absent_path_makes_directories_example :
  let out := Runs.turn "sub__gone.delete" "DELETE" (State Runs.empty_game fs_empty) in
  entry_rel "sub__gone.delete" = (parse_path "sub/gone", ".delete") ∧
  Runs.empty_game !! ["game"; "sub"; "gone"] = None ∧
  Runs.empty_game !! ["game"; "sub"] = None ∧
  out.1 = Ok () ∧
  target out.2 !! ["game"; "sub"] = Some Dir.
Proof. split_and!; by_run. Qed.

End Runs.

(** * The theorems at concrete inputs *)

Section Witnesses.

Local Ltac by_decide := apply (bool_decide_unpack _); vm_compute; exact I.
Local Ltac by_run := vm_compute; reflexivity.

Lemma pair_of_run {A B : Type} (x : A * B) (a : A) : x.1 = a → x = (a, x.2).
Proof. destruct x as [a' b]. cbn. by intros ->. Qed.

Local Ltac by_pair := apply pair_of_run; vm_compute; reflexivity.

(** [manifest_complete] on the example trees. *)
Lemma manifest_complete_witness :
  ∃ items files dest,
    walk true Examples.trees [] ["out.pkg"] = Ok dest ∧
    (Examples.create None Toy.never Examples.trees).2 !! dest
      = Some (File (Toy.archive_bytes items files)) ∧
    ∀ rel data, file_in Examples.trees ["new"] rel data →
      dict_get (as_posix rel) items
        = Some (MInfo (Toy.sha256_hexdigest data) (PyStr.len data)) ∧
      length (filter (λ kv, kv.1 = as_posix rel) items) = 1.
Proof.
  apply (manifest_complete Toy.sha256_hexdigest Toy.detools_create_patch Toy.archive_bytes
           Toy.scandir_order Toy.never None ["old"] ["new"] ["out.pkg"] Examples.trees).
  - intros l. reflexivity.
  - by_decide.
  - by_pair.
Defined.




(** [plain_paths_stay_inside] for the same run. *)
Lemma plain_paths_stay_inside_witness :
  same_outside ["game"] Runs.one_file (Runs.apply Runs.two_targets Runs.one_file).2.
Proof.
  apply (plain_paths_stay_inside Toy.sha256_hexdigest Toy.detools_apply_patch
           (Runs.extract Runs.two_targets) Toy.scandir_order Toy.never
           (λ l, reflexivity l) ["game"] ["out.pkg"] 64 Runs.one_file
           (Runs.apply Runs.two_targets Runs.one_file).1).
  - by_decide.
  - by_decide.
  - intros f_in ex _ [= <-]. by_decide.
  - apply surjective_pairing.
Defined.

(** [container_name_exact_on_clean_paths] for two paths in a directory. *)
Lemma container_name_exact_on_clean_paths_witness :
  recover (patch_name "data/level_1.bin" +:+ ".patch") = ("data/level_1.bin", ".patch") ∧
  (patch_name "data/level_1.bin" = patch_name "data/level_2.bin" →
   "data/level_1.bin" = "data/level_2.bin").
Proof.
  apply (container_name_exact_on_clean_paths "data/level_1.bin" "data/level_2.bin" ".patch").
  - by_run.
  - by_run.
  - by_decide.
Defined.

(** [deletion_entry] for the deletion of the file "a". *)
Lemma deletion_entry_witness :
  let s := State Runs.one_file fs_empty in
  ∃ t1,
    grows Runs.one_file t1 ∧
    (∀ q, t1 !! q ≠ Runs.one_file !! q →
       q `prefix_of` parent (["game"] ++ entry_parts "a.delete")) ∧
    (Runs.one_file !! (["game"] ++ entry_parts "a.delete") = None →
       target (Runs.turn "a.delete" "DELETE" s).2 = t1 ∧
       rollback (Runs.turn "a.delete" "DELETE" s).2 = fs_empty) ∧
    (∀ c, Runs.one_file !! (["game"] ++ entry_parts "a.delete") = Some (File c) →
       ((Runs.turn "a.delete" "DELETE" s).1 ≠ Ok () ∧
        target (Runs.turn "a.delete" "DELETE" s).2 = t1)
       ∨ ((Runs.turn "a.delete" "DELETE" s).1 = Ok () ∧
          target (Runs.turn "a.delete" "DELETE" s).2
            = delete (["game"] ++ entry_parts "a.delete") t1 ∧
          ∃ k, rollback (Runs.turn "a.delete" "DELETE" s).2 !! k = Some (File c))) ∧
    (∀ c, Runs.one_file !! (["game"] ++ entry_parts "a.delete") = Some (File c) →
       dir_at true Runs.one_file (parent (["game"] ++ entry_parts "a.delete")) →
       fs_empty = fs_empty →
       (Runs.turn "a.delete" "DELETE" s).1 = Ok () ∧
       target (Runs.turn "a.delete" "DELETE" s).2
         = delete (["game"] ++ entry_parts "a.delete") Runs.one_file ∧
       rollback (Runs.turn "a.delete" "DELETE" s).2 !! entry_parts "a.delete"
         = Some (File c)).
Proof.
  intros s.
  apply (deletion_entry Toy.detools_apply_patch ["game"] "a.delete" "DELETE" Runs.one_file
           fs_empty).
  - by_decide.
  - by_decide.
  - by_run.
  - apply surjective_pairing.
Defined.


End Witnesses.

(** * More of [PatchLogic]: the digest, the validation and the ways a run
      stops early *)

Section Digest.

Context (sha256_hexdigest : string → string).

(** X1. [_sha256sum] reads the file in chunks of 65536 bytes and feeds them to
    the hash object: the digest is that of the whole content, no byte lost
    or fed twice at a chunk border, and a file that cannot be opened makes
    it raise what [open] raises. *)
Theorem sha256sum_whole_content (m : fs) (p : path) :
  _sha256sum sha256_hexdigest m p =
  match read_file true m p with
  | Ok data => Ok (sha256_hexdigest data)
  | Raise e => Raise e
  | Astray => Astray
  end.
Proof.
  destruct (read_file true m p) as [data|e|] eqn:Hread.
  - by apply sha256sum_read.
  - unfold _sha256sum. by rewrite Hread.
  - unfold _sha256sum. by rewrite Hread.
Qed.

End Digest.

(** * Calls that stay in their store *)

Section Followed.

Implicit Types (m t r : fs) (p q cs : path) (c x : string) (rooted : bool).

(** The calls on the filesystem, and the calls on a scratch store for a
    path without "..", never step out of their store. *)
Lemma walk_followed rooted m cur cs :
  rooted = true ∨ ".." ∉ cs → walk rooted m cur cs ≠ Astray.
Proof.
  intros [->|Hcs]; [apply walk_rooted_not_astray|].
  destruct (walk_plain rooted m cur cs Hcs) as [->|[e ->]]; done.
Qed.

Lemma node_at_followed rooted m cs :
  rooted = true ∨ ".." ∉ cs → node_at rooted m cs ≠ Astray.
Proof.
  intros H%(walk_followed rooted m []). unfold node_at.
  by destruct (walk rooted m [] cs).
Qed.

Lemma is_dir_followed rooted m cs :
  rooted = true ∨ ".." ∉ cs → is_dir rooted m cs ≠ Astray.
Proof.
  intros H%(node_at_followed rooted m). unfold is_dir.
  by destruct (node_at rooted m cs).
Qed.

Lemma path_exists_followed rooted m cs :
  rooted = true ∨ ".." ∉ cs → path_exists rooted m cs ≠ Astray.
Proof.
  intros H%(node_at_followed rooted m). unfold path_exists.
  by destruct (node_at rooted m cs).
Qed.

Lemma read_file_followed rooted m cs :
  rooted = true ∨ ".." ∉ cs → read_file rooted m cs ≠ Astray.
Proof.
  intros H%(walk_followed rooted m []). unfold read_file.
  destruct (walk rooted m [] cs) as [p| |]; cbn [mbind res_bind]; [|done..].
  by destruct (m !! p) as [[d|]|].
Qed.

Lemma write_file_followed rooted m cs d :
  rooted = true ∨ ".." ∉ cs → write_file rooted m cs d ≠ Astray.
Proof.
  intros H%(walk_followed rooted m []). unfold write_file.
  destruct (walk rooted m [] cs) as [p| |]; cbn [mbind res_bind]; [|done..].
  by destruct (m !! p) as [[d'|]|].
Qed.

Lemma os_mkdir_followed rooted m cs :
  rooted = true ∨ ".." ∉ cs → os_mkdir rooted m cs ≠ Astray.
Proof.
  intros H%(walk_followed rooted m []). unfold os_mkdir.
  destruct (walk rooted m [] cs) as [p| |]; cbn [mbind res_bind]; [|done..].
  by destruct (m !! p).
Qed.

Lemma exist_ok_followed rooted m cs e :
  rooted = true ∨ ".." ∉ cs → (exist_ok rooted m cs e).1 ≠ Astray.
Proof.
  intros H%(is_dir_followed rooted m). unfold exist_ok.
  by destruct (is_dir rooted m cs) as [[]| |].
Qed.

Lemma mkdir_p_followed rooted rcs : ∀ m,
  rooted = true ∨ ".." ∉ rcs → (mkdir_p rooted m rcs).1 ≠ Astray.
Proof.
  induction rcs as [|c rcs IH]; intros m Hway.
  - cbn [mkdir_p rev].
    pose proof (os_mkdir_followed rooted m [] Hway) as Hmk.
    pose proof (exist_ok_followed rooted m []) as Hex.
    destruct (os_mkdir rooted m []) as [m'|e|]; [done| |done].
    destruct e; try (apply Hex; by destruct Hway; [left|right]); done.
  - assert (rooted = true ∨ ".." ∉ rev (c :: rcs)) as Hrev.
    { destruct Hway as [?|Hcs]; [by left|right]. by rewrite elem_of_rev. }
    assert (rooted = true ∨ ".." ∉ rcs) as Hrest.
    { destruct Hway as [?|Hcs]; [by left|right]. by apply not_elem_of_cons in Hcs as [_ ?]. }
    cbn [mkdir_p].
    pose proof (os_mkdir_followed rooted m _ Hrev) as Hmk.
    destruct (os_mkdir rooted m (rev (c :: rcs))) as [m'|e|]; [done| |done].
    destruct e; try (by apply exist_ok_followed).
    specialize (IH m Hrest).
    destruct (mkdir_p rooted m rcs) as [[[]|e1|] m1]; [|done..].
    pose proof (os_mkdir_followed rooted m1 _ Hrev) as Hmk1.
    destruct (os_mkdir rooted m1 (rev (c :: rcs))) as [m2|e2|]; [done| |done].
    destruct e2; try (by apply exist_ok_followed); done.
Qed.

Lemma mkdir_parents_followed rooted m cs :
  rooted = true ∨ ".." ∉ cs → (mkdir_parents rooted m cs).1 ≠ Astray.
Proof.
  intros Hway. unfold mkdir_parents. apply mkdir_p_followed.
  destruct Hway as [?|Hcs]; [by left|right]. by rewrite elem_of_rev.
Qed.

Lemma copy2_into_followed rooted m name src dst :
  rooted = true ∨ ((".." ∉ dst) ∧ name ≠ "..") → src ≠ Astray →
  copy2_into rooted m name src dst ≠ Astray.
Proof.
  intros Hway Hsrc. unfold copy2_into.
  assert (rooted = true ∨ ".." ∉ dst) as Hdst by (destruct Hway as [?|[??]]; eauto).
  pose proof (is_dir_followed rooted m dst Hdst) as Hd.
  destruct (is_dir rooted m dst) as [d| |]; cbn [mbind res_bind]; [|done..].
  destruct src as [data|e|]; cbn [mbind res_bind]; [|done..].
  apply write_file_followed. destruct Hway as [?|[Hp Hn]]; [by left|right].
  destruct d; [|done]. apply not_elem_of_app. split; [done|].
  intros H%list_elem_of_singleton. by subst.
Qed.

Lemma plain_parent cs : ".." ∉ cs → ".." ∉ parent cs.
Proof. intros Hcs Hin. apply Hcs. by apply elem_of_removelast. Qed.

(** The snapshot of a target whose recovered path is relative and free of
    ".." is taken inside the [rollback] directory. *)
Lemma backup_followed rel target_file s :
  absolute rel = false → ".." ∉ parts rel → basename target_file ≠ ".." →
  (backup rel target_file s).1 ≠ Astray.
Proof.
  intros Habs Hplain Hbase. unfold backup. rewrite Habs.
  rewrite io_bind_run, rollback_step_run.
  assert ((match parts rel with
           | [] => (Ok (), rollback s)
           | _ :: _ => mkdir_parents false (rollback s) (parent (parts rel))
           end).1 ≠ Astray) as Hmk.
  { destruct (parts rel) as [|c0 l0]; [by cbn|].
    apply mkdir_parents_followed. right. by apply plain_parent. }
  destruct (match parts rel with [] => _ | _ :: _ => _ end) as [[[]|e|] r1]; [|done..].
  cbn [fst snd]. rewrite on_rollback_run. cbn [target rollback].
  pose proof (copy2_into_followed false r1 (basename target_file)
                (read_file true (target s) target_file) (parts rel)) as Hcopy.
  destruct (copy2_into false r1 _ _ _) as [r2|e|]; [done..|].
  destruct Hcopy; [by right|by apply read_file_followed; left|done].
Qed.

End Followed.

Section EarlyStops.

Context (sha256_hexdigest : string → string)
        (detools_apply_patch : string → string → string + string)
        (extract_archive : nat → string → res extraction)
        (scandir_order : list path → list path)
        (cancelled : nat → bool).

Implicit Types (t r : fs) (p q ps game : path) (x name data : string) (s : state)
  (es : list (string * string)).

Local Arguments path_exists : simpl never.
Local Arguments is_dir : simpl never.
Local Arguments read_file : simpl never.
Local Arguments write_file : simpl never.
Local Arguments os_remove : simpl never.
Local Arguments os_replace : simpl never.
Local Arguments copy2_into : simpl never.
Local Arguments mkdir_parents : simpl never.
Local Arguments add_suffix : simpl never.
Local Arguments parent : simpl never.
Local Arguments basename : simpl never.

Local Abbreviation apply_delta := (apply_delta detools_apply_patch).
Local Abbreviation apply_entry := (apply_entry detools_apply_patch).
Local Abbreviation apply_entries := (apply_entries detools_apply_patch cancelled).
Local Abbreviation try_body :=
  (try_body sha256_hexdigest detools_apply_patch extract_archive cancelled).
Local Abbreviation apply_patch :=
  (apply_patch sha256_hexdigest detools_apply_patch extract_archive scandir_order cancelled).
Local Abbreviation validation_errors := (validation_errors sha256_hexdigest).

(** The [try] block, step by step. *)
Lemma try_body_unfold game patch_package ram t0 :
  try_body game patch_package ram (State t0 fs_empty) =
  match read_file true t0 patch_package with
  | Ok f_in =>
      match extract_archive ram f_in with
      | Ok ex =>
          match ex_manifest ex with
          | ManifestMissing => (Raise FileNotFoundError, State t0 (ex_rollback ex))
          | ManifestUnparsable => (Raise JSONDecodeError, State t0 (ex_rollback ex))
          | ManifestLoaded items =>
              match apply_entries game 0 (patch_files ex) (State t0 (ex_rollback ex)) with
              | (Ok _, s) =>
                  match validation_errors game (target s) items with
                  | Ok [] => (Ok (), s)
                  | Ok (l :: ls) => (Raise (ValueError (l :: ls)), s)
                  | Raise e => (Raise e, s)
                  | Astray => (Astray, s)
                  end
              | other => other
              end
          end
      | Raise e => (Raise e, State t0 fs_empty)
      | Astray => (Astray, State t0 fs_empty)
      end
  | Raise e => (Raise e, State t0 fs_empty)
  | Astray => (Astray, State t0 fs_empty)
  end.
Proof.
  destruct (read_file true t0 patch_package) as [f_in|e|] eqn:Hread.
  - destruct (extract_archive ram f_in) as [ex|e|] eqn:Hex.
    + destruct (ex_manifest ex) as [| |items] eqn:Hman.
      * unfold Model.try_body.
        rewrite io_bind_run, ask_target_run. cbn [target]. rewrite Hread.
        rewrite io_bind_run, Hex. rewrite io_bind_run, on_rollback_run. cbn [target rollback].
        by rewrite io_bind_run, Hman, raise_run.
      * unfold Model.try_body.
        rewrite io_bind_run, ask_target_run. cbn [target]. rewrite Hread.
        rewrite io_bind_run, Hex. rewrite io_bind_run, on_rollback_run. cbn [target rollback].
        by rewrite io_bind_run, Hman, raise_run.
      * by eapply try_body_run.
    + unfold Model.try_body.
      rewrite io_bind_run, ask_target_run. cbn [target]. rewrite Hread.
      by rewrite io_bind_run, Hex.
    + unfold Model.try_body.
      rewrite io_bind_run, ask_target_run. cbn [target]. rewrite Hread.
      by rewrite io_bind_run, Hex.
  - unfold Model.try_body. rewrite io_bind_run, ask_target_run. cbn [target]. by rewrite Hread.
  - unfold Model.try_body. rewrite io_bind_run, ask_target_run. cbn [target]. by rewrite Hread.
Qed.

(** A validation without complaints has found every record's file with
    the recorded digest. *)
Lemma validation_errors_none game t items :
  validation_errors game t items = Ok [] →
  ∀ rel_path info, (rel_path, info) ∈ items →
    ∃ data, read_file true t (joinpath game (parse_path rel_path)) = Ok data ∧
            sha256_hexdigest data = info_sha256 info.
Proof.
  induction items as [|[k i] items IH]; intros Hrun rel_path info Hin.
  - by apply elem_of_nil in Hin.
  - cbn [Model.validation_errors] in Hrun.
    destruct (path_exists true t (joinpath game (parse_path k))) as [[]| |] eqn:Hex;
      cbn [mbind res_bind] in Hrun; try done.
    + destruct (read_file true t (joinpath game (parse_path k))) as [d| |] eqn:Hread;
        [rewrite (sha256sum_read _ _ _ _ Hread) in Hrun
        |unfold _sha256sum in Hrun; rewrite Hread in Hrun..];
        cbn [mbind res_bind] in Hrun; try done.
      destruct (validation_errors game t items) as [rest| |]; cbn [mbind res_bind] in Hrun;
        try done.
      injection Hrun as Hrun. apply app_eq_nil in Hrun as [Hline ->].
      apply elem_of_cons in Hin as [[= -> ->]|Hin]; [|by apply IH].
      exists d. split; [done|]. by destruct (decide (sha256_hexdigest d = info_sha256 i)).
    + destruct (validation_errors game t items) as [rest| |]; cbn [mbind res_bind] in Hrun;
        done.
Qed.


(** X5. The validation reads the digest of a record and nothing else of it:
    the recorded size is never compared with the file. *)
Theorem validation_ignores_sizes game t items (resize : string → minfo → nat) :
  validation_errors game t
    (map (λ kv : string * minfo, (kv.1, MInfo (info_sha256 kv.2) (resize kv.1 kv.2))) items)
  = validation_errors game t items.
Proof.
  induction items as [|[k i] items IH]; [done|].
  cbn [map Model.validation_errors fst snd info_sha256]. by rewrite IH.
Qed.

(** Listing an empty [rollback] directory gives nothing, in any order. *)
Lemma rollback_files_empty t :
  (∀ l, scandir_order l ≡ₚ l) → rollback_files scandir_order (State t fs_empty) = [].
Proof.
  intros Hperm. unfold rollback_files. cbn [rollback].
  assert (files_under false fs_empty [] = []) as ->.
  { apply elem_of_nil_inv. intros rel. rewrite elem_of_files_under.
    intros (Hne & _ & d & Hd). unfold fs_empty in Hd.
    by apply lookup_singleton_Some in Hd as [_ ?]. }
  apply Permutation_nil. by rewrite Hperm.
Qed.

(** X8. A patch file whose suffix is none of ".patch", ".full" and ".delete"
    is skipped.  For a name whose recovered path is relative, free of ".."
    and not empty, the snapshot of an existing target is taken inside the
    [rollback] directory, and the turn creates, changes and removes no
    file of the target filesystem; directories above its target may
    appear, as for every turn. *)
Theorem other_suffix_is_skipped game name data s out s' :
  ".." ∉ game → plain_entry name →
  entry_ext name ∉ [".patch"; ".full"; ".delete"] →
  apply_entry game name data s = (out, s') →
  out ≠ Astray ∧ grows (target s) (target s').
Proof.
  intros Hgame [[Habs Hdd] Hne]. unfold entry_ext, entry_parts in *.
  unfold Model.apply_entry.
  destruct (entry_rel name) as [rel ext]. cbn [fst snd] in *. intros Hext.
  assert (ext ≠ ".patch" ∧ ext ≠ ".full" ∧ ext ≠ ".delete") as (H1 & H2 & H3).
  { split_and!; intros ->; apply Hext; by repeat constructor. }
  assert (basename (joinpath game rel) ≠ "..") as Hbase.
  { unfold joinpath. rewrite Habs. destruct (exists_last Hne) as (ps' & x & Hparts).
    rewrite Hparts in *. rewrite app_assoc, basename_snoc. intros ->.
    apply Hdd. apply elem_of_app. right. by left. }
  io_step.
  pose proof (mkdir_parents_followed true (target s) (parent (joinpath game rel))
                (or_introl eq_refl)) as Hfollowed.
  destruct (mkdir_parents true (target s) (parent (joinpath game rel))) as [o t1] eqn:Hmk.
  apply mkdir_parents_grows in Hmk. cbn [fst snd] in *.
  destruct o as [[]|e|]; [|by intros [= <- <-]|done].
  io_step.
  pose proof (path_exists_followed true t1 (joinpath game rel) (or_introl eq_refl)) as Hpe.
  destruct (path_exists true t1 (joinpath game rel)) as [ex|e|];
    [|by intros [= <- <-]|done].
  rewrite io_bind_run.
  rewrite decide_False, decide_False, decide_False by done.
  destruct ex.
  - pose proof (backup_followed rel (joinpath game rel) (State t1 (rollback s))
                  Habs Hdd Hbase) as Hb'.
    destruct (backup rel (joinpath game rel) (State t1 (rollback s))) as [ob sb] eqn:Hb.
    apply backup_target_grows in Hb. cbn [target fst] in Hb, Hb'.
    destruct ob as [[]|e|]; [|intros [= <- <-]; split; [done|by eapply grows_trans]|done].
    rewrite io_ret_run. intros [= <- <-]. split; [done|by eapply grows_trans].
  - rewrite io_ret_run. rewrite io_ret_run. by intros [= <- <-].
Qed.

(** X9. A [.patch] file for a target that does not exist: the turn raises
    [FileNotFoundError] before anything is read or written, and takes no
    snapshot; the directories above the target have been made by then. *)
Theorem delta_needs_its_target game name data t r out s' :
  ".." ∉ game → plain_entry name → entry_ext name = ".patch" →
  t !! (game ++ entry_parts name) = None →
  apply_entry game name data (State t r) = (out, s') →
  out ≠ Ok () ∧ rollback s' = r ∧ grows t (target s') ∧
  (dir_at true t (parent (game ++ entry_parts name)) →
   out = Raise FileNotFoundError ∧ target s' = t).
Proof.
  intros Hgame [[Habs Hdd] Hne]. unfold entry_ext, entry_parts in *.
  unfold Model.apply_entry. destruct (entry_rel name) as [rel ext] eqn:Hentry.
  cbn [fst snd] in *. intros -> Hnone.
  destruct (exists_last Hne) as (ps' & x & Hparts). rewrite Hparts in *.
  assert ((".." ∉ ps') ∧ x ≠ "..") as [Hps' Hx].
  { apply not_elem_of_app in Hdd as [? Hx]. split; [done|]. intros ->. apply Hx. by left. }
  assert (".." ∉ game ++ ps') as Hplain by by apply not_elem_of_app.
  unfold joinpath. rewrite Habs, Hparts, app_assoc, parent_snoc.
  rewrite app_assoc in Hnone.
  set (par := game ++ ps') in *. io_step.
  destruct (mkdir_parents true t par) as [o t1] eqn:Hmk. cbn [fst snd].
  destruct (mkdir_parents_plain _ _ _ _ _ Hplain Hmk) as (Hg & Hch & Hdir).
  assert (t1 !! (par ++ [x]) = None) as Htf.
  { destruct (decide (t1 !! (par ++ [x]) = t !! (par ++ [x]))) as [->|Hd]; [done|].
    apply Hch in Hd. by apply snoc_not_prefix in Hd. }
  assert (dir_at true t par → o = Ok () ∧ t1 = t) as Hsame.
  { intros Hpar. rewrite (mkdir_parents_existing _ _ _ Hpar) in Hmk. by injection Hmk as <- <-. }
  destruct o as [[]|e|].
  - specialize (Hdir eq_refl). io_step.
    rewrite (path_exists_child true _ par x), Htf by done.
    rewrite bool_decide_eq_false_2 by by intros [??].
    io_step. rewrite decide_True by done.
    unfold Model.apply_delta. io_step.
    rewrite (path_exists_child true _ par x), Htf by done.
    rewrite bool_decide_eq_false_2 by by intros [??].
    cbn [negb]. io_step. intros [= <- <-]. cbn [target rollback].
    split_and!; [done..|]. intros Hpar. by destruct (Hsame Hpar) as [_ ->].
  - intros [= <- <-]. cbn [target rollback]. split_and!; [done..|].
    intros Hpar. by destruct (Hsame Hpar).
  - intros [= <- <-]. cbn [target rollback]. split_and!; [done..|].
    intros Hpar. by destruct (Hsame Hpar).
Qed.

End EarlyStops.

(** * More of [create_patch]: what the package holds, and the cancel event *)

Section ChangedPaths.

Context (detools_create_patch : string → string → string).

Implicit Types (m : fs) (rel old_dir new_dir : path).

Local Abbreviation written_for := (written_for detools_create_patch).

(** The reader's mapping undoes the writer's on clean paths, for each of
    the three suffixes. *)
Lemma recover_clean (p ext : string) :
  clean p = true → ext ∈ [".patch"; ".full"; ".delete"] →
  recover (patch_name p +:+ ext) = (p, ext).
Proof.
  unfold clean. rewrite !andb_true_iff, !negb_true_iff. intros [[Huu Hus] Hd] Hext.
  unfold recover.
  assert (∃ e, ext = String "."%char e ∧ PyStr.mem "."%char e = false ∧
               PyStr.mem "/"%char e = false) as (e & -> & He1 & He2).
  { rewrite !elem_of_cons in Hext. destruct Hext as [->|[->|[->|?%elem_of_nil]]];
      [by eexists..|done]. }
  rewrite splitext_suffix;
    [|apply mem_patch_name|by apply has_other_patch_name|done|done].
  by rewrite decode_patch_name.
Qed.

Lemma file_in_fun m root rel d1 d2 : file_in m root rel d1 → file_in m root rel d2 → d1 = d2.
Proof. intros (_ & _ & H1) (_ & _ & H2). congruence. Qed.

(** What is written for a path is determined by the path. *)
Lemma written_for_fun m old_dir new_dir rel n1 c1 n2 c2 :
  written_for m old_dir new_dir rel n1 c1 → written_for m old_dir new_dir rel n2 c2 →
  n1 = n2 ∧ c1 = c2.
Proof.
  intros H1 H2.
  inversion H1 as [? o n Hn Ho Hne|? n Hn Hex|? o Ho Hex]; subst;
    inversion H2 as [? o' n' Hn' Ho' Hne'|? n' Hn' Hex'|? o' Ho' Hex']; subst.
  - rewrite Ho in Ho'. injection Ho' as <-. by rewrite (file_in_fun _ _ _ _ _ Hn Hn').
  - apply read_exists in Ho. congruence.
  - apply file_in_exists in Hn. congruence.
  - apply read_exists in Ho'. congruence.
  - by rewrite (file_in_fun _ _ _ _ _ Hn Hn').
  - apply file_in_exists in Hn. congruence.
  - apply file_in_exists in Hn'. congruence.
  - apply file_in_exists in Hn'. congruence.
  - done.
Qed.

Lemma written_for_file m old_dir new_dir rel name c :
  written_for m old_dir new_dir rel name c →
  (∃ d, file_in m new_dir rel d ∨ file_in m old_dir rel d) ∧
  ∃ ext, ext ∈ [".patch"; ".full"; ".delete"] ∧ name = patch_name (as_posix rel) +:+ ext.
Proof.
  intros H. inversion H as [? o n Hn Ho Hne|? n Hn Hex|? o Ho Hex]; subst.
  - split; [by eauto|]. exists ".patch". split; [by repeat constructor|done].
  - split; [by eauto|]. exists ".full". split; [by repeat constructor|done].
  - split; [by eauto|]. exists ".delete". split; [by repeat constructor|done].
Qed.

End ChangedPaths.

Section PackageContents.

Context (sha256_hexdigest : string → string)
        (detools_create_patch : string → string → string)
        (archive_bytes : manifest → gmap string string → string)
        (scandir_order : list path → list path)
        (cancelled : nat → bool).

Implicit Types (m : fs) (rel old_dir new_dir : path) (st : creator).

Local Abbreviation create_patch :=
  (create_patch sha256_hexdigest detools_create_patch archive_bytes scandir_order cancelled).
Local Abbreviation build_patch_tmp :=
  (build_patch_tmp sha256_hexdigest detools_create_patch scandir_order cancelled).
Local Abbreviation written_for := (written_for detools_create_patch).

Section Clean.

Variables (m : fs) (old_dir new_dir : path).

Hypothesis wf : wf_names m.
Hypothesis names_clean : ∀ rel d,
  file_in m new_dir rel d ∨ file_in m old_dir rel d → clean (as_posix rel) = true.

(** On clean paths the name of a file of the scratch directory tells the
    path it was written for, and so its content. *)
Lemma written_for_inj rel1 rel2 name c1 c2 :
  written_for m old_dir new_dir rel1 name c1 → written_for m old_dir new_dir rel2 name c2 →
  rel1 = rel2 ∧ c1 = c2.
Proof.
  intros H1 H2.
  destruct (written_for_file _ _ _ _ _ _ _ H1) as ([d1 Hd1] & e1 & He1 & Hn1).
  destruct (written_for_file _ _ _ _ _ _ _ H2) as ([d2 Hd2] & e2 & He2 & Hn2).
  pose proof (recover_clean _ _ (names_clean _ _ Hd1) He1) as Hr1.
  pose proof (recover_clean _ _ (names_clean _ _ Hd2) He2) as Hr2.
  rewrite <-Hn1 in Hr1. rewrite <-Hn2, Hr1 in Hr2. injection Hr2 as Hp _.
  assert (rel1 = rel2) as ->.
  { apply as_posix_inj; [..|done].
    - destruct Hd1 as [H|H]; by eapply file_in_valid.
    - destruct Hd2 as [H|H]; by eapply file_in_valid. }
  split; [done|]. by destruct (written_for_fun _ _ _ _ _ _ _ _ _ H1 H2).
Qed.

Local Abbreviation accounted := (accounted detools_create_patch m old_dir new_dir).

Lemma accounted_insert files rel name c :
  accounted files → written_for m old_dir new_dir rel name c →
  files ⊆ <[name := c]> files ∧ accounted (<[name := c]> files).
Proof.
  intros Hacc Hw. split.
  - apply map_subseteq_spec. intros k v Hk.
    destruct (decide (k = name)) as [->|Hne]; [|by rewrite lookup_insert_ne].
    destruct (Hacc _ _ Hk) as [rel' Hw'].
    destruct (written_for_inj _ _ _ _ _ Hw' Hw) as [_ ->]. by rewrite lookup_insert_eq.
  - intros k v. destruct (decide (k = name)) as [->|Hne].
    + rewrite lookup_insert_eq. intros [= <-]. eauto.
    + rewrite lookup_insert_ne by done. apply Hacc.
Qed.

Lemma new_file_step_complete rel n st st' :
  file_in m new_dir rel n → accounted st.2 →
  new_file_step sha256_hexdigest detools_create_patch m old_dir new_dir rel st = Ok st' →
  st.2 ⊆ st'.2 ∧ accounted st'.2 ∧
  ∀ name c, written_for m old_dir new_dir rel name c → st'.2 !! name = Some c.
Proof.
  intros Hrel Hacc Hstep.
  destruct (new_file_step_spec _ _ _ _ _ _ _ _ _ wf Hrel Hstep)
    as [_ [[-> Hsame]|(name & c & -> & Hw)]].
  - split_and!; [done..|]. intros name c Hw. exfalso.
    inversion Hw as [? o n' Hn Ho Hne|? n' Hn Hex|? o Ho Hex]; subst.
    + rewrite Hsame in Ho. injection Ho as <-. by rewrite (file_in_fun _ _ _ _ _ Hrel Hn) in Hne.
    + apply read_exists in Hsame. congruence.
    + apply file_in_exists in Hrel. congruence.
  - destruct (accounted_insert _ _ _ _ Hacc Hw) as [Hsub Hacc']. split_and!; [done..|].
    intros name' c' Hw'. destruct (written_for_fun _ _ _ _ _ _ _ _ _ Hw Hw') as [<- <-].
    by rewrite lookup_insert_eq.
Qed.

Lemma old_file_step_complete rel o st st' :
  file_in m old_dir rel o → accounted st.2 →
  old_file_step m new_dir rel st = Ok st' →
  st.2 ⊆ st'.2 ∧ accounted st'.2 ∧
  ∀ name c, written_for m old_dir new_dir rel name (c : string) →
    path_exists true m (new_dir ++ rel) = Ok false → st'.2 !! name = Some c.
Proof.
  intros Hrel Hacc Hstep.
  destruct (old_file_step_spec detools_create_patch _ old_dir _ _ _ _ _ wf Hrel Hstep)
    as [_ [[-> Hsame]|(name & c & -> & Hw)]].
  - split_and!; [done..|]. intros name c _ Hex. congruence.
  - destruct (accounted_insert _ _ _ _ Hacc Hw) as [Hsub Hacc']. split_and!; [done..|].
    intros name' c' Hw' _. destruct (written_for_fun _ _ _ _ _ _ _ _ _ Hw Hw') as [<- <-].
    by rewrite lookup_insert_eq.
Qed.

Lemma new_files_loop_complete files : ∀ i st st',
  Forall (λ rel, ∃ n, file_in m new_dir rel n) files → accounted st.2 →
  new_files_loop sha256_hexdigest detools_create_patch cancelled m old_dir new_dir i files st
    = Ok st' →
  st.2 ⊆ st'.2 ∧ accounted st'.2 ∧
  ∀ rel name c, rel ∈ files → written_for m old_dir new_dir rel name c →
    st'.2 !! name = Some c.
Proof.
  induction files as [|rel files IH]; intros i st st' Hall Hacc.
  - intros [= <-]. split_and!; [done..|]. by intros ??? ?%elem_of_nil.
  - apply Forall_cons in Hall as [[n Hrel] Hall]. cbn [new_files_loop].
    destruct (_check_cancel cancelled i) as [[]| |]; cbn [mbind res_bind]; try done.
    destruct (new_file_step _ _ _ _ _ _ _) as [st1| |] eqn:Hstep; cbn [mbind res_bind];
      try done.
    intros Hloop.
    destruct (new_file_step_complete _ _ _ _ Hrel Hacc Hstep) as (Hsub1 & Hacc1 & Hhere).
    destruct (IH _ _ _ Hall Hacc1 Hloop) as (Hsub & Hacc' & Hrest).
    split_and!; [by etrans|done|].
    intros rel' name c [->|Hin]%elem_of_cons Hw; [|by eapply Hrest].
    eapply lookup_weaken; [|done]. by apply Hhere.
Qed.

Lemma old_files_loop_complete files : ∀ i st st',
  Forall (λ rel, ∃ o, file_in m old_dir rel o) files → accounted st.2 →
  old_files_loop cancelled m new_dir i files st = Ok st' →
  st.2 ⊆ st'.2 ∧ accounted st'.2 ∧
  ∀ rel name c, rel ∈ files → written_for m old_dir new_dir rel name c →
    path_exists true m (new_dir ++ rel) = Ok false → st'.2 !! name = Some c.
Proof.
  induction files as [|rel files IH]; intros i st st' Hall Hacc.
  - intros [= <-]. split_and!; [done..|]. by intros ??? ?%elem_of_nil.
  - apply Forall_cons in Hall as [[o Hrel] Hall]. cbn [old_files_loop].
    destruct (_check_cancel cancelled i) as [[]| |]; cbn [mbind res_bind]; try done.
    destruct (old_file_step _ _ _ _) as [st1| |] eqn:Hstep; cbn [mbind res_bind];
      try done.
    intros Hloop.
    destruct (old_file_step_complete _ _ _ _ Hrel Hacc Hstep) as (Hsub1 & Hacc1 & Hhere).
    destruct (IH _ _ _ Hall Hacc1 Hloop) as (Hsub & Hacc' & Hrest).
    split_and!; [by etrans|done|].
    intros rel' name c [->|Hin]%elem_of_cons Hw Hex; [|by eapply Hrest].
    eapply lookup_weaken; [|done]. by apply Hhere.
Qed.

Hypothesis scandir_perm : ∀ l, scandir_order l ≡ₚ l.

(** The scratch directory that the two loops leave holds one file for
    every path that changed, and no other. *)
Lemma build_patch_tmp_complete st :
  build_patch_tmp m old_dir new_dir = Ok st →
  ∀ name c, st.2 !! name = Some c ↔ ∃ rel, written_for m old_dir new_dir rel name c.
Proof.
  unfold Model.build_patch_tmp.
  destruct (new_files_loop _ _ _ _ _ _ _ _ _) as [st1| |] eqn:Hnew; try done.
  cbn [mbind res_bind]. intros Hold.
  assert (accounted (([], ∅) : creator).2) as Hacc0.
  { intros name c. cbn [snd]. by rewrite lookup_empty. }
  destruct (new_files_loop_complete _ _ _ _ (scandir_listed _ scandir_perm _ _) Hacc0 Hnew)
    as (_ & Hacc1 & Hnews).
  destruct (old_files_loop_complete _ _ _ _ (scandir_listed _ scandir_perm _ _) Hacc1 Hold)
    as (Hsub & Hacc & Holds).
  intros name c. split; [apply Hacc|]. intros [rel Hw].
  inversion Hw as [? o n Hn Ho Hne|? n Hn Hex|? o Ho Hex]; subst.
  - eapply lookup_weaken; [|done]. eapply Hnews; [|done].
    rewrite scandir_perm. apply file_in_listed. eauto.
  - eapply lookup_weaken; [|done]. eapply Hnews; [|done].
    rewrite scandir_perm. apply file_in_listed. eauto.
  - eapply Holds; [|done|done]. rewrite scandir_perm. apply file_in_listed. eauto.
Qed.

End Clean.


End PackageContents.

(** * Turns that return *)

Section FreePaths.

Implicit Types (m : fs) (p q cs : path) (c : string).

Lemma free_path_prefix m cs1 cs2 : free_path m (cs1 ++ cs2) → free_path m cs1.
Proof.
  intros H k d Hk. apply H. etrans; [done|]. by apply prefix_app_r.
Qed.

Lemma walk_free rooted m cur cs e :
  free_path m (cur ++ cs) → ".." ∉ cs →
  walk rooted m cur cs = Raise e → e = FileNotFoundError.
Proof.
  revert cur. induction cs as [|c cs IH]; intros cur Hfree Hcs; simpl; [done|].
  apply not_elem_of_cons in Hcs as [Hc Hcs].
  destruct (m !! cur) as [[d|]|] eqn:Hcur.
  - exfalso. eapply (Hfree cur); [|done]. by apply prefix_app_r.
  - rewrite decide_False by done. apply IH; [|done]. by rewrite <-app_assoc.
  - by intros [= <-].
Qed.

(** [os.mkdir] where no file is in the way. *)
Lemma os_mkdir_free rooted m cs :
  free_path m cs → ".." ∉ cs →
  (∃ m', os_mkdir rooted m cs = Ok m')
  ∨ (os_mkdir rooted m cs = Raise FileExistsError ∧ is_dir rooted m cs = Ok true)
  ∨ (os_mkdir rooted m cs = Raise FileNotFoundError ∧
     walk rooted m [] cs = Raise FileNotFoundError).
Proof.
  intros Hm Hcs. unfold os_mkdir, is_dir, node_at.
  destruct (walk rooted m [] cs) as [p|e|] eqn:Hw; cbn [mbind res_bind].
  - apply walk_plain_Ok in Hw as ->; [|done]. cbn [app].
    destruct (m !! cs) as [[d|]|] eqn:Hp.
    + by destruct (Hm cs d).
    + right. left. split; [done|]. by rewrite bool_decide_eq_true_2.
    + left. by eexists.
  - right. right. by rewrite (walk_free rooted m [] cs e Hm Hcs Hw).
  - destruct (walk_plain rooted m [] cs Hcs) as [E|[e E]]; congruence.
Qed.

Lemma mkdir_p_free rooted rcs : ∀ m,
  free_path m (rev rcs) → ".." ∉ rcs →
  ∃ m', mkdir_p rooted m rcs = (Ok (), m').
Proof.
  induction rcs as [|c rcs IH]; intros m Hm Hplain.
  - cbn [mkdir_p rev].
    destruct (os_mkdir_free rooted m [] Hm) as [(m' & ->)|[[-> Hd]|[_ Hw]]];
      [by apply not_elem_of_nil|by eexists| |done].
    unfold exist_ok. rewrite Hd. by eexists.
  - apply not_elem_of_cons in Hplain as [Hc Hrcs].
    assert (".." ∉ rev (c :: rcs)) as Hrev.
    { rewrite elem_of_rev. apply not_elem_of_cons. by split. }
    cbn [mkdir_p].
    destruct (os_mkdir_free rooted m _ Hm Hrev) as [(m' & ->)|[[-> Hd]|[-> _]]].
    + by eexists.
    + unfold exist_ok. rewrite Hd. by eexists.
    + cbn [rev] in Hm. destruct (IH m (free_path_prefix _ _ _ Hm) Hrcs) as (m1 & Hrec).
      rewrite Hrec.
      destruct (mkdir_p_plain _ _ _ _ _ Hrcs Hrec) as (_ & Hch & Hdir).
      specialize (Hdir eq_refl).
      assert (free_path m1 (rev (c :: rcs))) as Hm1.
      { intros k d Hk Hkd. cbn [rev] in Hk.
        destruct (decide (m1 !! k = m !! k)) as [E|Hne].
        - rewrite E in Hkd. by eapply Hm.
        - apply Hch in Hne.
          assert (".." ∉ rev rcs) as Hrr by by rewrite elem_of_rev.
          by rewrite (dir_at_prefix_dir rooted m1 (rev rcs) k Hrr Hdir Hne) in Hkd. }
      destruct (os_mkdir_free rooted m1 _ Hm1 Hrev) as [(m' & ->)|[[-> Hd]|[_ Hw]]].
      * by eexists.
      * unfold exist_ok. rewrite Hd. by eexists.
      * cbn [rev] in Hw. rewrite walk_child in Hw; [done|done|]. by apply not_eq_sym.
Qed.

Lemma mkdir_parents_free rooted m cs :
  free_path m cs → ".." ∉ cs → ∃ m', mkdir_parents rooted m cs = (Ok (), m').
Proof.
  intros Hm Hcs. unfold mkdir_parents. apply mkdir_p_free.
  - by rewrite rev_involutive.
  - by rewrite elem_of_rev.
Qed.

(** In a tree-shaped filesystem every node is reached along its own
    components. *)
Lemma tree_shaped_walk m p n :
  tree_shaped m → ".." ∉ p → m !! p = Some n → walk true m [] p = Ok p.
Proof.
  intros Hm. revert n. induction p as [|c p IH] using rev_ind; intros n Hp Hn; [done|].
  apply not_elem_of_app in Hp as [Hp Hc].
  apply walk_child; [|intros ->; apply Hc; by left].
  pose proof (Hm _ _ _ Hn) as Hd. split; [by eapply IH|done].
Qed.

Lemma tree_shaped_prefix m p k n :
  tree_shaped m → m !! (p ++ k) = Some n → k ≠ [] → m !! p = Some Dir.
Proof.
  intros Hm. revert n. induction k as [|c k IH] using rev_ind; intros n Hn Hk; [done|].
  rewrite app_assoc in Hn. apply Hm in Hn.
  destruct (decide (k = [])) as [->|Hne]; [by rewrite app_nil_r in Hn|by eapply IH].
Qed.

End FreePaths.

(** * The round trip on clean trees *)

Section Returns.

Context (detools_apply_patch : string → string → string + string).

Implicit Types (t r : fs) (p q par game : path) (x name data : string) (s : state).

Local Arguments path_exists : simpl never.
Local Arguments is_dir : simpl never.
Local Arguments read_file : simpl never.
Local Arguments write_file : simpl never.
Local Arguments os_remove : simpl never.
Local Arguments os_replace : simpl never.
Local Arguments copy2_into : simpl never.
Local Arguments mkdir_parents : simpl never.
Local Arguments add_suffix : simpl never.
Local Arguments parent : simpl never.
Local Arguments basename : simpl never.

Local Abbreviation apply_delta := (apply_delta detools_apply_patch).

(** Lines 208-215 when the old file is there, nothing is at the scratch
    name and the reconstruction succeeds. *)
Lemma apply_delta_returns par x data t r c new :
  dir_at true t par → x ≠ ".." →
  t !! (par ++ [x]) = Some (File c) → t !! (par ++ [x +:+ ".tmp"]) = None →
  detools_apply_patch c data = inr new →
  apply_delta (par ++ [x]) data (State t r) = (Ok (), State (<[par ++ [x] := File new]> t) r).
Proof.
  intros Hpar Hx Htf Htmp HD. unfold Model.apply_delta. io_step.
  rewrite path_exists_child by done. rewrite add_suffix_snoc, Htf.
  rewrite bool_decide_eq_true_2 by eauto. cbn [negb]. io_step.
  rewrite read_file_child, Htf by done. io_step.
  pose proof (tmp_name_not_dotdot x) as Hdd. pose proof (tmp_name_neq x) as Hneq.
  assert (par ++ [x +:+ ".tmp"] ≠ par ++ [x]) as Hne by by intros [= ?]%app_inv_head.
  rewrite write_file_child, Htmp by done.
  assert (dir_at true (<[par ++ [x +:+ ".tmp"] := File ""]> t) par) as Hpar1.
  { apply dir_at_insert_file; [by rewrite Htmp|done]. }
  rewrite HD. io_step. rewrite write_file_child by done. rewrite lookup_insert_eq. io_step.
  rewrite insert_insert_eq.
  assert (dir_at true (<[par ++ [x +:+ ".tmp"] := File new]> t) par) as Hpar2.
  { apply dir_at_insert_file; [by rewrite Htmp|done]. }
  rewrite os_replace_child by done. rewrite lookup_insert_eq.
  rewrite lookup_insert_ne, Htf by done.
  rewrite delete_insert_eq. by rewrite delete_id.
Qed.

End Returns.

Section Records.

Context (sha256_hexdigest : string → string)
        (detools_create_patch : string → string → string)
        (detools_apply_patch : string → string → string + string)
        (archive_bytes : manifest → gmap string string → string)
        (extract_archive : nat → string → res extraction)
        (scandir_order : list path → list path)
        (cancelled_creating cancelled_applying : nat → bool).

Implicit Types (m t r : fs) (p q rel old_dir new_dir game : path) (x name data : string)
  (s : state) (done : list path) (es : list (string * string)) (items : manifest).

Local Abbreviation apply_entries := (apply_entries detools_apply_patch cancelled_applying).
Local Abbreviation validation_errors := (validation_errors sha256_hexdigest).
Local Abbreviation build_patch_tmp :=
  (build_patch_tmp sha256_hexdigest detools_create_patch scandir_order cancelled_creating).
Local Abbreviation record_of := (record_of sha256_hexdigest).

Lemma elem_of_dict_set k v k0 v0 items :
  (k, v) ∈ dict_set k0 v0 items → (k, v) = (k0, v0) ∨ (k, v) ∈ items.
Proof.
  induction items as [|[k1 v1] items IH]; cbn [dict_set].
  - intros ?%list_elem_of_singleton. by left.
  - destruct (decide (k1 = k0)) as [->|Hne].
    + intros [?|?]%elem_of_cons; [by left|right; by right].
    + intros [->|[?|?]%IH]%elem_of_cons; [right; by left|by left|right; by right].
Qed.

(** Every record of the manifest is the record of a file of the new
    tree. *)
Lemma new_files_loop_records m old_dir new_dir files : ∀ i st st',
  wf_names m →
  Forall (λ rel, ∃ n, file_in m new_dir rel n) files →
  new_files_loop sha256_hexdigest detools_create_patch cancelled_creating m old_dir new_dir
    i files st = Ok st' →
  ∀ k v, (k, v) ∈ st'.1 →
    (k, v) ∈ st.1 ∨ ∃ rel n, file_in m new_dir rel n ∧ k = as_posix rel ∧ v = record_of n.
Proof.
  induction files as [|rel files IH]; intros i st st' Hwf Hall.
  - intros [= <-] k v Hin. by left.
  - apply Forall_cons in Hall as [[n Hrel] Hall]. cbn [new_files_loop].
    destruct (_check_cancel cancelled_creating i) as [[]| |]; cbn [mbind res_bind]; try done.
    destruct (new_file_step _ _ _ _ _ _ _) as [st1| |] eqn:Hstep; cbn [mbind res_bind];
      try done.
    intros Hloop k v Hin.
    destruct (new_file_step_spec _ _ _ _ _ _ _ _ _ Hwf Hrel Hstep) as [Hman _].
    destruct (IH _ _ _ Hwf Hall Hloop k v Hin) as [Hin1|?]; [|by right].
    rewrite Hman in Hin1. apply elem_of_dict_set in Hin1 as [[= -> ->]|?]; [|by left].
    right. by exists rel, n.
Qed.

Lemma build_patch_tmp_records m old_dir new_dir st :
  (∀ l, scandir_order l ≡ₚ l) → wf_names m →
  build_patch_tmp m old_dir new_dir = Ok st →
  ∀ k v, (k, v) ∈ st.1 →
    ∃ rel n, file_in m new_dir rel n ∧ k = as_posix rel ∧ v = record_of n.
Proof.
  intros Hperm Hwf. unfold Model.build_patch_tmp.
  destruct (new_files_loop _ _ _ _ _ _ _ _ _) as [st1| |] eqn:Hnew; try done.
  cbn [mbind res_bind]. intros Hold k v Hin.
  destruct (old_files_loop_spec detools_create_patch _ _ old_dir _ _ _ _ _ Hwf
              (scandir_listed _ Hperm _ _) Hold) as [Hman _].
  rewrite Hman in Hin.
  destruct (new_files_loop_records _ _ _ _ _ _ _ Hwf (scandir_listed _ Hperm _ _) Hnew k v Hin)
    as [Hnil|?]; [|done].
  by apply elem_of_nil in Hnil.
Qed.

(** The validation of a tree in which every record's file has the
    recorded digest finds nothing. *)
Lemma validation_passes game t items :
  (∀ k info, (k, info) ∈ items →
     ∃ d, read_file true t (joinpath game (parse_path k)) = Ok d ∧
          sha256_hexdigest d = info_sha256 info) →
  validation_errors game t items = Ok [].
Proof.
  induction items as [|[k info] items IH]; intros Hall; [done|].
  cbn [Model.validation_errors].
  destruct (Hall k info) as (d & Hread & Hsha); [by left|].
  rewrite (read_exists _ _ _ Hread). cbn [mbind res_bind].
  rewrite (sha256sum_read _ _ _ _ Hread). cbn [mbind res_bind].
  rewrite decide_True by done.
  rewrite IH; [done|]. intros k' info' Hin. apply Hall. by right.
Qed.

End Records.

Section RoundTrip.

Context (detools_create_patch : string → string → string)
        (detools_apply_patch : string → string → string + string)
        (cancelled_applying : nat → bool).

Variables (m : fs) (old_dir new_dir game : path) (t0 : fs).

Hypothesis detools_round_trip :
  ∀ o n, detools_apply_patch o (detools_create_patch o n) = inr n.
Hypothesis not_cancelled : ∀ i, cancelled_applying i = false.
Hypothesis wf : wf_names m.
Hypothesis shaped : tree_shaped m.
Hypothesis old_is_dir : dir_at true m old_dir.
Hypothesis new_is_dir : dir_at true m new_dir.
Hypothesis names_clean : ∀ rel d,
  file_in m new_dir rel d ∨ file_in m old_dir rel d → clean (as_posix rel) = true.
Hypothesis old_new : kinds_agree m old_dir new_dir.
Hypothesis new_old : kinds_agree m new_dir old_dir.
Hypothesis no_scratch : no_scratch_names m old_dir new_dir.
Hypothesis game_plain : ".." ∉ game.
Hypothesis game_is_dir : dir_at true t0 game.
Hypothesis copied : copy_of t0 game m old_dir.

Implicit Types (t r : fs) (p q k rel : path) (x name data : string) (s : state)
  (done : list path).

Local Arguments path_exists : simpl never.
Local Arguments is_dir : simpl never.
Local Arguments read_file : simpl never.
Local Arguments write_file : simpl never.
Local Arguments os_remove : simpl never.
Local Arguments os_replace : simpl never.
Local Arguments copy2_into : simpl never.
Local Arguments mkdir_parents : simpl never.
Local Arguments add_suffix : simpl never.
Local Arguments parent : simpl never.
Local Arguments basename : simpl never.

Local Abbreviation apply_entry := (apply_entry detools_apply_patch).
Local Abbreviation apply_entries := (apply_entries detools_apply_patch cancelled_applying).
Local Abbreviation written_for := (written_for detools_create_patch m old_dir new_dir).
Local Abbreviation round_inv := (round_inv m new_dir game t0).

(** [rel] is a regular file of one of the two trees. *)
Local Abbreviation in_trees rel :=
  (∃ d, m !! (old_dir ++ rel) = Some (File d) ∨ m !! (new_dir ++ rel) = Some (File d)).

Lemma root_plain root : dir_at true m root → ".." ∉ root.
Proof. intros [Hw _]. by eapply walk_no_dotdot; [apply not_elem_of_nil|]. Qed.

Lemma node_names root rel n :
  m !! (root ++ rel) = Some n → Forall (λ c, valid_name c = true) rel.
Proof.
  intros Hn. apply (wf_names_lookup _ _ _ wf) in Hn. by apply Forall_app in Hn as [_ ?].
Qed.

Lemma names_plain rel : Forall (λ c, valid_name c = true) rel → ".." ∉ rel.
Proof.
  intros Hall Hin. rewrite Forall_forall in Hall. specialize (Hall _ Hin).
  by apply valid_name_spec in Hall as (_ & _ & _ & ?).
Qed.

(** A regular file at a path of a tree is a file of the tree. *)
Lemma node_file_in root rel d :
  dir_at true m root → m !! (root ++ rel) = Some (File d) → file_in m root rel d.
Proof.
  intros Hroot Hn. split_and!; [| |done].
  - intros ->. rewrite app_nil_r in Hn. destruct Hroot as [_ ?]. congruence.
  - unfold located. apply bool_decide_eq_true.
    apply (tree_shaped_walk _ _ (File d)); [done| |done].
    apply not_elem_of_app. split; [by apply root_plain|].
    eapply names_plain, node_names. done.
Qed.

Lemma exists_false_None root rel :
  dir_at true m root → Forall (λ c, valid_name c = true) rel →
  path_exists true m (root ++ rel) = Ok false → m !! (root ++ rel) = None.
Proof.
  intros Hroot Hrel Hex. destruct (m !! (root ++ rel)) as [n|] eqn:Hn; [|done].
  assert (walk true m [] (root ++ rel) = Ok (root ++ rel)) as Hw.
  { apply (tree_shaped_walk _ _ n); [done| |done].
    apply not_elem_of_app. split; [by apply root_plain|by apply names_plain]. }
  unfold path_exists, node_at in Hex. rewrite Hw, Hn in Hex. cbn [mbind res_bind] in Hex.
  by rewrite bool_decide_eq_true_2 in Hex by eauto.
Qed.

Lemma read_Some root rel d :
  dir_at true m root → Forall (λ c, valid_name c = true) rel →
  read_file true m (root ++ rel) = Ok d → m !! (root ++ rel) = Some (File d).
Proof.
  intros Hroot Hrel Hread. unfold read_file in Hread.
  destruct (walk true m [] (root ++ rel)) as [p| |] eqn:Hw; [|done..].
  apply walk_plain_Ok in Hw as ->;
    [|apply not_elem_of_app; split; [by apply root_plain|by apply names_plain]].
  cbn [mbind res_bind app] in Hread. by destruct (m !! (root ++ rel)) as [[]|]; simplify_eq.
Qed.

(** What the three kinds of patch files say about the two trees. *)
Lemma written_for_nodes rel name c :
  written_for rel name c →
  rel ≠ [] ∧ Forall (λ c, valid_name c = true) rel ∧
  clean (as_posix rel) = true ∧
  ((∃ o n, m !! (old_dir ++ rel) = Some (File o) ∧ m !! (new_dir ++ rel) = Some (File n) ∧
           name = patch_name (as_posix rel) +:+ ".patch" ∧ c = detools_create_patch o n)
   ∨ (∃ n, m !! (old_dir ++ rel) = None ∧ m !! (new_dir ++ rel) = Some (File n) ∧
           name = patch_name (as_posix rel) +:+ ".full" ∧ c = n)
   ∨ (∃ o, m !! (old_dir ++ rel) = Some (File o) ∧ m !! (new_dir ++ rel) = None ∧
           name = patch_name (as_posix rel) +:+ ".delete")).
Proof.
  intros H. inversion H as [? o n Hn Ho Hne|? n Hn Hex|? o Ho Hex]; subst.
  - pose proof (file_in_valid _ _ _ _ wf Hn) as Hv. destruct Hn as (Hnil & Hloc & Hl).
    split_and!; [done|done|apply (names_clean rel n); left; by split_and!|].
    left. exists o, n. split_and!; [|done..]. by apply read_Some.
  - pose proof (file_in_valid _ _ _ _ wf Hn) as Hv. destruct Hn as (Hnil & Hloc & Hl).
    split_and!; [done|done|apply (names_clean rel c); left; by split_and!|].
    right. left. exists c. split_and!; [|done..]. by apply exists_false_None.
  - pose proof (file_in_valid _ _ _ _ wf Ho) as Hv. destruct Ho as (Hnil & Hloc & Hl).
    split_and!; [done|done|apply (names_clean rel o); right; by split_and!|].
    right. right. exists o. split_and!; [done| |done]. by apply exists_false_None.
Qed.

Lemma written_for_in_trees rel name c : written_for rel name c → in_trees rel.
Proof.
  intros (_ & _ & _ & [(o & n & ? & _)|[(n & _ & ? & _)|(o & ? & _)]])%written_for_nodes;
    eauto.
Qed.

(** The name of a patch file leads back to the path it was written for. *)
Lemma written_for_entry rel name c :
  written_for rel name c →
  ∃ ext, entry_rel name = (PurePath false rel, ext) ∧ name = patch_name (as_posix rel) +:+ ext ∧
         ext ∈ [".patch"; ".full"; ".delete"].
Proof.
  intros Hw. destruct (written_for_nodes _ _ _ Hw) as (_ & Hv & Hc & _).
  destruct (written_for_file _ _ _ _ _ _ _ Hw) as (_ & ext & Hext & ->).
  exists ext. split_and!; [|done..].
  unfold entry_rel. rewrite recover_clean by done. by rewrite parse_as_posix.
Qed.

(** Above a file of either tree there is no file in either tree. *)
Lemma above_file k k2 :
  in_trees (k ++ k2) → k2 ≠ [] →
  (∀ d, m !! (old_dir ++ k) ≠ Some (File d)) ∧ (∀ d, m !! (new_dir ++ k) ≠ Some (File d)).
Proof.
  intros [d [Hd|Hd]] Hk2; rewrite app_assoc in Hd;
    pose proof (tree_shaped_prefix _ _ _ _ shaped Hd Hk2) as Hdir.
  - split; intros d' Hd'; [congruence|]. by apply new_old in Hd'.
  - split; intros d' Hd'; [|congruence]. by apply old_new in Hd'.
Qed.

Lemma not_above rel q :
  in_trees rel → in_trees q → q `prefix_of` rel → q = rel.
Proof.
  intros Hrel [d Hq] [k2 ->]. destruct (decide (k2 = [])) as [->|Hne]; [by rewrite app_nil_r|].
  destruct (above_file _ _ Hrel Hne) as [H1 H2]. by destruct Hq as [?%H1|?%H2].
Qed.

Lemma prefix_app_cases (g a k : path) :
  k `prefix_of` g ++ a → k `prefix_of` g ∨ ∃ k', k = g ++ k' ∧ k' `prefix_of` a.
Proof.
  revert k. induction g as [|c g IH]; intros k Hk.
  - right. by exists k.
  - destruct k as [|c' k]; [left; apply prefix_nil|].
    cbn [app] in Hk. pose proof (prefix_cons_inv_1 _ _ _ _ Hk) as ->.
    apply prefix_cons_inv_2 in Hk. destruct (IH _ Hk) as [?|(k' & -> & ?)].
    + left. by apply prefix_cons.
    + right. by exists k'.
Qed.

Lemma entry_rel_clean rel ext :
  Forall (λ c, valid_name c = true) rel → clean (as_posix rel) = true →
  ext ∈ [".patch"; ".full"; ".delete"] →
  entry_rel (patch_name (as_posix rel) +:+ ext) = (PurePath false rel, ext).
Proof.
  intros Hv Hc Hext. unfold entry_rel. rewrite recover_clean by done.
  by rewrite parse_as_posix.
Qed.

Lemma prefix_of_parent (ps' : path) x k : k `prefix_of` ps' → k ≠ ps' ++ [x].
Proof. intros Hk ->. by apply snoc_not_prefix in Hk. Qed.

(** The invariant after a turn that made the directories above its target
    [rel = ps' ++ [x]] and left there what the new tree has. *)
Lemma round_inv_after done t r t1 r1 t' r' ps' x o :
  round_inv done (State t r) → Forall (λ d, in_trees d) done →
  ps' ++ [x] ∉ done → in_trees (ps' ++ [x]) →
  grows t t1 → (∀ q, t1 !! q ≠ t !! q → q `prefix_of` game ++ ps') →
  dir_at true t1 (game ++ ps') →
  t1 !! ((game ++ ps') ++ [x]) ≠ Some Dir →
  (∀ q, q ≠ (game ++ ps') ++ [x] → t' !! q = t1 !! q) →
  t' !! ((game ++ ps') ++ [x]) = m !! (new_dir ++ ps' ++ [x]) →
  t' !! ((game ++ ps') ++ [x]) ≠ Some Dir →
  grows r r1 → (∀ q, r1 !! q ≠ r !! q → q `prefix_of` ps') →
  r' = r ∨ r' = <[ps' ++ [x] := File o]> r1 →
  round_inv ((ps' ++ [x]) :: done) (State t' r').
Proof.
  intros [Hdirs Hdn Hrest Hpar Hroot Hback] Hdone Hnew Hrel Hg Hch Hdir Htf1 Hsame Htf Htf'
    Hgr Hchr Hr'.
  cbn [target rollback] in *.
  set (rel := ps' ++ [x]) in *. set (par := game ++ ps') in *.
  assert (dirs_kept t1 t') as Hk1.
  { intros q Hq. rewrite Hsame; [done|]. intros ->. congruence. }
  assert (∀ q, q ∈ done → ¬ q `prefix_of` ps') as Hnotabove.
  { intros q Hq Hpre. rewrite Forall_forall in Hdone.
    assert (q = rel) as ->; [|done].
    apply not_above; [done|by apply Hdone|]. etrans; [done|]. by apply prefix_app_r. }
  assert (∀ q, q ≠ rel → t' !! (game ++ q) = t1 !! (game ++ q)) as Hsame'.
  { intros q Hq. apply Hsame. unfold par, rel. rewrite <-app_assoc. by intros ?%app_inv_head. }
  constructor; cbn [target rollback].
  - eapply dirs_kept_trans; [done|]. eapply dirs_kept_trans; [by apply grows_dirs_kept|done].
  - intros q [->|Hq]%elem_of_cons.
    + unfold par in Htf. by rewrite <-app_assoc in Htf.
    + rewrite Hsame' by (intros ->; done).
      destruct (decide (t1 !! (game ++ q) = t !! (game ++ q))) as [->|Hne]; [by apply Hdn|].
      apply Hch, prefix_app_inv in Hne. by destruct (Hnotabove q).
  - intros q [Hq1 Hq2]%not_elem_of_cons. rewrite Hsame' by done.
    destruct (decide (t1 !! (game ++ q) = t !! (game ++ q))) as [->|Hne].
    + destruct (Hrest q Hq2) as [?|(? & ? & d & Hd & Hpre)]; [by left|].
      right. split_and!; [done..|]. exists d. split; [by right|done].
    + pose proof (Hch _ Hne) as Hpre. apply prefix_app_inv in Hpre.
      destruct (Hg (game ++ q)) as [?|[Hnone Hd]]; [done|].
      right. split_and!; [|done|].
      * destruct (Hrest q Hq2) as [<-|(? & ? & _)]; [done|congruence].
      * exists rel. split; [by left|]. etrans; [done|]. by apply prefix_app_r.
  - intros q [->|Hq]%elem_of_cons.
    + unfold rel. rewrite removelast_last. by eapply dir_at_mono.
    + eapply dir_at_mono; [done|]. eapply dir_at_mono; [by apply grows_dirs_kept|].
      by apply Hpar.
  - assert (r1 !! [] = Some Dir) as Hroot1 by by apply (grows_dirs_kept _ _ Hgr).
    destruct Hr' as [->| ->]; [done|].
    rewrite lookup_insert_ne; [done|]. unfold rel. by destruct ps'.
  - assert (∀ q n, r1 !! q = Some n →
              ∃ d, (d ∈ rel :: done ∨ d = []) ∧ q `prefix_of` d ∧ (n = Dir ∨ q = d)) as Hb1.
    { intros q n Hq. destruct (decide (r1 !! q = r !! q)) as [E|Hne].
      - rewrite E in Hq. destruct (Hback _ _ Hq) as (d & [Hd| ->] & Hpre & Hn).
        + exists d. split; [left; by right|done].
        + exists []. split; [by right|done].
      - pose proof (Hchr _ Hne) as Hpre. destruct (Hgr q) as [?|[_ Hd]]; [done|].
        exists rel. split_and!; [left; by left| |left; congruence].
        etrans; [done|]. by apply prefix_app_r. }
    destruct Hr' as [->| ->].
    + intros q n Hq. destruct (Hback _ _ Hq) as (d & [Hd| ->] & Hpre & Hn).
      * exists d. split; [left; by right|done].
      * exists []. split; [by right|done].
    + intros q n. destruct (decide (q = rel)) as [->|Hq].
      * intros _. exists rel. split_and!; [left; by left|done|by right].
      * rewrite lookup_insert_ne by done. apply Hb1.
Qed.

(** The turn for the patch file written for [rel], when the turns so far
    were for other paths: it returns and leaves [rel] as the new tree has
    it. *)
Lemma round_step done s rel name c :
  round_inv done s → Forall (λ d, in_trees d) done → rel ∉ done →
  written_for rel name c →
  ∃ s', apply_entry game name c s = (Ok (), s') ∧ round_inv (rel :: done) s'.
Proof.
  intros Hinv Hdone Hnew Hw.
  destruct (written_for_nodes _ _ _ Hw) as (Hnil & Hv & Hclean & Hkind).
  pose proof (written_for_in_trees _ _ _ Hw) as Hrel.
  destruct s as [t r]. pose proof Hinv as [Hdirs Hdn Hrest Hpar Hroot Hback].
  cbn [target rollback] in *.
  destruct (exists_last Hnil) as (ps' & x & ->).
  pose proof (names_plain _ Hv) as Hdd.
  assert ((".." ∉ ps') ∧ x ≠ "..") as [Hps' Hx].
  { apply not_elem_of_app in Hdd as [? Hx]. split; [done|]. intros ->. apply Hx. by left. }
  assert (".." ∉ game ++ ps') as Hplain by by apply not_elem_of_app.
  assert (dir_at true t game) as Hgame by by eapply dir_at_mono.
  assert (∀ q, q ∈ done → q `prefix_of` ps' ++ [x] → False) as Hnotabove.
  { intros q Hq Hpre. rewrite Forall_forall in Hdone.
    assert (q = ps' ++ [x]) as ->; [|done]. apply not_above; [done|by apply Hdone|done]. }
  assert (∀ d, d ∈ done → ps' ++ [x] `prefix_of` d → False) as Hnotbelow.
  { intros d Hd Hpre. rewrite Forall_forall in Hdone.
    assert (ps' ++ [x] = d) as <-; [|done]. apply not_above; [by apply Hdone|done|done]. }
  (* the directories above the target *)
  assert (free_path t (game ++ ps')) as Hfree.
  { intros k d Hk Hkd. destruct (prefix_app_cases _ _ _ Hk) as [Hkg|(k' & -> & [k2 Hk2])].
    - by rewrite (dir_at_prefix_dir true t game k game_plain Hgame Hkg) in Hkd.
    - rewrite Hk2, <-app_assoc in Hrel.
      destruct (above_file k' (k2 ++ [x]) Hrel) as [H1 H2]; [by destruct k2|].
      destruct (decide (k' ∈ done)) as [Hin|Hout].
      + rewrite Hdn in Hkd by done. by apply H2 in Hkd.
      + destruct (Hrest k' Hout) as [E|(_ & E & _)]; rewrite E in Hkd; [|done].
        rewrite copied in Hkd. by apply H1 in Hkd. }
  destruct (mkdir_parents_free true t (game ++ ps') Hfree Hplain) as (t1 & Hmk).
  destruct (mkdir_parents_plain _ _ _ _ _ Hplain Hmk) as (Hg & Hch & Hdir).
  specialize (Hdir eq_refl).
  assert (t1 !! ((game ++ ps') ++ [x]) = m !! (old_dir ++ ps' ++ [x])) as Htf.
  { destruct (decide (t1 !! ((game ++ ps') ++ [x]) = t !! ((game ++ ps') ++ [x])))
      as [->|Hne]; [|apply Hch in Hne; by apply snoc_not_prefix in Hne].
    rewrite <-app_assoc, <-(copied (ps' ++ [x])).
    destruct (Hrest _ Hnew) as [E|(_ & _ & d & Hd & Hpre)]; [done|].
    by destruct (Hnotbelow d). }
  (* the directories above the snapshot *)
  assert (∃ r1, mkdir_parents false r ps' = (Ok (), r1) ∧ dir_at false r1 ps' ∧
                r1 !! (ps' ++ [x]) = None ∧ grows r r1 ∧
                (∀ q, r1 !! q ≠ r !! q → q `prefix_of` ps')) as (r1 & Hmkr & Hdr & Hfr & Hgr & Hchr).
  { assert (free_path r ps') as Hfreer.
    { intros k d Hk Hkd. destruct (Hback _ _ Hkd) as (d' & Hd' & Hpre & [?| ->]); [done|].
      destruct Hd' as [Hd'| ->]; [|congruence].
      apply (Hnotabove d' Hd'). etrans; [done|]. by apply prefix_app_r. }
    destruct (mkdir_parents_free false r ps' Hfreer Hps') as (r1 & Hmkr).
    destruct (mkdir_parents_plain _ _ _ _ _ Hps' Hmkr) as (Hgr & Hchr & Hdr).
    exists r1. split_and!; [done|by apply Hdr| |done|done].
    destruct (decide (r1 !! (ps' ++ [x]) = r !! (ps' ++ [x]))) as [->|Hne];
      [|apply Hchr in Hne; by apply snoc_not_prefix in Hne].
    destruct (r !! (ps' ++ [x])) as [n|] eqn:Hn; [|done]. exfalso.
    destruct (Hback _ _ Hn) as (d' & [Hd'| ->] & Hpre & _).
    - by apply (Hnotbelow d').
    - apply prefix_nil_inv in Hpre. by destruct ps'. }
  unfold Model.apply_entry.
  destruct Hkind as [(o & n & Hold & Hnw & -> & ->)|[(n & Hold & Hnw & -> & ->)|(o & Hold & Hnw & ->)]].
  - (* a delta *)
    rewrite entry_rel_clean by (done || by repeat constructor).
    unfold joinpath. cbn [absolute parts]. rewrite app_assoc, parent_snoc.
    io_step. rewrite Hmk. cbn [fst snd]. io_step.
    rewrite (path_exists_child true _ (game ++ ps') x), Htf, Hold by done.
    rewrite bool_decide_eq_true_2 by eauto. rewrite io_bind_run.
    rewrite (backup_returns (PurePath false (ps' ++ [x])) (game ++ ps') ps' x t1 r o r1)
      by (done || congruence).
    rewrite decide_True by done.
    assert (t1 !! ((game ++ ps') ++ [x +:+ ".tmp"]) = None) as Htmp.
    { pose proof (node_file_in old_dir _ _ old_is_dir Hold) as Hfile.
      destruct (no_scratch _ _ Hfile) as [Hs1 Hs2]. rewrite add_suffix_snoc in Hs1, Hs2.
      destruct (decide (t1 !! ((game ++ ps') ++ [x +:+ ".tmp"])
                        = t !! ((game ++ ps') ++ [x +:+ ".tmp"]))) as [->|Hne];
        [|apply Hch in Hne; by apply snoc_not_prefix in Hne].
      rewrite <-app_assoc.
      destruct (decide (ps' ++ [x +:+ ".tmp"] ∈ done)) as [Hin|Hout].
      - rewrite Forall_forall in Hdone. destruct (Hdone _ Hin) as [d [?|?]]; congruence.
      - destruct (Hrest _ Hout) as [->|(_ & _ & d & Hd & [k2 ->])]; [by rewrite copied|].
        rewrite Forall_forall in Hdone. destruct (Hdone _ Hd) as [d' Hd'].
        destruct (decide (k2 = [])) as [->|Hk2]; [by rewrite app_nil_r in Hd|].
        destruct Hd' as [Hd'|Hd']; rewrite app_assoc in Hd';
          apply (tree_shaped_prefix _ _ _ _ shaped) in Hd'; congruence. }
    rewrite (apply_delta_returns detools_apply_patch (game ++ ps') x _ t1 _ o n)
      by (done || congruence).
    eexists. split; [done|].
    eapply (round_inv_after done t r t1 r1 _ _ ps' x o); try done.
    + congruence.
    + intros q Hq. by rewrite lookup_insert_ne.
    + by rewrite lookup_insert_eq.
    + by rewrite lookup_insert_eq.
    + by right.
  - (* a whole file *)
    rewrite entry_rel_clean by (done || by repeat constructor).
    unfold joinpath. cbn [absolute parts]. rewrite app_assoc, parent_snoc.
    io_step. rewrite Hmk. cbn [fst snd]. io_step.
    rewrite (path_exists_child true _ (game ++ ps') x), Htf, Hold by done.
    rewrite bool_decide_eq_false_2 by by intros [??].
    io_step. rewrite decide_False, decide_True by done.
    io_step. rewrite copy2_into_child by (done || congruence).
    eexists. split; [done|].
    eapply (round_inv_after done t r t1 r _ _ ps' x ""); try done.
    + congruence.
    + intros q Hq. by rewrite lookup_insert_ne.
    + by rewrite lookup_insert_eq.
    + by rewrite lookup_insert_eq.
    + apply grows_refl.
    + by left.
  - (* a deletion *)
    rewrite entry_rel_clean by (done || by repeat constructor).
    unfold joinpath. cbn [absolute parts]. rewrite app_assoc, parent_snoc.
    io_step. rewrite Hmk. cbn [fst snd]. io_step.
    rewrite (path_exists_child true _ (game ++ ps') x), Htf, Hold by done.
    rewrite bool_decide_eq_true_2 by eauto. rewrite io_bind_run.
    rewrite (backup_returns (PurePath false (ps' ++ [x])) (game ++ ps') ps' x t1 r o r1)
      by (done || congruence).
    rewrite decide_False, decide_False, decide_True by done.
    io_step. rewrite (path_exists_child true _ (game ++ ps') x), Htf, Hold by done.
    rewrite bool_decide_eq_true_2 by eauto. io_step.
    rewrite (os_remove_child true _ (game ++ ps') x), Htf, Hold by done.
    eexists. split; [done|].
    eapply (round_inv_after done t r t1 r1 _ _ ps' x o); try done.
    + congruence.
    + intros q Hq. by rewrite lookup_delete_ne.
    + by rewrite lookup_delete_eq.
    + by rewrite lookup_delete_eq.
    + by right.
Qed.

Lemma round_inv_init : round_inv [] (State t0 fs_empty).
Proof.
  constructor; cbn [target rollback].
  - apply dirs_kept_refl.
  - by intros q ?%elem_of_nil.
  - intros q _. by left.
  - by intros q ?%elem_of_nil.
  - done.
  - intros q n Hq. unfold fs_empty in Hq. apply lookup_singleton_Some in Hq as [<- <-].
    exists []. split_and!; [by right|done|by left].
Qed.

(** The loop over patch files written for distinct paths returns. *)
Lemma round_entries es : ∀ done i s,
  round_inv done s → Forall (λ d, in_trees d) done → NoDup es.*1 →
  (∀ name c, (name, c) ∈ es → ∃ rel, written_for rel name c ∧ rel ∉ done) →
  ∃ s' done', apply_entries game i es s = (Ok (), s') ∧ round_inv done' s' ∧
    (∀ rel, rel ∈ done' ↔ rel ∈ done ∨ ∃ name c, (name, c) ∈ es ∧ written_for rel name c).
Proof.
  induction es as [|[name c] es IH]; intros done i s Hinv Hdone Hnd Hes.
  - exists s, done. split_and!; [done..|]. intros rel. split; [by left|].
    intros [?|(? & ? & ?%elem_of_nil & _)]; done.
  - destruct (Hes name c) as (rel & Hw & Hnew); [by left|].
    rewrite (apply_entries_cons detools_apply_patch cancelled_applying), not_cancelled.
    destruct (round_step done s rel name c Hinv Hdone Hnew Hw) as (s1 & -> & Hinv1).
    cbn [fmap list_fmap fst] in Hnd. apply NoDup_cons in Hnd as [Hname Hnd].
    destruct (IH (rel :: done) (S i) s1 Hinv1) as (s' & done' & Hrun & Hinv' & Hiff).
    + apply Forall_cons. split; [|done].
      by apply (written_for_in_trees rel name c).
    + done.
    + intros name' c' Hin. destruct (Hes name' c') as (rel' & Hw' & Hnew'); [by right|].
      exists rel'. split; [done|]. apply not_elem_of_cons. split; [|done].
      intros ->. destruct (written_for_fun _ _ _ _ _ _ _ _ _ Hw Hw') as [-> _].
      apply Hname. apply list_elem_of_fmap. by exists (name', c').
    + exists s', done'. split_and!; [done..|]. intros rel0. rewrite Hiff. split.
      * intros [[->|?]%elem_of_cons|(n0 & c0 & Hin & Hw0)].
        -- right. exists name, c. split; [by left|done].
        -- by left.
        -- right. exists n0, c0. split; [by right|done].
      * intros [?|(n0 & c0 & [[= -> ->]|Hin]%elem_of_cons & Hw0)].
        -- left. by right.
        -- left. apply elem_of_cons. left.
           by destruct (written_for_inj detools_create_patch m old_dir new_dir wf names_clean
                          _ _ _ _ _ Hw0 Hw).
        -- right. by exists n0, c0.
Qed.

Lemma None_exists_false root rel :
  m !! (root ++ rel) = None → ".." ∉ root ++ rel → path_exists true m (root ++ rel) = Ok false.
Proof.
  intros Hn Hdd. unfold path_exists, node_at.
  destruct (walk_plain true m [] (root ++ rel) Hdd) as [->|[e ->]]; cbn [mbind res_bind app].
  - rewrite Hn. by rewrite bool_decide_eq_false_2 by by intros [??].
  - by rewrite bool_decide_eq_false_2 by by intros [??].
Qed.

Lemma tree_plain root rel n : dir_at true m root → m !! (root ++ rel) = Some n → ".." ∉ root ++ rel.
Proof.
  intros Hroot Hn. apply not_elem_of_app. split.
  - by apply root_plain.
  - apply (names_plain rel). by apply (node_names root rel n).
Qed.

(** The directories of the old tree are directories of the copy. *)
Lemma copy_dir_at (k : path) :
  (∀ k', k' `prefix_of` k → m !! (old_dir ++ k') = Some Dir) → ".." ∉ k →
  dir_at true t0 (game ++ k).
Proof.
  induction k as [|c k IH] using rev_ind; intros Hall Hk.
  - by rewrite app_nil_r.
  - apply not_elem_of_app in Hk as [Hk Hc].
    assert (dir_at true t0 (game ++ k)) as Hdir.
    { apply IH; [|done]. intros k' Hk'. apply Hall. etrans; [done|]. by apply prefix_app_r. }
    rewrite app_assoc. split.
    + apply walk_child; [done|]. intros ->. apply Hc. by left.
    + rewrite <-app_assoc, copied. by apply Hall.
Qed.

(** A path without a patch file is the same file in both trees, or a
    file in neither. *)
Lemma unchanged_path rel :
  (∀ name c, ¬ written_for rel name c) →
  ∀ d, m !! (old_dir ++ rel) = Some (File d) ↔ m !! (new_dir ++ rel) = Some (File d).
Proof.
  intros Hno d. split; intros Hd.
  - pose proof (node_file_in old_dir rel d old_is_dir Hd) as Hfile.
    destruct (m !! (new_dir ++ rel)) as [[n|]|] eqn:Hn.
    + destruct (decide (d = n)) as [->|Hne]; [done|].
      destruct (Hno (patch_name (as_posix rel) +:+ ".patch") (detools_create_patch d n)).
      constructor; [by apply (node_file_in new_dir)| |done].
      by apply file_in_read.
    + by apply old_new in Hd.
    + destruct (Hno (patch_name (as_posix rel) +:+ ".delete") "DELETE").
      econstructor; [done|]. apply None_exists_false; [done|].
      apply not_elem_of_app. split; [by apply root_plain|].
      apply (names_plain rel). by apply (node_names old_dir rel (File d)).
  - pose proof (node_file_in new_dir rel d new_is_dir Hd) as Hfile.
    destruct (m !! (old_dir ++ rel)) as [[o|]|] eqn:Ho.
    + destruct (decide (o = d)) as [->|Hne]; [done|].
      destruct (Hno (patch_name (as_posix rel) +:+ ".patch") (detools_create_patch o d)).
      constructor; [done| |done].
      apply file_in_read. by apply (node_file_in old_dir).
    + by apply new_old in Hd.
    + destruct (Hno (patch_name (as_posix rel) +:+ ".full") d).
      constructor; [done|]. apply None_exists_false; [done|].
      apply not_elem_of_app. split; [by apply root_plain|].
      apply (names_plain rel). by apply (node_names new_dir rel (File d)).
Qed.

(** The loop over the patch files of the package, in any order, on the
    copy of the old tree: it returns, and the regular files below the
    target root are then those of the new tree, each readable. *)
Lemma round_trip_loop (files : gmap string string) es :
  (∀ name c, files !! name = Some c ↔ ∃ rel, written_for rel name c) →
  es ≡ₚ map_to_list files →
  ∃ s', apply_entries game 0 es (State t0 fs_empty) = (Ok (), s') ∧
    (∀ rel d, target s' !! (game ++ rel) = Some (File d) ↔
              m !! (new_dir ++ rel) = Some (File d)) ∧
    (∀ rel d, m !! (new_dir ++ rel) = Some (File d) →
              read_file true (target s') (game ++ rel) = Ok d).
Proof.
  intros Hfiles Hperm.
  assert (NoDup es.*1) as Hnd.
  { rewrite Hperm. apply NoDup_fst_map_to_list. }
  assert (∀ name c, (name, c) ∈ es ↔ ∃ rel, written_for rel name c) as Hes.
  { intros name c. by rewrite Hperm, elem_of_map_to_list. }
  destruct (round_entries es [] 0 (State t0 fs_empty) round_inv_init) as (s' & done' & Hrun & Hinv & Hiff);
    [done|done| |].
  { intros name c Hin. apply Hes in Hin as [rel Hw]. exists rel. split; [done|].
    apply not_elem_of_nil. }
  assert (∀ rel, rel ∈ done' ↔ ∃ name c, written_for rel name c) as Hdone.
  { intros rel. rewrite Hiff. split.
    - intros [?%elem_of_nil|(name & c & _ & Hw)]; [done|by eauto].
    - intros (name & c & Hw). right. exists name, c. split; [|done]. apply Hes. eauto. }
  destruct Hinv as [Hdirs Hdn Hrest Hpar _ _].
  assert (∀ rel, rel ∉ done' →
            ∀ d, m !! (old_dir ++ rel) = Some (File d) ↔ m !! (new_dir ++ rel) = Some (File d))
    as Hsame.
  { intros rel Hout. apply unchanged_path. intros name c Hw. apply Hout, Hdone. eauto. }
  assert (∀ rel d, target s' !! (game ++ rel) = Some (File d) ↔
                   m !! (new_dir ++ rel) = Some (File d)) as Hnew.
  { intros rel d. destruct (decide (rel ∈ done')) as [Hin|Hout]; [by rewrite Hdn|].
    rewrite <-(Hsame rel Hout d), <-copied.
    destruct (Hrest rel Hout) as [->|(Hnone & Hd & _)]; [done|].
    rewrite Hnone, Hd. split; intros [=]. }
  exists s'. split_and!; [done..|].
  intros rel d Hd.
  assert (rel ≠ []) as Hnil.
  { intros ->. rewrite app_nil_r in Hd. destruct new_is_dir as [_ ?]. congruence. }
  destruct (exists_last Hnil) as (ps' & x & ->).
  pose proof (names_plain _ (node_names _ _ _ Hd)) as Hdd.
  assert ((".." ∉ ps') ∧ x ≠ "..") as [Hps' Hx].
  { apply not_elem_of_app in Hdd as [? Hx]. split; [done|]. intros ->. apply Hx. by left. }
  assert (dir_at true (target s') (game ++ ps')) as Hdir.
  { destruct (decide (ps' ++ [x] ∈ done')) as [Hin|Hout].
    - specialize (Hpar _ Hin). by rewrite removelast_last in Hpar.
    - eapply dir_at_mono; [done|]. apply copy_dir_at; [|done].
      intros k' [k2 ->]. apply (Hsame _ Hout) in Hd. rewrite <-app_assoc, app_assoc in Hd.
      apply (tree_shaped_prefix _ _ _ _ shaped Hd). by destruct k2. }
  rewrite app_assoc, read_file_child by done. apply Hnew in Hd.
  rewrite app_assoc in Hd. by rewrite Hd.
Qed.

End RoundTrip.

Section RoundTripClaim.

Context (sha256_hexdigest : string → string)
        (detools_create_patch : string → string → string)
        (detools_apply_patch : string → string → string + string)
        (archive_bytes : manifest → gmap string string → string)
        (extract_archive : nat → string → res extraction)
        (scandir_order : list path → list path)
        (cancelled_creating cancelled_applying : nat → bool).

Local Abbreviation create_patch :=
  (create_patch sha256_hexdigest detools_create_patch archive_bytes scandir_order
     cancelled_creating).
Local Abbreviation build_patch_tmp :=
  (build_patch_tmp sha256_hexdigest detools_create_patch scandir_order cancelled_creating).
Local Abbreviation apply_patch :=
  (apply_patch sha256_hexdigest detools_apply_patch extract_archive scandir_order
     cancelled_applying).


End RoundTripClaim.

(** * Directories are never removed *)

Section KeepsDirectories.

Context (sha256_hexdigest : string → string)
        (detools_apply_patch : string → string → string + string)
        (extract_archive : nat → string → res extraction)
        (scandir_order : list path → list path)
        (cancelled : nat → bool).

Implicit Types (m t r : fs) (p q game : path) (x name data : string) (s : state)
  (es : list (string * string)).

Local Arguments path_exists : simpl never.
Local Arguments is_dir : simpl never.
Local Arguments read_file : simpl never.
Local Arguments write_file : simpl never.
Local Arguments os_remove : simpl never.
Local Arguments os_replace : simpl never.
Local Arguments copy2_into : simpl never.
Local Arguments mkdir_parents : simpl never.
Local Arguments add_suffix : simpl never.
Local Arguments parent : simpl never.
Local Arguments basename : simpl never.

Local Abbreviation apply_delta := (apply_delta detools_apply_patch).
Local Abbreviation apply_entry := (apply_entry detools_apply_patch).
Local Abbreviation apply_entries := (apply_entries detools_apply_patch cancelled).
Local Abbreviation try_body :=
  (try_body sha256_hexdigest detools_apply_patch extract_archive cancelled).
Local Abbreviation apply_patch :=
  (apply_patch sha256_hexdigest detools_apply_patch extract_archive scandir_order cancelled).

Lemma os_remove_dirs_kept rooted m cs m' : os_remove rooted m cs = Ok m' → dirs_kept m m'.
Proof.
  unfold os_remove. destruct (walk rooted m [] cs) as [p| |]; cbn [mbind res_bind]; try done.
  destruct (m !! p) as [[d|]|] eqn:Hp; try done. intros [= <-].
  apply delete_file_dirs_kept. congruence.
Qed.

Lemma os_replace_dirs_kept rooted m src dst m' :
  os_replace rooted m src dst = Ok m' → dirs_kept m m'.
Proof.
  unfold os_replace.
  destruct (walk rooted m [] src) as [ps| |]; cbn [mbind res_bind]; try done.
  destruct (walk rooted m [] dst) as [pd| |]; cbn [mbind res_bind]; try done.
  destruct (m !! ps) as [[d|]|] eqn:Hps; try done.
  assert (dirs_kept m (delete ps m)) as H1 by (apply delete_file_dirs_kept; congruence).
  assert (m !! pd ≠ Some Dir → delete ps m !! pd ≠ Some Dir) as H2.
  { intros Hpd Hd. apply lookup_delete_Some in Hd as [_ ?]. done. }
  destruct (m !! pd) as [[d'|]|] eqn:Hpd; try done; intros [= <-];
    (eapply dirs_kept_trans; [done|]); apply insert_file_dirs_kept; by apply H2.
Qed.

Lemma on_target_dirs_kept (f : fs → res fs) s out s' :
  (∀ t t', f t = Ok t' → dirs_kept t t') →
  on_target f s = (out, s') → dirs_kept (target s) (target s').
Proof.
  intros Hf. rewrite on_target_run.
  destruct (f (target s)) as [t'| |] eqn:E; intros [= _ <-]; cbn [target];
    [by apply Hf|apply dirs_kept_refl..].
Qed.

Lemma apply_delta_dirs_kept tf data s out s' :
  apply_delta tf data s = (out, s') → dirs_kept (target s) (target s').
Proof.
  unfold Model.apply_delta. io_step.
  destruct (path_exists true (target s) tf) as [[]| |]; cbn [negb];
    [|io_step; intros [= _ <-]; apply dirs_kept_refl
     |intros [= _ <-]; apply dirs_kept_refl..].
  io_step.
  destruct (read_file true (target s) tf) as [f_old| |];
    [|intros [= _ <-]; apply dirs_kept_refl..].
  rewrite io_bind_run.
  destruct (on_target (λ t, write_file true t (add_suffix tf ".tmp") "") s) as [o1 s1] eqn:E1.
  apply on_target_dirs_kept in E1 as H1; [|intros ?? H; by apply write_file_kept in H as [??]].
  destruct o1 as [[]| |]; [|by intros [= _ <-]..].
  destruct (detools_apply_patch f_old data) as [written|f_new].
  - rewrite io_bind_run.
    destruct (on_target (λ t, write_file true t (add_suffix tf ".tmp") written) s1)
      as [o2 s2] eqn:E2.
    apply on_target_dirs_kept in E2 as H2; [|intros ?? H; by apply write_file_kept in H as [??]].
    destruct o2 as [[]| |]; [rewrite raise_run|..]; intros [= _ <-]; by eapply dirs_kept_trans.
  - rewrite io_bind_run.
    destruct (on_target (λ t, write_file true t (add_suffix tf ".tmp") f_new) s1)
      as [o2 s2] eqn:E2.
    apply on_target_dirs_kept in E2 as H2; [|intros ?? H; by apply write_file_kept in H as [??]].
    destruct o2 as [[]| |]; [|intros [= _ <-]; by eapply dirs_kept_trans..].
    intros E3. apply on_target_dirs_kept in E3; [|intros ??; apply os_replace_dirs_kept].
    eapply dirs_kept_trans; [done|]. by eapply dirs_kept_trans.
Qed.

(** One turn of the loop, whatever the patch file and however it ends. *)
Lemma apply_entry_dirs_kept game name data s out s' :
  apply_entry game name data s = (out, s') → dirs_kept (target s) (target s').
Proof.
  unfold Model.apply_entry. destruct (entry_rel name) as [rel ext].
  io_step.
  destruct (mkdir_parents true (target s) (parent (joinpath game rel))) as [o t1] eqn:Hmk.
  apply mkdir_parents_grows, grows_dirs_kept in Hmk. cbn [fst snd].
  destruct o as [[]|e|]; [|by intros [= _ <-]..].
  io_step.
  destruct (path_exists true t1 (joinpath game rel)) as [ex|e|]; [|by intros [= _ <-]..].
  rewrite io_bind_run.
  assert (∃ ob sb, (if ex then backup rel (joinpath game rel) else mret ())
                     (State t1 (rollback s)) = (ob, sb) ∧ dirs_kept t1 (target sb))
    as (ob & sb & -> & Hb).
  { destruct ex.
    - destruct (backup rel (joinpath game rel) (State t1 (rollback s))) as [ob sb] eqn:Hb.
      exists ob, sb. split; [done|]. by apply backup_target_grows, grows_dirs_kept in Hb.
    - eexists _, _. rewrite io_ret_run. split; [done|]. apply dirs_kept_refl. }
  assert (dirs_kept (target s) (target sb)) as H1 by by eapply dirs_kept_trans.
  destruct ob as [[]|e|]; [|by intros [= _ <-]..].
  destruct (decide (ext = ".patch")) as [_|_].
  { intros H%apply_delta_dirs_kept. by eapply dirs_kept_trans. }
  destruct (decide (ext = ".full")) as [_|_].
  { intros H. apply on_target_dirs_kept in H; [by eapply dirs_kept_trans|].
    intros ?? H'. by apply copy2_into_kept in H' as [??]. }
  destruct (decide (ext = ".delete")) as [_|_]; [|rewrite io_ret_run; by intros [= _ <-]].
  io_step.
  destruct (path_exists true (target sb) (joinpath game rel)) as [[]|e|];
    [|rewrite io_ret_run; by intros [= _ <-]|by intros [= _ <-]..].
  intros H. apply on_target_dirs_kept in H; [by eapply dirs_kept_trans|].
  intros ??. apply os_remove_dirs_kept.
Qed.

Lemma apply_entries_dirs_kept game es : ∀ i s out s',
  apply_entries game i es s = (out, s') → dirs_kept (target s) (target s').
Proof.
  induction es as [|[name data] es IH]; intros i s out s'.
  - cbn [Model.apply_entries]. rewrite io_ret_run. intros [= _ <-]. apply dirs_kept_refl.
  - rewrite (apply_entries_cons detools_apply_patch cancelled).
    destruct (cancelled i); [intros [= _ <-]; apply dirs_kept_refl|].
    destruct (apply_entry game name data s) as [o s1] eqn:Hstep.
    apply apply_entry_dirs_kept in Hstep.
    destruct o as [[]|e|]; [|by intros [= _ <-]..].
    intros H%IH. by eapply dirs_kept_trans.
Qed.

(** The [try] and [except] blocks keep every directory of the filesystem. *)
Lemma apply_patch_dirs_kept game patch_package ram t0 out t' :
  apply_patch game patch_package ram t0 = (out, t') → dirs_kept t0 t'.
Proof.
  unfold Model.apply_patch.
  destruct (try_body game patch_package ram (State t0 fs_empty)) as [o s] eqn:Htry.
  assert (dirs_kept t0 (target s)) as Hs.
  { revert Htry. rewrite try_body_unfold.
    destruct (read_file true t0 patch_package) as [f_in|e|];
      [|intros [= _ <-]; apply dirs_kept_refl..].
    destruct (extract_archive ram f_in) as [ex|e|];
      [|intros [= _ <-]; apply dirs_kept_refl..].
    destruct (ex_manifest ex) as [| |items];
      [intros [= _ <-]; apply dirs_kept_refl..|].
    destruct (apply_entries game 0 (patch_files ex) _) as [o1 s1] eqn:Hrun.
    apply apply_entries_dirs_kept in Hrun. cbn [target] in Hrun.
    destruct o1 as [[]|e|]; [|by intros [= _ <-]..].
    by destruct (validation_errors _ _ _ _) as [[|l ls]|e|]; intros [= _ <-]. }
  destruct o as [[]|e|]; [by intros [= _ <-]| |by intros [= _ <-]].
  destruct (restore game (rollback s) _ (target s)) as [o2 t2] eqn:Hrest.
  apply restore_kept in Hrest as [Hk _].
  destruct o2 as [[]|e2|]; intros [= _ <-]; by eapply dirs_kept_trans.
Qed.

End KeepsDirectories.

(** * Deciding the conditions of the round trip on concrete trees *)

Section Checks.

Implicit Types (m t : fs) (a b root game old_dir new_dir : path).

Lemma relative_to_app root rel : relative_to root (root ++ rel) = Some rel.
Proof. by apply relative_to_Some. Qed.

Lemma tree_shaped_check m :
  map_Forall (λ (p : path) (_ : node), p = [] ∨ m !! removelast p = Some Dir) m →
  tree_shaped m.
Proof.
  intros H q c n Hq. apply H in Hq as [Hq|Hq]; [by destruct q|].
  by rewrite removelast_last in Hq.
Qed.

Lemma clean_names_check m old_dir new_dir :
  Forall (λ rel, clean (as_posix rel) = true)
    (files_under true m new_dir ++ files_under true m old_dir) →
  ∀ rel d, file_in m new_dir rel d ∨ file_in m old_dir rel d → clean (as_posix rel) = true.
Proof.
  intros H rel d Hin. rewrite Forall_forall in H. apply H.
  rewrite elem_of_app, !file_in_listed. destruct Hin; eauto.
Qed.

Lemma kinds_agree_check m a b :
  map_Forall (λ (p : path) (n : node),
                match n, relative_to a p with
                | File _, Some q => bool_decide (m !! (b ++ q) ≠ Some Dir)
                | _, _ => true
                end = true) m →
  kinds_agree m a b.
Proof.
  intros H q d Hq. apply H in Hq. cbn beta iota in Hq. rewrite relative_to_app in Hq.
  by apply bool_decide_eq_true in Hq.
Qed.

Lemma no_scratch_names_check m old_dir new_dir :
  Forall (λ rel, m !! (old_dir ++ add_suffix rel ".tmp") = None ∧
                 m !! (new_dir ++ add_suffix rel ".tmp") = None)
    (files_under true m old_dir) →
  no_scratch_names m old_dir new_dir.
Proof.
  intros H rel d Hin. rewrite Forall_forall in H. apply H.
  apply file_in_listed. eauto.
Qed.

Lemma copy_of_check t game m old_dir :
  map_Forall (λ (p : path) (n : node),
                match relative_to game p with
                | Some q => bool_decide (m !! (old_dir ++ q) = Some n)
                | None => true
                end = true) t →
  map_Forall (λ (p : path) (n : node),
                match relative_to old_dir p with
                | Some q => bool_decide (t !! (game ++ q) = Some n)
                | None => true
                end = true) m →
  copy_of t game m old_dir.
Proof.
  intros H1 H2 q. destruct (t !! (game ++ q)) as [n|] eqn:E1.
  - apply H1 in E1. cbn beta in E1. rewrite relative_to_app in E1.
    by apply bool_decide_eq_true in E1.
  - destruct (m !! (old_dir ++ q)) as [n|] eqn:E2; [|done].
    apply H2 in E2. cbn beta in E2. rewrite relative_to_app in E2.
    apply bool_decide_eq_true in E2. congruence.
Qed.

End Checks.

(** * A file at the scratch name of a patched file *)

Section Bystander.

Context (detools_apply_patch : string → string → string + string).

Implicit Types (t r : fs) (p q par game : path) (x name data : string) (s : state).

Local Arguments path_exists : simpl never.
Local Arguments is_dir : simpl never.
Local Arguments read_file : simpl never.
Local Arguments write_file : simpl never.
Local Arguments os_remove : simpl never.
Local Arguments os_replace : simpl never.
Local Arguments copy2_into : simpl never.
Local Arguments mkdir_parents : simpl never.
Local Arguments add_suffix : simpl never.
Local Arguments parent : simpl never.
Local Arguments basename : simpl never.

Local Abbreviation apply_delta := (apply_delta detools_apply_patch).
Local Abbreviation apply_entry := (apply_entry detools_apply_patch).

(** Lines 208-215 when a regular file is at the scratch name and the
    reconstruction succeeds. *)
Lemma apply_delta_over_scratch par x data t r c other new :
  dir_at true t par → x ≠ ".." →
  t !! (par ++ [x]) = Some (File c) → t !! (par ++ [x +:+ ".tmp"]) = Some (File other) →
  detools_apply_patch c data = inr new →
  apply_delta (par ++ [x]) data (State t r)
  = (Ok (), State (<[par ++ [x] := File new]> (delete (par ++ [x +:+ ".tmp"]) t)) r).
Proof.
  intros Hpar Hx Htf Htmp HD. unfold Model.apply_delta. io_step.
  rewrite path_exists_child by done. rewrite add_suffix_snoc, Htf.
  rewrite bool_decide_eq_true_2 by eauto. cbn [negb]. io_step.
  rewrite read_file_child, Htf by done. io_step.
  pose proof (tmp_name_not_dotdot x) as Hdd. pose proof (tmp_name_neq x) as Hneq.
  assert (par ++ [x +:+ ".tmp"] ≠ par ++ [x]) as Hne by by intros [= ?]%app_inv_head.
  rewrite write_file_child, Htmp by done.
  assert (dir_at true (<[par ++ [x +:+ ".tmp"] := File ""]> t) par) as Hpar1.
  { apply dir_at_insert_file; [by rewrite Htmp|done]. }
  rewrite HD. io_step. rewrite write_file_child by done. rewrite lookup_insert_eq. io_step.
  rewrite insert_insert_eq.
  assert (dir_at true (<[par ++ [x +:+ ".tmp"] := File new]> t) par) as Hpar2.
  { apply dir_at_insert_file; [by rewrite Htmp|done]. }
  rewrite os_replace_child by done. rewrite lookup_insert_eq.
  rewrite lookup_insert_ne, Htf by done.
  by rewrite delete_insert_eq.
Qed.

(** X10. The scratch file of a reconstruction is written to "<target>.tmp"
    whatever is there.  When a regular file of the target tree has that
    name, the turn for the [.patch] file truncates it, writes the new
    content into it and moves it over the target: after the turn the
    target holds the new content, no file has the scratch name, and the
    only snapshot in [rollback] is that of the target; the bytes of the
    file that had the scratch name are nowhere. *)
Theorem scratch_name_is_overwritten game name data t c other new :
  ".." ∉ game → plain_entry name → entry_ext name = ".patch" →
  dir_at true t (parent (game ++ entry_parts name)) →
  t !! (game ++ entry_parts name) = Some (File c) →
  t !! add_suffix (game ++ entry_parts name) ".tmp" = Some (File other) →
  detools_apply_patch c data = inr new →
  ∃ r',
    apply_entry game name data (State t fs_empty)
    = (Ok (), State (<[game ++ entry_parts name := File new]>
                       (delete (add_suffix (game ++ entry_parts name) ".tmp") t)) r') ∧
    ∀ q d, r' !! q = Some (File d) → q = entry_parts name ∧ d = c.
Proof.
  intros Hgame [[Habs Hdd] Hne]. unfold entry_ext, entry_parts in *.
  unfold Model.apply_entry. destruct (entry_rel name) as [rel ext] eqn:Hentry.
  cbn [fst snd] in *. intros ->.
  destruct (exists_last Hne) as (ps' & x & Hparts). rewrite Hparts in *.
  assert ((".." ∉ ps') ∧ x ≠ "..") as [Hps' Hx].
  { apply not_elem_of_app in Hdd as [? Hx]. split; [done|]. intros ->. apply Hx. by left. }
  unfold joinpath. rewrite Habs, Hparts, app_assoc, parent_snoc, add_suffix_snoc.
  set (par := game ++ ps'). intros Hpar Hc Htmp HD.
  destruct (mkdir_parents_only_dirs false fs_empty ps' only_dirs_empty Hps')
    as (r1 & Hmkr & Hr1).
  destruct (mkdir_parents_plain _ _ _ _ _ Hps' Hmkr) as (_ & Hchr & Hdr).
  assert (r1 !! (ps' ++ [x]) = None) as Hfree.
  { destruct (decide (r1 !! (ps' ++ [x]) = fs_empty !! (ps' ++ [x]))) as [->|Hd].
    - apply lookup_singleton_ne. by destruct ps'.
    - apply Hchr in Hd. by apply snoc_not_prefix in Hd. }
  exists (<[ps' ++ [x] := File c]> r1). split.
  - io_step. rewrite (mkdir_parents_existing _ _ _ Hpar). cbn [fst snd]. io_step.
    rewrite (path_exists_child true _ par x), Hc by done.
    rewrite bool_decide_eq_true_2 by eauto. rewrite io_bind_run.
    rewrite (backup_returns rel par ps' x t fs_empty c r1) by auto.
    rewrite decide_True by done.
    by apply (apply_delta_over_scratch par x data t _ c other new).
  - intros q d. destruct (decide (q = ps' ++ [x])) as [->|Hq].
    + rewrite lookup_insert_eq. by intros [= ->].
    + rewrite lookup_insert_ne by done. intros Hq'. destruct Hr1 as [_ Hall].
      by specialize (Hall _ _ Hq').
Qed.

End Bystander.

(** * The configuration file: [load_config] and [on_closing] *)

Section ConfigDict.

Context {V : Type}.

Implicit Types (d other : list (string * V)) (k : string) (v : V).

Lemma get_set_item k k' v d :
  Gui.get_item k (Gui.set_item k' v d) = if decide (k' = k) then Some v else Gui.get_item k d.
Proof.
  induction d as [|[k0 v0] d IH]; simpl.
  - done.
  - destruct (decide (k0 = k')) as [->|Hne]; simpl.
    + destruct (decide (k' = k)); done.
    + destruct (decide (k0 = k)) as [->|Hne']; [by rewrite decide_False by done|done].
Qed.

Lemma set_item_keys k v d : k ∈ d.*1 → (Gui.set_item k v d).*1 = d.*1.
Proof.
  induction d as [|[k0 v0] d IH]; simpl; [by intros ?%elem_of_nil|].
  destruct (decide (k0 = k)) as [->|Hne]; [done|]. simpl.
  rewrite elem_of_cons. intros [->|Hin]; [done|]. f_equal. by apply IH.
Qed.

Lemma set_item_keys_new k v d : k ∉ d.*1 → (Gui.set_item k v d).*1 = d.*1 ++ [k].
Proof.
  induction d as [|[k0 v0] d IH]; simpl; [done|].
  rewrite not_elem_of_cons. intros [Hne Hin].
  rewrite decide_False by done. simpl. f_equal. by apply IH.
Qed.

Lemma set_item_NoDup k v d : NoDup d.*1 → NoDup (Gui.set_item k v d).*1.
Proof.
  intros Hnd. destruct (decide (k ∈ d.*1)) as [Hin|Hin].
  - by rewrite set_item_keys.
  - rewrite set_item_keys_new by done. apply NoDup_app.
    split_and!; [done| |apply NoDup_singleton].
    intros x Hx ->%list_elem_of_singleton. done.
Qed.

Lemma get_item_None k d : k ∉ d.*1 → Gui.get_item k d = None.
Proof.
  induction d as [|[k0 v0] d IH]; simpl; [done|].
  rewrite not_elem_of_cons. intros [Hne Hin]. rewrite decide_False by done. by apply IH.
Qed.

Lemma get_del_item k k' d :
  NoDup d.*1 →
  Gui.get_item k (Gui.del_item k' d) = if decide (k' = k) then None else Gui.get_item k d.
Proof.
  induction d as [|[k0 v0] d IH]; simpl; intros Hnd.
  - by destruct (decide (k' = k)).
  - apply NoDup_cons in Hnd as [Hk0 Hnd].
    destruct (decide (k0 = k')) as [->|Hne].
    + destruct (decide (k' = k)) as [->|Hne']; [by apply get_item_None|done].
    + simpl. destruct (decide (k0 = k)) as [->|Hne'].
      * by rewrite decide_False by done.
      * by apply IH.
Qed.

Lemma del_item_NoDup k d : NoDup d.*1 → NoDup (Gui.del_item k d).*1.
Proof.
  induction d as [|[k0 v0] d IH]; simpl; [done|]. intros [Hk0 Hnd]%NoDup_cons.
  destruct (decide (k0 = k)); [done|]. simpl. apply NoDup_cons. split; [|by apply IH].
  intros Hin. apply Hk0. clear -Hin.
  induction d as [|[k1 v1] d IH]; simpl in *; [done|].
  destruct (decide (k1 = k)); [by right|]. simpl in Hin.
  apply elem_of_cons in Hin as [->|Hin]; [by left|right; by apply IH].
Qed.

(** [d.update(other)]: the values of [other] win, the other keys of [d]
    stay. *)
Lemma get_update k d other :
  NoDup other.*1 →
  Gui.get_item k (Gui.update d other)
  = match Gui.get_item k other with Some v => Some v | None => Gui.get_item k d end.
Proof.
  unfold Gui.update. revert d. induction other as [|[k0 v0] other IH]; intros d Hnd; [done|].
  apply NoDup_cons in Hnd as [Hk0 Hnd]. cbn [foldl fst snd Gui.get_item].
  rewrite IH by done. rewrite get_set_item.
  destruct (decide (k0 = k)) as [->|Hne]; [|done].
  by rewrite get_item_None.
Qed.

Lemma update_keeps_keys k d other :
  is_Some (Gui.get_item k d) → is_Some (Gui.get_item k (Gui.update d other)).
Proof.
  unfold Gui.update. revert d. induction other as [|[k0 v0] other IH]; intros d Hd; [done|].
  cbn [foldl fst snd]. apply IH. rewrite get_set_item. by destruct (decide (k0 = k)).
Qed.

End ConfigDict.

Section ConfigFacts.

Context (json_load : string → Gui.json_result).

Implicit Types (m : fs) (path : list string) (c d : Gui.config) (k : string).

Local Abbreviation load_config := (Gui.load_config json_load).

Lemma update_from_pairs_keeps_keys k seq : ∀ d c,
  Gui.update_from_pairs d seq = Gui.Loaded c →
  is_Some (Gui.get_item k d) → is_Some (Gui.get_item k c).
Proof.
  induction seq as [|item seq IH]; intros d c; cbn [Gui.update_from_pairs].
  - by intros [= <-].
  - intros Hrun Hd. repeat case_match; try done; subst;
      (eapply IH; [exact Hrun|]); rewrite get_set_item; by case_decide.
Qed.

(** The file that [open(path, "w")] wrote is the one that [open(path, "r")]
    reads. *)
Lemma write_then_read m path text m' :
  write_file true m path text = Ok m' → read_file true m' path = Ok text.
Proof.
  intros Hw. pose proof Hw as (p & Hwalk & Hn & ->)%write_file_Ok.
  unfold read_file.
  rewrite (walk_mono _ _ _ _ _ _ (insert_file_dirs_kept m p text Hn) Hwalk).
  cbn [mbind res_bind]. by rewrite lookup_insert_eq.
Qed.

(** X13. Whatever the file holds, a configuration that [load_config] returns
    has the two keys of the defaults. *)
Theorem loaded_config_has_the_defaults m path c :
  load_config m path = Gui.Loaded c →
  is_Some (Gui.get_item "font_scale" c) ∧ is_Some (Gui.get_item "applier_ram_limit" c).
Proof.
  assert (∀ k, k = "font_scale" ∨ k = "applier_ram_limit" →
               is_Some (Gui.get_item k Gui.defaults)) as Hdef.
  { intros k [-> | ->]; by eexists. }
  assert (∀ k, k = "font_scale" ∨ k = "applier_ram_limit" →
               load_config m path = Gui.Loaded c → is_Some (Gui.get_item k c)) as Hall.
  { intros k Hk. specialize (Hdef k Hk). unfold Gui.load_config.
    destruct (path_exists true m path) as [[]|e|]; [|by intros [= <-]..|done].
    destruct (read_file true m path) as [text|e|]; [|by intros [= <-]|done].
    destruct (json_load text) as [j| |]; [|by intros [= <-]|done].
    destruct j as [|b|z|r|s|l|kvs]; cbn [Gui.dict_update]; try done.
    - destruct s; [by intros [= <-]|done].
    - intros Hrun. by eapply update_from_pairs_keeps_keys.
    - intros [= <-]. by apply update_keeps_keys. }
  intros Hrun. split; apply Hall; auto.
Qed.

(** X14. A file that holds a JSON object: its values win over the defaults,
    key by key, and the defaults fill in for the keys it does not have. *)
Theorem file_overrides_the_defaults m path text kvs :
  read_file true m path = Ok text → json_load text = Gui.JsonOk (Gui.JObject kvs) →
  NoDup kvs.*1 →
  ∃ c, load_config m path = Gui.Loaded c ∧
       ∀ k, Gui.get_item k c
            = match Gui.get_item k kvs with
              | Some v => Some v
              | None => Gui.get_item k Gui.defaults
              end.
Proof.
  intros Hread Hjson Hnd. exists (Gui.update Gui.defaults kvs). split.
  - unfold Gui.load_config. by rewrite (read_exists _ _ _ Hread), Hread, Hjson.
  - intros k. by apply get_update.
Qed.

(** X15. The [except] clause of [load_config] covers a file that is not there,
    one that cannot be opened and one that is not JSON: the defaults are
    returned.  It does not cover a file whose JSON is [null], a number or a
    truth value: [dict.update] raises [TypeError], and so does
    [load_config]. *)
Theorem load_config_fallbacks m path :
  (path_exists true m path = Ok false → load_config m path = Gui.Loaded Gui.defaults) ∧
  (∀ e, read_file true m path = Raise e → load_config m path = Gui.Loaded Gui.defaults) ∧
  (∀ text, read_file true m path = Ok text → json_load text = Gui.JsonDecodeError →
     load_config m path = Gui.Loaded Gui.defaults) ∧
  (∀ text j, read_file true m path = Ok text → json_load text = Gui.JsonOk j →
     match j with
     | Gui.JNull | Gui.JBool _ | Gui.JInt _ | Gui.JFloat _ => True
     | _ => False
     end →
     load_config m path = Gui.RaisedTypeError).
Proof.
  split_and!.
  - intros Hex. unfold Gui.load_config. by rewrite Hex.
  - intros e Hread. unfold Gui.load_config.
    destruct (path_exists true m path) as [[]|e'|] eqn:Hex; [by rewrite Hread|done..|].
    unfold path_exists, node_at in Hex.
    pose proof (walk_rooted_not_astray m [] path). by destruct (walk true m [] path).
  - intros text Hread Hjson. unfold Gui.load_config.
    by rewrite (read_exists _ _ _ Hread), Hread, Hjson.
  - intros text j Hread Hjson Hj. unfold Gui.load_config.
    rewrite (read_exists _ _ _ Hread), Hread, Hjson. by destruct j.
Qed.

End ConfigFacts.

Section ClosingFacts.

Context (intvar_get : string → option Z) (json_dump : Gui.config → string)
        (json_load : string → Gui.json_result).

Implicit Types (m : fs) (a : Gui.app) (c : Gui.config) (k : string).

Local Abbreviation on_closing := (Gui.on_closing intvar_get json_dump).
Local Abbreviation load_config := (Gui.load_config json_load).

(** X16. The window is destroyed only after the configuration was written: the
    file then holds the dump of the configuration in memory and no other
    path of the filesystem has changed.  In every other outcome the
    filesystem is as it was; and the window stays when the text of the RAM
    limit does not read as an integer. *)
Theorem window_closes_only_after_saving yes config_file a m out c m' :
  on_closing yes config_file a m = (out, c, m') →
  (out = Gui.Destroyed →
     read_file true m' config_file = Ok (json_dump c) ∧
     ∃ p, walk true m [] config_file = Ok p ∧ ∀ q, q ≠ p → m' !! q = m !! q) ∧
  (out ≠ Gui.Destroyed → m' = m) ∧
  (intvar_get (Gui.applier_ram_limit (Gui.vars a)) = None → out ≠ Gui.Destroyed).
Proof.
  unfold Gui.on_closing.
  destruct (Gui.is_running_task a && negb yes).
  { intros [= <- <- <-]. split_and!; done. }
  destruct (intvar_get _) as [ram|]; [|intros [= <- <- <-]; split_and!; done].
  set (c7 := if bool_decide _ then _ else _).
  destruct (write_file true m config_file (json_dump c7)) as [m1|e|] eqn:Hw;
    [|intros [= <- <- <-]; split_and!; done..].
  intros [= <- <- <-]. split_and!; [|done..]. intros _. split.
  - by eapply write_then_read.
  - apply write_file_Ok in Hw as (p & Hwalk & Hn & ->). exists p. split; [done|].
    intros q Hq. by rewrite lookup_insert_ne.
Qed.

(** X17. The settings saved at closing are the ones loaded at the next start:
    when the window was destroyed (the dictionary in memory having no key
    twice, and the dump reading back as the dictionary), [load_config] on
    the file returns a configuration with the five paths of the window,
    the RAM limit as an integer, no "theme", and the font scale that the
    configuration had, or the default. *)
Theorem saved_settings_come_back yes config_file a m c m' :
  NoDup (Gui.app_config a).*1 →
  on_closing yes config_file a m = (Gui.Destroyed, c, m') →
  json_load (json_dump c) = Gui.JsonOk (Gui.JObject c) →
  ∃ c',
    load_config m' config_file = Gui.Loaded c' ∧
    Gui.get_item "creator_old_dir" c'
      = Some (Gui.JString (Gui.creator_old_dir (Gui.vars a))) ∧
    Gui.get_item "creator_new_dir" c'
      = Some (Gui.JString (Gui.creator_new_dir (Gui.vars a))) ∧
    Gui.get_item "creator_patch_file" c'
      = Some (Gui.JString (Gui.creator_patch_file (Gui.vars a))) ∧
    Gui.get_item "applier_game_dir" c'
      = Some (Gui.JString (Gui.applier_game_dir (Gui.vars a))) ∧
    Gui.get_item "applier_patch_file" c'
      = Some (Gui.JString (Gui.applier_patch_file (Gui.vars a))) ∧
    (∃ ram, intvar_get (Gui.applier_ram_limit (Gui.vars a)) = Some ram ∧
            Gui.get_item "applier_ram_limit" c' = Some (Gui.JInt ram)) ∧
    Gui.get_item "theme" c' = None ∧
    Gui.get_item "font_scale" c'
      = Some (default (Gui.JFloat "1.0") (Gui.get_item "font_scale" (Gui.app_config a))).
Proof.
  intros Hnd. unfold Gui.on_closing.
  destruct (Gui.is_running_task a && negb yes); [done|].
  destruct (intvar_get _) as [ram|] eqn:Hram; [|done].
  set (c5 := Gui.set_item "applier_patch_file" _ _).
  set (c6 := Gui.set_item "applier_ram_limit" _ c5).
  set (c7 := if bool_decide _ then _ else _).
  destruct (write_file true m config_file (json_dump c7)) as [m1|e|] eqn:Hw; [|done..].
  intros [= <- <-] Hjson.
  apply write_then_read in Hw as Hread.
  assert (NoDup c6.*1) as Hnd6 by (unfold c6, c5; by repeat apply set_item_NoDup).
  assert (NoDup c7.*1) as Hnd7.
  { unfold c7. destruct (bool_decide _); [by apply del_item_NoDup|done]. }
  assert (∀ k, Gui.get_item k c7
               = if decide ("theme" = k) then None else Gui.get_item k c6) as Hc7.
  { intros k. unfold c7. destruct (bool_decide _) eqn:Hth.
    - by apply get_del_item.
    - destruct (decide ("theme" = k)) as [<-|]; [|done].
      apply bool_decide_eq_false in Hth.
      destruct (Gui.get_item "theme" c6); [|done]. by destruct Hth. }
  exists (Gui.update Gui.defaults c7). split.
  { unfold Gui.load_config. by rewrite (read_exists _ _ _ Hread), Hread, Hjson. }
  rewrite !get_update by done. rewrite !Hc7. unfold c6, c5. rewrite !get_set_item.
  cbn [decide]. split_and!; try done; [by exists ram|].
  unfold Gui.defaults. cbn [Gui.get_item].
  by destruct (Gui.get_item "font_scale" (Gui.app_config a)).
Qed.

End ClosingFacts.

(** * The window: buttons, queue and worker threads *)

Section WindowFacts.

Context (intvar_get : string → option Z) (str_of_exception : exc → string).

Implicit Types (a : Gui.app) (e : Gui.event) (events : list Gui.event) (msg : Gui.message)
  (msgs : list Gui.message).

Local Abbreviation start_task := (Gui.start_task intvar_get).
Local Abbreviation step := (Gui.step intvar_get).
Local Abbreviation run := (Gui.run intvar_get).
Local Abbreviation happen := (Gui.happen intvar_get str_of_exception).
Local Abbreviation puts := (foldl (λ a msg, Gui.put msg a)).

(** *** The buttons *)

Lemma handle_consistent a msg : Gui.consistent a → Gui.consistent (Gui.handle a msg).
Proof. by destruct msg. Qed.

Lemma handles_consistent msgs : ∀ a,
  Gui.consistent a → Gui.consistent (foldl Gui.handle a msgs).
Proof.
  induction msgs as [|msg msgs IH]; intros a Ha; [done|].
  cbn [foldl]. by apply IH, handle_consistent.
Qed.

Lemma process_log_queue_consistent a :
  Gui.consistent a → Gui.consistent (Gui.process_log_queue a).
Proof. intros Ha. unfold Gui.process_log_queue. by apply handles_consistent. Qed.

Lemma start_task_consistent a : Gui.consistent a → Gui.consistent (start_task a).1.
Proof.
  intros Ha. unfold Gui.start_task.
  destruct (Gui.is_running_task a); [done|].
  repeat case_match; done.
Qed.

Lemma step_consistent a e : Gui.consistent a → Gui.consistent (step a e).
Proof.
  intros Ha. destruct e as [|yes| |msg|title|v]; cbn [Gui.step]; try done.
  - destruct (Gui.start_btn a); [by apply start_task_consistent|done].
  - destruct (Gui.cancel_btn a); [|done]. unfold Gui.cancel_task.
    by destruct (Gui.is_running_task a && yes).
  - by apply process_log_queue_consistent.
Qed.

Lemma run_consistent events : ∀ a, Gui.consistent a → Gui.consistent (run a events).
Proof.
  induction events as [|e events IH]; intros a Ha; [done|].
  unfold Gui.run. cbn [foldl]. by apply IH, step_consistent.
Qed.

Lemma initial_consistent cfg v plugin_log : Gui.consistent (Gui.initial cfg v plugin_log).
Proof. unfold Gui.initial. by apply process_log_queue_consistent. Qed.

(** X18. Whatever happens to the window after [__init__], the buttons tell
    whether a task is running: Start and the path widgets are enabled
    exactly when [is_running_task] is off, Cancel exactly when it is on. *)
Theorem buttons_follow_the_task_flag cfg v plugin_log events :
  Gui.consistent (run (Gui.initial cfg v plugin_log) events).
Proof. apply run_consistent, initial_consistent. Qed.

(** *** A running task *)

Lemma handles_keep_running msgs : ∀ a,
  Gui.QFinished ∉ msgs →
  Gui.is_running_task (foldl Gui.handle a msgs) = Gui.is_running_task a ∧
  Gui.log_queue (foldl Gui.handle a msgs) = Gui.log_queue a.
Proof.
  induction msgs as [|msg msgs IH]; intros a Hfin; [done|].
  apply not_elem_of_cons in Hfin as [Hmsg Hfin]. cbn [foldl].
  destruct (IH (Gui.handle a msg) Hfin) as [-> ->]. by destruct msg.
Qed.

Lemma step_keeps_running a e :
  Gui.is_running_task a = true → Gui.QFinished ∉ Gui.log_queue a →
  e ≠ Gui.WorkerPut Gui.QFinished →
  Gui.is_running_task (step a e) = true ∧ Gui.QFinished ∉ Gui.log_queue (step a e).
Proof.
  intros Hrun Hq He. destruct e as [|yes| |msg|title|v]; cbn [Gui.step]; try done.
  - destruct (Gui.start_btn a); [|done]. unfold Gui.start_task. by rewrite Hrun.
  - destruct (Gui.cancel_btn a); [|done]. unfold Gui.cancel_task.
    by destruct (Gui.is_running_task a && yes).
  - unfold Gui.process_log_queue.
    destruct (handles_keep_running (Gui.log_queue a)
                (Gui.App (Gui.is_running_task a) (Gui.cancel_event a) (Gui.start_btn a)
                   (Gui.cancel_btn a) (Gui.path_widgets a) (Gui.status_label a)
                   (Gui.progress_value a) (Gui.progress_maximum a) (Gui.log_box a) []
                   (Gui.tab a) (Gui.vars a) (Gui.app_config a)) Hq) as [-> ->].
    split; [done|]. cbn. apply not_elem_of_nil.
  - cbn. split; [done|]. apply not_elem_of_app. split; [done|].
    intros H%list_elem_of_singleton. by subst.
Qed.

Lemma run_keeps_running events : ∀ a,
  Gui.is_running_task a = true → Gui.QFinished ∉ Gui.log_queue a →
  Gui.WorkerPut Gui.QFinished ∉ events →
  Gui.is_running_task (run a events) = true ∧ Gui.QFinished ∉ Gui.log_queue (run a events).
Proof.
  induction events as [|e events IH]; intros a Hrun Hq Hev; [done|].
  apply not_elem_of_cons in Hev as [He Hev]. unfold Gui.run. cbn [foldl].
  destruct (step_keeps_running a e Hrun Hq) as [Hrun' Hq']; [done|]. by apply IH.
Qed.

(** X19. A task that is running is ended by the message "finished" and by
    nothing else: as long as none is on the queue or put on it, no click,
    no edit and no run of [process_log_queue] turns [is_running_task]
    off. *)
Theorem only_finished_ends_a_task a events :
  Gui.is_running_task a = true → Gui.QFinished ∉ Gui.log_queue a →
  Gui.WorkerPut Gui.QFinished ∉ events →
  Gui.is_running_task (run a events) = true.
Proof. intros Hrun Hq Hev. by apply run_keeps_running. Qed.

(** X20. [start_task] on the tab "Apply Patch" reads the RAM limit after it has
    set [is_running_task] and disabled Start.  With a text that does not
    read as an integer (the empty text, which the validation of the field
    allows) the reading raises: no thread is started and nothing ends the
    task that never began - Start stays disabled, whatever the user does
    from then on. *)
Theorem unreadable_ram_limit_blocks_the_window a events :
  Gui.is_running_task a = false → Gui.tab a = "Apply Patch" →
  intvar_get (Gui.applier_ram_limit (Gui.vars a)) = None →
  Gui.QFinished ∉ Gui.log_queue a → Gui.WorkerPut Gui.QFinished ∉ events →
  (start_task a).2 = Gui.TclError ∧
  Gui.is_running_task (run (start_task a).1 events) = true ∧
  Gui.start_btn (run (start_task a).1 events) = false.
Proof.
  intros Hidle Htab Hram Hq Hev.
  assert ((start_task a).2 = Gui.TclError ∧ Gui.is_running_task (start_task a).1 = true ∧
          Gui.log_queue (start_task a).1 = Gui.log_queue a ∧
          Gui.consistent (start_task a).1) as (Hout & Hrun & Hqueue & Hcons).
  { unfold Gui.start_task. rewrite Hidle. cbn [Gui.tab Gui._toggle_ui_state Gui.vars].
    rewrite Htab. rewrite decide_False by done. rewrite decide_True by done.
    by rewrite Hram. }
  split; [done|].
  destruct (run_keeps_running events (start_task a).1) as [Hrun' _]; [done|by rewrite Hqueue|done|].
  split; [done|].
  destruct (run_consistent events _ Hcons) as (Hstart & _). by rewrite Hstart, Hrun'.
Qed.

(** *** The end of a task *)

Lemma process_puts a msgs :
  Gui.process_log_queue (puts a msgs)
  = foldl Gui.handle (Gui.process_log_queue a) msgs.
Proof.
  revert a. induction msgs as [|msg msgs IH]; intros a; [done|].
  cbn [foldl]. rewrite IH. f_equal.
  unfold Gui.process_log_queue, Gui.put. cbn. by rewrite foldl_app.
Qed.

Lemma last_messages f :
  ∃ line level, (Gui.run_task_in_thread str_of_exception f).1
                = [Gui.QLog line level; Gui.QFinished].
Proof. destruct f as [|[]]; by eexists _, _. Qed.

(** X21. However the function of the worker thread ends - it returns, it is
    cancelled, it raises - [run_task_in_thread] puts one line for the log
    and then "finished"; when [process_log_queue] has gone through them,
    the window is idle again: the flag is off, Start and the path widgets
    are enabled, Cancel is disabled, the status reads "Idle", the progress
    is 0 and the queue is empty.  The cancel event is left as it was. *)
Theorem task_end_resets_the_window f a :
  let a' := Gui.process_log_queue (puts a (Gui.run_task_in_thread str_of_exception f).1) in
  Gui.is_running_task a' = false ∧ Gui.start_btn a' = true ∧ Gui.cancel_btn a' = false ∧
  Gui.path_widgets a' = true ∧ Gui.status_label a' = "Idle" ∧ Gui.progress_value a' = 0 ∧
  Gui.log_queue a' = [] ∧ Gui.cancel_event a' = Gui.cancel_event a.
Proof.
  intros a'. unfold a'. rewrite process_puts.
  destruct (last_messages f) as (line & level & ->). cbn [foldl Gui.handle].
  assert (∀ msgs b, Gui.log_queue (foldl Gui.handle b msgs) = Gui.log_queue b ∧
                    Gui.cancel_event (foldl Gui.handle b msgs) = Gui.cancel_event b) as Hkeep.
  { induction msgs as [|msg msgs IH]; intros b; [done|]. cbn [foldl].
    destruct (IH (Gui.handle b msg)) as [-> ->]. by destruct msg. }
  unfold Gui.process_log_queue. cbn.
  by destruct (Hkeep (Gui.log_queue a)
                 (Gui.App (Gui.is_running_task a) (Gui.cancel_event a) (Gui.start_btn a)
                    (Gui.cancel_btn a) (Gui.path_widgets a) (Gui.status_label a)
                    (Gui.progress_value a) (Gui.progress_maximum a) (Gui.log_box a) []
                    (Gui.tab a) (Gui.vars a) (Gui.app_config a))) as [-> ->].
Qed.

(** *** One task at a time *)

Lemma puts_fields msgs : ∀ a,
  Gui.is_running_task (puts a msgs) = Gui.is_running_task a ∧
  Gui.log_queue (puts a msgs) = Gui.log_queue a ++ msgs.
Proof.
  induction msgs as [|msg msgs IH]; intros a; [by rewrite app_nil_r|].
  cbn [foldl]. destruct (IH (Gui.put msg a)) as [-> ->]. cbn.
  by rewrite <-app_assoc.
Qed.

Lemma handles_idle msgs : ∀ a,
  Gui.log_queue a = [] → Gui.log_queue (foldl Gui.handle a msgs) = [].
Proof.
  induction msgs as [|msg msgs IH]; intros a Ha; [done|].
  cbn [foldl]. apply IH. by destruct msg.
Qed.

Lemma happen_invariant w h :
  h ≠ Gui.Ui (Gui.WorkerPut Gui.QFinished) →
  (w.2 = 0 ∧ (Gui.is_running_task w.1 = false → Gui.QFinished ∉ Gui.log_queue w.1)
   ∨ w.2 = 1 ∧ Gui.is_running_task w.1 = true ∧ Gui.QFinished ∉ Gui.log_queue w.1) →
  ((happen w h).2 = 0 ∧
   (Gui.is_running_task (happen w h).1 = false →
    Gui.QFinished ∉ Gui.log_queue (happen w h).1)
   ∨ (happen w h).2 = 1 ∧ Gui.is_running_task (happen w h).1 = true ∧
     Gui.QFinished ∉ Gui.log_queue (happen w h).1).
Proof.
  destruct w as [a n]. cbn [fst snd]. intros Hh Hinv.
  destruct h as [e|f].
  - destruct (decide (e = Gui.ClickStart)) as [->|Hstart].
    + cbn [Gui.happen fst snd]. destruct (Gui.start_btn a); [|done].
      unfold Gui.start_task.
      destruct (Gui.is_running_task a) eqn:Hrun; [cbn [fst snd]; by rewrite ?Hrun|].
      destruct Hinv as [[-> Hq]|(_ & ? & _)]; [|done]. specialize (Hq eq_refl).
      repeat case_match; simplify_eq; cbn; first [by left|by right].
    + assert (happen (a, n) (Gui.Ui e) = (step a e, n)) as -> by by destruct e.
      cbn [fst snd].
      destruct Hinv as [[-> Hq]|(-> & Hrun & Hq)].
      * left. split; [done|].
        destruct e as [|yes| |msg|title|v]; cbn [Gui.step]; try done.
        -- destruct (Gui.cancel_btn a); [|done]. unfold Gui.cancel_task.
           by destruct (Gui.is_running_task a && yes).
        -- intros _. unfold Gui.process_log_queue.
           rewrite handles_idle; [apply not_elem_of_nil|done].
        -- cbn. intros Hidle. apply not_elem_of_app. split; [by apply Hq|].
           intros H%list_elem_of_singleton. by subst.
      * right. split; [done|]. apply step_keeps_running; [done..|]. congruence.
  - cbn [Gui.happen fst snd].
    destruct Hinv as [[-> Hq]|(-> & Hrun & Hq)]; [by left|].
    cbn [fst snd]. left. split; [done|].
    destruct (puts_fields (Gui.run_task_in_thread str_of_exception f).1 a) as [-> _].
    by rewrite Hrun.
Qed.

(** X22. No two tasks run at the same time.  From the window as [__init__]
    leaves it, whatever the user does and whenever the worker threads end
    (the message "finished" being put by the end of [run_task_in_thread]
    only), at most one worker thread is alive, and while it is,
    [is_running_task] is on. *)
Theorem one_task_at_a_time cfg v plugin_log (hs : list Gui.happening) :
  Gui.Ui (Gui.WorkerPut Gui.QFinished) ∉ hs →
  let w := foldl happen (Gui.initial cfg v plugin_log, 0) hs in
  w.2 ≤ 1 ∧ (w.2 = 1 → Gui.is_running_task w.1 = true).
Proof.
  intros Hhs w.
  assert (w.2 = 0 ∧ (Gui.is_running_task w.1 = false → Gui.QFinished ∉ Gui.log_queue w.1)
          ∨ w.2 = 1 ∧ Gui.is_running_task w.1 = true ∧ Gui.QFinished ∉ Gui.log_queue w.1)
    as Hinv.
  { unfold w. clear w.
    assert (Gui.log_queue (Gui.initial cfg v plugin_log) = []) as Hq0.
    { unfold Gui.initial, Gui.process_log_queue. by apply handles_idle. }
    generalize dependent (Gui.initial cfg v plugin_log). intros a0 Hq0.
    assert ((a0, 0).2 = 0 ∧
            (Gui.is_running_task (a0, 0).1 = false → Gui.QFinished ∉ Gui.log_queue (a0, 0).1)
            ∨ (a0, 0).2 = 1 ∧ Gui.is_running_task (a0, 0).1 = true ∧
              Gui.QFinished ∉ Gui.log_queue (a0, 0).1) as H0.
    { left. split; [done|]. intros _. cbn. rewrite Hq0. apply not_elem_of_nil. }
    generalize dependent (a0, 0). clear a0 Hq0. intros w0.
    revert w0. induction hs as [|h hs IH]; intros w0 H0; [done|].
    apply not_elem_of_cons in Hhs as [Hh Hhs]. cbn [foldl].
    apply IH; [done|]. by apply happen_invariant. }
  destruct Hinv as [[-> _]|(-> & ? & _)]; split; (lia || done).
Qed.

End WindowFacts.

(** * The scratch directories in the working directory *)

Section ScratchFacts.

Implicit Types (m t : fs) (p q cwd par : path) (c : string).

Lemma lookup_rmtree_of m p q :
  Whole.rmtree_of m p !! q = if decide (p `prefix_of` q) then None else m !! q.
Proof.
  unfold Whole.rmtree_of. apply option_eq. intros n.
  rewrite map_lookup_filter_Some. cbn [fst].
  destruct (decide (p `prefix_of` q)) as [Hp|Hp]; [|tauto].
  split; [by intros [_ ?]|done].
Qed.

Lemma rmtree_of_same_outside p m m' :
  same_outside p m m' → Whole.rmtree_of m' p = Whole.rmtree_of m p.
Proof.
  intros Hsame. apply map_eq. intros q. rewrite !lookup_rmtree_of.
  destruct (decide (p `prefix_of` q)); [done|]. by apply Hsame.
Qed.

Lemma same_outside_rmtree_of p m : same_outside p m (Whole.rmtree_of m p).
Proof. intros q Hq. rewrite lookup_rmtree_of. by rewrite decide_False. Qed.

Lemma same_outside_insert_at p k n m :
  p `prefix_of` k → same_outside p m (<[k := n]> m).
Proof. intros Hk q Hq. rewrite lookup_insert_ne; [done|]. by intros ->. Qed.

(** Walking a path without ".." looks at the directories above it and at
    nothing else. *)
Lemma walk_plain_agree rooted m m' cs : ∀ cur,
  ".." ∉ cs →
  (∀ k1 k2, cs = k1 ++ k2 → k2 ≠ [] → m' !! (cur ++ k1) = m !! (cur ++ k1)) →
  walk rooted m' cur cs = walk rooted m cur cs.
Proof.
  induction cs as [|c cs IH]; intros cur Hcs Hsame; [done|].
  apply not_elem_of_cons in Hcs as [Hc Hcs]. cbn [walk].
  pose proof (Hsame [] (c :: cs) eq_refl) as Hcur. rewrite app_nil_r in Hcur.
  rewrite Hcur by done. destruct (m !! cur) as [[d|]|]; [done| |done].
  destruct (decide (c = "..")) as [->|_]; [by destruct Hc|]. apply IH; [done|].
  intros k1 k2 -> Hk2. rewrite <-!app_assoc. by apply (Hsame (c :: k1) k2).
Qed.

Lemma snoc_not_prefix_of_prefix par c k : k `prefix_of` par → ¬ (par ++ [c]) `prefix_of` k.
Proof.
  intros [k1 ->] [k2 Hk]. apply (f_equal length) in Hk.
  rewrite !length_app in Hk. simpl in Hk. lia.
Qed.

Lemma dir_at_same_above m m' par c :
  same_outside (par ++ [c]) m m' → dir_at true m par → dir_at true m' par.
Proof.
  intros Hsame [Hw Hd].
  assert (".." ∉ par) as Hplain by (by eapply (walk_no_dotdot true m []); [apply not_elem_of_nil|]).
  split.
  - rewrite <-Hw. apply walk_plain_agree; [done|]. intros k1 k2 -> Hk2. cbn [app].
    apply Hsame. apply snoc_not_prefix_of_prefix. by exists k2.
  - rewrite Hsame; [done|]. by apply snoc_not_prefix_of_prefix.
Qed.

(** [Path.mkdir] of a new entry of a directory in place. *)
Lemma os_mkdir_child m par c :
  dir_at true m par → c ≠ ".." →
  os_mkdir true m (par ++ [c])
  = match m !! (par ++ [c]) with
    | Some _ => Raise FileExistsError
    | None => Ok (<[par ++ [c] := Dir]> m)
    end.
Proof. intros Hd Hc. unfold os_mkdir. by rewrite walk_child. Qed.

Lemma insert_dir_dir_at m par c :
  dir_at true m par → c ≠ ".." → m !! (par ++ [c]) = None →
  dir_at true (<[par ++ [c] := Dir]> m) (par ++ [c]).
Proof.
  intros Hd Hc Hnone.
  assert (dirs_kept m (<[par ++ [c] := Dir]> m)) as Hk.
  { intros q Hq. rewrite lookup_insert_ne; [done|]. intros <-. congruence. }
  split; [|by rewrite lookup_insert_eq].
  apply walk_child; [|done]. by eapply dir_at_mono.
Qed.

Lemma mkdir_exist_ok_child m par c :
  dir_at true m par → c ≠ ".." → (∀ d, m !! (par ++ [c]) ≠ Some (File d)) →
  ∃ m', Whole.mkdir_exist_ok m (par ++ [c]) = (Ok (), m') ∧
        dir_at true m' (par ++ [c]) ∧ (∀ q, q ≠ par ++ [c] → m' !! q = m !! q) ∧
        dirs_kept m m'.
Proof.
  intros Hd Hc Hfile. unfold Whole.mkdir_exist_ok. rewrite os_mkdir_child by done.
  destruct (m !! (par ++ [c])) as [[d|]|] eqn:Hp.
  - by destruct (Hfile d).
  - unfold exist_ok. rewrite is_dir_child, Hp by done.
    rewrite bool_decide_eq_true_2 by done. exists m. split_and!; [done| |done|apply dirs_kept_refl].
    split; [by apply walk_child|done].
  - eexists. split_and!; [done|by apply insert_dir_dir_at| |].
    + intros q Hq. by rewrite lookup_insert_ne.
    + intros q Hq. rewrite lookup_insert_ne; [done|]. intros <-. congruence.
Qed.

Lemma mkdir_parents_child m par c :
  dir_at true m par → c ≠ ".." → (∀ d, m !! (par ++ [c]) ≠ Some (File d)) →
  ∃ m', mkdir_parents true m (par ++ [c]) = (Ok (), m') ∧
        dir_at true m' (par ++ [c]) ∧ (∀ q, q ≠ par ++ [c] → m' !! q = m !! q) ∧
        dirs_kept m m'.
Proof.
  intros Hd Hc Hfile.
  destruct (m !! (par ++ [c])) as [[d|]|] eqn:Hp.
  - by destruct (Hfile d).
  - exists m.
    assert (dir_at true m (par ++ [c])) as Hdir by (split; [by apply walk_child|done]).
    split_and!; [by apply mkdir_parents_existing|done|done|apply dirs_kept_refl].
  - exists (<[par ++ [c] := Dir]> m).
    split_and!; [|by apply insert_dir_dir_at| |].
    + unfold mkdir_parents. rewrite rev_app_distr. cbn [rev app]. cbn [mkdir_p].
      cbn [rev]. rewrite rev_involutive. by rewrite os_mkdir_child, Hp.
    + intros q Hq. by rewrite lookup_insert_ne.
    + intros q Hq. rewrite lookup_insert_ne; [done|]. intros <-. congruence.
Qed.

Lemma same_outside_except p m m' :
  (∀ q, q ≠ p → m' !! q = m !! q) → same_outside p m m'.
Proof. intros H q Hq. apply H. by intros ->. Qed.

(** [if patch_tmp.exists(): shutil.rmtree(patch_tmp)] for an entry of the
    working directory. *)
Lemma remove_stale_child m cwd c :
  dir_at true m cwd → c ≠ ".." →
  Whole.remove_stale m (cwd ++ [c])
  = match m !! (cwd ++ [c]) with
    | Some Dir => Ok (Whole.rmtree_of m (cwd ++ [c]))
    | Some (File _) => Raise NotADirectoryError
    | None => Ok m
    end.
Proof.
  intros Hd Hc. unfold Whole.remove_stale. rewrite path_exists_child by done.
  cbn [mbind res_bind].
  destruct (m !! (cwd ++ [c])) as [n|] eqn:Hp.
  - rewrite bool_decide_eq_true_2 by eauto. unfold Whole.shutil_rmtree.
    rewrite walk_child by done. cbn [mbind res_bind]. by rewrite Hp.
  - rewrite bool_decide_eq_false_2; [done|]. by intros [??].
Qed.

Lemma tree_shaped_below m p q :
  tree_shaped m → m !! p = None → p `prefix_of` q → m !! q = None.
Proof.
  intros Hshape Hp [k ->]. induction k as [|c k IH] using rev_ind.
  - by rewrite app_nil_r.
  - destruct (m !! (p ++ k ++ [c])) as [n|] eqn:Hq; [|done].
    rewrite app_assoc in Hq. apply Hshape in Hq. congruence.
Qed.

Lemma remove_stale_ready m cwd c :
  dir_at true m cwd → c ≠ ".." → (∀ d, m !! (cwd ++ [c]) ≠ Some (File d)) →
  ∃ m1, Whole.remove_stale m (cwd ++ [c]) = Ok m1 ∧ m1 !! (cwd ++ [c]) = None ∧
        dir_at true m1 cwd ∧ same_outside (cwd ++ [c]) m m1 ∧
        (tree_shaped m → ∀ q, (cwd ++ [c]) `prefix_of` q → m1 !! q = None).
Proof.
  intros Hd Hc Hfile. rewrite remove_stale_child by done.
  destruct (m !! (cwd ++ [c])) as [[d|]|] eqn:Hp.
  - by destruct (Hfile d).
  - exists (Whole.rmtree_of m (cwd ++ [c])). split_and!; [done| | | |].
    + rewrite lookup_rmtree_of. by rewrite decide_True.
    + eapply dir_at_same_above; [apply same_outside_rmtree_of|done].
    + apply same_outside_rmtree_of.
    + intros _ q Hq. rewrite lookup_rmtree_of. by rewrite decide_True.
  - exists m. split_and!; [done..|]. intros Hshape q Hq. by eapply tree_shaped_below.
Qed.

(** The scratch directory of [create_patch] is ready when the [try] block
    is entered, and nothing else has changed. *)
Lemma scratch_for_create_ready m cwd :
  dir_at true m cwd → (∀ d, m !! (cwd ++ ["patch_tmp_creator"]) ≠ Some (File d)) →
  Whole.scratch_for_create m (cwd ++ ["patch_tmp_creator"])
    = (Ok (), Whole.entered_create cwd m) ∧
  dir_at true (Whole.entered_create cwd m) (cwd ++ ["patch_tmp_creator"]) ∧
  same_outside (cwd ++ ["patch_tmp_creator"]) m (Whole.entered_create cwd m).
Proof.
  intros Hd Hfile. unfold Whole.entered_create, Whole.scratch_for_create.
  destruct (remove_stale_ready m cwd "patch_tmp_creator" Hd)
    as (m1 & -> & Hnone & Hd1 & Hs1 & _); [done..|].
  destruct (mkdir_exist_ok_child m1 cwd "patch_tmp_creator" Hd1)
    as (m2 & -> & Hd2 & Hs2 & _); [done|by rewrite Hnone|].
  cbn [snd]. split_and!; [done..|].
  eapply same_outside_trans; [done|by apply same_outside_except].
Qed.

(** The same for [apply_patch], with the [rollback] directory. *)
Lemma scratch_for_apply_ready t cwd :
  dir_at true t cwd → tree_shaped t →
  (∀ d, t !! (cwd ++ ["patch_tmp_applier"]) ≠ Some (File d)) →
  Whole.scratch_for_apply t (cwd ++ ["patch_tmp_applier"])
    = (Ok (), Whole.entered_apply cwd t) ∧
  dir_at true (Whole.entered_apply cwd t) (cwd ++ ["patch_tmp_applier"]) ∧
  same_outside (cwd ++ ["patch_tmp_applier"]) t (Whole.entered_apply cwd t).
Proof.
  intros Hd Hshape Hfile. unfold Whole.entered_apply, Whole.scratch_for_apply.
  destruct (remove_stale_ready t cwd "patch_tmp_applier" Hd)
    as (t1 & -> & Hnone & Hd1 & Hs1 & Hbelow); [done..|].
  specialize (Hbelow Hshape).
  destruct (mkdir_parents_child t1 cwd "patch_tmp_applier" Hd1)
    as (t2 & -> & Hd2 & Hs2 & Hk2); [done|by rewrite Hnone|].
  set (p := cwd ++ ["patch_tmp_applier"]) in *.
  assert (p ++ ["rollback"] ≠ p) as Hne.
  { intros H%(f_equal length). rewrite length_app in H. simpl in H. lia. }
  assert (t2 !! (p ++ ["rollback"]) = None) as Hrb.
  { rewrite Hs2 by done. apply Hbelow. by exists ["rollback"]. }
  destruct (mkdir_exist_ok_child t2 p "rollback" Hd2)
    as (t3 & -> & Hd3 & Hs3 & Hk3); [done|by rewrite Hrb|].
  cbn [snd]. split_and!; [done|by eapply dir_at_mono|].
  eapply same_outside_trans; [done|].
  eapply same_outside_trans; [by apply same_outside_except|].
  intros q Hq. apply Hs3. intros ->. apply Hq. by exists ["rollback"].
Qed.

(** Whatever comes of lines 163-166, they change nothing outside of the
    scratch directory. *)
Lemma scratch_for_apply_outside t cwd c o t1 :
  dir_at true t cwd → c ≠ ".." →
  Whole.scratch_for_apply t (cwd ++ [c]) = (o, t1) →
  same_outside (cwd ++ [c]) t t1 ∧ (o = Ok () → dir_at true t1 (cwd ++ [c])).
Proof.
  intros Hd Hc. unfold Whole.scratch_for_apply. rewrite remove_stale_child by done.
  assert (∀ m1, m1 !! (cwd ++ [c]) = None → dir_at true m1 cwd →
                same_outside (cwd ++ [c]) t m1 →
                match mkdir_parents true m1 (cwd ++ [c]) with
                | (Ok _, t2) => Whole.mkdir_exist_ok t2 ((cwd ++ [c]) ++ ["rollback"])
                | failed => failed
                end = (o, t1) →
                same_outside (cwd ++ [c]) t t1 ∧ (o = Ok () → dir_at true t1 (cwd ++ [c])))
    as Hrest.
  { intros m1 Hnone Hd1 Hs1.
    destruct (mkdir_parents_child m1 cwd c Hd1 Hc) as (t2 & -> & Hd2 & Hs2 & Hk2);
      [by rewrite Hnone|].
    assert (same_outside (cwd ++ [c]) t t2) as Hs.
    { eapply same_outside_trans; [done|by apply same_outside_except]. }
    unfold Whole.mkdir_exist_ok. rewrite os_mkdir_child by done.
    destruct (t2 !! ((cwd ++ [c]) ++ ["rollback"])) as [n|] eqn:Hrb.
    - intros Hex. apply exist_ok_same in Hex as ->. by split.
    - intros [= <- <-]. split.
      + eapply same_outside_trans; [done|]. apply same_outside_insert_at.
        by exists ["rollback"].
      + intros _. eapply dir_at_mono; [|done]. intros q Hq.
        rewrite lookup_insert_ne; [done|]. intros <-. congruence. }
  destruct (t !! (cwd ++ [c])) as [[d|]|] eqn:Hp.
  - intros [= <- <-]. split; [by intros q|done].
  - apply Hrest.
    + rewrite lookup_rmtree_of. by rewrite decide_True.
    + eapply dir_at_same_above; [apply same_outside_rmtree_of|done].
    + apply same_outside_rmtree_of.
  - apply Hrest; [done..|by intros q].
Qed.

(** [shutil.rmtree(patch_tmp, ignore_errors=True)] of a directory that is
    in place. *)
Lemma rmtree_ignore_errors_dir m p :
  dir_at true m p → Whole.rmtree_ignore_errors m p = Whole.rmtree_of m p.
Proof.
  intros [Hw Hd]. unfold Whole.rmtree_ignore_errors, Whole.shutil_rmtree.
  rewrite Hw. cbn [mbind res_bind]. by rewrite Hd.
Qed.

(** What the last line leaves, for a [try] block that changed nothing
    outside of the scratch directory. *)
Lemma scratch_gone m m2 p :
  dir_at true m2 p → same_outside p m m2 →
  Whole.rmtree_ignore_errors m2 p = Whole.rmtree_of m p.
Proof.
  intros Hd Hs. rewrite rmtree_ignore_errors_dir by done. by apply rmtree_of_same_outside.
Qed.

End ScratchFacts.

(** * The cancel event and the unchanged files in [create_patch] *)

Section CreateLoops.

Context (sha256_hexdigest : string → string)
        (detools_create_patch : string → string → string).

Implicit Types (m : fs) (rel old_dir new_dir : path) (st : creator) (c : nat → bool).

Local Abbreviation new_files_loop := (new_files_loop sha256_hexdigest detools_create_patch).

(** The loops look at the cancel event at the indices of their files and
    nowhere else. *)
Lemma new_files_loop_ext c1 c2 m old_dir new_dir files : ∀ i st,
  (∀ k, i ≤ k < i + length files → c1 k = c2 k) →
  new_files_loop c1 m old_dir new_dir i files st
  = new_files_loop c2 m old_dir new_dir i files st.
Proof.
  induction files as [|rel files IH]; intros i st Hsame; [done|].
  cbn [Model.new_files_loop]. unfold _check_cancel.
  rewrite (Hsame i) by (cbn [length]; lia).
  destruct (c2 i); [done|]. cbn [mbind res_bind].
  destruct (new_file_step _ _ m old_dir new_dir rel st) as [st'| |]; [|done..].
  cbn [mbind res_bind]. apply IH. intros k Hk. apply Hsame. cbn [length]. lia.
Qed.

Lemma old_files_loop_ext c1 c2 m new_dir files : ∀ i st,
  (∀ k, i ≤ k < i + length files → c1 k = c2 k) →
  old_files_loop c1 m new_dir i files st = old_files_loop c2 m new_dir i files st.
Proof.
  induction files as [|rel files IH]; intros i st Hsame; [done|].
  cbn [Model.old_files_loop]. unfold _check_cancel.
  rewrite (Hsame i) by (cbn [length]; lia).
  destruct (c2 i); [done|]. cbn [mbind res_bind].
  destruct (old_file_step m new_dir rel st) as [st'| |]; [|done..].
  cbn [mbind res_bind]. apply IH. intros k Hk. apply Hsame. cbn [length]. lia.
Qed.

(** A loop that finds the event set at one of its indices does not come
    to its end. *)
Lemma new_files_loop_cancelled c m old_dir new_dir files : ∀ i st k st',
  i ≤ k < i + length files → c k = true →
  new_files_loop c m old_dir new_dir i files st ≠ Ok st'.
Proof.
  induction files as [|rel files IH]; intros i st k st' Hk Hc; [cbn [length] in Hk; lia|].
  cbn [Model.new_files_loop]. unfold _check_cancel.
  destruct (c i) eqn:Hi; [done|]. cbn [mbind res_bind].
  destruct (new_file_step _ _ m old_dir new_dir rel st) as [st1| |]; [|done..].
  cbn [mbind res_bind]. apply (IH _ _ k); [|done].
  cbn [length] in Hk. assert (k ≠ i) by congruence. lia.
Qed.

Lemma old_files_loop_cancelled c m new_dir files : ∀ i st k st',
  i ≤ k < i + length files → c k = true →
  old_files_loop c m new_dir i files st ≠ Ok st'.
Proof.
  induction files as [|rel files IH]; intros i st k st' Hk Hc; [cbn [length] in Hk; lia|].
  cbn [Model.old_files_loop]. unfold _check_cancel.
  destruct (c i) eqn:Hi; [done|]. cbn [mbind res_bind].
  destruct (old_file_step m new_dir rel st) as [st1| |]; [|done..].
  cbn [mbind res_bind]. apply (IH _ _ k); [|done].
  cbn [length] in Hk. assert (k ≠ i) by congruence. lia.
Qed.

End CreateLoops.

Section CreateWhole.

Context (sha256_hexdigest : string → string)
        (detools_create_patch : string → string → string)
        (archive_bytes : manifest → gmap string string → string)
        (scandir_order : list path → list path)
        (cancelled : nat → bool).

Implicit Types (m : fs) (rel old_dir new_dir cwd : path) (st : creator).

Local Abbreviation build_patch_tmp_with :=
  (build_patch_tmp sha256_hexdigest detools_create_patch scandir_order).
Local Abbreviation create_patch :=
  (create_patch sha256_hexdigest detools_create_patch archive_bytes scandir_order cancelled).
Local Abbreviation whole_with :=
  (Whole.create_patch sha256_hexdigest detools_create_patch archive_bytes scandir_order).

Hypothesis scandir_perm : ∀ l, scandir_order l ≡ₚ l.

Lemma build_patch_tmp_ext c1 c2 m old_dir new_dir :
  (∀ k, k < length (files_under true m new_dir) + length (files_under true m old_dir) →
        c1 k = c2 k) →
  build_patch_tmp_with c1 m old_dir new_dir = build_patch_tmp_with c2 m old_dir new_dir.
Proof.
  intros Hsame. unfold Model.build_patch_tmp.
  pose proof (Permutation_length (scandir_perm (files_under true m new_dir))) as Hn.
  pose proof (Permutation_length (scandir_perm (files_under true m old_dir))) as Ho.
  rewrite (new_files_loop_ext _ _ c1 c2) by (intros k Hk; apply Hsame; lia).
  destruct (Model.new_files_loop _ _ c2 m old_dir new_dir 0 _ _) as [st| |]; [|done..].
  cbn [mbind res_bind]. apply old_files_loop_ext. intros k Hk. apply Hsame. lia.
Qed.

Lemma build_patch_tmp_cancelled c m old_dir new_dir k st :
  k < length (files_under true m new_dir) + length (files_under true m old_dir) →
  c k = true → build_patch_tmp_with c m old_dir new_dir ≠ Ok st.
Proof.
  intros Hk Hc. unfold Model.build_patch_tmp.
  pose proof (Permutation_length (scandir_perm (files_under true m new_dir))) as Hn.
  pose proof (Permutation_length (scandir_perm (files_under true m old_dir))) as Ho.
  destruct (Model.new_files_loop _ _ c m old_dir new_dir 0 _ _) as [st1| |] eqn:Hnew;
    [|done..].
  cbn [mbind res_bind].
  destruct (decide (k < length (scandir_order (files_under true m new_dir)))) as [Hlt|Hge].
  - by eapply new_files_loop_cancelled in Hnew; [|split; [lia|exact Hlt]|].
  - apply (old_files_loop_cancelled _ _ _ _ _ _ k); [lia|done].
Qed.

(** X3. [create_patch] looks at the cancel event once for every file of
    the two trees, before the file is processed, and at no other moment:
    with [n] files in the two trees when the loops start, the run depends
    on the event at the checks 0 to [n - 1] only; an event that is set at
    one of them keeps the run from returning, and nothing is written; set
    at the first check, it makes the run raise [InterruptedError].  In
    these cases the filesystem is left as it was, except that nothing is
    at "patch_tmp_creator" in the working directory any more. *)
Theorem cancel_is_checked_per_file cwd write_fault old_dir new_dir patch_package m :
  dir_at true m cwd → (∀ d, m !! (cwd ++ ["patch_tmp_creator"]) ≠ Some (File d)) →
  let m1 := Whole.entered_create cwd m in
  let n := length (files_under true m1 new_dir) + length (files_under true m1 old_dir) in
  (∀ cancelled', (∀ i, i < n → cancelled' i = cancelled i) →
     whole_with cancelled' cwd write_fault old_dir new_dir patch_package m
     = whole_with cancelled cwd write_fault old_dir new_dir patch_package m) ∧
  (∀ k, k < n → cancelled k = true →
     (whole_with cancelled cwd write_fault old_dir new_dir patch_package m).1 ≠ Ok () ∧
     (whole_with cancelled cwd write_fault old_dir new_dir patch_package m).2
     = Whole.rmtree_of m (cwd ++ ["patch_tmp_creator"])) ∧
  (0 < n → cancelled 0 = true →
     whole_with cancelled cwd write_fault old_dir new_dir patch_package m
     = (Raise InterruptedError, Whole.rmtree_of m (cwd ++ ["patch_tmp_creator"]))).
Proof.
  intros Hcwd Hfile m1 n.
  destruct (scratch_for_create_ready m cwd Hcwd Hfile) as (Hready & Hdir & Hsame).
  fold m1 in Hready, Hdir, Hsame.
  assert (∀ k, k < n → cancelled k = true →
            ∃ o, o ≠ Ok () ∧
                 Model.create_patch sha256_hexdigest detools_create_patch archive_bytes
                   scandir_order cancelled write_fault old_dir new_dir patch_package m1
                 = (o, m1)) as Hstop.
  { intros k Hk Hc. unfold Model.create_patch.
    destruct (build_patch_tmp_with cancelled m1 old_dir new_dir) as [st|e|] eqn:Hb.
    - by apply build_patch_tmp_cancelled with (k := k) in Hb.
    - by exists (Raise e).
    - by exists Astray. }
  split_and!.
  - intros c2 Hagree. unfold Whole.create_patch. rewrite Hready. unfold Model.create_patch.
    by rewrite (build_patch_tmp_ext c2 cancelled).
  - intros k Hk Hc. destruct (Hstop k Hk Hc) as (o & Ho & Hrun).
    unfold Whole.create_patch. rewrite Hready, Hrun. cbn [fst snd].
    split; [done|]. by apply scratch_gone.
  - intros Hn Hc. unfold Whole.create_patch. rewrite Hready.
    assert (Model.create_patch sha256_hexdigest detools_create_patch archive_bytes
              scandir_order cancelled write_fault old_dir new_dir patch_package m1
            = (Raise InterruptedError, m1)) as ->.
    { unfold Model.create_patch, Model.build_patch_tmp.
      pose proof (Permutation_length (scandir_perm (files_under true m1 new_dir))) as Hln.
      pose proof (Permutation_length (scandir_perm (files_under true m1 old_dir))) as Hlo.
      destruct (scandir_order (files_under true m1 new_dir)) as [|a l].
      - destruct (scandir_order (files_under true m1 old_dir)) as [|a l].
        + unfold n in Hn. rewrite <-Hln, <-Hlo in Hn. cbn [length] in Hn. lia.
        + cbn [Model.new_files_loop mbind res_bind length Model.old_files_loop].
          unfold _check_cancel. by rewrite Hc.
      - cbn [Model.new_files_loop]. unfold _check_cancel. by rewrite Hc. }
    cbn [fst snd]. f_equal. by apply scratch_gone.
Qed.


End CreateWhole.

(** * The whole of [apply_patch]: early stops, the cancel event, the
      directories *)

Section ApplyLoops.

Context (detools_apply_patch : string → string → string + string).

Implicit Types (game : path) (es : list (string * string)) (s : state) (c : nat → bool).

Local Abbreviation apply_entries := (apply_entries detools_apply_patch).

(** The loop looks at the cancel event at the indices of its patch files
    and nowhere else. *)
Lemma apply_entries_ext c1 c2 game es : ∀ i s,
  (∀ k, i ≤ k < i + length es → c1 k = c2 k) →
  apply_entries c1 game i es s = apply_entries c2 game i es s.
Proof.
  induction es as [|[name data] es IH]; intros i s Hsame; [done|].
  rewrite !apply_entries_cons. rewrite (Hsame i) by (cbn [length]; lia).
  destruct (c2 i); [done|].
  destruct (apply_entry detools_apply_patch game name data s) as [[[]|e|] s1]; [|done..].
  apply IH. intros k Hk. apply Hsame. cbn [length]. lia.
Qed.

(** A loop that finds the event set at one of its indices does not come
    to its end. *)
Lemma apply_entries_cancelled c game es : ∀ i s k,
  i ≤ k < i + length es → c k = true → (apply_entries c game i es s).1 ≠ Ok ().
Proof.
  induction es as [|[name data] es IH]; intros i s k Hk Hc; [cbn [length] in Hk; lia|].
  rewrite apply_entries_cons. destruct (c i) eqn:Hi; [done|].
  destruct (apply_entry detools_apply_patch game name data s) as [[[]|e|] s1]; [|done..].
  apply (IH _ _ k); [|done]. cbn [length] in Hk. assert (k ≠ i) by congruence. lia.
Qed.

End ApplyLoops.

Section ApplyWhole.

Context (sha256_hexdigest : string → string)
        (detools_apply_patch : string → string → string + string)
        (extract_archive : nat → string → res extraction)
        (scandir_order : list path → list path)
        (cancelled : nat → bool)
        (zstd_decompressor : nat → option exc).

Implicit Types (t : fs) (game cwd patch_package : path) (s : state).

Local Abbreviation try_body_with :=
  (try_body sha256_hexdigest detools_apply_patch extract_archive).
Local Abbreviation apply_patch_with :=
  (Model.apply_patch sha256_hexdigest detools_apply_patch extract_archive scandir_order).
Local Abbreviation whole_with :=
  (λ c, Whole.apply_patch sha256_hexdigest detools_apply_patch extract_archive scandir_order
          c zstd_decompressor).
Local Abbreviation whole := (whole_with cancelled).
Local Abbreviation scratch := (λ cwd : path, cwd ++ ["patch_tmp_applier"]).

(** X11. However [apply_patch] ends - normally, with an exception, after
    a rollback - every directory of the filesystem before the run that
    does not lie at or below "patch_tmp_applier" in the working directory
    is a directory after it: outside of its scratch directory, no call of
    the run removes a directory or puts a file in its place.  This is for
    the runs that do not step out of the [rollback] directory through
    "..". *)
Theorem apply_patch_keeps_directories cwd game patch_package ram t0 out t' :
  dir_at true t0 cwd →
  whole cwd game patch_package ram t0 = (out, t') → out ≠ Astray →
  ∀ q, ¬ scratch cwd `prefix_of` q → t0 !! q = Some Dir → t' !! q = Some Dir.
Proof.
  intros Hcwd Hrun _ q Hq Hdir. revert Hrun. unfold Whole.apply_patch.
  destruct (Whole.scratch_for_apply t0 (scratch cwd)) as [o1 t1] eqn:Hsetup.
  destruct (scratch_for_apply_outside t0 cwd "patch_tmp_applier" o1 t1 Hcwd) as [Hs1 Hd1];
    [done..|].
  destruct o1 as [[]|e|]; [|intros [= _ <-]; by rewrite Hs1..].
  specialize (Hd1 eq_refl).
  assert (∃ o2 t2,
            match zstd_decompressor ram with
            | Some e => (Raise e, t1)
            | None => apply_patch_with cancelled game patch_package ram t1
            end = (o2, t2) ∧ dirs_kept t1 t2) as (o2 & t2 & -> & Hk).
  { destruct (zstd_decompressor ram) as [e|].
    - eexists _, _. split; [done|]. apply dirs_kept_refl.
    - destruct (apply_patch_with cancelled game patch_package ram t1) as [o2 t2] eqn:Hbody.
      exists o2, t2. split; [done|]. by eapply apply_patch_dirs_kept. }
  cbn [fst snd]. intros [= _ <-].
  rewrite rmtree_ignore_errors_dir by (by eapply dir_at_mono).
  rewrite lookup_rmtree_of, decide_False by done. apply Hk. by rewrite Hs1.
Qed.

Hypothesis scandir_perm : ∀ l, scandir_order l ≡ₚ l.

(** The [try] and [except] blocks of a run that stops before the loop,
    for an archive that holds nothing below "rollback". *)
Lemma stops_at_the_manifest c game patch_package ram t1 f_in ex :
  read_file true t1 patch_package = Ok f_in → extract_archive ram f_in = Ok ex →
  ex_rollback ex = fs_empty →
  (ex_manifest ex = ManifestMissing →
   apply_patch_with c game patch_package ram t1 = (Raise FileNotFoundError, t1)) ∧
  (ex_manifest ex = ManifestUnparsable →
   apply_patch_with c game patch_package ram t1 = (Raise JSONDecodeError, t1)).
Proof.
  intros Hread Hex Hrb. split; intros Hman.
  - unfold Model.apply_patch. rewrite try_body_unfold, Hread, Hex, Hman, Hrb.
    by rewrite rollback_files_empty.
  - unfold Model.apply_patch. rewrite try_body_unfold, Hread, Hex, Hman, Hrb.
    by rewrite rollback_files_empty.
Qed.

(** X6. A run of [apply_patch] that stops before the loop over the patch
    files.  When the decompressor cannot be built for the RAM limit,
    [apply_patch] raises what the constructor raised, and the package is
    not opened; when the package cannot be opened, it raises what [open]
    raised; when the archive has no manifest, or one that does not parse,
    it raises [FileNotFoundError] or the parse error.  In each case no
    patch file is applied and (the archive holding nothing below
    "rollback") the filesystem is left as it was, except that nothing is
    at "patch_tmp_applier" in the working directory any more. *)
Theorem stops_before_the_loop cwd game patch_package ram t0 :
  dir_at true t0 cwd → tree_shaped t0 → (∀ d, t0 !! scratch cwd ≠ Some (File d)) →
  let t1 := Whole.entered_apply cwd t0 in
  let left := Whole.rmtree_of t0 (scratch cwd) in
  (∀ e, zstd_decompressor ram = Some e →
     whole cwd game patch_package ram t0 = (Raise e, left)) ∧
  (zstd_decompressor ram = None →
     (∀ e, read_file true t1 patch_package = Raise e →
        whole cwd game patch_package ram t0 = (Raise e, left)) ∧
     (∀ f_in ex,
        read_file true t1 patch_package = Ok f_in → extract_archive ram f_in = Ok ex →
        ex_rollback ex = fs_empty →
        (ex_manifest ex = ManifestMissing →
         whole cwd game patch_package ram t0 = (Raise FileNotFoundError, left)) ∧
        (ex_manifest ex = ManifestUnparsable →
         whole cwd game patch_package ram t0 = (Raise JSONDecodeError, left)))).
Proof.
  intros Hcwd Hshape Hfile t1 left.
  destruct (scratch_for_apply_ready t0 cwd Hcwd Hshape Hfile) as (Hready & Hdir & Hsame).
  fold t1 in Hready, Hdir, Hsame.
  assert (Whole.rmtree_ignore_errors t1 (scratch cwd) = left) as Hgone
    by by apply scratch_gone.
  split; [|intros Hz; split].
  - intros e Hz. unfold Whole.apply_patch. rewrite Hready, Hz. cbn [fst snd]. by rewrite Hgone.
  - intros e Hread. unfold Whole.apply_patch. rewrite Hready, Hz.
    unfold Model.apply_patch. rewrite try_body_unfold, Hread.
    rewrite rollback_files_empty by done. cbn [restore target fst snd]. by rewrite Hgone.
  - intros f_in ex Hread Hex Hrb.
    destruct (stops_at_the_manifest cancelled game patch_package ram t1 f_in ex Hread Hex Hrb)
      as [Hmiss Hbad].
    split; intros Hman; unfold Whole.apply_patch; rewrite Hready, Hz.
    + rewrite (Hmiss Hman). cbn [fst snd]. by rewrite Hgone.
    + rewrite (Hbad Hman). cbn [fst snd]. by rewrite Hgone.
Qed.

(** X7. [apply_patch] looks at the cancel event once for every patch
    file, before its turn, and at no other moment: with [n] patch files in
    the package, the run depends on the event at the checks 0 to [n - 1]
    only (a package without patch files is validated as if the event were
    never set), and an event that is set at one of them keeps the run from
    returning normally.  Set at the first check, it makes the run raise
    [InterruptedError] before any patch file is applied: the filesystem is
    left as it was, except that nothing is at "patch_tmp_applier" in the
    working directory any more. *)
Theorem cancel_is_checked_per_patch_file cwd game patch_package ram t0 f_in ex :
  dir_at true t0 cwd → tree_shaped t0 → (∀ d, t0 !! scratch cwd ≠ Some (File d)) →
  zstd_decompressor ram = None →
  read_file true (Whole.entered_apply cwd t0) patch_package = Ok f_in →
  extract_archive ram f_in = Ok ex →
  let n := length (patch_files ex) in
  (∀ cancelled', (∀ i, i < n → cancelled' i = cancelled i) →
     whole_with cancelled' cwd game patch_package ram t0
     = whole cwd game patch_package ram t0) ∧
  (∀ k, k < n → cancelled k = true →
     (whole cwd game patch_package ram t0).1 ≠ Ok ()) ∧
  (0 < n → cancelled 0 = true →
   ∀ items, ex_manifest ex = ManifestLoaded items → ex_rollback ex = fs_empty →
     whole cwd game patch_package ram t0
     = (Raise InterruptedError, Whole.rmtree_of t0 (scratch cwd))).
Proof.
  intros Hcwd Hshape Hfile Hz Hread Hex n.
  destruct (scratch_for_apply_ready t0 cwd Hcwd Hshape Hfile) as (Hready & Hdir & Hsame).
  set (t1 := Whole.entered_apply cwd t0) in *.
  split_and!.
  - intros c2 Hagree. unfold Whole.apply_patch. rewrite Hready, Hz.
    unfold Model.apply_patch. rewrite !try_body_unfold, Hread, Hex.
    destruct (ex_manifest ex) as [| |items]; [done..|].
    rewrite (apply_entries_ext _ c2 cancelled); [done|].
    intros k Hk. apply Hagree. unfold n. lia.
  - intros k Hk Hc. unfold Whole.apply_patch. rewrite Hready, Hz. cbn [fst].
    unfold Model.apply_patch. rewrite try_body_unfold, Hread, Hex.
    assert (∀ e s, (let (r0, t) := restore game (rollback s)
                                     (rollback_files scandir_order s) (target s) in
                    match r0 with
                    | Ok _ => (Raise e, t)
                    | Raise e0 => (Raise e0, t)
                    | Astray => (Astray, t)
                    end).1 ≠ Ok ()) as Hfail.
    { intros e s. by destruct (restore _ _ _ _) as [[[]|e1|] t2]. }
    destruct (ex_manifest ex) as [| |items]; [apply Hfail..|].
    pose proof (apply_entries_cancelled detools_apply_patch cancelled game (patch_files ex) 0
                  (State t1 (ex_rollback ex)) k) as Hstop.
    destruct (Model.apply_entries detools_apply_patch cancelled game 0 (patch_files ex) _)
      as [[[]|e|] s1]; [|apply Hfail|done].
    cbn [fst] in Hstop. destruct Hstop; [lia|done..].
  - intros Hn Hc items Hman Hrb. unfold Whole.apply_patch. rewrite Hready, Hz.
    unfold Model.apply_patch. rewrite try_body_unfold, Hread, Hex, Hman, Hrb.
    unfold n in Hn.
    destruct (patch_files ex) as [|[name data] es] eqn:Hes; [cbn [length] in Hn; lia|].
    rewrite apply_entries_cons, Hc.
    rewrite rollback_files_empty by done. cbn [restore target fst snd].
    f_equal. by apply scratch_gone.
Qed.

End ApplyWhole.

(** * The further theorems at concrete inputs *)

Section MoreWitnesses.

Local Ltac by_decide := apply (bool_decide_unpack _); vm_compute; exact I.
Local Ltac by_run := vm_compute; reflexivity.
Local Ltac by_pair := apply pair_of_run; vm_compute; reflexivity.


(** [other_suffix_is_skipped] for a patch file named "a.txt", whose target
    "a" is there and is snapshotted. *)
Lemma other_suffix_is_skipped_witness :
  (Runs.turn "a.txt" "x" (State Runs.one_file fs_empty)).1 ≠ Astray ∧
  grows Runs.one_file
    (target (Runs.turn "a.txt" "x" (State Runs.one_file fs_empty)).2).
Proof.
  apply (other_suffix_is_skipped Toy.detools_apply_patch ["game"] "a.txt" "x"
           (State Runs.one_file fs_empty)
           (Runs.turn "a.txt" "x" (State Runs.one_file fs_empty)).1
           (Runs.turn "a.txt" "x" (State Runs.one_file fs_empty)).2).
  - by_decide.
  - by_decide.
  - by_decide.
  - apply surjective_pairing.
Defined.

(** [delta_needs_its_target] for a delta for "b" in a tree without "b". *)
Lemma delta_needs_its_target_witness :
  let run := Runs.turn "b.patch" "Dx" (State Runs.one_file fs_empty) in
  run.1 ≠ Ok () ∧ rollback run.2 = fs_empty ∧ grows Runs.one_file (target run.2) ∧
  (dir_at true Runs.one_file (parent (["game"] ++ entry_parts "b.patch")) →
   run.1 = Raise FileNotFoundError ∧ target run.2 = Runs.one_file).
Proof.
  intros run.
  apply (delta_needs_its_target Toy.detools_apply_patch ["game"] "b.patch" "Dx"
           Runs.one_file fs_empty run.1 run.2).
  - by_decide.
  - by_decide.
  - by_run.
  - by_run.
  - apply surjective_pairing.
Defined.



End MoreWitnesses.

(** * The theorems about the window at concrete inputs *)

Section WindowWitnesses.

Local Ltac by_decide := apply (bool_decide_unpack _); vm_compute; exact I.
Local Ltac by_run := vm_compute; reflexivity.

Lemma triple_eta {A B C : Type} (x : A * B * C) : x = (x.1.1, x.1.2, x.2).
Proof. by destruct x as [[??]?]. Qed.

Lemma triple_of_run {A B C : Type} (x : A * B * C) (a : A) :
  x.1.1 = a → x = (a, x.1.2, x.2).
Proof. destruct x as [[a' b] c]. cbn. by intros ->. Qed.

(** [scratch_name_is_overwritten] for a target "a" with a file "a.tmp"
    next to it. *)
Lemma scratch_name_is_overwritten_witness :
  ∃ r',
    Runs.turn "a.patch" "Dnew" (State Cases.bystander fs_empty)
    = (Ok (), State (<[["game"] ++ entry_parts "a.patch" := File "new"]>
                       (delete (add_suffix (["game"] ++ entry_parts "a.patch") ".tmp")
                          Cases.bystander)) r') ∧
    ∀ q d, r' !! q = Some (File d) → q = entry_parts "a.patch" ∧ d = "old".
Proof.
  apply (scratch_name_is_overwritten Toy.detools_apply_patch ["game"] "a.patch" "Dnew"
           Cases.bystander "old" "precious" "new").
  - by_decide.
  - by_decide.
  - by_run.
  - by_decide.
  - by_run.
  - by_run.
  - reflexivity.
Defined.

(** [loaded_config_has_the_defaults] for a file with two settings. *)
Lemma loaded_config_has_the_defaults_witness :
  is_Some (Gui.get_item "font_scale" (Gui.update Gui.defaults Desk.stored)) ∧
  is_Some (Gui.get_item "applier_ram_limit" (Gui.update Gui.defaults Desk.stored)).
Proof.
  apply (loaded_config_has_the_defaults (Desk.json_load Desk.stored) Desk.disk
           ["patch_config.json"]).
  by_run.
Defined.

(** [file_overrides_the_defaults] for the same file. *)
Lemma file_overrides_the_defaults_witness :
  ∃ c, Gui.load_config (Desk.json_load Desk.stored) Desk.disk ["patch_config.json"]
       = Gui.Loaded c ∧
       ∀ k, Gui.get_item k c
            = match Gui.get_item k Desk.stored with
              | Some v => Some v
              | None => Gui.get_item k Gui.defaults
              end.
Proof.
  apply (file_overrides_the_defaults (Desk.json_load Desk.stored) Desk.disk
           ["patch_config.json"] "saved").
  - by_run.
  - reflexivity.
  - by_decide.
Defined.

(** [window_closes_only_after_saving] for the example window. *)
Lemma window_closes_only_after_saving_witness :
  let out := Desk.close Desk.window in
  (out.1.1 = Gui.Destroyed →
     read_file true out.2 ["patch_config.json"] = Ok (Desk.json_dump out.1.2) ∧
     ∃ p, walk true Desk.disk [] ["patch_config.json"] = Ok p ∧
          ∀ q, q ≠ p → out.2 !! q = Desk.disk !! q) ∧
  (out.1.1 ≠ Gui.Destroyed → out.2 = Desk.disk) ∧
  (Desk.intvar_get (Gui.applier_ram_limit (Gui.vars Desk.window)) = None →
   out.1.1 ≠ Gui.Destroyed).
Proof.
  intros out.
  apply (window_closes_only_after_saving Desk.intvar_get Desk.json_dump true
           ["patch_config.json"] Desk.window Desk.disk).
  apply triple_eta.
Defined.

(** [saved_settings_come_back] for the example window. *)
Lemma saved_settings_come_back_witness :
  let out := Desk.close Desk.window in
  ∃ c',
    Gui.load_config (Desk.json_load out.1.2) out.2 ["patch_config.json"] = Gui.Loaded c' ∧
    Gui.get_item "creator_old_dir" c'
      = Some (Gui.JString (Gui.creator_old_dir (Gui.vars Desk.window))) ∧
    Gui.get_item "creator_new_dir" c'
      = Some (Gui.JString (Gui.creator_new_dir (Gui.vars Desk.window))) ∧
    Gui.get_item "creator_patch_file" c'
      = Some (Gui.JString (Gui.creator_patch_file (Gui.vars Desk.window))) ∧
    Gui.get_item "applier_game_dir" c'
      = Some (Gui.JString (Gui.applier_game_dir (Gui.vars Desk.window))) ∧
    Gui.get_item "applier_patch_file" c'
      = Some (Gui.JString (Gui.applier_patch_file (Gui.vars Desk.window))) ∧
    (∃ ram, Desk.intvar_get (Gui.applier_ram_limit (Gui.vars Desk.window)) = Some ram ∧
            Gui.get_item "applier_ram_limit" c' = Some (Gui.JInt ram)) ∧
    Gui.get_item "theme" c' = None ∧
    Gui.get_item "font_scale" c'
      = Some (default (Gui.JFloat "1.0")
                (Gui.get_item "font_scale" (Gui.app_config Desk.window))).
Proof.
  intros out.
  apply (saved_settings_come_back Desk.intvar_get Desk.json_dump (Desk.json_load out.1.2)
           true ["patch_config.json"] Desk.window Desk.disk out.1.2 out.2).
  - by_decide.
  - apply triple_of_run. by_run.
  - reflexivity.
Defined.

(** [only_finished_ends_a_task] for a started task and a user who keeps
    clicking. *)
Lemma only_finished_ends_a_task_witness :
  Gui.is_running_task
    (Gui.run Desk.intvar_get Desk.busy
       [Gui.ClickStart; Gui.ClickCancel true; Gui.WorkerPut (Gui.QLog "Scanning" "info");
        Gui.Tick; Gui.Edit Desk.no_ram; Gui.SelectTab "Apply Patch"]) = true.
Proof.
  apply (only_finished_ends_a_task Desk.intvar_get Desk.busy).
  - by_run.
  - by_decide.
  - by_decide.
Defined.

(** [unreadable_ram_limit_blocks_the_window] for the window with the RAM
    limit deleted, and a user who types it again. *)
Lemma unreadable_ram_limit_blocks_the_window_witness :
  let events := [Gui.Tick; Gui.Edit Desk.fields; Gui.ClickStart; Gui.Tick] in
  (Gui.start_task Desk.intvar_get Desk.cleared).2 = Gui.TclError ∧
  Gui.is_running_task
    (Gui.run Desk.intvar_get (Gui.start_task Desk.intvar_get Desk.cleared).1 events) = true ∧
  Gui.start_btn
    (Gui.run Desk.intvar_get (Gui.start_task Desk.intvar_get Desk.cleared).1 events) = false.
Proof.
  intros events.
  apply (unreadable_ram_limit_blocks_the_window Desk.intvar_get Desk.cleared events).
  - by_run.
  - by_run.
  - by_run.
  - by_decide.
  - by_decide.
Defined.

(** [one_task_at_a_time] for two tasks, one after the other. *)
Lemma one_task_at_a_time_witness :
  let w := foldl (Gui.happen Desk.intvar_get Desk.str_of_exception)
             (Gui.initial [] Desk.fields [], 0)
             [Gui.Ui Gui.ClickStart; Gui.Ui Gui.ClickStart; Gui.WorkerEnds Gui.Returned;
              Gui.Ui Gui.ClickStart; Gui.Ui Gui.Tick; Gui.Ui Gui.ClickStart] in
  w.2 ≤ 1 ∧ (w.2 = 1 → Gui.is_running_task w.1 = true).
Proof.
  apply (one_task_at_a_time Desk.intvar_get Desk.str_of_exception [] Desk.fields []).
  by_decide.
Defined.

End WindowWitnesses.

(** * The whole functions at concrete inputs *)

Section WholeWitnesses.

Local Ltac by_decide := apply (bool_decide_unpack _); vm_compute; exact I.
Local Ltac by_run := vm_compute; reflexivity.
Local Ltac by_pair := apply pair_of_run; vm_compute; reflexivity.
Local Ltac not_a_file := let d := fresh in intros d; vm_compute; discriminate.



(** [cancel_is_checked_per_file] in a working directory with a stale
    scratch directory: the event set all along, and set at the fourth
    check only. *)
Lemma cancel_is_checked_per_file_witness :
  Stale.create Cases.always Stale.trees
    = (Raise InterruptedError, Whole.rmtree_of Stale.trees ["patch_tmp_creator"]) ∧
  (Stale.create (Stale.at_check 3) Stale.trees).1 ≠ Ok () ∧
  (Stale.create (Stale.at_check 3) Stale.trees).2
    = Whole.rmtree_of Stale.trees ["patch_tmp_creator"] ∧
  Stale.create (Stale.at_check 5) Stale.trees = Stale.create Toy.never Stale.trees.
Proof.
  split_and!.
  - destruct (cancel_is_checked_per_file Toy.sha256_hexdigest Toy.detools_create_patch
                Toy.archive_bytes Toy.scandir_order Cases.always (λ l, reflexivity l)
                [] None ["old"] ["new"] ["out.pkg"] Stale.trees) as (_ & _ & Hfirst);
      [by_decide|not_a_file|].
    apply Hfirst; [by_decide|reflexivity].
  - destruct (cancel_is_checked_per_file Toy.sha256_hexdigest Toy.detools_create_patch
                Toy.archive_bytes Toy.scandir_order (Stale.at_check 3) (λ l, reflexivity l)
                [] None ["old"] ["new"] ["out.pkg"] Stale.trees) as (_ & Hset & _);
      [by_decide|not_a_file|].
    apply (Hset 3); [by_decide|reflexivity].
  - destruct (cancel_is_checked_per_file Toy.sha256_hexdigest Toy.detools_create_patch
                Toy.archive_bytes Toy.scandir_order (Stale.at_check 3) (λ l, reflexivity l)
                [] None ["old"] ["new"] ["out.pkg"] Stale.trees) as (_ & Hset & _);
      [by_decide|not_a_file|].
    apply (Hset 3); [by_decide|reflexivity].
  - destruct (cancel_is_checked_per_file Toy.sha256_hexdigest Toy.detools_create_patch
                Toy.archive_bytes Toy.scandir_order Toy.never (λ l, reflexivity l)
                [] None ["old"] ["new"] ["out.pkg"] Stale.trees) as (Hsame & _ & _);
      [by_decide|not_a_file|].
    apply Hsame. intros i Hi. unfold Stale.at_check, Toy.never.
    apply bool_decide_eq_false_2. intros ->. revert Hi. by_decide.
Defined.

(** [stops_before_the_loop] in a working directory with a stale scratch
    directory: a budget that is refused, a package that is not there, an
    archive without manifest and one whose manifest does not parse. *)
Lemma stops_before_the_loop_witness :
  let left := Whole.rmtree_of Stale.game ["patch_tmp_applier"] in
  Stale.apply Toy.never Stale.refuses ["nowhere.pkg"] Cases.passing Stale.game
    = (Raise ArchiveError, left) ∧
  Stale.apply Toy.never Stale.builds ["nowhere.pkg"] Cases.passing Stale.game
    = (Raise FileNotFoundError, left) ∧
  Stale.apply Toy.never Stale.builds ["out.pkg"] Cases.no_manifest Stale.game
    = (Raise FileNotFoundError, left) ∧
  Stale.apply Toy.never Stale.builds ["out.pkg"] Cases.bad_manifest Stale.game
    = (Raise JSONDecodeError, left).
Proof.
  intros left. split_and!.
  - destruct (stops_before_the_loop Toy.sha256_hexdigest Toy.detools_apply_patch
                (Runs.extract Cases.passing) Toy.scandir_order Toy.never Stale.refuses
                (λ l, reflexivity l) [] ["game"] ["nowhere.pkg"] 64 Stale.game)
      as [Hrefused _]; [by_decide|apply tree_shaped_check; by_decide|not_a_file|].
    by apply Hrefused.
  - destruct (stops_before_the_loop Toy.sha256_hexdigest Toy.detools_apply_patch
                (Runs.extract Cases.passing) Toy.scandir_order Toy.never Stale.builds
                (λ l, reflexivity l) [] ["game"] ["nowhere.pkg"] 64 Stale.game)
      as [_ Hbuilt]; [by_decide|apply tree_shaped_check; by_decide|not_a_file|].
    destruct (Hbuilt eq_refl) as [Hopen _]. apply Hopen. by_run.
  - destruct (stops_before_the_loop Toy.sha256_hexdigest Toy.detools_apply_patch
                (Runs.extract Cases.no_manifest) Toy.scandir_order Toy.never Stale.builds
                (λ l, reflexivity l) [] ["game"] ["out.pkg"] 64 Stale.game)
      as [_ Hbuilt]; [by_decide|apply tree_shaped_check; by_decide|not_a_file|].
    destruct (Hbuilt eq_refl) as [_ Hman].
    destruct (Hman "archive" Cases.no_manifest) as [Hmissing _];
      [by_run|reflexivity|reflexivity|].
    by apply Hmissing.
  - destruct (stops_before_the_loop Toy.sha256_hexdigest Toy.detools_apply_patch
                (Runs.extract Cases.bad_manifest) Toy.scandir_order Toy.never Stale.builds
                (λ l, reflexivity l) [] ["game"] ["out.pkg"] 64 Stale.game)
      as [_ Hbuilt]; [by_decide|apply tree_shaped_check; by_decide|not_a_file|].
    destruct (Hbuilt eq_refl) as [_ Hman].
    destruct (Hman "archive" Cases.bad_manifest) as [_ Hbad];
      [by_run|reflexivity|reflexivity|].
    by apply Hbad.
Defined.

(** [cancel_is_checked_per_patch_file] in a working directory with a
    stale scratch directory: the event set all along for a package with
    one patch file, set at the second check for a package with two, and
    set all along for a package without patch files. *)
Lemma cancel_is_checked_per_patch_file_witness :
  Stale.apply Cases.always Stale.builds ["out.pkg"] Cases.passing Stale.game
    = (Raise InterruptedError, Whole.rmtree_of Stale.game ["patch_tmp_applier"]) ∧
  (Stale.apply (Stale.at_check 1) Stale.builds ["out.pkg"] Runs.two_targets Stale.game).1
    ≠ Ok () ∧
  Stale.apply Cases.always Stale.builds ["out.pkg"] Cases.only_manifest Stale.game
    = Stale.apply Toy.never Stale.builds ["out.pkg"] Cases.only_manifest Stale.game.
Proof.
  split_and!.
  - destruct (cancel_is_checked_per_patch_file Toy.sha256_hexdigest Toy.detools_apply_patch
                (Runs.extract Cases.passing) Toy.scandir_order Cases.always Stale.builds
                (λ l, reflexivity l) [] ["game"] ["out.pkg"] 64 Stale.game "archive"
                Cases.passing) as (_ & _ & Hfirst);
      [by_decide|apply tree_shaped_check; by_decide|not_a_file|reflexivity|by_run
      |reflexivity|].
    apply (Hfirst ltac:(by_decide) eq_refl [("a", MInfo "new" 3)]); reflexivity.
  - destruct (cancel_is_checked_per_patch_file Toy.sha256_hexdigest Toy.detools_apply_patch
                (Runs.extract Runs.two_targets) Toy.scandir_order (Stale.at_check 1)
                Stale.builds (λ l, reflexivity l) [] ["game"] ["out.pkg"] 64 Stale.game
                "archive" Runs.two_targets) as (_ & Hset & _);
      [by_decide|apply tree_shaped_check; by_decide|not_a_file|reflexivity|by_run
      |reflexivity|].
    apply (Hset 1); [by_decide|reflexivity].
  - destruct (cancel_is_checked_per_patch_file Toy.sha256_hexdigest Toy.detools_apply_patch
                (Runs.extract Cases.only_manifest) Toy.scandir_order Toy.never Stale.builds
                (λ l, reflexivity l) [] ["game"] ["out.pkg"] 64 Stale.game "archive"
                Cases.only_manifest) as (Hsame & _ & _);
      [by_decide|apply tree_shaped_check; by_decide|not_a_file|reflexivity|by_run
      |reflexivity|].
    apply Hsame. intros i Hi. exfalso. revert Hi. by_decide.
Defined.

(** [apply_patch_keeps_directories] for a run that fails and is rolled
    back, in a working directory with a stale scratch directory: the
    game directory is still a directory. *)
Lemma apply_patch_keeps_directories_witness :
  Stale.game !! ["game"] = Some Dir ∧
  (Stale.apply Toy.never Stale.builds ["out.pkg"] Runs.twice_package Stale.game).1
    = Raise DetoolsError ∧
  (Stale.apply Toy.never Stale.builds ["out.pkg"] Runs.twice_package Stale.game).2
    !! ["game"] = Some Dir.
Proof.
  split_and!; [by_run|by_run|].
  apply (apply_patch_keeps_directories Toy.sha256_hexdigest Toy.detools_apply_patch
           (Runs.extract Runs.twice_package) Toy.scandir_order Toy.never Stale.builds
           [] ["game"] ["out.pkg"] 64 Stale.game
           (Stale.apply Toy.never Stale.builds ["out.pkg"] Runs.twice_package Stale.game).1).
  - by_decide.
  - apply surjective_pairing.
  - vm_compute. discriminate.
  - by_decide.
  - by_run.
Defined.

End WholeWitnesses.
